(** * HotColdLotto enclave engine: scoring, pricing, audit ledger, nonces and
    round life cycle, embedded from the TypeScript sources under [enclave/src].

    Conventions of the embedding.
    - A JavaScript [string] is a Rocq [string], a sequence of 8-bit characters.
      This is exact for the ASCII text the engine handles (decimal guesses, hex
      digests, identifiers); for such text [s.length], [s[i]] and [[...s]]
      are the length, the [i]-th character and the list of characters.
    - A [bigint] is a [Z].  A [number] that holds a count, an index or a time
      stamp is a [nat], an [N] or a [Z] as noted at each use: the embedding
      has whole numbers only.  Where ethers packs a [number] it throws on one
      above [Number.MAX_SAFE_INTEGER]; [packValue] does so for the numbers
      the signing functions pack, and the statements on audit entries altered
      after the fact ask that their index and time stamp be within it.
    - An [async] function is embedded twice: in [Game] and [Audit] as one
      run from call to return, which is what it does when no other call
      runs during its awaits, and in [Async] cut at its awaits, for calls
      that overlap.
    - A thrown exception is an [Exception] value; code that can throw returns a
      [Result], and code that also mutates module-level state runs in the
      monad [M], which returns the state reached when the exception was
      raised: JavaScript rolls nothing back.
    - [null] is [None].  An array of [string | null] is a [list (option ascii)].
    - The request handlers of [index.ts] run the engine inside their
      [try]/[catch] and produce a [Reply].  The Solidity of [contracts/src]
      comes last: a call returns an [Outcome] and, when it reverts, leaves the
      storage it found. *)

From Stdlib Require Import ZArith NArith List Ascii String Lia Bool DecimalString Sorted.
From Stdlib Require DecimalPos DecimalFacts.
From stdpp Require Import base tactics option list gmap strings.
Import ListNotations.
Local Open Scope Z_scope.

(** ** JavaScript helpers *)

(** [Array.prototype.indexOf]: the first index holding [x]; [None] stands for
    the result [-1]. *)
Fixpoint indexOf {A} `{EqDecision A} (x : A) (l : list A) : option nat :=
  match l with
  | [] => None
  | y :: l' => if decide (y = x) then Some 0%nat else S <$> indexOf x l'
  end.

(** What the engine can throw.  The first five are [new Error(msg)] with the
    message given; the others come from the platform and from ethers. *)
Inductive Exception :=
| RoundNotFound          (* "Round not found" *)
| RoundNotActive         (* "Round is not active" *)
| InsufficientBuyIn      (* "Insufficient buy-in" *)
| InvalidGuessFormat     (* "Target and guess must be 12 digits" *)
| SignerNotInitialized   (* "Signer not initialized" *)
| BigIntSyntaxError      (* SyntaxError: Cannot convert ... to a BigInt *)
| EncodingError          (* ethers: value out of range, invalid address *)
| UndefinedTierDef.      (* TypeError: reading [multiplier] of undefined *)

Inductive Result (A : Type) :=
| Ok (a : A)
| Throw (e : Exception).
Arguments Ok {A} a.
Arguments Throw {A} e.

#[global] Instance Exception_eq_dec : EqDecision Exception.
Proof. solve_decision. Defined.

(** ** types.ts *)

Inductive PriceTier := Base | Warm | Hot | Scorching.

#[global] Instance PriceTier_eq_dec : EqDecision PriceTier.
Proof. solve_decision. Defined.

(** [multiplier] is a [number] that [computeBuyIn] hands to [BigInt], which
    throws a RangeError on a number that is not whole.  The record holds
    whole multipliers, as those of [DEFAULT_PRICING_CONFIG] are; a
    configuration with a fractional multiplier is not among its values. *)
Module TierDef.
Record t := mk { tier : PriceTier; maxDistance : Z; multiplier : Z }.
End TierDef.

Module PricingConfig.
Record t := mk { baseBuyIn : Z; tiers : list TierDef.t }.
End PricingConfig.

Definition DEFAULT_PRICING_CONFIG : PricingConfig.t :=
  PricingConfig.mk 10000000000000000
    [ TierDef.mk Base 999999999999 1;
      TierDef.mk Warm 1000 2;
      TierDef.mk Hot 100 5;
      TierDef.mk Scorching 10 10 ].

Inductive RoundStatus := Active | Completed.

#[global] Instance RoundStatus_eq_dec : EqDecision RoundStatus.
Proof. solve_decision. Defined.

Module HintResult.
Record t := mk {
  digitsInPlace : nat;
  digitsCorrect : nat;
  numericDistance : Z;
  isExactMatch : bool;
  priceTier : PriceTier }.
End HintResult.

(** ** Bytes, digests and ethers' packed encoding *)

Abbreviation byte := Byte.byte.
Abbreviation Hash := (list Byte.byte).

#[global] Instance byte_eq_dec : EqDecision Byte.byte := Byte.byte_eq_dec.

Definition byte_of_Z (z : Z) : byte :=
  match Byte.of_N (Z.to_N (z mod 256)) with
  | Some b => b
  | None => Byte.x00
  end.

(** Big-endian bytes of [v], [len] of them. *)
Fixpoint bigEndian (len : nat) (v : Z) : list byte :=
  match len with
  | O => []
  | S n => bigEndian n (v / 256) ++ [byte_of_Z v]
  end.

Definition ZERO_HASH : Hash := repeat Byte.x00 32.

(** [Number.MAX_SAFE_INTEGER]. *)
Definition MAX_SAFE_INTEGER : Z := 2 ^ 53 - 1.

(** A [number] that ethers packs as a [uint256]: a safe integer that is not
    negative. *)
Definition isSafeUint (v : Z) : bool := (0 <=? v) && (v <=? MAX_SAFE_INTEGER).

(** The values [solidityPacked] is given.  A [uint] built from a [bigint]
    ([SolUint]) must be non-negative and fit its width; one built from a
    [number] ([SolNumber]: a nonce, a length, a digit count) must besides be a
    safe integer, or ethers throws ("overflow").  A [bytes32] is a digest or
    the 32 random bytes of a salt: the engine packs nothing else under that
    type, and statements about other byte strings say that they have 32
    bytes.  An [address] is parsed and validated by ethers ([getAddress]
    below). *)
Inductive SolValue :=
| SolUint (bytes : nat) (v : Z)
| SolNumber (bytes : nat) (v : Z)
| SolString (s : string)
| SolBytes32 (h : Hash)
| SolAddress (a : string).

Inductive JsonValue :=
| JString (s : string)
| JNumber (n : Z)
| JBool (b : bool).

(** A signing wallet of ethers: its address and its (deterministic)
    [signMessage]. *)
Record Wallet := { address : string; signMessage : list byte -> string }.

(** What the engine takes from the platform and from ethers:
    - [keccak256], the digest of a byte string;
    - [JSON.stringify] on the payload objects of the audit log;
    - [BigInt(s)] for a string [s] that is not a plain run of decimal digits
      (a sign, a radix prefix, surrounding blanks; [None] is a SyntaxError);
    - ethers' parsing of an address ([None]: it throws), and its two wallet
      constructors ([None]: they throw). *)
Class Platform := {
  keccak256 : list byte -> Hash;
  JSON_stringify : list (string * JsonValue) -> string;
  BigInt_literal : string -> option Z;
  getAddress : string -> option (list byte);
  Wallet_new : string -> option Wallet;
  Wallet_fromPhrase : string -> option Wallet }.

Definition hexDigit (n : Z) : ascii :=
  ascii_of_nat (Z.to_nat (if n <? 10 then 48 + n else 87 + n)).

(** [0x] followed by two lower-case hex digits per byte. *)
Definition hexlify (b : list byte) : string :=
  ("0x" +:+ string_of_list_ascii
     (flat_map (fun x => let n := Z.of_N (Byte.to_N x) in
                         [hexDigit (n / 16); hexDigit (n mod 16)]) b))%string.

(** [bigint.prototype.toString()]. *)
Definition toString (z : Z) : string :=
  DecimalString.NilZero.string_of_int (Z.to_int z).

Section WithPlatform.
Context `{Platform}.

Definition packValue (v : SolValue) : Result (list byte) :=
  match v with
  | SolUint len v =>
      if (0 <=? v) && (v <? 256 ^ Z.of_nat len) then Ok (bigEndian len v)
      else Throw EncodingError
  | SolNumber len v =>
      if (0 <=? v) && (v <=? MAX_SAFE_INTEGER) && (v <? 256 ^ Z.of_nat len)
      then Ok (bigEndian len v)
      else Throw EncodingError
  | SolString s => Ok (list_byte_of_string s)
  | SolBytes32 h => Ok h
  | SolAddress a =>
      match getAddress a with
      | Some b => Ok b
      | None => Throw EncodingError
      end
  end.

Fixpoint solidityPacked (vs : list SolValue) : Result (list byte) :=
  match vs with
  | [] => Ok []
  | v :: vs' =>
      match packValue v with
      | Ok b =>
          match solidityPacked vs' with
          | Ok bs => Ok (b ++ bs)
          | Throw e => Throw e
          end
      | Throw e => Throw e
      end
  end.

Definition solidityPackedKeccak256 (vs : list SolValue) : Result Hash :=
  match solidityPacked vs with
  | Ok b => Ok (keccak256 b)
  | Throw e => Throw e
  end.

End WithPlatform.

(** ** pricing.ts *)

Module Pricing.
Import TierDef PricingConfig.

Definition TIER_ORDER : list PriceTier := [Base; Warm; Hot; Scorching].

Definition tierIndex (tier : PriceTier) : Z :=
  match indexOf tier TIER_ORDER with
  | Some i => Z.of_nat i
  | None => -1
  end.

(** The comparator handed to [sort]. *)
Definition compareMaxDistance (a b : TierDef.t) : Z :=
  if maxDistance a <? maxDistance b then -1
  else if maxDistance a >? maxDistance b then 1
  else 0.

(** [Array.prototype.sort] is stable; a stable insertion sort yields the same
    array for this comparator. *)
Fixpoint insertTier (x : TierDef.t) (l : list TierDef.t) : list TierDef.t :=
  match l with
  | [] => [x]
  | y :: l' =>
      if compareMaxDistance x y <=? 0 then x :: y :: l' else y :: insertTier x l'
  end.

Definition sortTiers (l : list TierDef.t) : list TierDef.t :=
  foldr insertTier [] l.

Definition determinePriceTier (numericDistance : Z) (config : PricingConfig.t)
  : PriceTier :=
  match List.find (fun t => numericDistance <=? maxDistance t)
                  (sortTiers (tiers config)) with
  | Some t => tier t
  | None => Base
  end.

(** [config.tiers.find(...)!] is [undefined] when no entry carries the tier;
    reading [.multiplier] then throws. *)
Definition computeBuyIn (numericDistance : Z) (config : PricingConfig.t)
  : Result Z :=
  let tier0 := determinePriceTier numericDistance config in
  match List.find (fun t => bool_decide (tier t = tier0)) (tiers config) with
  | Some tierDef => Ok (baseBuyIn config * multiplier tierDef)
  | None => Throw UndefinedTierDef
  end.

Definition shouldUpdatePrice (currentTier : PriceTier) (newDistance : Z)
    (config : PricingConfig.t) : bool :=
  let newTier := determinePriceTier newDistance config in
  tierIndex newTier >? tierIndex currentTier.

Definition getMultiplier (tier0 : PriceTier) (config : PricingConfig.t) : Z :=
  match List.find (fun t => bool_decide (tier t = tier0)) (tiers config) with
  | Some t => multiplier t
  | None => 1
  end.

End Pricing.

(** ** game.ts: the scoring function *)

Module Scoring.
Import HintResult.
Section WithPlatform.
Context `{Platform}.

(** A decimal digit. *)
Definition isDigit (c : ascii) : bool :=
  let n := Z.of_nat (nat_of_ascii c) in (48 <=? n) && (n <=? 57).

(** The value of a run of decimal digits, read from the left. *)
Fixpoint BigInt_digits (acc : Z) (s : list ascii) : Z :=
  match s with
  | [] => acc
  | c :: s' => BigInt_digits (10 * acc + (Z.of_nat (nat_of_ascii c) - 48)) s'
  end.

(** [BigInt(s)]: a run of decimal digits (the empty one included) is read in
    base 10, leading zeros and all; any other string is left to the platform.
    [None] stands for the SyntaxError. *)
Definition BigInt (s : string) : option Z :=
  if forallb isDigit (list_ascii_of_string s)
  then Some (BigInt_digits 0 (list_ascii_of_string s))
  else BigInt_literal s.

(** One iteration of the bulls loop.  [target[i] === guess[i]] compares two
    characters, or [undefined] with [undefined] past the end.  The writes are
    within bounds (both arrays have 12 cells and [i < 12]). *)
Definition bullsStep (target guess : list ascii)
    (st : nat * list (option ascii) * list (option ascii)) (i : nat)
  : nat * list (option ascii) * list (option ascii) :=
  let '(digitsInPlace, targetRemaining, guessRemaining) := st in
  if decide (target !! i = guess !! i)
  then (S digitsInPlace, <[i:=None]> targetRemaining, <[i:=None]> guessRemaining)
  else st.

(** One iteration of the cows loop: skip a [null] cell, otherwise look the
    character up in [targetRemaining] and cross out the first cell found. *)
Definition cowsStep (guessRemaining : list (option ascii))
    (st : nat * list (option ascii)) (i : nat) : nat * list (option ascii) :=
  let '(digitsCorrect, targetRemaining) := st in
  match guessRemaining !! i with
  | Some (Some c) =>
      match indexOf (Some c) targetRemaining with
      | Some idx => (S digitsCorrect, <[idx:=None]> targetRemaining)
      | None => st
      end
  | _ => st
  end.

Definition bullsLoop (target guess : list ascii)
  : nat * list (option ascii) * list (option ascii) :=
  fold_left (bullsStep target guess) (seq 0 12)
            (0%nat, Some <$> target, Some <$> guess).

Definition cowsLoop (guessRemaining targetRemaining : list (option ascii))
  : nat * list (option ascii) :=
  fold_left (cowsStep guessRemaining) (seq 0 12) (0%nat, targetRemaining).

Definition calculateDistance (target guess : string)
    (config : PricingConfig.t) : Result HintResult.t :=
  if negb (String.length target =? 12)%nat || negb (String.length guess =? 12)%nat
  then Throw InvalidGuessFormat
  else
    let t := list_ascii_of_string target in
    let g := list_ascii_of_string guess in
    let '(digitsInPlace, targetRemaining, guessRemaining) := bullsLoop t g in
    let '(digitsCorrect, _) := cowsLoop guessRemaining targetRemaining in
    match BigInt target, BigInt guess with
    | Some bt, Some bg =>
        let numericDistance := if bt >? bg then bt - bg else bg - bt in
        Ok {| digitsInPlace := digitsInPlace;
              digitsCorrect := digitsCorrect;
              numericDistance := numericDistance;
              isExactMatch := (digitsInPlace =? 12)%nat;
              priceTier := Pricing.determinePriceTier numericDistance config |}
    | _, _ => Throw BigIntSyntaxError
    end.

End WithPlatform.
End Scoring.

(** ** types.ts: audit and round records *)

Inductive AuditEntryType := RoundStart | Guess | Hint | PriceChange | Winner.

#[global] Instance AuditEntryType_eq_dec : EqDecision AuditEntryType.
Proof. solve_decision. Defined.

(** The enum's string values. *)
Definition AuditEntryType_text (t : AuditEntryType) : string :=
  match t with
  | RoundStart => "ROUND_START"
  | Guess => "GUESS"
  | Hint => "HINT"
  | PriceChange => "PRICE_CHANGE"
  | Winner => "WINNER"
  end.

Definition PriceTier_text (t : PriceTier) : string :=
  match t with
  | Base => "base"
  | Warm => "warm"
  | Hot => "hot"
  | Scorching => "scorching"
  end.

Module AuditEntry.
Record t := mk {
  index : nat;
  type : AuditEntryType;
  roundId : string;
  data : string;
  timestamp : N;
  previousHash : Hash;
  hash : Hash }.
End AuditEntry.

Module AuditTrail.
Record t := mk {
  roundId : string;
  entries : list AuditEntry.t;
  merkleRoot : option Hash }.
End AuditTrail.

Module GuessRecord.
Record t := mk {
  player : string;
  guess : string;
  hint : HintResult.t;
  buyInPaid : Z;
  timestamp : N }.
End GuessRecord.

Module RoundState.
Record t := mk {
  id : string;
  target : string;
  salt : list byte;
  commitmentHash : Hash;
  baseBuyIn : Z;
  currentBuyIn : Z;
  currentTier : PriceTier;
  pool : Z;
  guesses : list GuessRecord.t;
  status : RoundStatus;
  winner : option string;
  startTimestamp : N;
  endTimestamp : option N }.
End RoundState.

Module SignedStartRound.
Record t := mk {
  roundId : string;
  commitmentHash : Hash;
  baseBuyIn : string;
  nonce : Z;
  signature : string }.
End SignedStartRound.

Module SignedHint.
Record t := mk {
  roundId : string;
  player : string;
  digitsCorrect : nat;
  digitsInPlace : nat;
  numericDistance : string;
  nonce : Z;
  signature : string }.
End SignedHint.

Module SignedPriceUpdate.
Record t := mk {
  roundId : string;
  newBuyIn : string;
  nonce : Z;
  signature : string }.
End SignedPriceUpdate.

Module SignedWinnerDeclaration.
Record t := mk {
  roundId : string;
  winner : string;
  nonce : Z;
  signature : string }.
End SignedWinnerDeclaration.

Module SignedAuditRoot.
Record t := mk {
  roundId : string;
  merkleRoot : Hash;
  entryCount : nat;
  nonce : Z;
  signature : string }.
End SignedAuditRoot.

(** ** Module-level state and the monad of the engine *)

(** The module-level variables of game.ts ([rounds], [activeRoundId]),
    audit.ts ([trails]) and crypto.ts ([signer], [nonceCounter]), together with
    the wall clock: [clock k] is what the [k]-th call of [Date.now()] returns
    and [ticks] counts the calls made so far. *)
Record State := mkState {
  rounds : gmap string RoundState.t;
  activeRoundId : option string;
  trails : gmap string AuditTrail.t;
  signer : option Wallet;
  nonceCounter : Z;
  clock : nat -> N;
  ticks : nat }.

Definition set_rounds (f : gmap string RoundState.t -> gmap string RoundState.t)
    (st : State) : State :=
  mkState (f (rounds st)) (activeRoundId st) (trails st) (signer st)
          (nonceCounter st) (clock st) (ticks st).

Definition set_activeRoundId (a : option string) (st : State) : State :=
  mkState (rounds st) a (trails st) (signer st) (nonceCounter st) (clock st)
          (ticks st).

Definition set_trails (f : gmap string AuditTrail.t -> gmap string AuditTrail.t)
    (st : State) : State :=
  mkState (rounds st) (activeRoundId st) (f (trails st)) (signer st)
          (nonceCounter st) (clock st) (ticks st).

Definition set_signer (w : option Wallet) (st : State) : State :=
  mkState (rounds st) (activeRoundId st) (trails st) w (nonceCounter st)
          (clock st) (ticks st).

Definition set_nonceCounter (n : Z) (st : State) : State :=
  mkState (rounds st) (activeRoundId st) (trails st) (signer st) n (clock st)
          (ticks st).

Definition set_ticks (n : nat) (st : State) : State :=
  mkState (rounds st) (activeRoundId st) (trails st) (signer st)
          (nonceCounter st) (clock st) n.

(** The state a freshly loaded engine starts from, for a given wall clock. *)
Definition initialState (clock0 : nat -> N) : State :=
  mkState ∅ None ∅ None 0 clock0 0.

Definition M (A : Type) : Type := State -> Result A * State.

Definition ret {A} (a : A) : M A := fun st => (Ok a, st).

Definition throw {A} (e : Exception) : M A := fun st => (Throw e, st).

Definition bind {A B} (m : M A) (k : A -> M B) : M B :=
  fun st =>
    match m st with
    | (Ok a, st') => k a st'
    | (Throw e, st') => (Throw e, st')
    end.

Definition liftResult {A} (r : Result A) : M A :=
  fun st => (r, st).

Definition gets {A} (f : State -> A) : M A := fun st => (Ok (f st), st).

Definition modify (f : State -> State) : M unit := fun st => (Ok tt, f st).

Declare Scope js_scope.
Delimit Scope js_scope with js.
Notation "x <- y ;; z" := (bind y (fun x => z))
  (at level 20, y at level 99, z at level 200) : js_scope.
Notation "y ;; z" := (bind y (fun _ => z))
  (at level 100, z at level 200, right associativity) : js_scope.
Local Open Scope js_scope.

(** [Date.now()]. *)
Definition Date_now : M N :=
  fun st => (Ok (clock st (ticks st)), set_ticks (S (ticks st)) st).

(** ** crypto.ts *)

Module Crypto.
Section WithPlatform.
Context `{Platform}.

(** [n++] on the number [n]: exact below [2^53]; at [2^53] the sum is not
    representable and rounds back to [2^53].  (The counter starts at 0 and is
    only ever incremented or reset, so it holds no other value.) *)
Definition number_succ (n : Z) : Z := if n <? 2 ^ 53 then n + 1 else n.

(** [Wallet.fromPhrase] and [new Wallet] throw on an invalid phrase or key,
    before either assignment. *)
Definition initSignerFromMnemonic (mnemonic : string) : M Wallet :=
  match Wallet_fromPhrase mnemonic with
  | Some w =>
      modify (set_signer (Some w)) ;;
      modify (set_nonceCounter 0) ;;
      ret w
  | None => throw EncodingError
  end.

Definition initSigner (privateKey : string) : M Wallet :=
  match Wallet_new privateKey with
  | Some w =>
      modify (set_signer (Some w)) ;;
      modify (set_nonceCounter 0) ;;
      ret w
  | None => throw EncodingError
  end.

Definition getSigner : M Wallet :=
  fun st =>
    match signer st with
    | Some w => (Ok w, st)
    | None => (Throw SignerNotInitialized, st)
    end.

Definition getNextNonce : M Z :=
  fun st =>
    (Ok (nonceCounter st), set_nonceCounter (number_succ (nonceCounter st)) st).

(** The value of a byte string read as a big-endian numeral
    ([BigInt("0x" + bytes.toString("hex"))]). *)
Definition bytesValue (b : list byte) : Z :=
  fold_left (fun acc x => 256 * acc + Z.of_N (Byte.to_N x)) b 0.

Definition padStart (len : nat) (c : ascii) (s : string) : string :=
  (string_of_list_ascii (repeat c (len - String.length s)) +:+ s)%string.

(** [generateTarget()], given the results of its two [randomBytes] calls.
    The salt is kept as its 32 bytes rather than as their hex text. *)
Definition generateTarget (random8 random32 : list byte) : string * list byte :=
  let num := bytesValue random8 mod 1000000000000 in
  let target := padStart 12 "0"%char (toString num) in
  (target, random32).

Definition computeCommitment (target roundId : string) (salt : list byte)
  : Result Hash :=
  solidityPackedKeccak256 [SolString target; SolString roundId; SolBytes32 salt].

Definition signStartRound (roundId : string) (commitmentHash : Hash)
    (baseBuyIn : Z) (nonce : Z) : M string :=
  w <- getSigner ;;
  messageHash <- liftResult (solidityPackedKeccak256
    [SolString roundId; SolBytes32 commitmentHash; SolUint 32 baseBuyIn;
     SolNumber 32 nonce]) ;;
  ret (signMessage w messageHash).

Definition signHint (roundId player : string) (digitsCorrect digitsInPlace : nat)
    (numericDistance : Z) (nonce : Z) : M string :=
  w <- getSigner ;;
  messageHash <- liftResult (solidityPackedKeccak256
    [SolString roundId; SolAddress player;
     SolNumber 1 (Z.of_nat digitsCorrect); SolNumber 1 (Z.of_nat digitsInPlace);
     SolUint 32 numericDistance; SolNumber 32 nonce]) ;;
  ret (signMessage w messageHash).

Definition signPriceUpdate (roundId : string) (newBuyIn : Z) (nonce : Z)
  : M string :=
  w <- getSigner ;;
  messageHash <- liftResult (solidityPackedKeccak256
    [SolString roundId; SolUint 32 newBuyIn; SolNumber 32 nonce]) ;;
  ret (signMessage w messageHash).

Definition signWinner (roundId winner : string) (nonce : Z) : M string :=
  w <- getSigner ;;
  messageHash <- liftResult (solidityPackedKeccak256
    [SolString roundId; SolAddress winner; SolNumber 32 nonce]) ;;
  ret (signMessage w messageHash).

Definition signAuditRoot (roundId : string) (merkleRoot : Hash)
    (entryCount : nat) (nonce : Z) : M string :=
  w <- getSigner ;;
  messageHash <- liftResult (solidityPackedKeccak256
    [SolString roundId; SolBytes32 merkleRoot;
     SolNumber 32 (Z.of_nat entryCount); SolNumber 32 nonce]) ;;
  ret (signMessage w messageHash).

End WithPlatform.
End Crypto.

(** ** audit.ts *)

Module Audit.
Import AuditEntry AuditTrail.
Section WithPlatform.
Context `{Platform}.

(** The bytes hashed for an entry: [solidityPacked] of
    [uint256 index, string type, string roundId, string data,
     uint256 timestamp, bytes32 previousHash].  In [addAuditEntry] the index
    is an array length and the time stamp is [Date.now()], both within
    [MAX_SAFE_INTEGER], so ethers packs them and the call never throws.  In
    [verifyChainIntegrity] they are read from the stored entry: on an entry
    overwritten with a number beyond that bound ethers throws, and these
    bytes are then not what the code computes (see [TamperFacts.packable]). *)
Definition entryPreimage (index : nat) (type : AuditEntryType)
    (roundId data : string) (timestamp : N) (previousHash : Hash) : list byte :=
  bigEndian 32 (Z.of_nat index)
  ++ list_byte_of_string (AuditEntryType_text type)
  ++ list_byte_of_string roundId
  ++ list_byte_of_string data
  ++ bigEndian 32 (Z.of_N timestamp)
  ++ previousHash.

Definition entryHash (index : nat) (type : AuditEntryType)
    (roundId data : string) (timestamp : N) (previousHash : Hash) : Hash :=
  keccak256 (entryPreimage index type roundId data timestamp previousHash).

(** [solidityPackedKeccak256(["bytes32", "bytes32"], [left, right])]. *)
Definition hashPair (l r : Hash) : Hash := keccak256 (l ++ r).

Definition getOrCreateTrail (roundId : string) : M AuditTrail.t :=
  fun st =>
    match trails st !! roundId with
    | Some trail => (Ok trail, st)
    | None =>
        let trail := AuditTrail.mk roundId [] None in
        (Ok trail, set_trails (insert roundId trail) st)
    end.

(** [trail.entries[index - 1].hash] for [index > 0], else the sentinel.  The
    cell read exists, since [index] is the length of the array. *)
Definition previousHashAt (entries : list AuditEntry.t) (index : nat) : Hash :=
  if (0 <? index)%nat then
    match entries !! (index - 1)%nat with
    | Some e => hash e
    | None => ZERO_HASH
    end
  else ZERO_HASH.

Definition addAuditEntry (roundId : string) (type : AuditEntryType)
    (data : list (string * JsonValue)) : M AuditEntry.t :=
  trail <- getOrCreateTrail roundId ;;
  let index := length (entries trail) in
  let previousHash := previousHashAt (entries trail) index in
  timestamp <- Date_now ;;
  let dataStr := JSON_stringify data in
  let hash := entryHash index type roundId dataStr timestamp previousHash in
  let entry := AuditEntry.mk index type roundId dataStr timestamp previousHash hash in
  modify (set_trails (insert roundId
    (AuditTrail.mk (AuditTrail.roundId trail) (entries trail ++ [entry]) None))) ;;
  ret entry.

(** The padding loop: while there is more than one leaf and the length is
    not a power of two ([len & (len - 1)] is not 0), push the sentinel.  The
    loop makes fewer than [length leaves] turns (see [padLoop_enough_fuel]). *)
Fixpoint padLoop (fuel : nat) (leaves : list Hash) : list Hash :=
  match fuel with
  | O => leaves
  | S fuel' =>
      if (1 <? length leaves)%nat
         && negb (Nat.land (length leaves) (length leaves - 1) =? 0)%nat
      then padLoop fuel' (leaves ++ [ZERO_HASH])
      else leaves
  end.

(** The inner [for] loop: one level of the tree, two leaves at a time. *)
Fixpoint nextLevel (leaves : list Hash) : list Hash :=
  match leaves with
  | [] => []
  | l :: rest =>
      match rest with
      | [] => [hashPair l ZERO_HASH]
      | r :: rest' => hashPair l r :: nextLevel rest'
      end
  end.

(** The outer [while (leaves.length > 1)] loop; every turn at least halves
    the length, so [length leaves] turns are enough. *)
Fixpoint reduceLoop (fuel : nat) (leaves : list Hash) : list Hash :=
  match fuel with
  | O => leaves
  | S fuel' =>
      if (1 <? length leaves)%nat then reduceLoop fuel' (nextLevel leaves)
      else leaves
  end.

(** The root computed from the entry hashes (the array is not empty here). *)
Definition merkleRootOf (hashes : list Hash) : Hash :=
  let leaves := padLoop (length hashes) hashes in
  let leaves := reduceLoop (length leaves) leaves in
  match leaves with
  | root :: _ => root
  | [] => ZERO_HASH
  end.

Definition computeMerkleRoot (roundId : string) : M Hash :=
  trail <- getOrCreateTrail roundId ;;
  if (length (entries trail) =? 0)%nat then ret ZERO_HASH
  else
    let root := merkleRootOf (map hash (entries trail)) in
    modify (set_trails (insert roundId
      (AuditTrail.mk (AuditTrail.roundId trail) (entries trail) (Some root)))) ;;
    ret root.

Definition getSignedAuditRoot (roundId : string) : M SignedAuditRoot.t :=
  merkleRoot <- computeMerkleRoot roundId ;;
  trail <- getOrCreateTrail roundId ;;
  let entryCount := length (entries trail) in
  nonce <- Crypto.getNextNonce ;;
  signature <- Crypto.signAuditRoot roundId merkleRoot entryCount nonce ;;
  ret (SignedAuditRoot.mk roundId merkleRoot entryCount nonce signature).

Definition getAuditTrail (roundId : string) : M AuditTrail.t :=
  getOrCreateTrail roundId.

(** The loop of [verifyChainIntegrity] over the indices still to visit.  Every
    index visited is below the length, so the cell read exists. *)
Fixpoint verifyFrom (entries : list AuditEntry.t) (indices : list nat) : bool :=
  match indices with
  | [] => true
  | i :: indices' =>
      match entries !! i with
      | None => verifyFrom entries indices'
      | Some entry =>
          let expectedPrev := previousHashAt entries i in
          if negb (bool_decide (previousHash entry = expectedPrev)) then false
          else
            let expectedHash :=
              entryHash (index entry) (type entry) (AuditEntry.roundId entry)
                        (data entry) (timestamp entry) (previousHash entry) in
            if negb (bool_decide (hash entry = expectedHash)) then false
            else verifyFrom entries indices'
      end
  end.

Definition verifyEntries (entries : list AuditEntry.t) : bool :=
  verifyFrom entries (seq 0 (length entries)).

Definition verifyChainIntegrity (roundId : string) : M bool :=
  trail <- getOrCreateTrail roundId ;;
  ret (verifyEntries (entries trail)).

End WithPlatform.
End Audit.

(** ** game.ts: rounds *)

Module Game.
Import RoundState.
Section WithPlatform.
Context `{Platform}.

(** Assignments to the fields of a round object. *)
Definition push_guess (g : GuessRecord.t) (r : RoundState.t) : RoundState.t :=
  RoundState.mk (id r) (target r) (salt r) (commitmentHash r) (baseBuyIn r)
    (currentBuyIn r) (currentTier r) (pool r) (guesses r ++ [g]) (status r)
    (winner r) (startTimestamp r) (endTimestamp r).

Definition set_pool (p : Z) (r : RoundState.t) : RoundState.t :=
  RoundState.mk (id r) (target r) (salt r) (commitmentHash r) (baseBuyIn r)
    (currentBuyIn r) (currentTier r) p (guesses r) (status r)
    (winner r) (startTimestamp r) (endTimestamp r).

Definition set_currentTier (t : PriceTier) (r : RoundState.t) : RoundState.t :=
  RoundState.mk (id r) (target r) (salt r) (commitmentHash r) (baseBuyIn r)
    (currentBuyIn r) t (pool r) (guesses r) (status r)
    (winner r) (startTimestamp r) (endTimestamp r).

Definition set_currentBuyIn (b : Z) (r : RoundState.t) : RoundState.t :=
  RoundState.mk (id r) (target r) (salt r) (commitmentHash r) (baseBuyIn r)
    b (currentTier r) (pool r) (guesses r) (status r)
    (winner r) (startTimestamp r) (endTimestamp r).

Definition set_status (s : RoundStatus) (r : RoundState.t) : RoundState.t :=
  RoundState.mk (id r) (target r) (salt r) (commitmentHash r) (baseBuyIn r)
    (currentBuyIn r) (currentTier r) (pool r) (guesses r) s
    (winner r) (startTimestamp r) (endTimestamp r).

Definition set_winner (w : option string) (r : RoundState.t) : RoundState.t :=
  RoundState.mk (id r) (target r) (salt r) (commitmentHash r) (baseBuyIn r)
    (currentBuyIn r) (currentTier r) (pool r) (guesses r) (status r)
    w (startTimestamp r) (endTimestamp r).

Definition set_endTimestamp (t : option N) (r : RoundState.t) : RoundState.t :=
  RoundState.mk (id r) (target r) (salt r) (commitmentHash r) (baseBuyIn r)
    (currentBuyIn r) (currentTier r) (pool r) (guesses r) (status r)
    (winner r) (startTimestamp r) t.

(** A write through the reference [round] that [processGuess] holds: the
    object is the one stored in [rounds] under [roundId]. *)
Definition updateRound (roundId : string) (f : RoundState.t -> RoundState.t)
  : M unit :=
  modify (set_rounds (alter f roundId)).

Record StartResult := mkStartResult {
  round : RoundState.t;
  signedStartRound : SignedStartRound.t }.

Record GuessResult := mkGuessResult {
  hint : HintResult.t;
  signedHint : SignedHint.t;
  priceUpdate : option SignedPriceUpdate.t;
  winnerDeclaration : option SignedWinnerDeclaration.t }.

(** [startNewRound(baseBuyIn)], given what [randomUUID()] and the two
    [randomBytes] calls of [generateTarget()] return.  The function is
    [async]: here, as for [processGuess] below and [getSignedAuditRoot] in
    audit.ts, the call is taken from its first line to its return with no
    other call running during its awaits.  The same bodies cut at their
    awaits are in [Async], and [OverlapFacts] shows that the two agree on a
    call that nothing interrupts. *)
Definition startNewRound (baseBuyIn : Z) (uuid : string)
    (random8 random32 : list byte) : M StartResult :=
  let roundId := uuid in
  let '(target, salt) := Crypto.generateTarget random8 random32 in
  commitmentHash <- liftResult (Crypto.computeCommitment target roundId salt) ;;
  startTimestamp <- Date_now ;;
  let round :=
    RoundState.mk roundId target salt commitmentHash baseBuyIn baseBuyIn Base 0
                  [] Active None startTimestamp None in
  modify (set_rounds (insert roundId round)) ;;
  modify (set_activeRoundId (Some roundId)) ;;
  nonce <- Crypto.getNextNonce ;;
  signature <- Crypto.signStartRound roundId commitmentHash baseBuyIn nonce ;;
  let signedStart :=
    SignedStartRound.mk roundId commitmentHash (toString baseBuyIn) nonce
                        signature in
  Audit.addAuditEntry roundId RoundStart
    [("commitmentHash", JString (hexlify commitmentHash));
     ("baseBuyIn", JString (toString baseBuyIn))] ;;
  ret (mkStartResult round signedStart).

(** The escalation branch of [processGuess]. *)
Definition escalate (roundId : string) (numericDistance : Z)
  : M (option SignedPriceUpdate.t) :=
  let newTier := Pricing.determinePriceTier numericDistance DEFAULT_PRICING_CONFIG in
  newBuyIn <- liftResult (Pricing.computeBuyIn numericDistance DEFAULT_PRICING_CONFIG) ;;
  updateRound roundId (set_currentTier newTier) ;;
  updateRound roundId (set_currentBuyIn newBuyIn) ;;
  priceNonce <- Crypto.getNextNonce ;;
  priceSig <- Crypto.signPriceUpdate roundId newBuyIn priceNonce ;;
  Audit.addAuditEntry roundId PriceChange
    [("newTier", JString (PriceTier_text newTier));
     ("newBuyIn", JString (toString newBuyIn))] ;;
  ret (Some (SignedPriceUpdate.mk roundId (toString newBuyIn) priceNonce priceSig)).

(** The winner branch of [processGuess]. *)
Definition declareWinner (roundId player : string)
  : M (option SignedWinnerDeclaration.t) :=
  updateRound roundId (set_status Completed) ;;
  updateRound roundId (set_winner (Some player)) ;;
  endTimestamp <- Date_now ;;
  updateRound roundId (set_endTimestamp (Some endTimestamp)) ;;
  winnerNonce <- Crypto.getNextNonce ;;
  winnerSig <- Crypto.signWinner roundId player winnerNonce ;;
  Audit.addAuditEntry roundId Winner [("winner", JString player)] ;;
  ret (Some (SignedWinnerDeclaration.mk roundId player winnerNonce winnerSig)).

(** [processGuess], as one uninterrupted run (see [startNewRound]): the
    tier read after [await signHint] is then the one the round had at the
    start. *)
Definition processGuess (roundId player guess : string) (buyInPaid : Z)
  : M GuessResult :=
  found <- gets (fun st => rounds st !! roundId) ;;
  match found with
  | None => throw RoundNotFound
  | Some round =>
      if negb (bool_decide (status round = Active)) then throw RoundNotActive
      else if buyInPaid <? currentBuyIn round then throw InsufficientBuyIn
      else
        hint <- liftResult
          (Scoring.calculateDistance (target round) guess DEFAULT_PRICING_CONFIG) ;;
        timestamp <- Date_now ;;
        let record := GuessRecord.mk player guess hint buyInPaid timestamp in
        updateRound roundId (push_guess record) ;;
        updateRound roundId (fun r => set_pool (pool r + buyInPaid) r) ;;
        Audit.addAuditEntry roundId Guess
          [("player", JString player);
           ("guessHash", JString guess);
           ("buyInPaid", JString (toString buyInPaid))] ;;
        Audit.addAuditEntry roundId Hint
          [("player", JString player);
           ("digitsInPlace", JNumber (Z.of_nat (HintResult.digitsInPlace hint)));
           ("digitsCorrect", JNumber (Z.of_nat (HintResult.digitsCorrect hint)));
           ("numericDistance", JString (toString (HintResult.numericDistance hint)))] ;;
        hintNonce <- Crypto.getNextNonce ;;
        hintSig <- Crypto.signHint roundId player
                     (HintResult.digitsCorrect hint) (HintResult.digitsInPlace hint)
                     (HintResult.numericDistance hint) hintNonce ;;
        let signedHint :=
          SignedHint.mk roundId player (HintResult.digitsCorrect hint)
            (HintResult.digitsInPlace hint)
            (toString (HintResult.numericDistance hint)) hintNonce hintSig in
        priceUpdate <-
          (if Pricing.shouldUpdatePrice (currentTier round)
                (HintResult.numericDistance hint) DEFAULT_PRICING_CONFIG
           then escalate roundId (HintResult.numericDistance hint)
           else ret None) ;;
        winnerDeclaration <-
          (if HintResult.isExactMatch hint then declareWinner roundId player
           else ret None) ;;
        ret (mkGuessResult hint signedHint priceUpdate winnerDeclaration)
  end.

Definition getRound (roundId : string) : M (option RoundState.t) :=
  gets (fun st => rounds st !! roundId).

Definition getActiveRoundId : M (option string) := gets activeRoundId.

End WithPlatform.
End Game.

(** ** game.ts and audit.ts: the async functions, cut at their awaits *)

Module Async.
Import RoundState Game.

(** A call of an [async] function runs until its first [await] and hands
    control back to its caller; the rest of its body runs later, when the
    awaited promise has settled, on whatever the module-level state is by
    then: other calls may have run in between.  A [Task] is such a call:
    finished with its value, or suspended with the rest of its body. *)
#[warnings="-register-all"]
Inductive Task (A : Type) : Type :=
| Finished (a : A)
| Suspended (rest : M (Task A)).
Arguments Finished {A} a.
Arguments Suspended {A} rest.

(** [x = await promise], for the promise of an async function that has no
    [await] of its own (the signing functions of crypto.ts): the body of the
    callee runs at once, on the current state, and settles the promise with a
    value or an exception; the caller is suspended, and gets that value or
    that exception when it resumes. *)
Definition await {A B} (promise : M A) (rest : A -> M (Task B)) : M (Task B) :=
  fun st =>
    let (settled, st') := promise st in
    (Ok (Suspended (x <- liftResult settled ;; rest x)), st').

(** A task run to its end with nothing else in between. *)
Fixpoint complete {A} (t : Task A) (st : State) : Result A * State :=
  match t with
  | Finished a => (Ok a, st)
  | Suspended rest =>
      match rest st with
      | (Ok t', st') => complete t' st'
      | (Throw e, st') => (Throw e, st')
      end
  end.

(** A call run from its first line to its return with nothing else in
    between. *)
Definition alone {A} (call : M (Task A)) : M A := t <- call ;; complete t.

Section WithPlatform.
Context `{Platform}.

(** *** startNewRound *)

(** From the return of [await signStartRound(...)] to the end. *)
Definition afterSignStartRound (roundId : string) (round : RoundState.t)
    (nonce : Z) (signature : string) : M (Task StartResult) :=
  let signedStart :=
    SignedStartRound.mk roundId (commitmentHash round)
      (toString (baseBuyIn round)) nonce signature in
  Audit.addAuditEntry roundId RoundStart
    [("commitmentHash", JString (hexlify (commitmentHash round)));
     ("baseBuyIn", JString (toString (baseBuyIn round)))] ;;
  ret (Finished (mkStartResult round signedStart)).

(** The [round] of the result is the record as it was built: what the caller
    gets is the object itself, whose later state is the one stored under
    [roundId]. *)
Definition startNewRound (baseBuyIn : Z) (uuid : string)
    (random8 random32 : list byte) : M (Task StartResult) :=
  let roundId := uuid in
  let '(target, salt) := Crypto.generateTarget random8 random32 in
  commitmentHash <- liftResult (Crypto.computeCommitment target roundId salt) ;;
  startTimestamp <- Date_now ;;
  let round :=
    RoundState.mk roundId target salt commitmentHash baseBuyIn baseBuyIn Base 0
                  [] Active None startTimestamp None in
  modify (set_rounds (insert roundId round)) ;;
  modify (set_activeRoundId (Some roundId)) ;;
  nonce <- Crypto.getNextNonce ;;
  await (Crypto.signStartRound roundId commitmentHash baseBuyIn nonce)
    (afterSignStartRound roundId round nonce).

(** *** processGuess *)

(** A read of a field through the reference [round] that [processGuess]
    took at its start: the object is the one stored in [rounds] under
    [roundId] (rounds are never removed, and [randomUUID] gives a new round
    a key of its own), so the read sees what other calls have written. *)
Definition readRound {A} (roundId : string) (round : RoundState.t)
    (field : RoundState.t -> A) : M A :=
  gets (fun st => match rounds st !! roundId with
                  | Some r => field r
                  | None => field round
                  end).

(** From the return of [await signWinner(...)] to the end. *)
Definition afterSignWinner (roundId player : string) (hint : HintResult.t)
    (signedHint : SignedHint.t) (priceUpdate : option SignedPriceUpdate.t)
    (winnerNonce : Z) (winnerSig : string) : M (Task GuessResult) :=
  Audit.addAuditEntry roundId Winner [("winner", JString player)] ;;
  ret (Finished (mkGuessResult hint signedHint priceUpdate
         (Some (SignedWinnerDeclaration.mk roundId player winnerNonce
                  winnerSig)))).

(** From [// Check winner] on. *)
Definition checkWinner (roundId player : string) (hint : HintResult.t)
    (signedHint : SignedHint.t) (priceUpdate : option SignedPriceUpdate.t)
  : M (Task GuessResult) :=
  if HintResult.isExactMatch hint then
    updateRound roundId (set_status Completed) ;;
    updateRound roundId (set_winner (Some player)) ;;
    endTimestamp <- Date_now ;;
    updateRound roundId (set_endTimestamp (Some endTimestamp)) ;;
    winnerNonce <- Crypto.getNextNonce ;;
    await (Crypto.signWinner roundId player winnerNonce)
      (afterSignWinner roundId player hint signedHint priceUpdate winnerNonce)
  else ret (Finished (mkGuessResult hint signedHint priceUpdate None)).

(** From the return of [await signPriceUpdate(...)] on. *)
Definition afterSignPriceUpdate (roundId player : string) (hint : HintResult.t)
    (signedHint : SignedHint.t) (newTier : PriceTier) (newBuyIn : Z)
    (priceNonce : Z) (priceSig : string) : M (Task GuessResult) :=
  Audit.addAuditEntry roundId PriceChange
    [("newTier", JString (PriceTier_text newTier));
     ("newBuyIn", JString (toString newBuyIn))] ;;
  checkWinner roundId player hint signedHint
    (Some (SignedPriceUpdate.mk roundId (toString newBuyIn) priceNonce priceSig)).

(** From the return of [await signHint(...)] on. *)
Definition afterSignHint (roundId player : string) (round : RoundState.t)
    (hint : HintResult.t) (hintNonce : Z) (hintSig : string)
  : M (Task GuessResult) :=
  let signedHint :=
    SignedHint.mk roundId player (HintResult.digitsCorrect hint)
      (HintResult.digitsInPlace hint)
      (toString (HintResult.numericDistance hint)) hintNonce hintSig in
  tier <- readRound roundId round currentTier ;;
  if Pricing.shouldUpdatePrice tier (HintResult.numericDistance hint)
       DEFAULT_PRICING_CONFIG
  then
    let newTier :=
      Pricing.determinePriceTier (HintResult.numericDistance hint)
        DEFAULT_PRICING_CONFIG in
    newBuyIn <- liftResult
      (Pricing.computeBuyIn (HintResult.numericDistance hint)
         DEFAULT_PRICING_CONFIG) ;;
    updateRound roundId (set_currentTier newTier) ;;
    updateRound roundId (set_currentBuyIn newBuyIn) ;;
    priceNonce <- Crypto.getNextNonce ;;
    await (Crypto.signPriceUpdate roundId newBuyIn priceNonce)
      (afterSignPriceUpdate roundId player hint signedHint newTier newBuyIn
         priceNonce)
  else checkWinner roundId player hint signedHint None.

Definition processGuess (roundId player guess : string) (buyInPaid : Z)
  : M (Task GuessResult) :=
  found <- gets (fun st => rounds st !! roundId) ;;
  match found with
  | None => throw RoundNotFound
  | Some round =>
      if negb (bool_decide (status round = Active)) then throw RoundNotActive
      else if buyInPaid <? currentBuyIn round then throw InsufficientBuyIn
      else
        hint <- liftResult
          (Scoring.calculateDistance (target round) guess DEFAULT_PRICING_CONFIG) ;;
        timestamp <- Date_now ;;
        let record := GuessRecord.mk player guess hint buyInPaid timestamp in
        updateRound roundId (push_guess record) ;;
        updateRound roundId (fun r => set_pool (pool r + buyInPaid) r) ;;
        Audit.addAuditEntry roundId Guess
          [("player", JString player);
           ("guessHash", JString guess);
           ("buyInPaid", JString (toString buyInPaid))] ;;
        Audit.addAuditEntry roundId Hint
          [("player", JString player);
           ("digitsInPlace", JNumber (Z.of_nat (HintResult.digitsInPlace hint)));
           ("digitsCorrect", JNumber (Z.of_nat (HintResult.digitsCorrect hint)));
           ("numericDistance", JString (toString (HintResult.numericDistance hint)))] ;;
        hintNonce <- Crypto.getNextNonce ;;
        await (Crypto.signHint roundId player
                 (HintResult.digitsCorrect hint) (HintResult.digitsInPlace hint)
                 (HintResult.numericDistance hint) hintNonce)
          (afterSignHint roundId player round hint hintNonce)
  end.

(** *** getSignedAuditRoot *)

Definition afterSignAuditRoot (roundId : string) (merkleRoot : Hash)
    (entryCount : nat) (nonce : Z) (signature : string)
  : M (Task SignedAuditRoot.t) :=
  ret (Finished (SignedAuditRoot.mk roundId merkleRoot entryCount nonce signature)).

Definition getSignedAuditRoot (roundId : string) : M (Task SignedAuditRoot.t) :=
  merkleRoot <- Audit.computeMerkleRoot roundId ;;
  trail <- Audit.getOrCreateTrail roundId ;;
  let entryCount := length (AuditTrail.entries trail) in
  nonce <- Crypto.getNextNonce ;;
  await (Crypto.signAuditRoot roundId merkleRoot entryCount nonce)
    (afterSignAuditRoot roundId merkleRoot entryCount nonce).

End WithPlatform.
End Async.

(** ** index.ts: the request handlers *)

Module Routes.
Import RoundState Game.

(** A request body as [express.json()] hands it over: an object, here with
    scalar fields. *)
Abbreviation Body := (gmap string JsonValue).

(** The [error] text of a refusal: the message of a [ZodError], the handler's
    own "Round not found", or the message of what the engine threw. *)
Inductive RouteError :=
| ZodError
| NotFound
| Thrown (e : Exception).

(** What a handler sends: [res.json(payload)], or
    [res.status(status).json({ error })]. *)
Inductive Reply (A : Type) :=
| Json (payload : A)
| Refused (status : nat) (error : RouteError).
Arguments Json {A} payload.
Arguments Refused {A} status error.

Definition Handler (A : Type) : Type := State -> Reply A * State.

(** The [try { ... } catch (err) { res.status(status).json(...) }] around the
    body of a handler.  What the body wrote before it threw stays written. *)
Definition catch {A} (status : nat) (m : M (Reply A)) : Handler A :=
  fun st =>
    match m st with
    | (Ok reply, st') => (reply, st')
    | (Throw e, st') => (Refused status (Thrown e), st')
    end.

(** [z.string()]: the field is there and is a string. *)
Definition zString (v : option JsonValue) : option string :=
  match v with
  | Some (JString s) => Some s
  | _ => None
  end.

(** [/^\d{12}$/]. *)
Definition isTwelveDigits (s : string) : bool :=
  (String.length s =? 12)%nat && forallb Scoring.isDigit (list_ascii_of_string s).

(** [[a-fA-F0-9]]. *)
Definition isHexDigit (c : ascii) : bool :=
  let n := Z.of_nat (nat_of_ascii c) in
  ((97 <=? n) && (n <=? 102)) || ((65 <=? n) && (n <=? 70))
  || ((48 <=? n) && (n <=? 57)).

(** [/^0x[a-fA-F0-9]{n}$/]. *)
Definition isHex (n : nat) (s : string) : bool :=
  match s with
  | String "0" (String "x" rest) =>
      (String.length rest =? n)%nat
      && forallb isHexDigit (list_ascii_of_string rest)
  | _ => false
  end.

Module GuessRequest.
Record t := mk {
  roundId : string;
  guess : string;
  player : string;
  txHash : string }.
End GuessRequest.

(** [GuessRequestSchema.parse]; [None] stands for the [ZodError] thrown,
    which the handler's [catch] answers with a 400. *)
Definition GuessRequestSchema_parse (body : Body) : option GuessRequest.t :=
  match zString (body !! "roundId"), zString (body !! "guess"),
        zString (body !! "player"), zString (body !! "txHash") with
  | Some roundId, Some guess, Some player, Some txHash =>
      if (1 <=? String.length roundId)%nat && isTwelveDigits guess
         && isHex 40 player && isHex 64 txHash
      then Some (GuessRequest.mk roundId guess player txHash)
      else None
  | _, _, _, _ => None
  end.

Module HintView.
Record t := mk {
  digitsInPlace : nat;
  digitsCorrect : nat;
  numericDistance : string;
  priceTier : PriceTier }.
End HintView.

Module GuessResponse.
Record t := mk {
  hint : HintView.t;
  signedHint : SignedHint.t;
  pricingUpdate : option SignedPriceUpdate.t;
  winner : option SignedWinnerDeclaration.t }.
End GuessResponse.

Module AuditResponse.
Record t := mk {
  entries : list AuditEntry.t;
  merkleRoot : option Hash;
  signedMerkleRoot : option SignedAuditRoot.t }.
End AuditResponse.

Section WithPlatform.
Context `{Platform}.

(** [app.post("/guess", ...)], once the rate limiter has let the request
    through. *)
Definition postGuess (body : Body) : Handler GuessResponse.t :=
  catch 400
    match GuessRequestSchema_parse body with
    | None => ret (Refused 400 ZodError)
    | Some parsed =>
        let roundId := GuessRequest.roundId parsed in
        let guess := GuessRequest.guess parsed in
        let player := GuessRequest.player parsed in
        round <- getRound roundId ;;
        match round with
        | None => ret (Refused 404 NotFound)
        | Some round =>
            let buyInPaid := currentBuyIn round in
            result <- processGuess roundId player guess buyInPaid ;;
            ret (Json
              (GuessResponse.mk
                 (HintView.mk
                    (HintResult.digitsInPlace (hint result))
                    (HintResult.digitsCorrect (hint result))
                    (toString (HintResult.numericDistance (hint result)))
                    (HintResult.priceTier (hint result)))
                 (signedHint result) (priceUpdate result)
                 (winnerDeclaration result)))
        end
    end.

(** [trail.entries], read through the reference [getAuditTrail] returned:
    the trail is the one stored under [id]. *)
Definition entriesOf (id : string) : M (list AuditEntry.t) :=
  gets (fun st =>
          match trails st !! id with
          | Some trail => AuditTrail.entries trail
          | None => []
          end).

(** [app.get("/round/:id/audit", ...)]. *)
Definition getAudit (id : string) : Handler AuditResponse.t :=
  catch 400
    (Audit.getAuditTrail id ;;
     n <- entriesOf id ;;
     merkleRoot <-
       (if (0 <? length n)%nat
        then root <- Audit.computeMerkleRoot id ;; ret (Some root)
        else ret None) ;;
     n <- entriesOf id ;;
     signedMerkleRoot <-
       (if (0 <? length n)%nat
        then signed <- Audit.getSignedAuditRoot id ;; ret (Some signed)
        else ret None) ;;
     entries <- entriesOf id ;;
     ret (Json (AuditResponse.mk entries merkleRoot signedMerkleRoot))).

End WithPlatform.
End Routes.

(** ** The contracts: TEEVerifier.sol and the string helper of HotColdLotto.sol *)

Module Solidity.

Definition MAX_UINT256 : Z := 2 ^ 256 - 1.

(** An [address], as the number it is; [address(0)] is 0. *)
Abbreviation Address := Z.

(** The custom errors of TEEVerifier.sol, those of the OpenZeppelin contracts
    it builds on, and the panics of checked arithmetic and indexing. *)
Inductive SolError :=
| InvalidSignature
| NonceAlreadyUsed
| ZeroAddress
| OwnableUnauthorizedAccount
| ECDSAInvalidSignature
| Panic.

(** How a call ends: it returns, it reverts, or it exhausts the turns it was
    given for a loop. *)
Inductive Outcome (A : Type) :=
| Return (a : A)
| Revert (e : SolError)
| OutOfGas.
Arguments Return {A} a.
Arguments Revert {A} e.
Arguments OutOfGas {A}.

(** *** HotColdLotto.sol: [_uint256ToString] *)

(** [while (temp != 0) { digits++; temp /= 10; }]; the increment is
    checked. *)
Fixpoint countLoop (fuel : nat) (temp digits : Z) : Outcome Z :=
  match fuel with
  | O => OutOfGas
  | S fuel' =>
      if negb (temp =? 0) then
        if digits + 1 <=? MAX_UINT256
        then countLoop fuel' (temp / 10) (digits + 1)
        else Revert Panic
      else Return digits
  end.

(** [while (value != 0) { digits--; buffer[digits] = ...; value /= 10; }];
    the decrement and the index are checked. *)
Fixpoint fillLoop (fuel : nat) (value digits : Z) (buffer : list byte)
  : Outcome (list byte) :=
  match fuel with
  | O => OutOfGas
  | S fuel' =>
      if negb (value =? 0) then
        if 0 <=? digits - 1 then
          let digits := digits - 1 in
          if (Z.to_nat digits <? length buffer)%nat then
            fillLoop fuel' (value / 10) digits
              (<[Z.to_nat digits := byte_of_Z (48 + value mod 10)]> buffer)
          else Revert Panic
        else Revert Panic
      else Return buffer
  end.

(** [_uint256ToString(value)].  A uint256 has at most 78 decimal digits, so
    80 turns are enough for either loop (see [uint256ToString_decimal]). *)
Definition _uint256ToString (value : Z) : Outcome string :=
  if value =? 0 then Return "0"%string
  else
    match countLoop 80 value 0 with
    | Return digits =>
        let buffer := repeat Byte.x00 (Z.to_nat digits) in
        match fillLoop 80 value digits buffer with
        | Return buffer => Return (string_of_list_byte buffer)
        | Revert e => Revert e
        | OutOfGas => OutOfGas
        end
    | Revert e => Revert e
    | OutOfGas => OutOfGas
    end.

(** *** TEEVerifier.sol *)

(** What TEEVerifier takes from OpenZeppelin's ECDSA and MessageHashUtils:
    the EIP-191 digest of a message hash, and the recovery of the signing
    address ([None]: [recover] reverts on a malformed signature). *)
Class Ecdsa := {
  toEthSignedMessageHash : Hash -> Hash;
  recover : Hash -> list byte -> option Address }.

Module TEEVerifier.
Record t := mk {
  owner : Address;
  trustedEnclave : Address;
  usedNonces : gmap Z bool }.
End TEEVerifier.
Import TEEVerifier.

(** A read of a [mapping(uint256 => bool)]: a key never written reads false. *)
Definition readNonce (s : TEEVerifier.t) (nonce : Z) : bool :=
  default false (usedNonces s !! nonce).

(** A call on the deployed contract: the outcome, and the storage it leaves
    (the storage it found, when it reverts). *)
Definition Tx (A : Type) : Type := TEEVerifier.t -> Outcome A * TEEVerifier.t.

Section WithEcdsa.
Context `{Ecdsa}.

(** [constructor(_trustedEnclave) Ownable(msg.sender)]. *)
Definition constructor (sender _trustedEnclave : Address) : Outcome TEEVerifier.t :=
  if _trustedEnclave =? 0 then Revert ZeroAddress
  else Return (TEEVerifier.mk sender _trustedEnclave ∅).

(** [setTrustedEnclave(_newEnclave)], called by [sender]. *)
Definition setTrustedEnclave (sender _newEnclave : Address) : Tx unit :=
  fun s =>
    if negb (sender =? owner s) then (Revert OwnableUnauthorizedAccount, s)
    else if _newEnclave =? 0 then (Revert ZeroAddress, s)
    else (Return tt, TEEVerifier.mk (owner s) _newEnclave (usedNonces s)).

Definition verifySignature (messageHash : Hash) (signature : list byte) : Tx bool :=
  fun s =>
    match recover (toEthSignedMessageHash messageHash) signature with
    | None => (Revert ECDSAInvalidSignature, s)
    | Some recovered => (Return (recovered =? trustedEnclave s), s)
    end.

Definition verifyAndConsumeNonce (messageHash : Hash) (signature : list byte)
    (nonce : Z) : Tx bool :=
  fun s =>
    if readNonce s nonce then (Revert NonceAlreadyUsed, s)
    else
      match recover (toEthSignedMessageHash messageHash) signature with
      | None => (Revert ECDSAInvalidSignature, s)
      | Some recovered =>
          if negb (recovered =? trustedEnclave s) then (Revert InvalidSignature, s)
          else
            (Return true,
             TEEVerifier.mk (owner s) (trustedEnclave s)
               (<[nonce := true]> (usedNonces s)))
      end.

End WithEcdsa.
End Solidity.

(** * Properties *)

(** ** Pricing *)

Module PricingFacts.
Import Pricing.

(** The tier table of the default configuration, read off in order of
    [maxDistance]. *)
Lemma determinePriceTier_default (d : Z) :
  determinePriceTier d DEFAULT_PRICING_CONFIG =
  if d <=? 10 then Scorching
  else if d <=? 100 then Hot
  else if d <=? 1000 then Warm
  else Base.
Proof.
  unfold determinePriceTier.
  change (sortTiers (PricingConfig.tiers DEFAULT_PRICING_CONFIG)) with
    [TierDef.mk Scorching 10 10; TierDef.mk Hot 100 5; TierDef.mk Warm 1000 2;
     TierDef.mk Base 999999999999 1].
  cbn [find TierDef.maxDistance TierDef.tier].
  repeat case_match; simplify_eq; done.
Qed.

(** X1.  Under the default configuration a guess that is no farther from the
    target is priced in a tier that is no less severe. *)
Theorem determinePriceTier_monotone (d1 d2 : Z) :
  d1 <= d2 ->
  tierIndex (determinePriceTier d2 DEFAULT_PRICING_CONFIG)
  <= tierIndex (determinePriceTier d1 DEFAULT_PRICING_CONFIG).
Proof.
  intros Hd. rewrite !determinePriceTier_default.
  repeat match goal with |- context [?a <=? ?b] => destruct (Z.leb_spec a b) end;
    try (vm_compute; discriminate); lia.
Qed.

End PricingFacts.

(** ** Scoring: the two loops in closed form *)

Module ScoringFacts.
Import Scoring HintResult.

(** What the bulls loop leaves of [xs] when it is matched against [ys]: a
    cell is crossed out exactly where the two agree. *)
Fixpoint mark (xs ys : list ascii) : list (option ascii) :=
  match xs, ys with
  | x :: xs', y :: ys' =>
      (if decide (x = y) then None else Some x) :: mark xs' ys'
  | _, _ => []
  end.

(** The number of positions at which the two lists agree. *)
Fixpoint matches (xs ys : list ascii) : nat :=
  match xs, ys with
  | x :: xs', y :: ys' => (if decide (x = y) then 1 else 0) + matches xs' ys'
  | _, _ => 0
  end%nat.

(** The cows loop as a recursion over the cells of [guessRemaining]. *)
Fixpoint cows (gr tr : list (option ascii)) : nat :=
  match gr with
  | [] => 0
  | None :: gr' => cows gr' tr
  | Some c :: gr' =>
      match indexOf (Some c) tr with
      | Some idx => S (cows gr' (<[idx:=None]> tr))
      | None => cows gr' tr
      end
  end%nat.

(** Occurrences of [x] in [l]. *)
Fixpoint occ {A} `{EqDecision A} (x : A) (l : list A) : nat :=
  match l with
  | [] => 0
  | y :: l' => (if decide (y = x) then 1 else 0) + occ x l'
  end%nat.

(** The size of the intersection of two multisets of characters, summed over
    the characters listed in [ds]. *)
Fixpoint commonOver (ds : list ascii) (gr tr : list (option ascii)) : nat :=
  match ds with
  | [] => 0
  | d :: ds' => Nat.min (occ (Some d) gr) (occ (Some d) tr) + commonOver ds' gr tr
  end%nat.

(** Cells not crossed out. *)
Definition live (l : list (option ascii)) : nat :=
  length (filter (fun x => is_Some x) l).

Lemma mark_length xs ys :
  length xs = length ys -> length (mark xs ys) = length xs.
Proof.
  revert ys; induction xs as [|x xs IH]; intros [|y ys] E; simpl in *;
    try congruence.
  f_equal. apply IH. congruence.
Qed.

Lemma insert_at_middle {A} (X l : list A) (x y : A) (i : nat) :
  length X = i -> <[i:=x]> (X ++ y :: l) = X ++ x :: l.
Proof.
  intros <-. rewrite insert_app_r_alt by lia. by rewrite Nat.sub_diag.
Qed.

Lemma bullsLoop_from (pt pg : list ascii) (X Y : list (option ascii))
    (t g : list ascii) (c : nat) :
  length pt = length pg -> length X = length pt -> length Y = length pt ->
  length t = length g ->
  fold_left (bullsStep (pt ++ t) (pg ++ g)) (seq (length pt) (length t))
            (c, X ++ (Some <$> t), Y ++ (Some <$> g))
  = ((c + matches t g)%nat, X ++ mark t g, Y ++ mark g t).
Proof.
  revert pt pg X Y g c.
  induction t as [|a t IH]; intros pt pg X Y [|b g] c Hp HX HY Hl;
    simpl in Hl; try congruence.
  - simpl. by rewrite Nat.add_0_r.
  - cbn [length seq fold_left]. unfold bullsStep at 2.
    rewrite (list_lookup_middle pt t a (length pt) eq_refl).
    rewrite (list_lookup_middle pg g b (length pt)) by congruence.
    assert (Hpt : pt ++ a :: t = (pt ++ [a]) ++ t) by by rewrite <- app_assoc.
    assert (Hpg : pg ++ b :: g = (pg ++ [b]) ++ g) by by rewrite <- app_assoc.
    assert (Hlen : S (length pt) = length (pt ++ [a]))
      by (rewrite length_app; simpl; lia).
    destruct (decide (Some a = Some b)) as [E|NE].
    + assert (a = b) as -> by congruence.
      rewrite !fmap_cons.
      rewrite (insert_at_middle X) by done.
      rewrite (insert_at_middle Y) by done.
      rewrite Hpt, Hpg, Hlen.
      rewrite (cons_middle None X), (cons_middle None Y), !app_assoc.
      rewrite IH; rewrite ?length_app; simpl; try lia.
      rewrite <- !app_assoc. simpl.
      repeat case_decide; try congruence; by rewrite ?Nat.add_succ_r.
    + assert (a <> b) by congruence.
      rewrite !fmap_cons.
      rewrite Hpt, Hpg, Hlen.
      rewrite (cons_middle (Some a) X), (cons_middle (Some b) Y), !app_assoc.
      rewrite IH; rewrite ?length_app; simpl; try lia.
      rewrite <- !app_assoc. simpl.
      repeat case_decide; try congruence; by rewrite ?Nat.add_succ_r.
Qed.

Lemma bullsLoop_closed (t g : list ascii) :
  length t = 12%nat -> length g = 12%nat ->
  bullsLoop t g = (matches t g, mark t g, mark g t).
Proof.
  intros Ht Hg. unfold bullsLoop.
  pose proof (bullsLoop_from [] [] [] [] t g 0) as P. simpl in P.
  rewrite Ht in P. apply P; congruence.
Qed.

Lemma cowsLoop_from (pre gr tr : list (option ascii)) (c : nat) :
  fst (fold_left (cowsStep (pre ++ gr)) (seq (length pre) (length gr)) (c, tr))
  = (c + cows gr tr)%nat.
Proof.
  revert pre tr c. induction gr as [|a gr IH]; intros pre tr c.
  - simpl. lia.
  - cbn [length seq fold_left]. unfold cowsStep at 2.
    rewrite (list_lookup_middle pre gr a (length pre) eq_refl).
    assert (Hpre : pre ++ a :: gr = (pre ++ [a]) ++ gr)
      by by rewrite <- app_assoc.
    assert (Hlen : S (length pre) = length (pre ++ [a]))
      by (rewrite length_app; simpl; lia).
    rewrite Hpre, Hlen.
    destruct a as [ch|]; simpl.
    + destruct (indexOf (Some ch) tr) as [idx|]; rewrite IH; lia.
    + apply IH.
Qed.

Lemma cowsLoop_closed (gr tr : list (option ascii)) :
  length gr = 12%nat -> fst (cowsLoop gr tr) = cows gr tr.
Proof.
  intros Hg. unfold cowsLoop.
  pose proof (cowsLoop_from [] gr tr 0) as P. simpl in P. by rewrite Hg in P.
Qed.

(** *** Counting *)

Lemma indexOf_Some_lookup {A} `{EqDecision A} (x : A) (l : list A) (i : nat) :
  indexOf x l = Some i -> l !! i = Some x.
Proof.
  revert i. induction l as [|y l IH]; intros i; simpl; [done|].
  destruct (decide (y = x)) as [->|NE].
  - by intros [= <-].
  - destruct (indexOf x l) as [j|]; simpl; [|done].
    intros [= <-]. simpl. by apply IH.
Qed.

Lemma indexOf_None_occ {A} `{EqDecision A} (x : A) (l : list A) :
  indexOf x l = None -> occ x l = 0%nat.
Proof.
  induction l as [|y l IH]; simpl; [done|].
  destruct (decide (y = x)); [done|].
  destruct (indexOf x l); simpl; [done|]. intros _. by rewrite IH.
Qed.

Lemma occ_insert {A} `{EqDecision A} (l : list A) (i : nat) (x z y : A) :
  l !! i = Some x ->
  (occ y (<[i:=z]> l) + (if decide (x = y) then 1 else 0)
   = occ y l + (if decide (z = y) then 1 else 0))%nat.
Proof.
  revert i. induction l as [|a l IH]; intros [|i]; simpl; try done.
  - intros [= ->]. lia.
  - intros Hi. specialize (IH i Hi). lia.
Qed.

Lemma live_insert_None (l : list (option ascii)) (i : nat) (c : ascii) :
  l !! i = Some (Some c) -> (live (<[i:=None]> l) + 1 = live l)%nat.
Proof.
  unfold live. revert i. induction l as [|a l IH]; intros [|i]; simpl; try done.
  - intros [= ->]. rewrite !filter_cons.
    destruct (decide (is_Some (Some c))) as [_|n]; [|exfalso; apply n; eauto].
    destruct (decide (is_Some (@None ascii))) as [[? ?]|_]; [done|].
    simpl. lia.
  - intros Hi. specialize (IH i Hi).
    rewrite !filter_cons. destruct (decide (is_Some a)); simpl; lia.
Qed.

Lemma cows_le_live (gr tr : list (option ascii)) : (cows gr tr <= live tr)%nat.
Proof.
  revert tr. induction gr as [|[c|] gr IH]; intros tr; simpl; [lia| |apply IH].
  destruct (indexOf (Some c) tr) as [idx|] eqn:E; [|apply IH].
  apply indexOf_Some_lookup in E. apply live_insert_None in E.
  specialize (IH (<[idx:=None]> tr)). lia.
Qed.

Lemma live_mark (xs ys : list ascii) :
  length xs = length ys -> (live (mark xs ys) + matches xs ys = length xs)%nat.
Proof.
  unfold live. revert ys.
  induction xs as [|x xs IH]; intros [|y ys] E; simpl in *; try congruence.
  specialize (IH ys ltac:(congruence)).
  rewrite filter_cons. destruct (decide (x = y)); simpl.
  - destruct (decide (is_Some (@None ascii))) as [[? ?]|_]; [done|]. lia.
  - destruct (decide (is_Some (Some x))) as [_|nS]; [|exfalso; apply nS; eauto].
    simpl. lia.
Qed.

Lemma matches_le (xs ys : list ascii) : (matches xs ys <= length xs)%nat.
Proof.
  revert ys. induction xs as [|x xs IH]; intros [|y ys]; simpl; try lia.
  specialize (IH ys). destruct (decide (x = y)); lia.
Qed.

Lemma matches_full (xs ys : list ascii) :
  length xs = length ys -> matches xs ys = length xs <-> xs = ys.
Proof.
  revert ys. induction xs as [|x xs IH]; intros [|y ys] E; simpl in *;
    try congruence; [done|].
  specialize (IH ys ltac:(congruence)).
  pose proof (matches_le xs ys).
  destruct (decide (x = y)) as [->|NE]; split.
  - intros Hm. f_equal. apply IH. lia.
  - intros [= ->]. f_equal. apply IH. done.
  - lia.
  - congruence.
Qed.

Lemma mark_refl (xs : list ascii) : Forall (fun x => x = None) (mark xs xs).
Proof.
  induction xs as [|x xs IH]; simpl; constructor; [|done].
  by rewrite decide_True.
Qed.

Lemma cows_no_live (gr tr : list (option ascii)) :
  Forall (fun x => x = None) gr -> cows gr tr = 0%nat.
Proof.
  induction 1 as [|x gr -> _ IH]; simpl; done.
Qed.

Lemma mark_elem (xs ys : list ascii) (c : ascii) : Some c ∈ mark xs ys -> c ∈ xs.
Proof.
  revert ys. induction xs as [|x xs IH]; intros [|y ys]; simpl;
    try (by intros ?%elem_of_nil).
  intros [E|E]%elem_of_cons.
  - destruct (decide (x = y)); [done|]. injection E as ->. by left.
  - right. by eapply IH.
Qed.

Lemma commonOver_comm (ds : list ascii) (gr tr : list (option ascii)) :
  commonOver ds gr tr = commonOver ds tr gr.
Proof.
  induction ds as [|d ds IH]; simpl; [done|]. rewrite IH. lia.
Qed.

Lemma commonOver_skip (ds : list ascii) (gr tr : list (option ascii)) :
  commonOver ds (None :: gr) tr = commonOver ds gr tr.
Proof.
  induction ds as [|d ds IH]; simpl; [done|]. by rewrite IH.
Qed.

Lemma commonOver_miss (ds : list ascii) (c : ascii) (gr tr : list (option ascii)) :
  occ (Some c) tr = 0%nat ->
  commonOver ds (Some c :: gr) tr = commonOver ds gr tr.
Proof.
  intros Hz. induction ds as [|d ds IH]; simpl; [done|]. rewrite IH.
  destruct (decide (Some c = Some d)) as [[= ->]|NE]; [rewrite Hz|]; lia.
Qed.

Lemma commonOver_absent (ds : list ascii) (c : ascii)
    (gr tr tr' : list (option ascii)) :
  c ∉ ds ->
  (forall d, d <> c -> occ (Some d) tr' = occ (Some d) tr) ->
  commonOver ds (Some c :: gr) tr = commonOver ds gr tr'.
Proof.
  intros Hc Htr. induction ds as [|d ds IH]; simpl; [done|].
  apply not_elem_of_cons in Hc as [Hne Hc]. rewrite (IH Hc).
  rewrite decide_False by congruence. rewrite Htr by congruence. lia.
Qed.

Lemma commonOver_hit (ds : list ascii) (c : ascii)
    (gr tr tr' : list (option ascii)) :
  NoDup ds -> c ∈ ds ->
  (1 <= occ (Some c) tr)%nat ->
  (occ (Some c) tr' + 1 = occ (Some c) tr)%nat ->
  (forall d, d <> c -> occ (Some d) tr' = occ (Some d) tr) ->
  commonOver ds (Some c :: gr) tr = S (commonOver ds gr tr').
Proof.
  intros Hnd Hc H1 Hdec Htr. induction Hnd as [|d ds Hd Hnd IH]; simpl.
  - by apply elem_of_nil in Hc.
  - destruct (decide (d = c)) as [->|NE].
    + rewrite (commonOver_absent ds c gr tr tr') by done.
      rewrite decide_True by done. lia.
    + apply elem_of_cons in Hc as [->|Hc]; [done|].
      rewrite (IH Hc). rewrite decide_False by congruence.
      rewrite (Htr d NE). lia.
Qed.

Lemma cows_common (ds : list ascii) (gr tr : list (option ascii)) :
  NoDup ds -> (forall c, Some c ∈ gr -> c ∈ ds) ->
  cows gr tr = commonOver ds gr tr.
Proof.
  intros Hnd. revert tr. induction gr as [|[c|] gr IH]; intros tr Hin; simpl.
  - clear. induction ds as [|d ds IH]; simpl; [done|]. by rewrite <- IH.
  - assert (Hgr : forall c0, Some c0 ∈ gr -> c0 ∈ ds)
      by (intros c0 Hc0; apply Hin; by right).
    destruct (indexOf (Some c) tr) as [idx|] eqn:E.
    + pose proof (indexOf_Some_lookup _ _ _ E) as Hl.
      rewrite (IH _ Hgr). symmetry.
      apply commonOver_hit; [done|apply Hin; by left|..].
      * pose proof (occ_insert tr idx (Some c) None (Some c) Hl) as P.
        rewrite decide_True in P by done. rewrite decide_False in P by done.
        lia.
      * pose proof (occ_insert tr idx (Some c) None (Some c) Hl) as P.
        rewrite decide_True in P by done. rewrite decide_False in P by done.
        lia.
      * intros d Hd.
        pose proof (occ_insert tr idx (Some c) None (Some d) Hl) as P.
        rewrite !decide_False in P by congruence. lia.
    + rewrite (IH _ Hgr). symmetry. apply commonOver_miss.
      by apply indexOf_None_occ.
  - rewrite commonOver_skip. apply IH. intros c0 Hc0. apply Hin. by right.
Qed.

(** The cows count does not depend on which side is scanned. *)
Lemma cows_mark_comm (xs ys : list ascii) :
  cows (mark ys xs) (mark xs ys) = cows (mark xs ys) (mark ys xs).
Proof.
  set (ds := remove_dups (xs ++ ys)).
  assert (Hnd : NoDup ds) by apply NoDup_remove_dups.
  rewrite (cows_common ds (mark ys xs)), (cows_common ds (mark xs ys)).
  - apply commonOver_comm.
  - done.
  - intros c Hc%mark_elem. apply elem_of_remove_dups, elem_of_app. by left.
  - done.
  - intros c Hc%mark_elem. apply elem_of_remove_dups, elem_of_app. by right.
Qed.

(** *** Decimal numerals *)

(** A string of exactly twelve decimal digits (the form [/^\d{12}$/] that
    the request schema admits). *)
Definition isDecimal12 (s : string) : bool :=
  (String.length s =? 12)%nat && forallb isDigit (list_ascii_of_string s).

(** The value of a decimal numeral, by positional weight. *)
Fixpoint decimalValue (s : list ascii) : Z :=
  match s with
  | [] => 0
  | c :: s' =>
      (Z.of_nat (nat_of_ascii c) - 48) * 10 ^ Z.of_nat (length s')
      + decimalValue s'
  end.

Definition valueOf (s : string) : Z := decimalValue (list_ascii_of_string s).

Lemma string_length_chars (s : string) :
  String.length s = length (list_ascii_of_string s).
Proof. induction s; simpl; congruence. Qed.

Lemma chars_inj (s1 s2 : string) :
  list_ascii_of_string s1 = list_ascii_of_string s2 -> s1 = s2.
Proof.
  intros E. rewrite <- (string_of_list_ascii_of_string s1),
    <- (string_of_list_ascii_of_string s2). by rewrite E.
Qed.

Lemma isDecimal12_chars (s : string) :
  isDecimal12 s = true ->
  length (list_ascii_of_string s) = 12%nat
  /\ Forall (fun c => isDigit c = true) (list_ascii_of_string s).
Proof.
  unfold isDecimal12. intros [Hl Hd]%andb_true_iff. split.
  - rewrite <- string_length_chars. by apply Nat.eqb_eq.
  - apply Forall_forall. intros c Hc%list_elem_of_In.
    by apply (proj1 (forallb_forall _ _) Hd).
Qed.

Lemma isDigit_range (c : ascii) :
  isDigit c = true -> 0 <= Z.of_nat (nat_of_ascii c) - 48 <= 9.
Proof.
  unfold isDigit. cbv zeta. intros [?%Z.leb_le ?%Z.leb_le]%andb_true_iff. lia.
Qed.

Lemma BigInt_digits_value (s : list ascii) (acc : Z) :
  BigInt_digits acc s = acc * 10 ^ Z.of_nat (length s) + decimalValue s.
Proof.
  revert acc. induction s as [|c s IH]; intros acc.
  - simpl. lia.
  - cbn [BigInt_digits decimalValue length]. rewrite IH.
    rewrite Nat2Z.inj_succ, Z.pow_succ_r by lia. lia.
Qed.

Lemma decimalValue_range (s : list ascii) :
  Forall (fun c => isDigit c = true) s ->
  0 <= decimalValue s < 10 ^ Z.of_nat (length s).
Proof.
  induction 1 as [|c s Hc _ IH]; cbn [decimalValue length]; [simpl; lia|].
  pose proof (isDigit_range c Hc) as Hr.
  rewrite Nat2Z.inj_succ, Z.pow_succ_r by lia.
  assert (0 < 10 ^ Z.of_nat (length s)) by (apply Z.pow_pos_nonneg; lia).
  nia.
Qed.

Lemma decimalValue_inj (s1 s2 : list ascii) :
  length s1 = length s2 ->
  Forall (fun c => isDigit c = true) s1 ->
  Forall (fun c => isDigit c = true) s2 ->
  decimalValue s1 = decimalValue s2 -> s1 = s2.
Proof.
  intros Hl H1. revert s2 Hl.
  induction H1 as [|c1 s1 Hc1 Hs1 IH]; intros [|c2 s2] Hl H2 Hv;
    simpl in Hl; try congruence.
  apply Forall_cons in H2 as [Hc2 Hs2]. cbn [decimalValue] in Hv.
  assert (Hl' : length s1 = length s2) by congruence.
  rewrite Hl' in Hv.
  pose proof (decimalValue_range s1 Hs1) as R1.
  pose proof (decimalValue_range s2 Hs2) as R2.
  rewrite Hl' in R1.
  pose proof (isDigit_range c1 Hc1) as D1.
  pose proof (isDigit_range c2 Hc2) as D2.
  assert (Z.of_nat (nat_of_ascii c1) = Z.of_nat (nat_of_ascii c2)
          /\ decimalValue s1 = decimalValue s2) as [Hc Hs].
  { set (P := 10 ^ Z.of_nat (length s2)) in *.
    set (d1 := Z.of_nat (nat_of_ascii c1)) in *.
    set (d2 := Z.of_nat (nat_of_ascii c2)) in *.
    assert (d1 = d2)
      by (destruct (Z.lt_trichotomy d1 d2) as [L|[E|G]];
          [exfalso; nia | done | exfalso; nia]).
    split; [done|]. subst d1. nia. }
  f_equal.
  - apply Nat2Z.inj in Hc.
    rewrite <- (ascii_nat_embedding c1), <- (ascii_nat_embedding c2).
    by rewrite Hc.
  - by apply IH.
Qed.

Lemma matches_comm (xs ys : list ascii) : matches xs ys = matches ys xs.
Proof.
  revert ys. induction xs as [|x xs IH]; intros [|y ys]; simpl; try done.
  rewrite IH. destruct (decide (x = y)), (decide (y = x)); congruence.
Qed.

Section WithPlatform.
Context `{Platform}.

Lemma BigInt_decimal (s : string) :
  forallb isDigit (list_ascii_of_string s) = true ->
  BigInt s = Some (valueOf s).
Proof.
  intros Hd. unfold BigInt, valueOf. by rewrite Hd, BigInt_digits_value.
Qed.

(** [calculateDistance] on two 12-digit numerals, in closed form. *)
Lemma calculateDistance_closed (target guess : string) (config : PricingConfig.t) :
  isDecimal12 target = true -> isDecimal12 guess = true ->
  let t := list_ascii_of_string target in
  let g := list_ascii_of_string guess in
  let d := Z.abs (decimalValue t - decimalValue g) in
  calculateDistance target guess config =
  Ok (HintResult.mk (matches t g) (cows (mark g t) (mark t g)) d
        (matches t g =? 12)%nat (Pricing.determinePriceTier d config)).
Proof.
  intros Ht Hg t g d.
  pose proof (isDecimal12_chars _ Ht) as [Lt Dt].
  pose proof (isDecimal12_chars _ Hg) as [Lg Dg].
  unfold calculateDistance.
  rewrite !string_length_chars, Lt, Lg. simpl negb. simpl orb.
  cbv iota. fold t g. rewrite (bullsLoop_closed t g Lt Lg).
  pose proof (cowsLoop_closed (mark g t) (mark t g)) as Hc.
  rewrite mark_length in Hc by (unfold t, g; congruence). specialize (Hc Lg).
  destruct (cowsLoop (mark g t) (mark t g)) as [c rest]. simpl in Hc. subst c.
  rewrite !BigInt_decimal
    by (apply forallb_forall; intros c Hc%list_elem_of_In;
        revert c Hc; by apply Forall_forall).
  unfold valueOf. fold t g.
  assert ((if decimalValue t >? decimalValue g
           then decimalValue t - decimalValue g
           else decimalValue g - decimalValue t) = d) as ->.
  { unfold d. destruct (Z.gtb_spec (decimalValue t) (decimalValue g)); lia. }
  done.
Qed.

(** C3.  For 12-digit decimal strings [secret] and [guess] the scoring
    function returns a hint with [digitsInPlace + digitsCorrect <= 12];
    [digitsInPlace] is 12 exactly when the two strings are equal, which is
    also exactly when [isExactMatch] holds; and scoring a string against
    itself gives 12 bulls and no cows. *)
Theorem calculateDistance_bulls_cows (secret guess : string)
    (config : PricingConfig.t) :
  isDecimal12 secret = true -> isDecimal12 guess = true ->
  exists h, calculateDistance secret guess config = Ok h
    /\ (digitsInPlace h + digitsCorrect h <= 12)%nat
    /\ (digitsInPlace h = 12%nat <-> secret = guess)
    /\ (isExactMatch h = true <-> secret = guess)
    /\ (secret = guess -> digitsInPlace h = 12%nat /\ digitsCorrect h = 0%nat).
Proof.
  intros Hs Hg. rewrite (calculateDistance_closed _ _ config Hs Hg).
  pose proof (isDecimal12_chars _ Hs) as [Ls _].
  pose proof (isDecimal12_chars _ Hg) as [Lg _].
  set (t := list_ascii_of_string secret) in *.
  set (g := list_ascii_of_string guess) in *.
  assert (Hfull : matches t g = 12%nat <-> secret = guess).
  { rewrite <- Ls. rewrite matches_full by congruence. split.
    - apply chars_inj.
    - by intros ->. }
  eexists. split; [reflexivity|]. simpl. repeat split.
  - pose proof (cows_le_live (mark g t) (mark t g)).
    pose proof (live_mark t g ltac:(congruence)). lia.
  - apply Hfull.
  - apply Hfull.
  - intros ?%Nat.eqb_eq. by apply Hfull.
  - intros E. apply Nat.eqb_eq. by apply Hfull.
  - by apply Hfull.
  - assert (g = t) as -> by (subst t g; congruence).
    apply cows_no_live, mark_refl.
Qed.

(** C4.  For 12-digit decimal strings the hint's [numericDistance] is the
    absolute difference of the two values read as base-10 integers; it is the
    same with the arguments swapped, it is 0 exactly when the strings are
    equal, it never exceeds 999999999999, and that bound is reached by the
    pair ("000000000000", "999999999999"). *)
Theorem calculateDistance_numericDistance (a b : string)
    (config : PricingConfig.t) :
  isDecimal12 a = true -> isDecimal12 b = true ->
  exists h h',
    calculateDistance a b config = Ok h
    /\ calculateDistance b a config = Ok h'
    /\ numericDistance h = Z.abs (valueOf a - valueOf b)
    /\ numericDistance h' = numericDistance h
    /\ (numericDistance h = 0 <-> a = b)
    /\ 0 <= numericDistance h <= 999999999999
    /\ (exists m, calculateDistance "000000000000" "999999999999" config = Ok m
                  /\ numericDistance m = 999999999999).
Proof.
  intros Ha Hb.
  rewrite (calculateDistance_closed _ _ config Ha Hb),
          (calculateDistance_closed _ _ config Hb Ha).
  pose proof (isDecimal12_chars _ Ha) as [La Da].
  pose proof (isDecimal12_chars _ Hb) as [Lb Db].
  pose proof (decimalValue_range _ Da) as Ra.
  pose proof (decimalValue_range _ Db) as Rb.
  rewrite La in Ra. rewrite Lb in Rb. change (10 ^ Z.of_nat 12) with 1000000000000 in *.
  do 2 eexists. split; [reflexivity|]. split; [reflexivity|]. simpl.
  unfold valueOf. repeat split; try lia.
  - intros E. apply chars_inj, decimalValue_inj; try done; [congruence|lia].
  - intros ->. lia.
  - rewrite (calculateDistance_closed "000000000000" "999999999999" config)
      by reflexivity.
    eexists. split; reflexivity.
Qed.

(** C10.  Swapping the two 12-digit arguments of the scoring function leaves
    [digitsInPlace] and [digitsCorrect] unchanged, although the cows loop
    scans the guess and consumes cells of the target. *)
Theorem calculateDistance_swap (a b : string) (config : PricingConfig.t) :
  isDecimal12 a = true -> isDecimal12 b = true ->
  exists h h',
    calculateDistance a b config = Ok h
    /\ calculateDistance b a config = Ok h'
    /\ digitsInPlace h' = digitsInPlace h
    /\ digitsCorrect h' = digitsCorrect h.
Proof.
  intros Ha Hb.
  rewrite (calculateDistance_closed _ _ config Ha Hb),
          (calculateDistance_closed _ _ config Hb Ha).
  do 2 eexists. split; [reflexivity|]. split; [reflexivity|]. simpl. split.
  - apply matches_comm.
  - apply cows_mark_comm.
Qed.

End WithPlatform.
End ScoringFacts.

(** ** The audit ledger *)

Module AuditFacts.
Import AuditEntry AuditTrail Audit.
Section WithPlatform.
Context `{Platform}.

(** The entries stored for a round ([[]] when it has no trail yet). *)
Definition trailEntries (st : State) (roundId : string) : list AuditEntry.t :=
  match trails st !! roundId with
  | Some trail => entries trail
  | None => []
  end.

(** The entry [addAuditEntry] builds on top of [es]. *)
Definition newEntry (es : list AuditEntry.t) (roundId : string)
    (type : AuditEntryType) (data : list (string * JsonValue)) (ts : N)
  : AuditEntry.t :=
  let prev := previousHashAt es (length es) in
  AuditEntry.mk (length es) type roundId (JSON_stringify data) ts prev
    (entryHash (length es) type roundId (JSON_stringify data) ts prev).

(** What verification checks of the entry [e] stored at index [i]. *)
Definition entryOk (es : list AuditEntry.t) (i : nat) (e : AuditEntry.t) : Prop :=
  previousHash e = previousHashAt es i
  /\ hash e = entryHash (index e) (type e) (AuditEntry.roundId e) (data e)
                        (timestamp e) (previousHash e).

Lemma addAuditEntry_run (roundId : string) (type : AuditEntryType)
    (data : list (string * JsonValue)) (st : State) :
  let es := trailEntries st roundId in
  let e := newEntry es roundId type data (clock st (ticks st)) in
  let name := match trails st !! roundId with
              | Some trail => AuditTrail.roundId trail
              | None => roundId
              end in
  addAuditEntry roundId type data st =
  (Ok e, mkState (rounds st) (activeRoundId st)
           (<[roundId := AuditTrail.mk name (es ++ [e]) None]> (trails st))
           (signer st) (nonceCounter st) (clock st) (S (ticks st))).
Proof.
  unfold addAuditEntry, bind, getOrCreateTrail, trailEntries, newEntry, Date_now,
    modify, ret, set_trails, set_ticks.
  destruct (trails st !! roundId) as [trail|] eqn:E; simpl; [done|].
  by rewrite insert_insert_eq.
Qed.

Lemma previousHashAt_app (es : list AuditEntry.t) (x : AuditEntry.t) (i : nat) :
  (i <= length es)%nat -> previousHashAt (es ++ [x]) i = previousHashAt es i.
Proof.
  intros Hi. unfold previousHashAt.
  destruct (0 <? i)%nat eqn:E; [|done].
  apply Nat.ltb_lt in E. by rewrite lookup_app_l by lia.
Qed.

Lemma previousHashAt_insert (es : list AuditEntry.t) (x : AuditEntry.t) (i : nat) :
  previousHashAt (<[i:=x]> es) i = previousHashAt es i.
Proof.
  unfold previousHashAt.
  destruct (0 <? i)%nat eqn:E; [|done].
  apply Nat.ltb_lt in E. by rewrite list_lookup_insert_ne by lia.
Qed.

Lemma verifyFrom_true (es : list AuditEntry.t) (indices : list nat) :
  verifyFrom es indices = true <->
  forall i e, i ∈ indices -> es !! i = Some e -> entryOk es i e.
Proof.
  induction indices as [|i indices IH]; simpl.
  - split; [|done]. by intros _ i e ?%elem_of_nil.
  - destruct (es !! i) as [entry|] eqn:E.
    + destruct (bool_decide (previousHash entry = previousHashAt es i)) eqn:B1;
        simpl.
      * destruct (bool_decide (hash entry = entryHash (index entry) (type entry)
            (AuditEntry.roundId entry) (data entry) (timestamp entry)
            (previousHash entry))) eqn:B2; simpl.
        -- rewrite IH. apply bool_decide_eq_true in B1, B2. split.
           ++ intros Hall j e [->|Hj]%elem_of_cons He; [|by apply Hall].
              assert (e = entry) as -> by congruence. by split.
           ++ intros Hall j e Hj. apply Hall. by right.
        -- apply bool_decide_eq_false in B2. split; [done|].
           intros Hall. destruct (Hall i entry) as [_ ?]; [by left|done|done].
      * apply bool_decide_eq_false in B1. split; [done|].
        intros Hall. destruct (Hall i entry) as [? _]; [by left|done|done].
    + rewrite IH. split.
      * intros Hall j e [->|Hj]%elem_of_cons He; [congruence|by apply Hall].
      * intros Hall j e Hj. apply Hall. by right.
Qed.

Lemma verifyEntries_true (es : list AuditEntry.t) :
  verifyEntries es = true <-> forall i e, es !! i = Some e -> entryOk es i e.
Proof.
  unfold verifyEntries. rewrite verifyFrom_true. split.
  - intros Hall i e He. apply Hall; [|done].
    apply elem_of_seq. apply lookup_lt_Some in He. lia.
  - intros Hall i e _. apply Hall.
Qed.

Lemma verifyEntries_nil : verifyEntries [] = true.
Proof. reflexivity. Qed.

Lemma verifyEntries_append (es : list AuditEntry.t) (roundId : string)
    (type : AuditEntryType) (data : list (string * JsonValue)) (ts : N) :
  verifyEntries es = true ->
  verifyEntries (es ++ [newEntry es roundId type data ts]) = true.
Proof.
  rewrite !verifyEntries_true. intros Hall i e He.
  destruct (decide (i < length es)%nat) as [Hi|Hi].
  - rewrite lookup_app_l in He by done.
    destruct (Hall i e He) as [Hp Hh]. split; [|done].
    by rewrite previousHashAt_app by lia.
  - pose proof (lookup_lt_Some _ _ _ He) as Hlt.
    rewrite length_app in Hlt. simpl in Hlt.
    assert (i = length es) as -> by lia.
    rewrite list_lookup_middle in He by done. injection He as <-.
    split; [|done]. by rewrite previousHashAt_app by lia.
Qed.

Lemma verifyChainIntegrity_run (roundId : string) (st : State) :
  fst (verifyChainIntegrity roundId st) = Ok (verifyEntries (trailEntries st roundId)).
Proof.
  unfold verifyChainIntegrity, bind, getOrCreateTrail, trailEntries, ret.
  by destruct (trails st !! roundId).
Qed.

(** A trail built by appending: the calls of [addAuditEntry] for one round,
    in order. *)
Fixpoint addAuditEntries (roundId : string)
    (calls : list (AuditEntryType * list (string * JsonValue))) : M unit :=
  match calls with
  | [] => ret tt
  | (type, data) :: calls' =>
      addAuditEntry roundId type data ;; addAuditEntries roundId calls'
  end.

(** An alteration after the fact: the entry stored at index [i] of the
    round's trail is overwritten with [e']. *)
Definition alterEntry (roundId : string) (i : nat) (e' : AuditEntry.t)
    (st : State) : State :=
  set_trails (alter (fun trail =>
    AuditTrail.mk (AuditTrail.roundId trail) (<[i:=e']> (entries trail))
                  (merkleRoot trail)) roundId) st.

Definition with_hash (h : Hash) (e : AuditEntry.t) : AuditEntry.t :=
  AuditEntry.mk (index e) (type e) (AuditEntry.roundId e) (data e) (timestamp e)
                (previousHash e) h.

Definition with_previousHash (p : Hash) (e : AuditEntry.t) : AuditEntry.t :=
  AuditEntry.mk (index e) (type e) (AuditEntry.roundId e) (data e) (timestamp e)
                p (hash e).

Definition with_fields (i : nat) (ty : AuditEntryType) (rid d : string) (ts : N)
    (e : AuditEntry.t) : AuditEntry.t :=
  AuditEntry.mk i ty rid d ts (previousHash e) (hash e).

Lemma trailEntries_addAuditEntry (roundId : string) (type : AuditEntryType)
    (data : list (string * JsonValue)) (st : State) :
  trailEntries (snd (addAuditEntry roundId type data st)) roundId
  = trailEntries st roundId
    ++ [newEntry (trailEntries st roundId) roundId type data (clock st (ticks st))].
Proof.
  rewrite addAuditEntry_run. unfold trailEntries at 1. simpl.
  by rewrite lookup_insert_eq.
Qed.

Lemma addAuditEntries_verified (roundId : string)
    (calls : list (AuditEntryType * list (string * JsonValue))) (st : State) :
  verifyEntries (trailEntries st roundId) = true ->
  verifyEntries (trailEntries (snd (addAuditEntries roundId calls st)) roundId)
  = true.
Proof.
  revert st. induction calls as [|[type data] calls IH]; intros st Hv; [done|].
  cbn [addAuditEntries]. unfold bind.
  pose proof (trailEntries_addAuditEntry roundId type data st) as Ht.
  rewrite addAuditEntry_run in *. cbn [snd] in Ht.
  apply IH. rewrite Ht. by apply verifyEntries_append.
Qed.

Lemma trailEntries_alterEntry (roundId : string) (i : nat) (e' : AuditEntry.t)
    (st : State) :
  trailEntries (alterEntry roundId i e' st) roundId
  = <[i:=e']> (trailEntries st roundId).
Proof.
  unfold trailEntries, alterEntry. simpl. rewrite lookup_alter_eq.
  by destruct (trails st !! roundId).
Qed.

Lemma verifyEntries_altered (es : list AuditEntry.t) (i : nat)
    (e e' : AuditEntry.t) :
  verifyEntries es = true -> es !! i = Some e ->
  previousHash e' <> previousHash e
  \/ hash e' <> entryHash (index e') (type e') (AuditEntry.roundId e') (data e')
                         (timestamp e') (previousHash e') ->
  verifyEntries (<[i:=e']> es) = false.
Proof.
  intros Hv He Hbad.
  destruct (verifyEntries (<[i:=e']> es)) eqn:V; [exfalso|done].
  rewrite verifyEntries_true in Hv, V.
  destruct (Hv i e He) as [Hp _].
  destruct (V i e') as [Hp' Hh'].
  { apply list_lookup_insert_eq. by eapply lookup_lt_Some. }
  rewrite previousHashAt_insert in Hp'.
  destruct Hbad as [Hbad|Hbad]; [congruence|done].
Qed.

(** X2.  Appending leaves the entries already stored as they are and adds one
    entry per call, in call order: the entry added by the [i]-th call carries
    the index of the cell it is stored in, the round's identifier, and the
    type and the JSON text of the data it was called with. *)
Theorem addAuditEntries_appends (roundId : string)
    (calls : list (AuditEntryType * list (string * JsonValue))) (st : State) :
  let es := trailEntries st roundId in
  let es' := trailEntries (snd (addAuditEntries roundId calls st)) roundId in
  take (length es) es' = es
  /\ length es' = (length es + length calls)%nat
  /\ (forall i e, es' !! (length es + i)%nat = Some e ->
        exists ty d, calls !! i = Some (ty, d)
          /\ index e = (length es + i)%nat
          /\ AuditEntry.roundId e = roundId
          /\ type e = ty
          /\ data e = JSON_stringify d).
Proof.
  revert st. induction calls as [|[ty d] calls IH]; intros st es es'.
  - subst es es'. simpl. split; [by rewrite firstn_all|]. split; [lia|].
    intros i e He. apply lookup_lt_Some in He. lia.
  - subst es es'. cbn [addAuditEntries]. unfold bind.
    pose proof (trailEntries_addAuditEntry roundId ty d st) as Ht.
    rewrite addAuditEntry_run in *. cbn [snd] in Ht.
    match goal with |- context [addAuditEntries roundId calls ?s] =>
      set (st1 := s) in * end.
    destruct (IH st1) as (Hpre&Hlen&Hnew). rewrite Ht in Hpre, Hlen, Hnew.
    rewrite length_app in Hpre, Hlen, Hnew. simpl in Hpre, Hlen, Hnew.
    set (es := trailEntries st roundId) in *.
    set (es' := trailEntries (snd (addAuditEntries roundId calls st1)) roundId) in *.
    assert (Hes' : take (length es) es' = es).
    { apply (f_equal (take (length es))) in Hpre.
      rewrite take_take, Nat.min_l in Hpre by lia.
      by rewrite Hpre, take_app_length. }
    split; [done|]. split; [simpl; lia|].
    intros [|i] e He.
    + exists ty, d. split; [done|].
      assert (Hlook : es' !! (length es + 0)%nat
                      = (es ++ [newEntry es roundId ty d (clock st (ticks st))])
                          !! (length es + 0)%nat).
      { rewrite <- Hpre. rewrite lookup_take_lt by lia. done. }
      rewrite He, Nat.add_0_r, list_lookup_middle in Hlook by done.
      injection Hlook as ->. simpl. by rewrite Nat.add_0_r.
    + destruct (Hnew i e) as (ty'&d'&?&?&?&?&?).
      { rewrite <- He. f_equal. lia. }
      exists ty', d'. repeat split; try done. lia.
Qed.

End WithPlatform.

(** The claim as first stated promises detection of every altered field.  It
    fails: the packed encoding concatenates [roundId] and [data] with no
    separator, so moving a character from one to the other leaves the hashed
    bytes, hence the digest, unchanged, whatever [keccak256] is. *)
Definition moveCharacter (e : AuditEntry.t) : AuditEntry.t :=
  AuditEntry.mk (index e) (type e) "r" ("1" +:+ data e) (timestamp e)
                (previousHash e) (hash e).


End AuditFacts.

(** ** The Merkle root *)

Module MerkleFacts.
Import AuditEntry AuditTrail Audit AuditFacts.
Section WithPlatform.
Context `{Platform}.

(** The root as section 4.4 of the specification words it: pad the ordered
    leaf hashes with the zero sentinel up to the next power of two, then
    reduce pairwise, bottom-up, with [H(left, right)] until one root remains. *)
Fixpoint pairUp (leaves : list Hash) : list Hash :=
  match leaves with
  | l :: r :: rest => hashPair l r :: pairUp rest
  | _ => []
  end.

Definition specMerkleRoot (hashes : list Hash) : Hash :=
  match hashes with
  | [] => ZERO_HASH
  | _ =>
      let k := Nat.log2_up (length hashes) in
      let padded := hashes ++ repeat ZERO_HASH (2 ^ k - length hashes) in
      match Nat.iter k pairUp padded with
      | root :: _ => root
      | [] => ZERO_HASH
      end
  end.

(** The pairs of nodes hashed while one level, and then the whole tree, is
    reduced. *)
Fixpoint levelPairs (leaves : list Hash) : list (Hash * Hash) :=
  match leaves with
  | [] => []
  | l :: rest =>
      match rest with
      | [] => [(l, ZERO_HASH)]
      | r :: rest' => (l, r) :: levelPairs rest'
      end
  end.

Fixpoint reducePairs (fuel : nat) (leaves : list Hash) : list (Hash * Hash) :=
  match fuel with
  | O => []
  | S fuel' =>
      if (1 <? length leaves)%nat
      then levelPairs leaves ++ reducePairs fuel' (nextLevel leaves)
      else []
  end.

Definition hashedPairs (hashes : list Hash) : list (Hash * Hash) :=
  let leaves := padLoop (length hashes) hashes in
  reducePairs (length leaves) leaves.

(** No two different pairs in [ps] have the same node hash. *)
Definition collisionFree (ps : list (Hash * Hash)) : bool :=
  forallb (fun p => forallb (fun q =>
    implb (bool_decide (hashPair (fst p) (snd p) = hashPair (fst q) (snd q)))
          (bool_decide (p = q))) ps) ps.

Lemma collisionFree_spec (ps : list (Hash * Hash)) (a b c d : Hash) :
  collisionFree ps = true -> (a, b) ∈ ps -> (c, d) ∈ ps ->
  hashPair a b = hashPair c d -> a = c /\ b = d.
Proof.
  unfold collisionFree. intros Hf Hp Hq E.
  rewrite forallb_forall in Hf. apply list_elem_of_In in Hp, Hq.
  specialize (Hf _ Hp). rewrite forallb_forall in Hf. specialize (Hf _ Hq).
  simpl in Hf. rewrite (bool_decide_eq_true_2 _ E) in Hf. simpl in Hf.
  apply bool_decide_eq_true in Hf. by injection Hf.
Qed.

Lemma collisionFree_subseteq (ps qs : list (Hash * Hash)) :
  qs ⊆ ps -> collisionFree ps = true -> collisionFree qs = true.
Proof.
  unfold collisionFree. intros Hsub Hf.
  rewrite forallb_forall in Hf. apply forallb_forall. intros p Hp.
  apply forallb_forall. intros q Hq.
  apply list_elem_of_In, Hsub, list_elem_of_In in Hp, Hq.
  specialize (Hf p Hp). rewrite forallb_forall in Hf. by apply Hf.
Qed.

(** *** Powers of two *)

Lemma land_pred_pow2 (k : nat) : Nat.land (2 ^ k) (2 ^ k - 1) = 0%nat.
Proof.
  replace (2 ^ k - 1)%nat with (Nat.ones k) by (rewrite Nat.ones_equiv; lia).
  rewrite Nat.land_ones. apply Nat.Div0.mod_same.
Qed.

Lemma land_pred_zero (n : nat) :
  (1 <= n)%nat -> Nat.land n (n - 1) = 0%nat -> n = (2 ^ Nat.log2 n)%nat.
Proof.
  intros Hn Hz.
  pose proof (Nat.log2_spec n ltac:(lia)) as [Hlo Hhi].
  destruct (decide (n = 2 ^ Nat.log2 n)%nat) as [|Hne]; [done|exfalso].
  assert (Hpos : (2 ^ Nat.log2 n)%nat <> 0%nat) by (apply Nat.pow_nonzero; lia).
  assert (Hk : Nat.log2 (n - 1) = Nat.log2 n).
  { apply Nat.log2_unique; [lia|]. split; lia. }
  assert (Hb : Nat.testbit (Nat.land n (n - 1)) (Nat.log2 n) = true).
  { rewrite Nat.land_spec. rewrite Nat.bit_log2 by lia.
    rewrite <- Hk. rewrite Nat.bit_log2; [done|]. lia. }
  rewrite Hz in Hb. by rewrite Nat.bits_0 in Hb.
Qed.

Lemma pow2_log2_up_lt (n : nat) : (1 <= n -> 2 ^ Nat.log2_up n < 2 * n)%nat.
Proof.
  intros Hn. destruct (decide (n = 1)%nat) as [->|Hne]; [simpl; lia|].
  pose proof (Nat.log2_up_spec n ltac:(lia)) as [Hlo _].
  pose proof (Nat.log2_up_pos n ltac:(lia)) as Hpos.
  replace (Nat.log2_up n) with (S (Nat.pred (Nat.log2_up n))) by lia.
  rewrite Nat.pow_succ_r'. lia.
Qed.

(** *** The padding loop *)

Lemma padLoop_closed (fuel : nat) (l : list Hash) (n : nat) :
  (1 <= n)%nat -> (n <= length l <= 2 ^ Nat.log2_up n)%nat ->
  (2 ^ Nat.log2_up n - length l <= fuel)%nat ->
  padLoop fuel l = l ++ repeat ZERO_HASH (2 ^ Nat.log2_up n - length l).
Proof.
  intros Hn. revert l. induction fuel as [|fuel IH]; intros l [Hlo Hhi] Hf.
  - simpl. replace (2 ^ Nat.log2_up n - length l)%nat with 0%nat by lia.
    by rewrite app_nil_r.
  - cbn [padLoop].
    destruct (decide (length l = 2 ^ Nat.log2_up n)%nat) as [E|NE].
    + rewrite E, land_pred_pow2. simpl. rewrite andb_false_r.
      rewrite Nat.sub_diag. by rewrite app_nil_r.
    + assert (Hnz : Nat.land (length l) (length l - 1) <> 0%nat).
      { intros Hz. apply land_pred_zero in Hz; [|lia].
        assert (Hle : (Nat.log2_up n <= Nat.log2 (length l))%nat)
          by (apply Nat.log2_up_le_pow2; lia).
        pose proof (Nat.pow_le_mono_r 2 _ _ ltac:(lia) Hle). lia. }
      assert (H1 : (1 < length l)%nat).
      { destruct (decide (length l = 1)%nat) as [E1|]; [|lia].
        assert (n = 1)%nat as -> by lia. simpl in NE. lia. }
      apply Nat.ltb_lt in H1. rewrite H1.
      apply Nat.eqb_neq in Hnz. rewrite Hnz. simpl.
      rewrite IH; rewrite ?length_app; simpl; try lia.
      rewrite <- app_assoc. f_equal.
      replace (2 ^ Nat.log2_up n - length l)%nat
        with (S (2 ^ Nat.log2_up n - (length l + 1)))%nat by lia.
      done.
Qed.

Lemma padLoop_padded (hashes : list Hash) :
  hashes <> [] ->
  padLoop (length hashes) hashes
  = hashes ++ repeat ZERO_HASH (2 ^ Nat.log2_up (length hashes) - length hashes).
Proof.
  intros Hne.
  assert (1 <= length hashes)%nat by (destruct hashes; simpl; [done|lia]).
  pose proof (pow2_log2_up_lt (length hashes) ltac:(lia)).
  assert (length hashes <= 2 ^ Nat.log2_up (length hashes))%nat.
  { destruct (decide (length hashes = 1)%nat) as [->|]; [simpl; lia|].
    apply Nat.log2_up_spec. lia. }
  apply padLoop_closed; lia.
Qed.

(** *** The reduction loop *)

Lemma nextLevel_pairUp (m : nat) (l : list Hash) :
  length l = (2 * m)%nat -> nextLevel l = pairUp l /\ length (pairUp l) = m.
Proof.
  revert l. induction m as [|m IH]; intros l Hl.
  - destruct l; [done|simpl in Hl; lia].
  - destruct l as [|x [|y l]]; simpl in Hl; try lia.
    destruct (IH l ltac:(lia)) as [E1 E2]. simpl. rewrite E1, E2. done.
Qed.

Lemma reduceLoop_closed (k fuel : nat) (l : list Hash) :
  length l = (2 ^ k)%nat -> (k <= fuel)%nat ->
  reduceLoop fuel l = Nat.iter k pairUp l.
Proof.
  revert fuel l. induction k as [|k IH]; intros fuel l Hl Hf.
  - simpl in Hl. destruct fuel; simpl; [done|]. by rewrite Hl.
  - destruct fuel as [|fuel]; [lia|]. cbn [reduceLoop].
    rewrite Nat.pow_succ_r' in Hl.
    assert (Hpos : (2 ^ k)%nat <> 0%nat) by (apply Nat.pow_nonzero; lia).
    assert (H1 : (1 <? length l)%nat = true) by (apply Nat.ltb_lt; lia).
    rewrite H1. destruct (nextLevel_pairUp _ _ Hl) as [-> Hlen].
    rewrite IH by (done || lia). by rewrite Nat.iter_succ_r.
Qed.

(** The code computes the root the specification describes. *)
Lemma merkleRootOf_spec (hashes : list Hash) :
  hashes <> [] -> merkleRootOf hashes = specMerkleRoot hashes.
Proof.
  intros Hne. unfold merkleRootOf, specMerkleRoot.
  rewrite padLoop_padded by done.
  assert (1 <= length hashes)%nat by (destruct hashes; simpl; [done|lia]).
  assert (length hashes <= 2 ^ Nat.log2_up (length hashes))%nat.
  { destruct (decide (length hashes = 1)%nat) as [->|]; [simpl; lia|].
    apply Nat.log2_up_spec. lia. }
  set (k := Nat.log2_up (length hashes)) in *.
  set (padded := hashes ++ repeat ZERO_HASH (2 ^ k - length hashes)).
  assert (Hlen : length padded = (2 ^ k)%nat).
  { unfold padded. rewrite length_app, repeat_length. lia. }
  rewrite (reduceLoop_closed k) by (done || (rewrite Hlen; apply Nat.lt_le_incl, Nat.pow_gt_lin_r; lia)).
  by destruct hashes.
Qed.

(** *** The root determines the leaves, collisions apart *)

Lemma list_pair_ind {A} (P : list A -> Prop) :
  P [] -> (forall x, P [x]) -> (forall x y l, P l -> P (x :: y :: l)) ->
  forall l, P l.
Proof.
  intros P0 P1 P2. fix IH 1. intros [|x [|y l]]; [done|done|].
  apply P2, IH.
Qed.

Lemma nextLevel_length (l : list Hash) :
  length (nextLevel l) = Nat.div2 (S (length l)).
Proof.
  induction l as [| |x y l IH] using list_pair_ind; [done|done|].
  cbn [nextLevel length]. rewrite IH. done.
Qed.

Lemma reduceLoop_singleton (fuel : nat) (l : list Hash) :
  l <> [] -> (length l <= S fuel)%nat -> length (reduceLoop fuel l) = 1%nat.
Proof.
  revert l. induction fuel as [|fuel IH]; intros l Hne Hl.
  - destruct l as [|x [|y l]]; simpl in *; [done|done|lia].
  - cbn [reduceLoop]. destruct (1 <? length l)%nat eqn:E.
    + apply Nat.ltb_lt in E.
      pose proof (nextLevel_length l) as Hn.
      rewrite Nat.div2_div in Hn.
      pose proof (Nat.div_mod_eq (S (length l)) 2) as Hd.
      pose proof (Nat.mod_upper_bound (S (length l)) 2 ltac:(lia)) as Hm.
      apply IH; [|lia].
      destruct l as [|x [|y l]]; simpl in *; try lia. done.
    + apply Nat.ltb_ge in E. destruct l; simpl in *; [done|lia].
Qed.

Lemma nextLevel_inj (ps : list (Hash * Hash)) (l l' : list Hash) :
  collisionFree ps = true ->
  length l = length l' -> levelPairs l ⊆ ps -> levelPairs l' ⊆ ps ->
  nextLevel l = nextLevel l' -> l = l'.
Proof.
  intros Hcf. revert l'.
  induction l as [|x|x y l IH] using list_pair_ind;
    intros [|x' [|y' l']] Hlen Hs Hs' E; simpl in Hlen; try lia; try done.
  - cbn in E. injection E as E.
    destruct (collisionFree_spec ps x ZERO_HASH x' ZERO_HASH Hcf) as [-> _];
      [apply Hs; by left|apply Hs'; by left|done|done].
  - cbn [nextLevel] in E. injection E as E1 E2.
    cbn [levelPairs] in Hs, Hs'.
    destruct (collisionFree_spec ps x y x' y' Hcf) as [-> ->];
      [apply Hs; by left|apply Hs'; by left|done|].
    f_equal. f_equal. apply IH; [lia| | |done].
    + intros p Hp. apply Hs. by right.
    + intros p Hp. apply Hs'. by right.
Qed.

Lemma reduceLoop_inj (ps : list (Hash * Hash)) (fuel : nat) (l l' : list Hash) :
  collisionFree ps = true ->
  length l = length l' ->
  reducePairs fuel l ⊆ ps -> reducePairs fuel l' ⊆ ps ->
  reduceLoop fuel l = reduceLoop fuel l' -> l = l'.
Proof.
  intros Hcf. revert l l'.
  induction fuel as [|fuel IH]; intros l l' Hlen Hs Hs' E; [done|].
  cbn [reduceLoop reducePairs] in *. rewrite <- Hlen in *.
  destruct (1 <? length l)%nat; [|done].
  apply (nextLevel_inj ps); try done.
  - intros p Hp. apply Hs, elem_of_app. by left.
  - intros p Hp. apply Hs', elem_of_app. by left.
  - apply IH; try done.
    + by rewrite !nextLevel_length, Hlen.
    + intros p Hp. apply Hs, elem_of_app. by right.
    + intros p Hp. apply Hs', elem_of_app. by right.
Qed.

Lemma merkleRootOf_inj (hs hs' : list Hash) :
  length hs = length hs' ->
  collisionFree (hashedPairs hs ++ hashedPairs hs') = true ->
  merkleRootOf hs = merkleRootOf hs' -> hs = hs'.
Proof.
  intros Hlen Hcf Hroot.
  destruct hs as [|h0 hs0] eqn:Ehs.
  { destruct hs'; [done|simpl in Hlen; lia]. }
  rewrite <- Ehs in *. assert (Hne : hs <> []) by (by rewrite Ehs).
  assert (Hne' : hs' <> []) by (destruct hs'; [rewrite Ehs in Hlen|]; done).
  unfold merkleRootOf, hashedPairs in *.
  rewrite !padLoop_padded in * by done. rewrite <- Hlen in *.
  set (z := repeat ZERO_HASH (2 ^ Nat.log2_up (length hs) - length hs)) in *.
  assert (Hl : length (hs ++ z) = length (hs' ++ z))
    by (rewrite !length_app; lia).
  rewrite <- Hl in *.
  assert (Hpne : hs ++ z <> []) by (rewrite Ehs; done).
  assert (Hpne' : hs' ++ z <> []) by (destruct hs'; done).
  pose proof (reduceLoop_singleton (length (hs ++ z)) (hs ++ z) Hpne ltac:(lia)) as L1.
  pose proof (reduceLoop_singleton (length (hs ++ z)) (hs' ++ z) Hpne' ltac:(lia)) as L2.
  assert (E : reduceLoop (length (hs ++ z)) (hs ++ z)
              = reduceLoop (length (hs ++ z)) (hs' ++ z)).
  { destruct (reduceLoop (length (hs ++ z)) (hs ++ z)) as [|r [|? ?]];
      simpl in L1; try lia.
    destruct (reduceLoop (length (hs ++ z)) (hs' ++ z)) as [|r' [|? ?]];
      simpl in L2; try lia.
    by rewrite Hroot. }
  apply reduceLoop_inj with (ps := reducePairs (length (hs ++ z)) (hs ++ z)
                                  ++ reducePairs (length (hs ++ z)) (hs' ++ z))
    in E; try done.
  - by apply app_inv_tail in E.
  - intros p Hp. apply elem_of_app. by left.
  - intros p Hp. apply elem_of_app. by right.
Qed.

(** *** [computeMerkleRoot] on the state *)

Lemma computeMerkleRoot_run (roundId : string) (st : State) :
  let es := trailEntries st roundId in
  fst (computeMerkleRoot roundId st)
  = Ok (if (length es =? 0)%nat then ZERO_HASH else merkleRootOf (map hash es))
  /\ trailEntries (snd (computeMerkleRoot roundId st)) roundId = es.
Proof.
  unfold computeMerkleRoot, bind, getOrCreateTrail, trailEntries, modify, ret.
  destruct (trails st !! roundId) as [trail|] eqn:E; simpl.
  - destruct (length (entries trail) =? 0)%nat; simpl; rewrite ?E;
      rewrite ?lookup_insert_eq; done.
  - by rewrite lookup_insert_eq.
Qed.

(** C8.  The Merkle root of a round is the 32-zero-byte sentinel when the
    trail is empty; otherwise it is the pairwise bottom-up reduction of the
    entry hashes padded with the sentinel up to the next power of two;
    computing it again returns the same root; and when two different entry
    hashes trade places the root changes, as long as no two different pairs
    among those hashed for the two trees collide under [hashPair]. *)
Theorem computeMerkleRoot_spec (roundId : string) (st : State) :
  let hs := map hash (trailEntries st roundId) in
  (hs = [] -> fst (computeMerkleRoot roundId st) = Ok ZERO_HASH)
  /\ (hs <> [] -> fst (computeMerkleRoot roundId st) = Ok (specMerkleRoot hs))
  /\ fst (computeMerkleRoot roundId (snd (computeMerkleRoot roundId st)))
     = fst (computeMerkleRoot roundId st)
  /\ (forall (st2 : State) (i j : nat) (a b : Hash),
        hs !! i = Some a -> hs !! j = Some b -> a <> b ->
        map hash (trailEntries st2 roundId) = <[i:=b]> (<[j:=a]> hs) ->
        collisionFree (hashedPairs hs ++ hashedPairs (<[i:=b]> (<[j:=a]> hs)))
          = true ->
        fst (computeMerkleRoot roundId st2) <> fst (computeMerkleRoot roundId st)).
Proof.
  intros hs.
  destruct (computeMerkleRoot_run roundId st) as [Hrun Hkeep].
  split; [|split; [|split]].
  - intros E. rewrite Hrun. subst hs.
    destruct (trailEntries st roundId); [done|discriminate E].
  - intros NE. rewrite Hrun. subst hs.
    destruct (trailEntries st roundId) as [|e es] eqn:E; [done|].
    cbn [length Nat.eqb]. by rewrite merkleRootOf_spec.
  - destruct (computeMerkleRoot_run roundId (snd (computeMerkleRoot roundId st)))
      as [Hrun2 _].
    rewrite Hrun2, Hrun, Hkeep. done.
  - intros st2 i j a b Hi Hj Hab Hst2 Hcf Eroot.
    destruct (computeMerkleRoot_run roundId st2) as [Hrun2 _].
    rewrite Hrun2, Hrun in Eroot.
    assert (Hlen : length (trailEntries st2 roundId) = length (trailEntries st roundId)).
    { rewrite <- (length_map hash), Hst2. subst hs.
      by rewrite !length_insert, length_map. }
    rewrite Hlen in Eroot.
    assert (Hne : trailEntries st roundId <> []).
    { intros E. subst hs. rewrite E in Hi. done. }
    destruct (trailEntries st roundId) as [|e es] eqn:E; [done|].
    cbn [length Nat.eqb] in Eroot. injection Eroot as Eroot.
    rewrite Hst2 in Eroot. fold hs in Eroot.
    apply merkleRootOf_inj in Eroot.
    + apply (f_equal (fun l => l !! i)) in Eroot.
      rewrite list_lookup_insert_eq in Eroot
        by (rewrite length_insert; by eapply lookup_lt_Some).
      unfold hs in *. simpl in *. congruence.
    + by rewrite !length_insert.
    + rewrite collisionFree_subseteq with (ps := hashedPairs hs ++ hashedPairs (<[i:=b]> (<[j:=a]> hs))); try done.
      intros p. rewrite !elem_of_app. tauto.
Qed.

End WithPlatform.
End MerkleFacts.

(** ** Reasoning about the engine monad *)

Module MonadFacts.

(** [m] relates the state it starts in to the state it ends in by [R], whether
    it returns or throws. *)
Definition rel {A} (R : State -> State -> Prop) (m : M A) : Prop :=
  forall st, R st (snd (m st)).

Class Preorder' (R : State -> State -> Prop) := {
  preorder_refl : forall st, R st st;
  preorder_trans : forall s1 s2 s3, R s1 s2 -> R s2 s3 -> R s1 s3 }.

Lemma rel_ret {A} R `{Preorder' R} (a : A) : rel R (ret a).
Proof. intros st. apply preorder_refl. Qed.

Lemma rel_throw {A} R `{Preorder' R} (e : Exception) : rel R (@throw A e).
Proof. intros st. apply preorder_refl. Qed.

Lemma rel_liftResult {A} R `{Preorder' R} (r : Result A) : rel R (liftResult r).
Proof. intros st. apply preorder_refl. Qed.

Lemma rel_gets {A} R `{Preorder' R} (f : State -> A) : rel R (gets f).
Proof. intros st. apply preorder_refl. Qed.

Lemma rel_bind {A B} R `{Preorder' R} (m : M A) (k : A -> M B) :
  rel R m -> (forall a, rel R (k a)) -> rel R (bind m k).
Proof.
  intros Hm Hk st. unfold bind. specialize (Hm st).
  destruct (m st) as [[a|e] st1]; simpl in *; [|done].
  eapply preorder_trans; [exact Hm|apply Hk].
Qed.

Lemma rel_modify R (f : State -> State) :
  (forall st, R st (f st)) -> rel R (modify f).
Proof. intros Hf st. apply Hf. Qed.

Lemma rel_if {A} R (b : bool) (m1 m2 : M A) :
  rel R m1 -> rel R m2 -> rel R (if b then m1 else m2).
Proof. by destruct b. Qed.

(** Decomposing a run that returned. *)
Lemma bind_Ok {A B} (m : M A) (k : A -> M B) (st st' : State) (b : B) :
  bind m k st = (Ok b, st') ->
  exists a st1, m st = (Ok a, st1) /\ k a st1 = (Ok b, st').
Proof.
  unfold bind. destruct (m st) as [[a|e] st1]; [|done]. eauto.
Qed.

(** Decomposing a run that threw. *)
Lemma bind_Throw {A B} (m : M A) (k : A -> M B) (st st' : State) (e : Exception) :
  bind m k st = (Throw e, st') ->
  m st = (Throw e, st')
  \/ exists a st1, m st = (Ok a, st1) /\ k a st1 = (Throw e, st').
Proof.
  unfold bind. destruct (m st) as [[a|e0] st1]; [eauto|].
  intros [= -> ->]. by left.
Qed.

End MonadFacts.

(** ** The engine: what each operation leaves alone *)

Module EngineFacts.
Import MonadFacts RoundState Game.

(** Operations that write neither a round, nor the signer, nor the active
    round, and that never lower the nonce counter. *)
Definition Quiet (s s' : State) : Prop :=
  rounds s' = rounds s
  /\ signer s' = signer s
  /\ activeRoundId s' = activeRoundId s
  /\ nonceCounter s <= nonceCounter s'.

#[global] Instance Quiet_preorder : Preorder' Quiet.
Proof.
  split.
  - intros st. unfold Quiet. repeat split; lia.
  - intros s1 s2 s3 (?&?&?&?) (?&?&?&?). unfold Quiet.
    repeat split; try congruence; lia.
Qed.

Class QuietImplies (R : State -> State -> Prop) :=
  quiet_implies : forall s s', Quiet s s' -> R s s'.

Lemma rel_quiet {A} R `{QuietImplies R} (m : M A) : rel Quiet m -> rel R m.
Proof. intros Hm st. apply quiet_implies, Hm. Qed.

Create HintDb quiet.
Create HintDb rel_hints.

Ltac rel_go :=
  repeat first
    [ solve [apply rel_ret; typeclasses eauto]
    | solve [apply rel_throw; typeclasses eauto]
    | solve [apply rel_liftResult; typeclasses eauto]
    | solve [apply rel_gets; typeclasses eauto]
    | solve [auto with quiet]
    | solve [eauto with rel_hints]
    | solve [apply rel_quiet; [typeclasses eauto|auto with quiet]]
    | (apply rel_bind; [typeclasses eauto| |intros ?])
    | apply rel_if ].

Section WithPlatform.
Context `{Platform}.

Lemma Crypto_number_succ_le (n : Z) : n <= Crypto.number_succ n.
Proof. unfold Crypto.number_succ. destruct (n <? 2 ^ 53); lia. Qed.

Lemma quiet_Date_now : rel Quiet Date_now.
Proof. intros st. unfold Quiet. simpl. repeat split; lia. Qed.

Lemma quiet_getNextNonce : rel Quiet Crypto.getNextNonce.
Proof.
  intros st. unfold Quiet. simpl. repeat split. apply Crypto_number_succ_le.
Qed.

Lemma quiet_getSigner : rel Quiet Crypto.getSigner.
Proof.
  intros st. unfold Crypto.getSigner.
  destruct (signer st); apply preorder_refl.
Qed.

Lemma quiet_getOrCreateTrail (roundId : string) :
  rel Quiet (Audit.getOrCreateTrail roundId).
Proof.
  intros st. unfold Audit.getOrCreateTrail.
  destruct (trails st !! roundId); [apply preorder_refl|].
  unfold Quiet. simpl. repeat split; lia.
Qed.

Lemma quiet_set_trails (f : gmap string AuditTrail.t -> gmap string AuditTrail.t) :
  rel Quiet (modify (set_trails f)).
Proof. intros st. unfold Quiet. simpl. repeat split; lia. Qed.

#[local] Hint Resolve quiet_Date_now quiet_getNextNonce quiet_getSigner
  quiet_getOrCreateTrail quiet_set_trails : quiet.

Lemma quiet_signStartRound a b c d : rel Quiet (Crypto.signStartRound a b c d).
Proof. unfold Crypto.signStartRound. rel_go. Qed.

Lemma quiet_signHint a b c d e f : rel Quiet (Crypto.signHint a b c d e f).
Proof. unfold Crypto.signHint. rel_go. Qed.

Lemma quiet_signPriceUpdate a b c : rel Quiet (Crypto.signPriceUpdate a b c).
Proof. unfold Crypto.signPriceUpdate. rel_go. Qed.

Lemma quiet_signWinner a b c : rel Quiet (Crypto.signWinner a b c).
Proof. unfold Crypto.signWinner. rel_go. Qed.

Lemma quiet_signAuditRoot a b c d : rel Quiet (Crypto.signAuditRoot a b c d).
Proof. unfold Crypto.signAuditRoot. rel_go. Qed.

Lemma quiet_addAuditEntry a b c : rel Quiet (Audit.addAuditEntry a b c).
Proof. unfold Audit.addAuditEntry. rel_go. Qed.

Lemma quiet_computeMerkleRoot a : rel Quiet (Audit.computeMerkleRoot a).
Proof. unfold Audit.computeMerkleRoot. rel_go. Qed.

#[local] Hint Resolve quiet_signStartRound quiet_signHint quiet_signPriceUpdate
  quiet_signWinner quiet_signAuditRoot quiet_addAuditEntry
  quiet_computeMerkleRoot : quiet.

Lemma quiet_getSignedAuditRoot a : rel Quiet (Audit.getSignedAuditRoot a).
Proof. unfold Audit.getSignedAuditRoot. rel_go. Qed.

Lemma quiet_verifyChainIntegrity a : rel Quiet (Audit.verifyChainIntegrity a).
Proof. unfold Audit.verifyChainIntegrity. rel_go. Qed.

End WithPlatform.

#[global] Hint Resolve quiet_Date_now quiet_getNextNonce quiet_getSigner
  quiet_getOrCreateTrail quiet_set_trails quiet_signStartRound quiet_signHint
  quiet_signPriceUpdate quiet_signWinner quiet_signAuditRoot
  quiet_addAuditEntry quiet_computeMerkleRoot quiet_getSignedAuditRoot
  quiet_verifyChainIntegrity : quiet.

End EngineFacts.

(** ** Round life cycle *)

Module LifecycleFacts.
Import MonadFacts EngineFacts RoundState Game.

(** The calls the HTTP layer and the tests make on the engine.  A call of
    [StartNewRound] carries what the random sources return to it. *)
Inductive Call :=
| InitSigner (privateKey : string)
| InitSignerFromMnemonic (mnemonic : string)
| StartNewRound (baseBuyIn : Z) (uuid : string) (random8 random32 : list byte)
| ProcessGuess (roundId player guess : string) (buyInPaid : Z)
| ComputeMerkleRoot (roundId : string)
| GetSignedAuditRoot (roundId : string)
| GetAuditTrail (roundId : string)
| VerifyChainIntegrity (roundId : string).

(** The winner field is set exactly in completed rounds. *)
Definition winnerIffCompleted (st : State) : Prop :=
  forall id r, rounds st !! id = Some r ->
    (winner r <> None <-> status r = Completed).

Definition KeepsWinner (s s' : State) : Prop :=
  winnerIffCompleted s -> winnerIffCompleted s'.

(** Only the round stored under [k] may have changed. *)
Definition TouchesOnly (k : string) (s s' : State) : Prop :=
  forall id, id <> k -> rounds s' !! id = rounds s !! id.

#[global] Instance KeepsWinner_preorder : Preorder' KeepsWinner.
Proof. split; unfold KeepsWinner; auto. Qed.

#[global] Instance TouchesOnly_preorder k : Preorder' (TouchesOnly k).
Proof.
  split; unfold TouchesOnly; [done|].
  intros s1 s2 s3 H12 H23 id Hid. by rewrite H23, H12.
Qed.

#[global] Instance KeepsWinner_quiet : QuietImplies KeepsWinner.
Proof.
  intros s s' (Hr&_) Hs. unfold winnerIffCompleted in *. by rewrite Hr.
Qed.

#[global] Instance TouchesOnly_quiet k : QuietImplies (TouchesOnly k).
Proof. intros s s' (Hr&_) id _. by rewrite Hr. Qed.

Section WithPlatform.
Context `{Platform}.

Definition step (c : Call) (st : State) : State :=
  match c with
  | InitSigner privateKey => snd (Crypto.initSigner privateKey st)
  | InitSignerFromMnemonic mnemonic => snd (Crypto.initSignerFromMnemonic mnemonic st)
  | StartNewRound baseBuyIn uuid random8 random32 =>
      snd (startNewRound baseBuyIn uuid random8 random32 st)
  | ProcessGuess roundId player guess buyInPaid =>
      snd (processGuess roundId player guess buyInPaid st)
  | ComputeMerkleRoot roundId => snd (Audit.computeMerkleRoot roundId st)
  | GetSignedAuditRoot roundId => snd (Audit.getSignedAuditRoot roundId st)
  | GetAuditTrail roundId => snd (Audit.getAuditTrail roundId st)
  | VerifyChainIntegrity roundId => snd (Audit.verifyChainIntegrity roundId st)
  end.

(** The states the engine goes through, the first one included. *)
Fixpoint trace (cs : list Call) (st : State) : list State :=
  match cs with
  | [] => []
  | c :: cs' => step c st :: trace cs' (step c st)
  end.

Definition states (cs : list Call) (st : State) : list State :=
  st :: trace cs st.

(** [randomUUID()] never returns an identifier already in use. *)
Fixpoint freshIds (cs : list Call) (st : State) : bool :=
  match cs with
  | [] => true
  | c :: cs' =>
      match c with
      | StartNewRound _ uuid _ _ => bool_decide (rounds st !! uuid = None)
      | _ => true
      end && freshIds cs' (step c st)
  end.

Definition isCompleted (roundId : string) (st : State) : bool :=
  match rounds st !! roundId with
  | Some r => bool_decide (status r = Completed)
  | None => false
  end.

(** How many times the round goes from not completed to completed. *)
Fixpoint transitionsToCompleted (roundId : string) (sts : list State) : nat :=
  match sts with
  | [] => 0
  | s :: rest =>
      match rest with
      | [] => 0
      | s' :: _ =>
          (if negb (isCompleted roundId s) && isCompleted roundId s' then 1 else 0)
          + transitionsToCompleted roundId rest
      end
  end%nat.

(** *** Writes to rounds *)

Lemma touches_updateRound k f : rel (TouchesOnly k) (updateRound k f).
Proof. intros st id Hid. simpl. by rewrite lookup_alter_ne. Qed.

Lemma keeps_updateRound k f :
  (forall r, status (f r) = status r /\ winner (f r) = winner r) ->
  rel KeepsWinner (updateRound k f).
Proof.
  intros Hf st Hst id r. simpl.
  destruct (decide (id = k)) as [->|Hne].
  - rewrite lookup_alter_eq. destruct (rounds st !! k) as [r0|] eqn:E; [|done].
    intros [= <-]. destruct (Hf r0) as [-> ->]. by eapply Hst.
  - rewrite lookup_alter_ne by done. apply Hst.
Qed.

#[local] Hint Resolve touches_updateRound : rel_hints.
#[local] Hint Extern 1 (rel KeepsWinner (updateRound _ _)) =>
  (apply keeps_updateRound; intros []; done) : rel_hints.

Lemma touches_escalate k d : rel (TouchesOnly k) (escalate k d).
Proof. unfold escalate. rel_go. Qed.

Lemma keeps_escalate k d : rel KeepsWinner (escalate k d).
Proof. unfold escalate. rel_go. Qed.

Lemma touches_declareWinner k p : rel (TouchesOnly k) (declareWinner k p).
Proof. unfold declareWinner. rel_go. Qed.

Lemma keeps_declareWinner k p : rel KeepsWinner (declareWinner k p).
Proof.
  intros st Hst. unfold declareWinner.
  set (st1 := set_rounds (alter (set_winner (Some p)) k)
                (set_rounds (alter (set_status Completed) k) st)).
  assert (H1 : winnerIffCompleted st1).
  { intros id r. subst st1. simpl.
    destruct (decide (id = k)) as [->|Hne].
    - rewrite !lookup_alter_eq. destruct (rounds st !! k) as [r0|]; [|done].
      intros [= <-]. simpl. done.
    - rewrite !lookup_alter_ne by done. apply Hst. }
  assert (Hrest : rel KeepsWinner
    (endTimestamp <- Date_now ;;
     updateRound k (set_endTimestamp (Some endTimestamp)) ;;
     winnerNonce <- Crypto.getNextNonce ;;
     winnerSig <- Crypto.signWinner k p winnerNonce ;;
     Audit.addAuditEntry k Winner [("winner", JString p)] ;;
     ret (Some (SignedWinnerDeclaration.mk k p winnerNonce winnerSig)))) by rel_go.
  exact (Hrest st1 H1).
Qed.

#[local] Hint Resolve touches_escalate keeps_escalate touches_declareWinner
  keeps_declareWinner : rel_hints.

Lemma touches_processGuess k p g b : rel (TouchesOnly k) (processGuess k p g b).
Proof.
  unfold processGuess. apply rel_bind; [typeclasses eauto|rel_go|].
  intros [round|]; rel_go.
Qed.

Lemma keeps_processGuess k p g b : rel KeepsWinner (processGuess k p g b).
Proof.
  unfold processGuess. apply rel_bind; [typeclasses eauto|rel_go|].
  intros [round|]; rel_go.
Qed.

Lemma keeps_sameRounds (s s' : State) :
  rounds s' = rounds s -> KeepsWinner s s'.
Proof. intros Hr Hs. unfold winnerIffCompleted in *. by rewrite Hr. Qed.

Lemma touches_sameRounds k (s s' : State) :
  rounds s' = rounds s -> TouchesOnly k s s'.
Proof. intros Hr id _. by rewrite Hr. Qed.

Lemma keeps_startNewRound b u r8 r32 : rel KeepsWinner (startNewRound b u r8 r32).
Proof.
  unfold startNewRound. destruct (Crypto.generateTarget r8 r32) as [target salt].
  rel_go.
  - apply rel_modify. intros st Hst id r. simpl.
    destruct (decide (id = u)) as [->|Hne].
    + rewrite lookup_insert_eq. by intros [= <-].
    + rewrite lookup_insert_ne by done. apply Hst.
  - apply rel_modify. intros st. by apply keeps_sameRounds.
Qed.

Lemma touches_startNewRound b u r8 r32 :
  rel (TouchesOnly u) (startNewRound b u r8 r32).
Proof.
  unfold startNewRound. destruct (Crypto.generateTarget r8 r32) as [target salt].
  rel_go.
  - apply rel_modify. intros st id Hid. simpl. by rewrite lookup_insert_ne.
  - apply rel_modify. intros st. by apply touches_sameRounds.
Qed.

Lemma initSigner_rounds key st : rounds (snd (Crypto.initSigner key st)) = rounds st.
Proof. unfold Crypto.initSigner. by destruct (Wallet_new key). Qed.

Lemma initSignerFromMnemonic_rounds phrase st :
  rounds (snd (Crypto.initSignerFromMnemonic phrase st)) = rounds st.
Proof. unfold Crypto.initSignerFromMnemonic. by destruct (Wallet_fromPhrase phrase). Qed.

(** Every call leaves every round other than the one it names as it was;
    calls that name no round leave them all. *)
Lemma step_rounds (c : Call) (st : State) :
  match c with
  | StartNewRound _ k _ _ | ProcessGuess k _ _ _ => TouchesOnly k st (step c st)
  | _ => rounds (step c st) = rounds st
  end.
Proof.
  destruct c; simpl.
  - apply initSigner_rounds.
  - apply initSignerFromMnemonic_rounds.
  - apply touches_startNewRound.
  - apply touches_processGuess.
  - apply (quiet_computeMerkleRoot roundId st).
  - apply (quiet_getSignedAuditRoot roundId st).
  - apply (quiet_getOrCreateTrail roundId st).
  - apply (quiet_verifyChainIntegrity roundId st).
Qed.

Lemma step_keeps (c : Call) (st : State) :
  winnerIffCompleted st -> winnerIffCompleted (step c st).
Proof.
  destruct c; simpl;
    try (apply keeps_sameRounds;
         first [apply initSigner_rounds | apply initSignerFromMnemonic_rounds]).
  - apply keeps_startNewRound.
  - apply keeps_processGuess.
  - apply keeps_sameRounds, (quiet_computeMerkleRoot roundId st).
  - apply keeps_sameRounds, (quiet_getSignedAuditRoot roundId st).
  - apply keeps_sameRounds, (quiet_getOrCreateTrail roundId st).
  - apply keeps_sameRounds, (quiet_verifyChainIntegrity roundId st).
Qed.

Lemma processGuess_completed (roundId player guess : string) (buyInPaid : Z)
    (st : State) (r : RoundState.t) :
  rounds st !! roundId = Some r -> status r = Completed ->
  processGuess roundId player guess buyInPaid st = (Throw RoundNotActive, st).
Proof.
  intros Hr Hs. unfold processGuess, bind, gets. rewrite Hr, Hs. done.
Qed.

(** A completed round is left as it is by every call, provided a new round
    never takes an identifier in use. *)
Lemma step_completed_stable (c : Call) (st : State) (roundId : string)
    (r : RoundState.t) :
  rounds st !! roundId = Some r -> status r = Completed ->
  freshIds [c] st = true ->
  rounds (step c st) !! roundId = Some r.
Proof.
  intros Hr Hs Hfresh. pose proof (step_rounds c st) as Hc.
  destruct c; try (by rewrite Hc).
  - simpl in Hfresh. rewrite andb_true_r in Hfresh.
    apply bool_decide_eq_true in Hfresh.
    rewrite Hc; [done|]. intros ->. congruence.
  - destruct (decide (roundId = roundId0)) as [<-|Hne].
    + simpl. by rewrite (processGuess_completed _ _ _ _ _ _ Hr Hs).
    + by rewrite Hc.
Qed.

Lemma states_winnerIffCompleted (cs : list Call) (st st' : State) :
  winnerIffCompleted st -> st' ∈ states cs st -> winnerIffCompleted st'.
Proof.
  unfold states. revert st. induction cs as [|c cs IH]; intros st Hst; simpl.
  - by intros ->%list_elem_of_singleton.
  - intros [->|Hin]%elem_of_cons; [done|].
    eapply IH; [|exact Hin]. by apply step_keeps.
Qed.

Lemma transitions_cons (roundId : string) (s s' : State) (l : list State) :
  transitionsToCompleted roundId (s :: s' :: l)
  = ((if negb (isCompleted roundId s) && isCompleted roundId s' then 1 else 0)
     + transitionsToCompleted roundId (s' :: l))%nat.
Proof. reflexivity. Qed.

Lemma transitions_after_completed (cs : list Call) (st : State)
    (roundId : string) :
  isCompleted roundId st = true -> freshIds cs st = true ->
  transitionsToCompleted roundId (states cs st) = 0%nat.
Proof.
  unfold states. revert st. induction cs as [|c cs IH]; intros st Hc Hf; [done|].
  cbn [freshIds] in Hf. apply andb_true_iff in Hf as [Hf1 Hf2].
  assert (Hc' : isCompleted roundId (step c st) = true).
  { unfold isCompleted in *. destruct (rounds st !! roundId) as [r|] eqn:E; [|done].
    apply bool_decide_eq_true in Hc.
    rewrite (step_completed_stable c st roundId r E Hc); [by apply bool_decide_eq_true|].
    simpl. by rewrite Hf1. }
  specialize (IH (step c st) Hc' Hf2).
  cbn [trace]. rewrite transitions_cons, Hc. simpl. exact IH.
Qed.

Lemma transitions_at_most_once (cs : list Call) (st : State) (roundId : string) :
  freshIds cs st = true ->
  (transitionsToCompleted roundId (states cs st) <= 1)%nat.
Proof.
  unfold states. revert st.
  induction cs as [|c cs IH]; intros st Hf; [simpl; lia|].
  cbn [freshIds] in Hf. apply andb_true_iff in Hf as [Hf1 Hf2].
  specialize (IH (step c st) Hf2).
  cbn [trace]. rewrite transitions_cons.
  destruct (isCompleted roundId (step c st)) eqn:Hc'.
  - pose proof (transitions_after_completed cs (step c st) roundId Hc' Hf2) as Hz.
    unfold states in Hz. rewrite Hz.
    destruct (isCompleted roundId st); simpl; lia.
  - rewrite andb_false_r. simpl. exact IH.
Qed.

(** Calls made one after the other, each run to its return before the next
    is made (calls that overlap at their awaits are in [OverlapFacts]).
    Along every such sequence from the engine's initial state a round goes
    to Completed at most once (given that [randomUUID] never repeats an
    identifier in use); in every state reached the winner field of a round
    is set exactly when its status is Completed; and a guess against a
    completed round fails with RoundNotActive and leaves the whole state,
    hence the round, as it was. *)
Theorem round_completes_once (clock0 : nat -> N) (cs : list Call)
    (roundId : string) :
  (freshIds cs (initialState clock0) = true ->
   (transitionsToCompleted roundId (states cs (initialState clock0)) <= 1)%nat)
  /\ (forall st r, st ∈ states cs (initialState clock0) ->
        rounds st !! roundId = Some r ->
        (winner r <> None <-> status r = Completed))
  /\ (forall st r player guess buyInPaid,
        st ∈ states cs (initialState clock0) ->
        rounds st !! roundId = Some r -> status r = Completed ->
        processGuess roundId player guess buyInPaid st = (Throw RoundNotActive, st)).
Proof.
  split; [|split].
  - apply transitions_at_most_once.
  - intros st r Hin Hr.
    assert (Hinit : winnerIffCompleted (initialState clock0)).
    { intros id r0. simpl. by rewrite lookup_empty. }
    by apply (states_winnerIffCompleted cs _ st Hinit Hin roundId r).
  - intros st r player guess buyInPaid _ Hr Hs.
    by eapply processGuess_completed.
Qed.

End WithPlatform.
End LifecycleFacts.

(** ** Guess processing: failures *)

Module GuessFacts.
Import MonadFacts EngineFacts RoundState Game.

(** The exceptions that can be raised once a guess has been recorded. *)
Definition late (e : Exception) : Prop :=
  e = SignerNotInitialized \/ e = EncodingError \/ e = UndefinedTierDef.

Definition lateOnly {A} (m : M A) : Prop :=
  forall st e st', m st = (Throw e, st') -> late e.

Lemma lateOnly_bind {A B} (m : M A) (k : A -> M B) :
  lateOnly m -> (forall a, lateOnly (k a)) -> lateOnly (bind m k).
Proof.
  intros Hm Hk st e st' [E|(a&st1&_&E)]%bind_Throw; [by eapply Hm|by eapply Hk].
Qed.

Lemma lateOnly_ret {A} (a : A) : lateOnly (ret a).
Proof. intros st e st' E. discriminate E. Qed.

Lemma lateOnly_modify f : lateOnly (modify f).
Proof. intros st e st' E. discriminate E. Qed.

Lemma lateOnly_if {A} (b : bool) (m1 m2 : M A) :
  lateOnly m1 -> lateOnly m2 -> lateOnly (if b then m1 else m2).
Proof. by destruct b. Qed.

Lemma lateOnly_Date_now : lateOnly Date_now.
Proof. intros st e st' E. discriminate E. Qed.

Section WithPlatform.
Context `{Platform}.

Lemma lateOnly_getNextNonce : lateOnly Crypto.getNextNonce.
Proof. intros st e st' E. discriminate E. Qed.

Lemma lateOnly_getSigner : lateOnly Crypto.getSigner.
Proof.
  intros st e st'. unfold Crypto.getSigner. destruct (signer st); [done|].
  intros [= <- _]. by left.
Qed.

Lemma solidityPacked_throws (vs : list SolValue) (e : Exception) :
  solidityPacked vs = Throw e -> e = EncodingError.
Proof.
  induction vs as [|v vs IH]; simpl; [done|].
  destruct (packValue v) as [b|e0] eqn:Ev.
  - destruct (solidityPacked vs) as [bs|e1]; [done|].
    intros [= <-]. by apply IH.
  - intros [= <-]. destruct v as [len v|len v|s|h|a]; simpl in Ev; try done.
    + destruct ((0 <=? v) && (v <? 256 ^ Z.of_nat len)); congruence.
    + destruct ((0 <=? v) && (v <=? MAX_SAFE_INTEGER) && (v <? 256 ^ Z.of_nat len));
        congruence.
    + destruct (getAddress a); congruence.
Qed.

Lemma lateOnly_packedKeccak (vs : list SolValue) :
  lateOnly (liftResult (solidityPackedKeccak256 vs)).
Proof.
  intros st e st'. unfold liftResult, solidityPackedKeccak256.
  destruct (solidityPacked vs) as [b|e0] eqn:E; [done|].
  intros [= <- _]. right. left. by eapply solidityPacked_throws.
Qed.

Lemma lateOnly_computeBuyIn d c :
  lateOnly (liftResult (Pricing.computeBuyIn d c)).
Proof.
  intros st e st'. unfold liftResult, Pricing.computeBuyIn.
  destruct (find _ _); [done|]. intros [= <- _]. right. by right.
Qed.

Lemma lateOnly_addAuditEntry a b c : lateOnly (Audit.addAuditEntry a b c).
Proof.
  intros st e st' E. rewrite AuditFacts.addAuditEntry_run in E. discriminate E.
Qed.

Lemma lateOnly_updateRound k f : lateOnly (updateRound k f).
Proof. apply lateOnly_modify. Qed.

Ltac late_go :=
  repeat first
    [ apply lateOnly_ret | apply lateOnly_modify | apply lateOnly_Date_now
    | apply lateOnly_getNextNonce | apply lateOnly_getSigner
    | apply lateOnly_packedKeccak | apply lateOnly_computeBuyIn
    | apply lateOnly_addAuditEntry | apply lateOnly_updateRound
    | (apply lateOnly_bind; [|intros ?]) | apply lateOnly_if ].

Lemma lateOnly_signHint a b c d e f : lateOnly (Crypto.signHint a b c d e f).
Proof. unfold Crypto.signHint. late_go. Qed.

Lemma lateOnly_signPriceUpdate a b c : lateOnly (Crypto.signPriceUpdate a b c).
Proof. unfold Crypto.signPriceUpdate. late_go. Qed.

Lemma lateOnly_signWinner a b c : lateOnly (Crypto.signWinner a b c).
Proof. unfold Crypto.signWinner. late_go. Qed.

Lemma lateOnly_escalate k d : lateOnly (escalate k d).
Proof.
  unfold escalate. late_go.
Qed.

Lemma lateOnly_declareWinner k p : lateOnly (declareWinner k p).
Proof.
  unfold declareWinner. late_go.
Qed.

(** [processGuess] from the point where the hint has been computed. *)
Definition afterScoring (roundId player guess : string) (buyInPaid : Z)
    (round : RoundState.t) (hint : HintResult.t) : M GuessResult :=
  timestamp <- Date_now ;;
  let record := GuessRecord.mk player guess hint buyInPaid timestamp in
  updateRound roundId (push_guess record) ;;
  updateRound roundId (fun r => set_pool (pool r + buyInPaid) r) ;;
  Audit.addAuditEntry roundId Guess
    [("player", JString player);
     ("guessHash", JString guess);
     ("buyInPaid", JString (toString buyInPaid))] ;;
  Audit.addAuditEntry roundId Hint
    [("player", JString player);
     ("digitsInPlace", JNumber (Z.of_nat (HintResult.digitsInPlace hint)));
     ("digitsCorrect", JNumber (Z.of_nat (HintResult.digitsCorrect hint)));
     ("numericDistance", JString (toString (HintResult.numericDistance hint)))] ;;
  hintNonce <- Crypto.getNextNonce ;;
  hintSig <- Crypto.signHint roundId player
               (HintResult.digitsCorrect hint) (HintResult.digitsInPlace hint)
               (HintResult.numericDistance hint) hintNonce ;;
  let signedHint :=
    SignedHint.mk roundId player (HintResult.digitsCorrect hint)
      (HintResult.digitsInPlace hint)
      (toString (HintResult.numericDistance hint)) hintNonce hintSig in
  priceUpdate <-
    (if Pricing.shouldUpdatePrice (currentTier round)
          (HintResult.numericDistance hint) DEFAULT_PRICING_CONFIG
     then escalate roundId (HintResult.numericDistance hint)
     else ret None) ;;
  winnerDeclaration <-
    (if HintResult.isExactMatch hint then declareWinner roundId player
     else ret None) ;;
  ret (mkGuessResult hint signedHint priceUpdate winnerDeclaration).

Lemma processGuess_unfold (roundId player guess : string) (buyInPaid : Z)
    (st : State) :
  processGuess roundId player guess buyInPaid st =
  match rounds st !! roundId with
  | None => (Throw RoundNotFound, st)
  | Some round =>
      if negb (bool_decide (status round = Active))
      then (Throw RoundNotActive, st)
      else if buyInPaid <? currentBuyIn round
      then (Throw InsufficientBuyIn, st)
      else
        match Scoring.calculateDistance (target round) guess
                DEFAULT_PRICING_CONFIG with
        | Throw e => (Throw e, st)
        | Ok hint => afterScoring roundId player guess buyInPaid round hint st
        end
  end.
Proof.
  unfold processGuess, bind at 1, gets.
  destruct (rounds st !! roundId) as [round|]; [|done].
  destruct (negb (bool_decide (status round = Active))); [done|].
  destruct (buyInPaid <? currentBuyIn round); [done|].
  unfold bind at 1, liftResult.
  by destruct (Scoring.calculateDistance (target round) guess DEFAULT_PRICING_CONFIG).
Qed.

Lemma lateOnly_afterScoring roundId player guess buyInPaid round hint :
  lateOnly (afterScoring roundId player guess buyInPaid round hint).
Proof. unfold afterScoring. late_go. Qed.

(** The errors raised while the request is validated, before anything is
    written. *)
Definition validationErrors : list Exception :=
  [RoundNotFound; RoundNotActive; InsufficientBuyIn; InvalidGuessFormat;
   BigIntSyntaxError].

(** C5 (as amended).  [processGuess] fails with RoundNotFound when the round
    id is unknown, with RoundNotActive when the round is not Active, and
    with InsufficientBuyIn when the round is Active and [buyInPaid] is below
    [currentBuyIn]; and whenever it fails with one of these three errors, or
    because the guess is not a 12-character decimal numeral, the whole engine
    state (rounds, audit trails, nonce counter, clock) is unchanged. *)
Theorem processGuess_validation (roundId player guess : string)
    (buyInPaid : Z) (st : State) :
  (rounds st !! roundId = None ->
     processGuess roundId player guess buyInPaid st = (Throw RoundNotFound, st))
  /\ (forall r, rounds st !! roundId = Some r -> status r <> Active ->
        processGuess roundId player guess buyInPaid st = (Throw RoundNotActive, st))
  /\ (forall r, rounds st !! roundId = Some r -> status r = Active ->
        buyInPaid < currentBuyIn r ->
        processGuess roundId player guess buyInPaid st
        = (Throw InsufficientBuyIn, st))
  /\ (forall e st',
        processGuess roundId player guess buyInPaid st = (Throw e, st') ->
        e ∈ validationErrors -> st' = st).
Proof.
  rewrite processGuess_unfold.
  destruct (rounds st !! roundId) as [r|] eqn:Hr.
  2: { repeat split; try done. by intros e st' [= _ <-]. }
  split; [done|]. split; [|split].
  - intros r0 [= <-] Hs. by rewrite bool_decide_eq_false_2.
  - intros r0 [= <-] Hs Hb. rewrite bool_decide_eq_true_2 by done. simpl.
    apply Z.ltb_lt in Hb. by rewrite Hb.
  - intros e st'.
    destruct (bool_decide (status r = Active)); simpl; [|by intros [= _ <-]].
    destruct (buyInPaid <? currentBuyIn r); [by intros [= _ <-]|].
    destruct (Scoring.calculateDistance (target r) guess DEFAULT_PRICING_CONFIG)
      as [h|e0]; [|by intros [= _ <-]].
    intros E Hin. exfalso.
    apply lateOnly_afterScoring in E. unfold validationErrors in Hin.
    destruct E as [-> | [-> | ->]];
      repeat (apply elem_of_cons in Hin as [Hin|Hin]; [discriminate Hin|]);
      by apply elem_of_nil in Hin.
Qed.

End WithPlatform.
End GuessFacts.

(** ** Price tiers *)

Module TierFacts.
Import MonadFacts EngineFacts RoundState Game LifecycleFacts GuessFacts Pricing.

(** [m], started in a state where [P] holds, ends in a state where [Q]
    holds, whether it returns or throws. *)
Definition triple {A} (P : State -> Prop) (m : M A) (Q : State -> Prop) : Prop :=
  forall st, P st -> Q (snd (m st)).

Lemma triple_bind {A B} (P Q R : State -> Prop) (m : M A) (k : A -> M B) :
  triple P m Q -> (forall a, triple Q (k a) R) -> (forall s, Q s -> R s) ->
  triple P (bind m k) R.
Proof.
  intros Hm Hk HQR st HP. unfold bind. specialize (Hm st HP).
  destruct (m st) as [[a|e] st1]; simpl in *; [by apply Hk|by apply HQR].
Qed.

Lemma triple_post {A} (P Q Q' : State -> Prop) (m : M A) :
  triple P m Q -> (forall s, Q s -> Q' s) -> triple P m Q'.
Proof. intros Hm HQ st HP. by apply HQ, Hm. Qed.

Definition Keeps (P : State -> Prop) (s s' : State) : Prop := P s -> P s'.

#[global] Instance Keeps_preorder P : Preorder' (Keeps P).
Proof. split; unfold Keeps; auto. Qed.

Lemma triple_keeps {A} (P : State -> Prop) (m : M A) :
  rel (Keeps P) m -> triple P m P.
Proof. intros Hm st. apply Hm. Qed.

(** The round stored under [k] exists and satisfies [phi]. *)
Definition roundHas (k : string) (phi : RoundState.t -> Prop) (st : State) : Prop :=
  exists r, rounds st !! k = Some r /\ phi r.

Definition tierIs (t : PriceTier) (r : RoundState.t) : Prop := currentTier r = t.

Definition tierAtLeast (t : PriceTier) (r : RoundState.t) : Prop :=
  tierIndex t <= tierIndex (currentTier r).

(** No round is lost and no round's tier is lower in [s'] than in [s]. *)
Definition NeverLower (s s' : State) : Prop :=
  forall id r, rounds s !! id = Some r ->
    exists r', rounds s' !! id = Some r'
      /\ tierIndex (currentTier r) <= tierIndex (currentTier r').

#[global] Instance roundHas_quiet k phi : QuietImplies (Keeps (roundHas k phi)).
Proof. intros s s' (Hr&_) (r&?&?). exists r. by rewrite Hr. Qed.

#[global] Instance NeverLower_preorder : Preorder' NeverLower.
Proof.
  split.
  - intros st id r Hr. exists r. split; [done|lia].
  - intros s1 s2 s3 H12 H23 id r Hr.
    destruct (H12 id r Hr) as (r2&Hr2&?). destruct (H23 id r2 Hr2) as (r3&Hr3&?).
    exists r3. split; [done|lia].
Qed.

Lemma neverLower_sameRounds (s s' : State) : rounds s' = rounds s -> NeverLower s s'.
Proof. intros Hr id r E. exists r. rewrite Hr. split; [done|lia]. Qed.

Section WithPlatform.
Context `{Platform}.

Lemma keeps_updateRound_has k phi f :
  (forall r, phi r -> phi (f r)) -> rel (Keeps (roundHas k phi)) (updateRound k f).
Proof.
  intros Hf st (r&Hr&Hphi). exists (f r). simpl.
  rewrite lookup_alter_eq, Hr. split; [done|by apply Hf].
Qed.

#[local] Hint Extern 1 (rel (Keeps (roundHas _ _)) (updateRound _ _)) =>
  (apply keeps_updateRound_has; intros []; done) : rel_hints.

Lemma tierIs_atLeast k t st : roundHas k (tierIs t) st -> roundHas k (tierAtLeast t) st.
Proof. intros (r&Hr&Ht). exists r. split; [done|]. unfold tierAtLeast. rewrite Ht. lia. Qed.

(** The branch taken when [shouldUpdatePrice] holds writes a tier above the
    one the round had. *)
Lemma triple_escalate k d t :
  shouldUpdatePrice t d DEFAULT_PRICING_CONFIG = true ->
  triple (roundHas k (tierIs t)) (escalate k d) (roundHas k (tierAtLeast t)).
Proof.
  intros Hup. unfold escalate.
  apply triple_bind with (Q := roundHas k (tierIs t));
    [apply triple_keeps; rel_go| |apply tierIs_atLeast].
  intros newBuyIn.
  set (newTier := determinePriceTier d DEFAULT_PRICING_CONFIG).
  assert (Hnew : forall s, roundHas k (tierIs newTier) s -> roundHas k (tierAtLeast t) s).
  { intros s (r&Hr&Ht). exists r. split; [done|]. unfold tierAtLeast. rewrite Ht.
    unfold shouldUpdatePrice in Hup. fold newTier in Hup. lia. }
  apply triple_bind with (Q := roundHas k (tierIs newTier)); [| |exact Hnew].
  - intros st (r&Hr&_). exists (set_currentTier newTier r). simpl.
    by rewrite lookup_alter_eq, Hr.
  - intros _. apply triple_post with (Q := roundHas k (tierIs newTier)); [|exact Hnew].
    apply triple_keeps. rel_go.
Qed.

Lemma keeps_declareWinner_tier k p t :
  rel (Keeps (roundHas k (tierAtLeast t))) (declareWinner k p).
Proof. unfold declareWinner. rel_go. Qed.

Lemma triple_afterScoring k p g b round hint :
  triple (roundHas k (tierIs (currentTier round)))
         (afterScoring k p g b round hint)
         (roundHas k (tierAtLeast (currentTier round))).
Proof.
  unfold afterScoring.
  do 7 (apply triple_bind with (Q := roundHas k (tierIs (currentTier round)));
        [apply triple_keeps; rel_go|intros ?|apply tierIs_atLeast]).
  apply triple_bind with (Q := roundHas k (tierAtLeast (currentTier round)));
    [|intros ?|done].
  - destruct (shouldUpdatePrice _ _ _) eqn:Hup; [by apply triple_escalate|].
    intros st. apply tierIs_atLeast.
  - apply triple_keeps. apply rel_bind; [typeclasses eauto| |intros ?; rel_go].
    apply rel_if; [apply keeps_declareWinner_tier|rel_go].
Qed.

Lemma processGuess_tier k p g b (st : State) (r : RoundState.t) :
  rounds st !! k = Some r ->
  exists r', rounds (snd (processGuess k p g b st)) !! k = Some r'
    /\ tierIndex (currentTier r) <= tierIndex (currentTier r').
Proof.
  intros Hr. rewrite processGuess_unfold, Hr.
  assert (Hsame : exists r', rounds st !! k = Some r'
            /\ tierIndex (currentTier r) <= tierIndex (currentTier r')).
  { exists r. split; [done|lia]. }
  destruct (negb _); [done|]. destruct (b <? _); [done|].
  destruct (Scoring.calculateDistance _ _ _) as [hint|e]; [|done].
  apply (triple_afterScoring k p g b r hint st). by exists r.
Qed.

Lemma step_neverLower (c : Call) (st : State) :
  freshIds [c] st = true -> NeverLower st (step c st).
Proof.
  intros Hfresh. pose proof (step_rounds c st) as Hc.
  destruct c; try (by apply neverLower_sameRounds).
  - simpl in Hfresh. rewrite andb_true_r in Hfresh.
    apply bool_decide_eq_true in Hfresh.
    intros id r Hr. exists r. rewrite Hc; [split; [done|lia]|].
    intros ->. congruence.
  - intros id r Hr. destruct (decide (id = roundId)) as [->|Hne].
    + by apply processGuess_tier.
    + exists r. rewrite Hc by done. split; [done|lia].
Qed.

Lemma states_neverLower (cs : list Call) (st : State) (j : nat) (sj : State) :
  freshIds cs st = true -> states cs st !! j = Some sj -> NeverLower st sj.
Proof.
  unfold states. revert st j. induction cs as [|c cs IH]; intros st j Hf Hj.
  - destruct j; [|done]. injection Hj as <-. apply preorder_refl.
  - destruct j as [|j]; [injection Hj as <-; apply preorder_refl|].
    cbn [freshIds] in Hf. apply andb_true_iff in Hf as [Hf1 Hf2].
    eapply preorder_trans; [|by apply (IH (step c st) j)].
    apply step_neverLower. simpl. by rewrite Hf1.
Qed.

(** X3.  Along every sequence of calls in which [randomUUID] never returns an
    identifier in use, a round that exists in one state exists in every later
    state, and its tier there is at least as severe in the order
    Base < Warm < Hot < Scorching. *)
Theorem currentTier_never_decreases (cs : list Call) (st : State) (i j : nat)
    (si sj : State) (roundId : string) (ri : RoundState.t) :
  freshIds cs st = true ->
  states cs st !! i = Some si -> states cs st !! j = Some sj -> (i <= j)%nat ->
  rounds si !! roundId = Some ri ->
  exists rj, rounds sj !! roundId = Some rj
    /\ tierIndex (currentTier ri) <= tierIndex (currentTier rj).
Proof.
  revert cs st j. induction i as [|i IH]; intros cs st j Hf Hi Hj Hij Hr.
  - injection Hi as <-. by eapply states_neverLower.
  - destruct j as [|j]; [lia|]. destruct cs as [|c cs]; [done|].
    cbn [freshIds] in Hf. apply andb_true_iff in Hf as [_ Hf].
    apply (IH cs (step c st) j); [done|exact Hi|exact Hj|lia|done].
Qed.

End WithPlatform.
End TierFacts.

(** ** The pool *)

Module PoolFacts.
Import MonadFacts EngineFacts RoundState Game LifecycleFacts GuessFacts.

(** What the recorded guesses of a round paid in. *)
Definition paidIn (r : RoundState.t) : Z :=
  foldr Z.add 0 (GuessRecord.buyInPaid <$> guesses r).

Definition poolIsPaidIn (st : State) : Prop :=
  forall id r, rounds st !! id = Some r -> pool r = paidIn r.

Definition KeepsPool (s s' : State) : Prop := poolIsPaidIn s -> poolIsPaidIn s'.

#[global] Instance KeepsPool_preorder : Preorder' KeepsPool.
Proof. split; unfold KeepsPool; auto. Qed.

#[global] Instance KeepsPool_quiet : QuietImplies KeepsPool.
Proof. intros s s' (Hr&_) Hs. unfold poolIsPaidIn in *. by rewrite Hr. Qed.

Lemma paidIn_push (g : GuessRecord.t) (r : RoundState.t) :
  paidIn (push_guess g r) = paidIn r + GuessRecord.buyInPaid g.
Proof.
  unfold paidIn. simpl. rewrite fmap_app, foldr_app. simpl.
  generalize (GuessRecord.buyInPaid <$> guesses r). intros l.
  induction l as [|x l IH]; simpl; lia.
Qed.

Section WithPlatform.
Context `{Platform}.

Lemma keepsPool_updateRound k f :
  (forall r, pool (f r) = pool r /\ guesses (f r) = guesses r) ->
  rel KeepsPool (updateRound k f).
Proof.
  intros Hf st Hst id r. simpl.
  destruct (decide (id = k)) as [->|Hne].
  - rewrite lookup_alter_eq. destruct (rounds st !! k) as [r0|] eqn:E; [|done].
    intros [= <-]. destruct (Hf r0) as [Hp Hg]. unfold paidIn.
    rewrite Hp, Hg. by apply (Hst k).
  - rewrite lookup_alter_ne by done. apply Hst.
Qed.

#[local] Hint Extern 1 (rel KeepsPool (updateRound _ _)) =>
  (apply keepsPool_updateRound; intros []; done) : rel_hints.

Lemma keepsPool_escalate k d : rel KeepsPool (escalate k d).
Proof. unfold escalate. rel_go. Qed.

Lemma keepsPool_declareWinner k p : rel KeepsPool (declareWinner k p).
Proof. unfold declareWinner. rel_go. Qed.

#[local] Hint Resolve keepsPool_escalate keepsPool_declareWinner : rel_hints.

(** The record is pushed and the pool raised by two consecutive assignments,
    with nothing in between that can throw. *)
Lemma keepsPool_record k (g : GuessRecord.t) (st : State) :
  KeepsPool st
    (set_rounds (alter (fun r => set_pool (pool r + GuessRecord.buyInPaid g) r) k)
       (set_rounds (alter (push_guess g) k) st)).
Proof.
  intros Hst id r. simpl.
  destruct (decide (id = k)) as [->|Hne].
  - rewrite !lookup_alter_eq. destruct (rounds st !! k) as [r0|] eqn:E; [|done].
    intros [= <-]. change (pool r0 + GuessRecord.buyInPaid g = paidIn (push_guess g r0)).
    rewrite paidIn_push. by rewrite (Hst k r0).
  - rewrite !lookup_alter_ne by done. apply Hst.
Qed.

Lemma rel_modify_twice {B} R `{Preorder' R} (f1 f2 : State -> State) (k : M B) :
  (forall s, R s (f2 (f1 s))) -> rel R k ->
  rel R (modify f1 ;; modify f2 ;; k).
Proof.
  intros Hf Hk st. change (R st (snd (k (f2 (f1 st))))).
  eapply preorder_trans; [apply Hf|apply Hk].
Qed.

Lemma keepsPool_afterScoring k p g b round hint :
  rel KeepsPool (afterScoring k p g b round hint).
Proof.
  unfold afterScoring. apply rel_bind; [typeclasses eauto|rel_go|].
  intros timestamp. apply rel_modify_twice; [typeclasses eauto| |rel_go].
  intros s. apply (keepsPool_record k (GuessRecord.mk p g hint b timestamp)).
Qed.

Lemma keepsPool_processGuess k p g b : rel KeepsPool (processGuess k p g b).
Proof.
  intros st. rewrite processGuess_unfold.
  destruct (rounds st !! k) as [r|]; [|apply preorder_refl].
  destruct (negb _); [apply preorder_refl|].
  destruct (b <? _); [apply preorder_refl|].
  destruct (Scoring.calculateDistance _ _ _) as [hint|e]; [|apply preorder_refl].
  apply keepsPool_afterScoring.
Qed.

Lemma keepsPool_sameRounds (s s' : State) : rounds s' = rounds s -> KeepsPool s s'.
Proof. intros Hr Hs. unfold poolIsPaidIn in *. by rewrite Hr. Qed.

Lemma keepsPool_startNewRound b u r8 r32 : rel KeepsPool (startNewRound b u r8 r32).
Proof.
  unfold startNewRound. destruct (Crypto.generateTarget r8 r32) as [target salt].
  rel_go.
  - apply rel_modify. intros st Hst id r. simpl.
    destruct (decide (id = u)) as [->|Hne].
    + rewrite lookup_insert_eq. by intros [= <-].
    + rewrite lookup_insert_ne by done. apply Hst.
  - apply rel_modify. intros st. by apply keepsPool_sameRounds.
Qed.

Lemma step_keepsPool (c : Call) (st : State) :
  poolIsPaidIn st -> poolIsPaidIn (step c st).
Proof.
  pose proof (step_rounds c st) as Hc.
  destruct c; try (by apply keepsPool_sameRounds).
  - apply keepsPool_startNewRound.
  - apply keepsPool_processGuess.
Qed.


End WithPlatform.
End PoolFacts.

(** ** Nonces *)

Module NonceFacts.
Import MonadFacts EngineFacts RoundState Game LifecycleFacts GuessFacts.

(** The nonce counter is where it was. *)
Definition SameNonce (s s' : State) : Prop := nonceCounter s' = nonceCounter s.

#[global] Instance SameNonce_preorder : Preorder' SameNonce.
Proof. split; unfold SameNonce; congruence. Qed.

(** The nonce counter has not gone down. *)
Definition NonceGrows (s s' : State) : Prop := nonceCounter s <= nonceCounter s'.

#[global] Instance NonceGrows_preorder : Preorder' NonceGrows.
Proof. split; unfold NonceGrows; intros; lia. Qed.

#[global] Instance NonceGrows_quiet : QuietImplies NonceGrows.
Proof. by intros s s' (_&_&_&?). Qed.

Lemma rel_run {A} R (m : M A) (st st' : State) (r : Result A) :
  rel R m -> m st = (r, st') -> R st st'.
Proof. intros Hm E. specialize (Hm st). by rewrite E in Hm. Qed.

(** [n] nonces allocated one after the other. *)
Fixpoint allocate `{Platform} (n : nat) : M (list Z) :=
  match n with
  | O => ret []
  | S n' =>
      x <- Crypto.getNextNonce ;;
      xs <- allocate n' ;;
      ret (x :: xs)
  end.

(** [c; c + 1; ...], [k] values. *)
Definition consecutive (c : Z) (k : nat) : list Z :=
  map (fun i => c + Z.of_nat i) (seq 0 k).

Definition isInit (c : Call) : bool :=
  match c with
  | InitSigner _ | InitSignerFromMnemonic _ => true
  | _ => false
  end.

Definition option_to_list {A} (o : option A) : list A :=
  match o with
  | Some a => [a]
  | None => []
  end.

Section WithPlatform.
Context `{Platform}.

(** The nonces carried by the signed messages a call returns, in the order
    in which the call drew them. *)
Definition issued (c : Call) (st : State) : list Z :=
  match c with
  | StartNewRound baseBuyIn uuid random8 random32 =>
      match fst (startNewRound baseBuyIn uuid random8 random32 st) with
      | Ok res => [SignedStartRound.nonce (signedStartRound res)]
      | Throw _ => []
      end
  | ProcessGuess roundId player guess buyInPaid =>
      match fst (processGuess roundId player guess buyInPaid st) with
      | Ok res =>
          SignedHint.nonce (signedHint res)
          :: option_to_list (SignedPriceUpdate.nonce <$> priceUpdate res)
          ++ option_to_list (SignedWinnerDeclaration.nonce <$> winnerDeclaration res)
      | Throw _ => []
      end
  | GetSignedAuditRoot roundId =>
      match fst (Audit.getSignedAuditRoot roundId st) with
      | Ok res => [SignedAuditRoot.nonce res]
      | Throw _ => []
      end
  | _ => []
  end.

Fixpoint issuedAll (cs : list Call) (st : State) : list Z :=
  match cs with
  | [] => []
  | c :: cs' => issued c st ++ issuedAll cs' (step c st)
  end.

Definition run (cs : list Call) (st : State) : State :=
  fold_left (fun s c => step c s) cs st.

(** *** Operations that do not draw a nonce *)

Lemma same_Date_now : rel SameNonce Date_now.
Proof. by intros st. Qed.

Lemma same_getSigner : rel SameNonce Crypto.getSigner.
Proof. intros st. unfold Crypto.getSigner. by destruct (signer st). Qed.

Lemma same_getOrCreateTrail a : rel SameNonce (Audit.getOrCreateTrail a).
Proof. intros st. unfold Audit.getOrCreateTrail. by destruct (trails st !! a). Qed.

Lemma same_set_trails f : rel SameNonce (modify (set_trails f)).
Proof. by intros st. Qed.

Lemma same_set_rounds f : rel SameNonce (modify (set_rounds f)).
Proof. by intros st. Qed.

Lemma same_set_activeRoundId a : rel SameNonce (modify (set_activeRoundId a)).
Proof. by intros st. Qed.

Lemma same_updateRound k f : rel SameNonce (updateRound k f).
Proof. by intros st. Qed.

#[local] Hint Resolve same_Date_now same_getSigner same_getOrCreateTrail
  same_set_trails same_set_rounds same_set_activeRoundId same_updateRound
  : rel_hints.

Lemma same_signStartRound a b c d : rel SameNonce (Crypto.signStartRound a b c d).
Proof. unfold Crypto.signStartRound. rel_go. Qed.

Lemma same_signHint a b c d e f : rel SameNonce (Crypto.signHint a b c d e f).
Proof. unfold Crypto.signHint. rel_go. Qed.

Lemma same_signPriceUpdate a b c : rel SameNonce (Crypto.signPriceUpdate a b c).
Proof. unfold Crypto.signPriceUpdate. rel_go. Qed.

Lemma same_signWinner a b c : rel SameNonce (Crypto.signWinner a b c).
Proof. unfold Crypto.signWinner. rel_go. Qed.

Lemma same_signAuditRoot a b c d : rel SameNonce (Crypto.signAuditRoot a b c d).
Proof. unfold Crypto.signAuditRoot. rel_go. Qed.

Lemma same_addAuditEntry a b c : rel SameNonce (Audit.addAuditEntry a b c).
Proof. unfold Audit.addAuditEntry. rel_go. Qed.

Lemma same_computeMerkleRoot a : rel SameNonce (Audit.computeMerkleRoot a).
Proof. unfold Audit.computeMerkleRoot. rel_go. Qed.

Lemma same_verifyChainIntegrity a : rel SameNonce (Audit.verifyChainIntegrity a).
Proof. unfold Audit.verifyChainIntegrity. rel_go. Qed.

Lemma getNextNonce_run (st : State) :
  nonceCounter st < 2 ^ 53 ->
  Crypto.getNextNonce st
  = (Ok (nonceCounter st), set_nonceCounter (nonceCounter st + 1) st).
Proof.
  intros Hlt. unfold Crypto.getNextNonce, Crypto.number_succ.
  apply Z.ltb_lt in Hlt. by rewrite Hlt.
Qed.

Lemma getNextNonce_Ok (st st' : State) (n : Z) :
  Crypto.getNextNonce st = (Ok n, st') ->
  n = nonceCounter st /\ nonceCounter st' = Crypto.number_succ (nonceCounter st).
Proof. by intros [= <- <-]. Qed.

Lemma allocate_run (n : nat) (st : State) :
  nonceCounter st + Z.of_nat n <= 2 ^ 53 ->
  allocate n st
  = (Ok (consecutive (nonceCounter st) n),
     set_nonceCounter (nonceCounter st + Z.of_nat n) st).
Proof.
  revert st. induction n as [|n IH]; intros st Hle.
  - simpl. unfold ret, consecutive. simpl. rewrite Z.add_0_r. by destruct st.
  - cbn [allocate]. unfold bind at 1. rewrite getNextNonce_run by lia.
    unfold bind at 1. rewrite IH by (simpl; lia). unfold ret. simpl.
    f_equal.
    + f_equal. unfold consecutive. cbn [seq map]. rewrite Z.add_0_r. f_equal.
      rewrite <- seq_shift, map_map. apply map_ext. intros i. lia.
    + unfold set_nonceCounter. simpl. f_equal. lia.
Qed.

(** *** Operations that draw nonces *)

Ltac inv_bind E :=
  repeat match type of E with
  | bind _ _ _ = (Ok _, _) =>
      let a := fresh "a" in
      let s := fresh "s" in
      let E1 := fresh "E" in
      apply bind_Ok in E as (a & s & E1 & E)
  end.

Ltac same_nonce E :=
  apply (rel_run SameNonce) in E; [unfold SameNonce in E|solve [rel_go]].

Lemma number_succ_exact (n m : Z) :
  Crypto.number_succ n <= m -> m < 2 ^ 53 -> Crypto.number_succ n = n + 1.
Proof.
  unfold Crypto.number_succ. destruct (Z.ltb_spec n (2 ^ 53)); lia.
Qed.

Lemma escalate_Ok (roundId : string) (d : Z) (st st' : State)
    (pu : option SignedPriceUpdate.t) :
  escalate roundId d st = (Ok pu, st') ->
  SignedPriceUpdate.nonce <$> pu = Some (nonceCounter st)
  /\ nonceCounter st' = Crypto.number_succ (nonceCounter st).
Proof.
  intros E. unfold escalate in E. inv_bind E.
  unfold liftResult in E0. injection E0 as _ <-.
  same_nonce E1. same_nonce E2.
  apply getNextNonce_Ok in E3 as [-> E3].
  same_nonce E4. same_nonce E5.
  unfold ret in E. injection E as <- <-. simpl. split; [congruence|congruence].
Qed.

Lemma declareWinner_Ok (roundId player : string) (st st' : State)
    (wd : option SignedWinnerDeclaration.t) :
  declareWinner roundId player st = (Ok wd, st') ->
  SignedWinnerDeclaration.nonce <$> wd = Some (nonceCounter st)
  /\ nonceCounter st' = Crypto.number_succ (nonceCounter st).
Proof.
  intros E. unfold declareWinner in E. inv_bind E.
  same_nonce E0. same_nonce E1. same_nonce E2. same_nonce E3.
  apply getNextNonce_Ok in E4 as [-> E4].
  same_nonce E5. same_nonce E6.
  unfold ret in E. injection E as <- <-. simpl. split; congruence.
Qed.

Lemma afterScoring_Ok (roundId player guess : string) (buyInPaid : Z)
    (round : RoundState.t) (hint : HintResult.t) (st st' : State)
    (res : GuessResult) :
  afterScoring roundId player guess buyInPaid round hint st = (Ok res, st') ->
  nonceCounter st' < 2 ^ 53 ->
  exists k : nat,
    SignedHint.nonce (signedHint res)
    :: option_to_list (SignedPriceUpdate.nonce <$> priceUpdate res)
    ++ option_to_list (SignedWinnerDeclaration.nonce <$> winnerDeclaration res)
    = consecutive (nonceCounter st) k
    /\ nonceCounter st' = nonceCounter st + Z.of_nat k.
Proof.
  intros E Hlt. unfold afterScoring in E. inv_bind E.
  same_nonce E0. same_nonce E1. same_nonce E2. same_nonce E3. same_nonce E4.
  apply getNextNonce_Ok in E5 as [-> E5]. same_nonce E6.
  unfold ret in E. injection E as <- <-.
  cbn [signedHint priceUpdate winnerDeclaration SignedHint.nonce].
  assert (Hp : (a6 = None /\ nonceCounter s6 = nonceCounter s5)
               \/ (SignedPriceUpdate.nonce <$> a6 = Some (nonceCounter s5)
                   /\ nonceCounter s6 = Crypto.number_succ (nonceCounter s5))).
  { destruct (Pricing.shouldUpdatePrice _ _ _).
    - right. by apply escalate_Ok in E7.
    - left. unfold ret in E7. by injection E7 as <- <-. }
  assert (Hw : (a7 = None /\ nonceCounter s7 = nonceCounter s6)
               \/ (SignedWinnerDeclaration.nonce <$> a7 = Some (nonceCounter s6)
                   /\ nonceCounter s7 = Crypto.number_succ (nonceCounter s6))).
  { destruct (HintResult.isExactMatch hint).
    - right. by apply declareWinner_Ok in E8.
    - left. unfold ret in E8. by injection E8 as <- <-. }
  clear E7 E8.
  assert (H3 : nonceCounter s3 = nonceCounter st) by congruence.
  rewrite H3 in *. clear E0 E1 E2 E3 E4 H3.
  destruct Hp as [[-> Hp]|[Hp1 Hp]], Hw as [[-> Hw]|[Hw1 Hw]];
    rewrite ?Hp1, ?Hw1; cbn [option_to_list fmap option_fmap option_map app];
    [exists 1%nat | exists 2%nat | exists 2%nat | exists 3%nat];
    unfold consecutive; cbn [seq map]; unfold Crypto.number_succ in *;
    repeat match goal with
    | H : context [if ?a <? ?b then _ else _] |- _ => destruct (Z.ltb_spec a b)
    | |- context [if ?a <? ?b then _ else _] => destruct (Z.ltb_spec a b)
    end;
    (split; [repeat f_equal; lia | lia]).
Qed.

Lemma startNewRound_Ok b u r8 r32 (st st' : State) (res : StartResult) :
  startNewRound b u r8 r32 st = (Ok res, st') ->
  SignedStartRound.nonce (signedStartRound res) = nonceCounter st
  /\ nonceCounter st' = Crypto.number_succ (nonceCounter st).
Proof.
  intros E. unfold startNewRound in E.
  destruct (Crypto.generateTarget r8 r32) as [target salt]. inv_bind E.
  same_nonce E0. same_nonce E1. same_nonce E2. same_nonce E3.
  apply getNextNonce_Ok in E4 as [-> E4].
  same_nonce E5. same_nonce E6.
  unfold ret in E. injection E as <- <-. simpl. split; congruence.
Qed.

Lemma getSignedAuditRoot_Ok a (st st' : State) (res : SignedAuditRoot.t) :
  Audit.getSignedAuditRoot a st = (Ok res, st') ->
  SignedAuditRoot.nonce res = nonceCounter st
  /\ nonceCounter st' = Crypto.number_succ (nonceCounter st).
Proof.
  intros E. unfold Audit.getSignedAuditRoot in E. inv_bind E.
  apply (rel_run SameNonce) in E0; [|apply same_computeMerkleRoot].
  same_nonce E1.
  apply getNextNonce_Ok in E2 as [-> E2].
  same_nonce E3.
  unfold ret in E. injection E as <- <-. unfold SameNonce in *. simpl.
  split; congruence.
Qed.

Lemma grows_modify (f : State -> State) :
  (forall s, nonceCounter (f s) = nonceCounter s) -> rel NonceGrows (modify f).
Proof. intros Hf st. unfold NonceGrows. simpl. rewrite Hf. lia. Qed.

Lemma grows_startNewRound b u r8 r32 : rel NonceGrows (startNewRound b u r8 r32).
Proof.
  unfold startNewRound. destruct (Crypto.generateTarget r8 r32) as [target salt].
  rel_go; by apply grows_modify.
Qed.

Lemma grows_processGuess k p g b : rel NonceGrows (processGuess k p g b).
Proof.
  unfold processGuess. apply rel_bind; [typeclasses eauto|rel_go|].
  intros [round|]; [|rel_go].
  unfold escalate, declareWinner. rel_go; by apply grows_modify.
Qed.

Lemma quiet_step (c : Call) (st : State) :
  isInit c = false -> nonceCounter st <= nonceCounter (step c st).
Proof.
  intros Hc.
  destruct c as [key|phrase|b u r8 r32|rid pl g paid|rid|rid|rid|rid];
    try done; simpl.
  - apply (grows_startNewRound b u r8 r32 st).
  - apply (grows_processGuess rid pl g paid st).
  - apply (quiet_computeMerkleRoot rid st).
  - apply (quiet_getSignedAuditRoot rid st).
  - apply (quiet_getOrCreateTrail rid st).
  - apply (quiet_verifyChainIntegrity rid st).
Qed.

Lemma consecutive_0 (c : Z) : consecutive c 0 = [].
Proof. reflexivity. Qed.

Lemma consecutive_1 (c : Z) : consecutive c 1 = [c].
Proof. unfold consecutive. simpl. by rewrite Z.add_0_r. Qed.

Lemma consecutive_range (c : Z) (k : nat) :
  Forall (fun n => c <= n < c + Z.of_nat k) (consecutive c k).
Proof.
  unfold consecutive. apply Forall_forall. intros n Hn.
  apply list_elem_of_fmap in Hn as (i & -> & Hi).
  apply elem_of_seq in Hi. lia.
Qed.

Lemma consecutive_sorted (c : Z) (k : nat) :
  StronglySorted Z.lt (consecutive c k).
Proof.
  revert c. induction k as [|k IH]; intros c; [constructor|].
  assert (E : consecutive c (S k) = c :: consecutive (c + 1) k).
  { unfold consecutive. cbn [seq map]. rewrite Z.add_0_r. f_equal.
    rewrite <- seq_shift, map_map. apply map_ext. intros i. lia. }
  rewrite E. constructor; [apply IH|].
  eapply Forall_impl; [apply consecutive_range|]. simpl. intros; lia.
Qed.

Lemma sorted_app (l1 l2 : list Z) :
  StronglySorted Z.lt l1 -> StronglySorted Z.lt l2 ->
  (forall x y, x ∈ l1 -> y ∈ l2 -> x < y) ->
  StronglySorted Z.lt (l1 ++ l2).
Proof.
  intros H1 H2 Hlt. induction H1 as [|x l1 H1 IH Hx]; [done|].
  simpl. constructor.
  - apply IH. intros a b Ha Hb. apply Hlt; [by right|done].
  - apply Forall_app. split; [done|].
    apply Forall_forall. intros y Hy. apply Hlt; [by left|done].
Qed.

(** What one call issues: consecutive values starting at the counter. *)
Lemma issued_spec (c : Call) (st : State) :
  isInit c = false -> nonceCounter (step c st) < 2 ^ 53 ->
  exists k : nat,
    issued c st = consecutive (nonceCounter st) k
    /\ nonceCounter st + Z.of_nat k <= nonceCounter (step c st).
Proof.
  intros Hc Hlt. pose proof (quiet_step c st Hc) as Hq.
  destruct c as [key|phrase|b u r8 r32|roundId player guess buyInPaid
                |roundId|roundId|roundId|roundId];
    try done; try (exists 0%nat; split; [done|lia]); simpl in *.
  - destruct (startNewRound b u r8 r32 st) as [[res|e] st'] eqn:E;
      simpl in *; [|exists 0%nat; split; [done|lia]].
    apply startNewRound_Ok in E as [E1 E2]. exists 1%nat.
    rewrite consecutive_1, E1. split; [done|].
    rewrite E2 in *. unfold Crypto.number_succ in *.
    destruct (Z.ltb_spec (nonceCounter st) (2 ^ 53)); lia.
  - destruct (processGuess roundId player guess buyInPaid st) as [[res|e] st'] eqn:E;
      simpl in *; [|exists 0%nat; split; [done|lia]].
    rewrite processGuess_unfold in E.
    destruct (rounds st !! roundId) as [round|]; [|done].
    destruct (negb (bool_decide (status round = Active))); [done|].
    destruct (buyInPaid <? currentBuyIn round); [done|].
    destruct (Scoring.calculateDistance (target round) guess DEFAULT_PRICING_CONFIG)
      as [h|e]; [|done].
    apply afterScoring_Ok in E as (k & E1 & E2); [|done].
    exists k. split; [done|lia].
  - destruct (Audit.getSignedAuditRoot roundId st) as [[res|e] st'] eqn:E;
      simpl in *; [|exists 0%nat; split; [done|lia]].
    apply getSignedAuditRoot_Ok in E as [E1 E2]. exists 1%nat.
    rewrite consecutive_1, E1. split; [done|].
    rewrite E2 in *. unfold Crypto.number_succ in *.
    destruct (Z.ltb_spec (nonceCounter st) (2 ^ 53)); lia.
Qed.

Lemma issuedAll_sorted (cs : list Call) (st : State) :
  forallb (fun c => negb (isInit c)) cs = true ->
  nonceCounter (run cs st) < 2 ^ 53 ->
  StronglySorted Z.lt (issuedAll cs st)
  /\ Forall (fun n => nonceCounter st <= n < nonceCounter (run cs st))
            (issuedAll cs st)
  /\ nonceCounter st <= nonceCounter (run cs st).
Proof.
  revert st. induction cs as [|c cs IH]; intros st Hn Hlt.
  - simpl. repeat split; [constructor|constructor|lia].
  - cbn [forallb] in Hn. apply andb_true_iff in Hn as [Hc Hn].
    apply negb_true_iff in Hc.
    change (run (c :: cs) st) with (run cs (step c st)) in *.
    destruct (IH (step c st) Hn Hlt) as (Hs & Hr & Hle).
    destruct (issued_spec c st Hc ltac:(lia)) as (k & Ek & Hk).
    cbn [issuedAll]. rewrite Ek.
    pose proof (consecutive_range (nonceCounter st) k) as Hck.
    rewrite Forall_forall in Hr, Hck.
    split; [|split; [|lia]].
    + apply sorted_app; [apply consecutive_sorted|done|].
      intros x y Hx Hy. specialize (Hck x Hx). specialize (Hr y Hy). lia.
    + apply Forall_app. split; apply Forall_forall.
      * intros x Hx. specialize (Hck x Hx). lia.
      * intros y Hy. specialize (Hr y Hy). lia.
Qed.

(** C9 (as amended).  Every nonce comes from the one module-level counter:
    while the counter is below 2^53, [getNextNonce] returns its value and
    adds one, so successive allocations return consecutive values; along any
    sequence of calls that does not initialise the signer, for any rounds and
    any kinds of message, the nonces in the signed messages returned are
    strictly increasing, hence never repeated; and each initialisation of the
    signer puts the counter back to 0. *)
Theorem nonces_between_initialisations :
  (forall st, nonceCounter st < 2 ^ 53 ->
     Crypto.getNextNonce st
     = (Ok (nonceCounter st), set_nonceCounter (nonceCounter st + 1) st))
  /\ (forall n st, nonceCounter st + Z.of_nat n <= 2 ^ 53 ->
        fst (allocate n st) = Ok (consecutive (nonceCounter st) n)
        /\ StronglySorted Z.lt (consecutive (nonceCounter st) n))
  /\ (forall cs st,
        forallb (fun c => negb (isInit c)) cs = true ->
        nonceCounter (run cs st) < 2 ^ 53 ->
        StronglySorted Z.lt (issuedAll cs st)
        /\ Forall (fun n => nonceCounter st <= n < nonceCounter (run cs st))
                  (issuedAll cs st))
  /\ (forall key w st, Wallet_new key = Some w ->
        nonceCounter (snd (Crypto.initSigner key st)) = 0)
  /\ (forall phrase w st, Wallet_fromPhrase phrase = Some w ->
        nonceCounter (snd (Crypto.initSignerFromMnemonic phrase st)) = 0).
Proof.
  split; [exact getNextNonce_run|]. split; [|split; [|split]].
  - intros n st Hle. rewrite allocate_run by done. split; [done|].
    apply consecutive_sorted.
  - intros cs st Hn Hlt. destruct (issuedAll_sorted cs st Hn Hlt) as (?&?&_).
    by split.
  - intros key w st E. unfold Crypto.initSigner. by rewrite E.
  - intros phrase w st E. unfold Crypto.initSignerFromMnemonic. by rewrite E.
Qed.

End WithPlatform.
End NonceFacts.

(** ** Pricing: brackets and escalation *)

Module BracketFacts.
Import Pricing TierDef PricingConfig.

(** The bracket a scan of the configured table settles on for the distance
    [d]: among the entries that admit [d], one with the least [maxDistance],
    the earliest in the table if several have it. *)
Definition tightest (d : Z) (x : TierDef.t) (acc : option TierDef.t)
  : option TierDef.t :=
  if d <=? maxDistance x then
    match acc with
    | Some y => if maxDistance x <=? maxDistance y then Some x else Some y
    | None => Some x
    end
  else acc.

Definition bracket (d : Z) (l : list TierDef.t) : option TierDef.t :=
  foldr (tightest d) None l.

Definition ascending (l : list TierDef.t) : Prop :=
  StronglySorted (fun a b => maxDistance a <= maxDistance b) l.

Lemma insertTier_elem_of (x z : TierDef.t) (l : list TierDef.t) :
  z ∈ insertTier x l -> z = x \/ z ∈ l.
Proof.
  induction l as [|w l IH]; simpl.
  - intros ->%list_elem_of_singleton. by left.
  - destruct (compareMaxDistance x w <=? 0).
    + intros [->|Hz]%elem_of_cons; auto.
    + intros [->|Hz]%elem_of_cons; [right; by left|].
      destruct (IH Hz); [auto|right; by right].
Qed.

Lemma insertTier_ascending (x : TierDef.t) (l : list TierDef.t) :
  ascending l -> ascending (insertTier x l).
Proof.
  unfold ascending. induction 1 as [|y l Hl IH Hy]; simpl.
  - repeat constructor.
  - assert (Hfront : maxDistance x <= maxDistance y ->
      StronglySorted (fun a b => maxDistance a <= maxDistance b) (x :: y :: l)).
    { intros Hxy. constructor; [by constructor|]. constructor; [lia|].
      eapply Forall_impl; [exact Hy|]. simpl. intros; lia. }
    unfold compareMaxDistance.
    destruct (Z.ltb_spec (maxDistance x) (maxDistance y)); simpl;
      [apply Hfront; lia|].
    destruct (Z.gtb_spec (maxDistance x) (maxDistance y)); simpl;
      [|apply Hfront; lia].
    constructor; [exact IH|].
    apply Forall_forall. intros z [->|Hz]%insertTier_elem_of; [lia|].
    rewrite Forall_forall in Hy. by apply Hy.
Qed.

Lemma sortTiers_ascending (l : list TierDef.t) : ascending (sortTiers l).
Proof.
  induction l as [|x l IH]; simpl; [constructor|by apply insertTier_ascending].
Qed.

Lemma find_ascending (d : Z) (y z : TierDef.t) (l : list TierDef.t) :
  ascending (y :: l) ->
  find (fun t => d <=? maxDistance t) (y :: l) = Some z ->
  maxDistance y <= maxDistance z.
Proof.
  intros Hs Hf. apply find_some in Hf as [[<-|Hin] _]; [lia|].
  apply StronglySorted_inv in Hs as [_ Hy]. rewrite Forall_forall in Hy.
  by apply Hy, list_elem_of_In.
Qed.

Lemma find_insertTier (d : Z) (x : TierDef.t) (l : list TierDef.t) :
  ascending l ->
  find (fun t => d <=? maxDistance t) (insertTier x l)
  = tightest d x (find (fun t => d <=? maxDistance t) l).
Proof.
  set (P := fun t => d <=? maxDistance t).
  intros Hs. induction l as [|y l IH]; [done|].
  assert (Hfront : maxDistance x <= maxDistance y ->
    find P (x :: y :: l) = tightest d x (find P (y :: l))).
  { intros Hxy. pose proof (find_ascending d y) as Hfirst. fold P in Hfirst.
    change (find P (x :: y :: l)) with (if P x then Some x else find P (y :: l)).
    unfold tightest. fold (P x). destruct (P x); [|done].
    destruct (find P (y :: l)) as [z|] eqn:Ez; [|done].
    specialize (Hfirst z l Hs Ez).
    destruct (Z.leb_spec (maxDistance x) (maxDistance z)); [done|lia]. }
  cbn [insertTier]. unfold compareMaxDistance.
  destruct (Z.ltb_spec (maxDistance x) (maxDistance y)); cbn [Z.leb Z.compare];
    [apply Hfront; lia|].
  destruct (Z.gtb_spec (maxDistance x) (maxDistance y)); cbn [Z.leb Z.compare];
    [|apply Hfront; lia].
  change (find P (y :: insertTier x l))
    with (if P y then Some y else find P (insertTier x l)).
  change (find P (y :: l)) with (if P y then Some y else find P l).
  destruct (P y) eqn:Ey.
  - unfold tightest. destruct (d <=? maxDistance x); [|done].
    destruct (Z.leb_spec (maxDistance x) (maxDistance y)); [lia|done].
  - apply IH. by apply StronglySorted_inv in Hs as [? _].
Qed.

Lemma find_sortTiers (d : Z) (l : list TierDef.t) :
  find (fun t => d <=? maxDistance t) (sortTiers l) = bracket d l.
Proof.
  induction l as [|x l IH]; [done|].
  change (sortTiers (x :: l)) with (insertTier x (sortTiers l)).
  rewrite find_insertTier by apply sortTiers_ascending. by rewrite IH.
Qed.

Lemma bracket_Some (d : Z) (l : list TierDef.t) (t : TierDef.t) :
  bracket d l = Some t ->
  t ∈ l /\ d <= maxDistance t
  /\ forall t', t' ∈ l -> d <= maxDistance t' -> maxDistance t <= maxDistance t'.
Proof.
  revert t. induction l as [|x l IH]; intros t; [done|].
  cbn [bracket foldr]. fold (bracket d l). unfold tightest.
  destruct (Z.leb_spec d (maxDistance x)) as [Hx|Hx].
  - destruct (bracket d l) as [y|] eqn:Ey.
    + destruct (IH y eq_refl) as (Hin&Hd&Hmin).
      destruct (Z.leb_spec (maxDistance x) (maxDistance y)); intros [= <-].
      * split; [by left|]. split; [done|].
        intros t' [->|Ht']%elem_of_cons Hd'; [lia|].
        specialize (Hmin t' Ht' Hd'). lia.
      * split; [by right|]. split; [done|].
        intros t' [->|Ht']%elem_of_cons Hd'; [lia|by apply Hmin].
    + intros [= <-]. split; [by left|]. split; [done|].
      intros t' [->|Ht']%elem_of_cons Hd'; [lia|].
      exfalso. clear IH. induction l as [|z l IHl]; [by apply elem_of_nil in Ht'|].
      cbn [bracket foldr] in Ey. fold (bracket d l) in Ey. unfold tightest in Ey.
      destruct (Z.leb_spec d (maxDistance z)).
      * by destruct (bracket d l) as [w|]; [destruct (_ <=? _)|].
      * apply elem_of_cons in Ht' as [->|Ht']; [lia|by apply IHl].
  - intros Ht. destruct (IH t Ht) as (Hin&Hd&Hmin).
    split; [by right|]. split; [done|].
    intros t' [->|Ht']%elem_of_cons Hd'; [lia|by apply Hmin].
Qed.

Lemma bracket_None (d : Z) (l : list TierDef.t) :
  bracket d l = None <-> Forall (fun t => maxDistance t < d) l.
Proof.
  induction l as [|x l IH]; [by split; [constructor|]|].
  cbn [bracket foldr]. fold (bracket d l). unfold tightest.
  rewrite Forall_cons. destruct (Z.leb_spec d (maxDistance x)).
  - split; [|lia]. by destruct (bracket d l) as [y|]; [destruct (_ <=? _)|].
  - rewrite IH. tauto.
Qed.

Lemma determinePriceTier_bracket (d : Z) (config : PricingConfig.t) :
  determinePriceTier d config
  = match bracket d (tiers config) with
    | Some t => tier t
    | None => Base
    end.
Proof. unfold determinePriceTier. by rewrite find_sortTiers. Qed.

(** X5.  [determinePriceTier] returns the tier of the tightest bracket that
    admits the distance: the configured entry of least [maxDistance] among
    those with [numericDistance <= maxDistance]; when no entry admits the
    distance it returns Base. *)
Theorem determinePriceTier_tightest (d : Z) (config : PricingConfig.t) :
  (Forall (fun t => maxDistance t < d) (tiers config) ->
     determinePriceTier d config = Base)
  /\ (forall t, t ∈ tiers config -> d <= maxDistance t ->
        exists t0, t0 ∈ tiers config
          /\ determinePriceTier d config = tier t0
          /\ d <= maxDistance t0
          /\ forall t', t' ∈ tiers config -> d <= maxDistance t' ->
               maxDistance t0 <= maxDistance t').
Proof.
  rewrite determinePriceTier_bracket. split.
  - intros Hall. apply bracket_None in Hall. by rewrite Hall.
  - intros t Ht Hd. destruct (bracket d (tiers config)) as [t0|] eqn:E.
    + exists t0. destruct (bracket_Some _ _ _ E) as (?&?&?). done.
    + apply bracket_None in E. rewrite Forall_forall in E.
      specialize (E t Ht). simpl in E. lia.
Qed.

(** X6.  For a configuration whose multipliers are whole numbers (the
    values of [TierDef.t]; on a fractional one [BigInt] throws),
    [computeBuyIn] returns exactly when the configuration has an entry that
    admits the distance or an entry for Base; otherwise reading the
    multiplier of the missing entry throws, and it throws nothing else.  When
    it returns, the value is the configuration's [baseBuyIn] times what
    [getMultiplier] gives for the tier [determinePriceTier] selects. *)
Theorem computeBuyIn_defined (d : Z) (config : PricingConfig.t) :
  ((exists v, computeBuyIn d config = Ok v) <->
     exists t, t ∈ tiers config /\ (d <= maxDistance t \/ tier t = Base))
  /\ ((forall v, computeBuyIn d config <> Ok v) <->
        computeBuyIn d config = Throw UndefinedTierDef)
  /\ (forall v, computeBuyIn d config = Ok v ->
        v = baseBuyIn config
            * getMultiplier (determinePriceTier d config) config).
Proof.
  assert (Hfind : forall T,
    (exists t, find (fun t => bool_decide (tier t = T)) (tiers config) = Some t)
    <-> exists t, t ∈ tiers config /\ tier t = T).
  { intros T. split.
    - intros (t&[Hin Ht]%find_some). exists t.
      split; [by apply list_elem_of_In|by apply bool_decide_eq_true in Ht].
    - intros (t&Hin&Ht).
      destruct (find _ (tiers config)) as [t1|] eqn:E; [by exists t1|].
      exfalso. apply list_elem_of_In in Hin.
      pose proof (find_none _ _ E t Hin) as Hn. simpl in Hn.
      by apply bool_decide_eq_false in Hn. }
  split; [|split].
  - unfold computeBuyIn. cbv zeta. rewrite determinePriceTier_bracket.
    destruct (bracket d (tiers config)) as [t0|] eqn:Eb.
    + destruct (bracket_Some _ _ _ Eb) as (Hin0&Hd0&_).
      destruct (proj2 (Hfind (tier t0))) as (t1&E1); [by exists t0|].
      rewrite E1. split; [|eauto]. intros _. exists t0. split; [done|by left].
    + pose proof (proj1 (bracket_None _ _) Eb) as Hall.
      rewrite Forall_forall in Hall. split.
      * intros (v&Hv).
        destruct (find _ (tiers config)) as [td|] eqn:E; [|done].
        apply find_some in E as [Hin Ht]. apply bool_decide_eq_true in Ht.
        apply list_elem_of_In in Hin. exists td. split; [done|by right].
      * intros (t&Hin&[Hd|Hb]).
        -- specialize (Hall t Hin). simpl in Hall. lia.
        -- destruct (proj2 (Hfind Base)) as (t1&E1); [by exists t|].
           rewrite E1. eauto.
  - unfold computeBuyIn. cbv zeta.
    destruct (find _ (tiers config)) as [td|]; split; try done.
    intros Hv. by destruct (Hv (baseBuyIn config * multiplier td)).
  - intros v. unfold computeBuyIn, getMultiplier. cbv zeta.
    destruct (find _ (tiers config)); [|done]. by intros [= <-].
Qed.

(** The price list of the default configuration. *)
Definition defaultBuyIn (d : Z) : Z :=
  if d <=? 10 then 100000000000000000
  else if d <=? 100 then 50000000000000000
  else if d <=? 1000 then 20000000000000000
  else 10000000000000000.

Lemma computeBuyIn_default (d : Z) :
  computeBuyIn d DEFAULT_PRICING_CONFIG = Ok (defaultBuyIn d).
Proof.
  unfold computeBuyIn, defaultBuyIn. cbv zeta.
  rewrite PricingFacts.determinePriceTier_default.
  destruct (d <=? 10); [reflexivity|].
  destruct (d <=? 100); [reflexivity|].
  destruct (d <=? 1000); reflexivity.
Qed.

(** X7.  Under the default configuration [computeBuyIn] never throws, for any
    distance (negative ones and ones beyond 999999999999 included), and a guess
    that is no farther from the target never costs less. *)
Theorem computeBuyIn_default_antitone (d1 d2 : Z) :
  d1 <= d2 ->
  exists v1 v2,
    computeBuyIn d1 DEFAULT_PRICING_CONFIG = Ok v1
    /\ computeBuyIn d2 DEFAULT_PRICING_CONFIG = Ok v2
    /\ 10000000000000000 <= v2 <= v1 /\ v1 <= 100000000000000000.
Proof.
  intros Hd. exists (defaultBuyIn d1), (defaultBuyIn d2).
  rewrite !computeBuyIn_default. split; [done|]. split; [done|].
  unfold defaultBuyIn.
  repeat match goal with |- context [?a <=? ?b] => destruct (Z.leb_spec a b) end;
    lia.
Qed.

(** X8.  When the price escalates.  Whatever the configuration, a round in
    the Scorching tier never escalates, and an escalation always moves to a
    strictly more severe tier.  Under the default configuration a round
    escalates exactly when the guess lands within 1000 of the target from
    Base, within 100 from Warm and within 10 from Hot. *)
Theorem shouldUpdatePrice_when (d : Z) (config : PricingConfig.t) :
  shouldUpdatePrice Scorching d config = false
  /\ (forall t, shouldUpdatePrice t d config = true ->
        tierIndex t < tierIndex (determinePriceTier d config))
  /\ shouldUpdatePrice Base d DEFAULT_PRICING_CONFIG = (d <=? 1000)
  /\ shouldUpdatePrice Warm d DEFAULT_PRICING_CONFIG = (d <=? 100)
  /\ shouldUpdatePrice Hot d DEFAULT_PRICING_CONFIG = (d <=? 10).
Proof.
  unfold shouldUpdatePrice. cbv zeta. split; [|split].
  - destruct (determinePriceTier d config); reflexivity.
  - intros t Ht. by apply Z.gtb_lt in Ht.
  - rewrite PricingFacts.determinePriceTier_default.
    repeat match goal with |- context [?a <=? ?b] => destruct (Z.leb_spec a b) end;
      repeat split; try reflexivity; lia.
Qed.

End BracketFacts.

(** ** Scoring: shared digits, failures, distances *)

Module HintFacts.
Import Scoring HintResult ScoringFacts.

(** The ten decimal digits. *)
Definition decimalDigits : list ascii := list_ascii_of_string "0123456789".

(** How many digits two numerals have in common, counted with multiplicity
    and regardless of position. *)
Fixpoint sharedOver (ds : list ascii) (xs ys : list ascii) : nat :=
  match ds with
  | [] => 0
  | d :: ds' => Nat.min (occ d xs) (occ d ys) + sharedOver ds' xs ys
  end%nat.

Definition sharedDigits (a b : string) : nat :=
  sharedOver decimalDigits (list_ascii_of_string a) (list_ascii_of_string b).

(** Positions at which both lists hold [d]. *)
Fixpoint matchesOf (d : ascii) (xs ys : list ascii) : nat :=
  match xs, ys with
  | x :: xs', y :: ys' =>
      (if decide (x = y) then if decide (x = d) then 1 else 0 else 0)
      + matchesOf d xs' ys'
  | _, _ => 0
  end%nat.

Lemma occ_mark (d : ascii) (xs ys : list ascii) :
  length xs = length ys ->
  occ d xs = (occ (Some d) (mark xs ys) + matchesOf d xs ys)%nat.
Proof.
  revert ys. induction xs as [|x xs IH]; intros [|y ys] E; simpl in *;
    try congruence.
  rewrite (IH ys) by congruence.
  repeat case_decide; simplify_eq; lia.
Qed.

Lemma matchesOf_comm (d : ascii) (xs ys : list ascii) :
  matchesOf d xs ys = matchesOf d ys xs.
Proof.
  revert ys. induction xs as [|x xs IH]; intros [|y ys]; simpl; try done.
  rewrite IH. repeat case_decide; simplify_eq; done.
Qed.

Lemma matchesOf_absent (d : ascii) (xs ys : list ascii) :
  d ∉ xs -> matchesOf d xs ys = 0%nat.
Proof.
  revert ys. induction xs as [|x xs IH]; intros [|y ys] Hd; simpl; try done.
  apply not_elem_of_cons in Hd as [Hne Hd]. rewrite (IH ys Hd).
  repeat case_decide; simplify_eq; done.
Qed.

Definition sumOver (f : ascii -> nat) (ds : list ascii) : nat :=
  foldr (fun d n => (f d + n)%nat) 0%nat ds.

Lemma sumOver_ext (f g : ascii -> nat) (ds : list ascii) :
  (forall d, f d = g d) -> sumOver f ds = sumOver g ds.
Proof. intros E. induction ds as [|d ds IH]; simpl; [done|]. by rewrite E, IH. Qed.

Lemma sumOver_add (f g : ascii -> nat) (ds : list ascii) :
  sumOver (fun d => (f d + g d)%nat) ds = (sumOver f ds + sumOver g ds)%nat.
Proof. induction ds as [|d ds IH]; simpl; [done|]. rewrite IH. lia. Qed.

Lemma sumOver_zero (ds : list ascii) : sumOver (fun _ => 0%nat) ds = 0%nat.
Proof. induction ds as [|d ds IH]; simpl; done. Qed.

Lemma sumOver_indicator (x : ascii) (ds : list ascii) :
  NoDup ds -> x ∈ ds ->
  sumOver (fun d => if decide (x = d) then 1%nat else 0%nat) ds = 1%nat.
Proof.
  induction 1 as [|d ds Hd Hnd IH]; [by intros ?%elem_of_nil|].
  cbn [sumOver foldr]. fold (sumOver (fun d => if decide (x = d) then 1%nat else 0%nat) ds).
  destruct (decide (x = d)) as [->|NE].
  - intros _. assert (sumOver (fun d0 => if decide (d = d0) then 1%nat else 0%nat) ds = 0%nat)
      as ->; [|done].
    clear IH Hnd. induction ds as [|e ds IHe]; [done|].
    apply not_elem_of_cons in Hd as [Hne Hd]. cbn [sumOver foldr].
    rewrite decide_False by done. by apply IHe.
  - intros [->|Hx]%elem_of_cons; [done|]. by rewrite IH.
Qed.

Lemma matches_sum (ds xs ys : list ascii) :
  NoDup ds -> (forall c, c ∈ xs -> c ∈ ds) ->
  matches xs ys = sumOver (fun d => matchesOf d xs ys) ds.
Proof.
  intros Hnd. revert ys. induction xs as [|x xs IH]; intros ys Hin.
  - simpl. by rewrite sumOver_zero.
  - destruct ys as [|y ys]; [simpl; by rewrite sumOver_zero|].
    cbn [matches matchesOf]. rewrite sumOver_add.
    rewrite <- (IH ys) by (intros c Hc; apply Hin; by right).
    destruct (decide (x = y)) as [->|NE].
    + rewrite (sumOver_indicator y ds Hnd) by (apply Hin; by left). done.
    + by rewrite sumOver_zero.
Qed.

Lemma shared_split (ds xs ys : list ascii) :
  length xs = length ys ->
  sharedOver ds xs ys
  = (commonOver ds (mark xs ys) (mark ys xs)
     + sumOver (fun d => matchesOf d xs ys) ds)%nat.
Proof.
  intros E. induction ds as [|d ds IH]; [done|].
  cbn [sharedOver commonOver sumOver foldr].
  fold (sumOver (fun d => matchesOf d xs ys) ds). rewrite IH.
  rewrite (occ_mark d xs ys E), (occ_mark d ys xs) by congruence.
  rewrite (matchesOf_comm d ys xs). lia.
Qed.

Lemma decimalDigits_spec (c : ascii) : isDigit c = true -> c ∈ decimalDigits.
Proof.
  intros Hc. pose proof (isDigit_range c Hc) as Hr.
  assert (Hn : (48 <= nat_of_ascii c <= 57)%nat) by lia.
  rewrite <- (ascii_nat_embedding c).
  assert (Hcases : forall n, (48 <= n <= 57)%nat -> ascii_of_nat n ∈ decimalDigits).
  { intros n Hb. do 48 (destruct n as [|n]; [lia|]).
    do 10 (destruct n as [|n];
           [vm_compute; repeat first [apply list_elem_of_here|apply list_elem_of_further]|]).
    lia. }
  by apply Hcases.
Qed.

Section WithPlatform.
Context `{Platform}.

(** X9.  For two 12-digit strings the two counts of the hint add up to the
    number of digits the strings have in common, counted with multiplicity and
    regardless of position: the sum over the ten digits of the smaller of its
    two occurrence counts. *)
Theorem calculateDistance_shared_digits (secret guess : string)
    (config : PricingConfig.t) :
  isDecimal12 secret = true -> isDecimal12 guess = true ->
  exists h, calculateDistance secret guess config = Ok h
    /\ (digitsInPlace h + digitsCorrect h)%nat = sharedDigits secret guess.
Proof.
  intros Hs Hg. rewrite (calculateDistance_closed _ _ config Hs Hg).
  pose proof (isDecimal12_chars _ Hs) as [Ls Ds].
  pose proof (isDecimal12_chars _ Hg) as [Lg Dg].
  eexists. split; [reflexivity|]. simpl. unfold sharedDigits.
  set (t := list_ascii_of_string secret) in *.
  set (g := list_ascii_of_string guess) in *.
  assert (Hnd : NoDup decimalDigits) by (by apply (bool_decide_unpack _)).
  rewrite (shared_split decimalDigits t g) by congruence.
  rewrite <- (matches_sum decimalDigits t g Hnd).
  - rewrite (cows_common decimalDigits (mark g t) (mark t g) Hnd).
    + rewrite commonOver_comm. lia.
    + intros c Hc%mark_elem. apply decimalDigits_spec.
      rewrite Forall_forall in Dg. by apply Dg.
  - intros c Hc. apply decimalDigits_spec. rewrite Forall_forall in Ds. by apply Ds.
Qed.

(** The failures of [calculateDistance] on strings of 8-bit characters: it
    throws the format error exactly when one of the two strings is not 12
    characters long, and the length test comes first; with two 12-character
    strings it throws exactly when [BigInt] rejects one of them; in every other
    case it returns, and then the distance is not negative, the tier is the
    one priced for that distance, and [isExactMatch] says that [digitsInPlace]
    is 12. *)
Theorem calculateDistance_failures (target guess : string)
    (config : PricingConfig.t) :
  (calculateDistance target guess config = Throw InvalidGuessFormat <->
     String.length target <> 12%nat \/ String.length guess <> 12%nat)
  /\ (calculateDistance target guess config = Throw BigIntSyntaxError <->
        String.length target = 12%nat /\ String.length guess = 12%nat
        /\ (BigInt target = None \/ BigInt guess = None))
  /\ (forall e, calculateDistance target guess config = Throw e ->
        e = InvalidGuessFormat \/ e = BigIntSyntaxError)
  /\ (forall h, calculateDistance target guess config = Ok h ->
        0 <= numericDistance h
        /\ priceTier h = Pricing.determinePriceTier (numericDistance h) config
        /\ isExactMatch h = (digitsInPlace h =? 12)%nat).
Proof.
  unfold calculateDistance.
  destruct (Nat.eqb_spec (String.length target) 12) as [Lt|Lt]; simpl.
  2: { repeat split; try done; try (intros; tauto); try (by intros (?&?&?)).
       intros e [= <-]. by left. }
  destruct (Nat.eqb_spec (String.length guess) 12) as [Lg|Lg]; simpl.
  2: { repeat split; try done; try (intros; tauto); try (by intros (?&?&?)).
       intros e [= <-]. by left. }
  destruct (bullsLoop _ _) as [[b tr] gr]. destruct (cowsLoop _ _) as [c rest].
  destruct (BigInt target) as [bt|], (BigInt guess) as [bg|];
    (repeat split; try done; try (intros [?|?]; done);
     try (intros (_&_&[?|?]); done); try (intros; tauto);
     try (intros e [= <-]; by right)).
  all: match goal with E : Ok _ = Ok _ |- _ => injection E as <- end; simpl;
    try done.
  destruct (Z.gtb_spec bt bg); lia.
Qed.

(** X11.  The numeric distance between 12-digit strings obeys the triangle
    inequality. *)
Theorem calculateDistance_triangle (a b c : string) (config : PricingConfig.t) :
  isDecimal12 a = true -> isDecimal12 b = true -> isDecimal12 c = true ->
  exists hab hbc hac,
    calculateDistance a b config = Ok hab
    /\ calculateDistance b c config = Ok hbc
    /\ calculateDistance a c config = Ok hac
    /\ numericDistance hac <= numericDistance hab + numericDistance hbc.
Proof.
  intros Ha Hb Hc.
  rewrite (calculateDistance_closed _ _ config Ha Hb),
          (calculateDistance_closed _ _ config Hb Hc),
          (calculateDistance_closed _ _ config Ha Hc).
  do 3 eexists. repeat (split; [reflexivity|]). simpl. lia.
Qed.

End WithPlatform.
End HintFacts.

(** ** Decimal text and generated targets *)

Module TargetFacts.
Import Scoring ScoringFacts Crypto.

(** The value of a decimal numeral of the standard library, read from the
    left onto [acc]. *)
Fixpoint uintValue (acc : Z) (d : Decimal.uint) : Z :=
  match d with
  | Decimal.Nil => acc
  | Decimal.D0 l => uintValue (10 * acc) l
  | Decimal.D1 l => uintValue (10 * acc + 1) l
  | Decimal.D2 l => uintValue (10 * acc + 2) l
  | Decimal.D3 l => uintValue (10 * acc + 3) l
  | Decimal.D4 l => uintValue (10 * acc + 4) l
  | Decimal.D5 l => uintValue (10 * acc + 5) l
  | Decimal.D6 l => uintValue (10 * acc + 6) l
  | Decimal.D7 l => uintValue (10 * acc + 7) l
  | Decimal.D8 l => uintValue (10 * acc + 8) l
  | Decimal.D9 l => uintValue (10 * acc + 9) l
  end.

Definition uintChars (d : Decimal.uint) : list ascii :=
  list_ascii_of_string (DecimalString.NilEmpty.string_of_uint d).

Lemma BigInt_digits_uint (d : Decimal.uint) (acc : Z) :
  BigInt_digits acc (uintChars d) = uintValue acc d.
Proof.
  unfold uintChars. revert acc.
  induction d; intros acc; cbn [DecimalString.NilEmpty.string_of_uint
    list_ascii_of_string BigInt_digits uintValue]; rewrite ?IHd;
    try reflexivity; apply (f_equal (fun a => uintValue a d));
    match goal with |- context [Z.of_nat (nat_of_ascii ?c)] =>
      let v := eval vm_compute in (Z.of_nat (nat_of_ascii c)) in
      change (Z.of_nat (nat_of_ascii c)) with v
    end; lia.
Qed.

Lemma uintChars_digits (d : Decimal.uint) :
  forallb isDigit (uintChars d) = true.
Proof. unfold uintChars. induction d; simpl; try done. Qed.

Lemma uintChars_length (d : Decimal.uint) :
  length (uintChars d) = Decimal.nb_digits d.
Proof. unfold uintChars. induction d; simpl; congruence. Qed.

Lemma of_uint_acc_value (d : Decimal.uint) (acc : positive) :
  Z.pos (Pos.of_uint_acc d acc) = uintValue (Z.pos acc) d.
Proof.
  revert acc. induction d; intros acc; cbn [Pos.of_uint_acc uintValue];
    rewrite ?IHd; try reflexivity; f_equal; lia.
Qed.

Lemma of_uint_value (d : Decimal.uint) :
  Z.of_N (Pos.of_uint d) = uintValue 0 d.
Proof.
  induction d; cbn [Pos.of_uint uintValue]; try done;
    cbn [Z.of_N]; rewrite of_uint_acc_value; reflexivity.
Qed.

Lemma uintValue_acc (d : Decimal.uint) (acc : Z) :
  uintValue acc d = acc * 10 ^ Z.of_nat (Decimal.nb_digits d) + uintValue 0 d.
Proof.
  revert acc. induction d; intros acc; cbn [uintValue Decimal.nb_digits];
    [rewrite Z.pow_0_r; lia|..];
    match goal with |- uintValue ?a d = _ + uintValue ?b d =>
      rewrite (IHd a), (IHd b) end;
    rewrite Nat2Z.inj_succ, Z.pow_succ_r by lia; lia.
Qed.

Lemma uintValue_nonneg (d : Decimal.uint) (acc : Z) :
  0 <= acc -> 0 <= uintValue acc d.
Proof.
  revert acc. induction d; intros acc Hacc; cbn [uintValue]; try done;
    apply IHd; lia.
Qed.

(** A numeral that does not start with 0 is at least the power of ten of its
    length less one. *)
Lemma uintValue_lower (d : Decimal.uint) :
  Decimal.nzhead d = d -> d <> Decimal.Nil ->
  10 ^ (Z.of_nat (Decimal.nb_digits d) - 1) <= uintValue 0 d.
Proof.
  intros Hnz Hnil.
  destruct d as [|d|d|d|d|d|d|d|d|d|d]; [done| |..];
    try (cbn [uintValue Decimal.nb_digits]; rewrite uintValue_acc;
         pose proof (uintValue_nonneg d 0 ltac:(lia));
         replace (Z.of_nat (S (Decimal.nb_digits d)) - 1)
           with (Z.of_nat (Decimal.nb_digits d)) by lia;
         assert (0 < 10 ^ Z.of_nat (Decimal.nb_digits d))
           by (apply Z.pow_pos_nonneg; lia);
         nia).
  exfalso. simpl in Hnz.
  pose proof (DecimalFacts.nb_digits_nzhead d) as Hle. rewrite Hnz in Hle.
  simpl in Hle. lia.
Qed.

Lemma to_uint_value (p : positive) : uintValue 0 (Pos.to_uint p) = Z.pos p.
Proof.
  rewrite <- of_uint_value. by rewrite DecimalPos.Unsigned.of_to.
Qed.

Lemma to_uint_nzhead (p : positive) :
  Decimal.nzhead (Pos.to_uint p) = Pos.to_uint p.
Proof.
  pose proof (DecimalPos.Unsigned.to_of (Pos.to_uint p)) as Hn.
  rewrite DecimalPos.Unsigned.of_to in Hn. cbn [N.to_uint] in Hn.
  unfold Decimal.unorm in Hn.
  destruct (Decimal.nzhead (Pos.to_uint p)) eqn:E; try done.
  by apply DecimalPos.Unsigned.to_uint_nonzero in Hn.
Qed.

Lemma toString_chars (z : Z) :
  0 <= z ->
  exists d, list_ascii_of_string (toString z) = uintChars d
    /\ uintValue 0 d = z
    /\ (1 <= Decimal.nb_digits d)%nat
    /\ (0 < z -> 10 ^ (Z.of_nat (Decimal.nb_digits d) - 1) <= z).
Proof.
  intros Hz. unfold toString. destruct z as [|p|p]; [| |lia].
  - exists (Decimal.D0 Decimal.Nil). repeat split; try done.
  - exists (Pos.to_uint p). cbn [Z.to_int DecimalString.NilZero.string_of_int].
    pose proof (DecimalPos.Unsigned.to_uint_nonnil p) as Hnil.
    split.
    { unfold DecimalString.NilZero.string_of_uint, uintChars.
      by destruct (Pos.to_uint p). }
    split; [apply to_uint_value|]. split.
    { destruct (Pos.to_uint p); simpl; try done; lia. }
    intros _. rewrite <- (to_uint_value p).
    apply uintValue_lower; [apply to_uint_nzhead|done].
Qed.

Lemma string_of_chars_length (l : list ascii) :
  String.length (string_of_list_ascii l) = length l.
Proof. induction l; simpl; congruence. Qed.

Lemma chars_append (s1 s2 : string) :
  list_ascii_of_string (s1 +:+ s2)
  = list_ascii_of_string s1 ++ list_ascii_of_string s2.
Proof. induction s1 as [|c s1 IH]; simpl; [done|]. by rewrite <- IH. Qed.

Lemma BigInt_digits_zeros (n : nat) (s : list ascii) :
  BigInt_digits 0 (repeat "0"%char n ++ s) = BigInt_digits 0 s.
Proof. induction n as [|n IH]; [done|]. exact IH. Qed.

Lemma toString_digits (z : Z) :
  0 <= z -> forallb isDigit (list_ascii_of_string (toString z)) = true.
Proof.
  intros Hz. destruct (toString_chars z Hz) as (d&Hc&_). rewrite Hc.
  apply uintChars_digits.
Qed.

Lemma toString_value (z : Z) :
  0 <= z -> BigInt_digits 0 (list_ascii_of_string (toString z)) = z.
Proof.
  intros Hz. destruct (toString_chars z Hz) as (d&Hc&Hv&_).
  by rewrite Hc, BigInt_digits_uint.
Qed.

Lemma toString_length (z : Z) (n : nat) :
  0 <= z -> z < 10 ^ Z.of_nat n -> (1 <= n)%nat ->
  (1 <= String.length (toString z) <= n)%nat.
Proof.
  intros Hz Hn Hn1. destruct (toString_chars z Hz) as (d&Hc&Hv&Hlen&Hlow).
  rewrite string_length_chars, Hc, uintChars_length. split; [done|].
  destruct (decide (z = 0)) as [->|Hnz].
  - assert (Hone : Decimal.nb_digits d = 1%nat).
    { rewrite <- uintChars_length, <- Hc. reflexivity. }
    lia.
  - specialize (Hlow ltac:(lia)).
    destruct (decide (Decimal.nb_digits d <= n)%nat) as [|Hgt]; [done|].
    exfalso.
    assert (10 ^ Z.of_nat n <= 10 ^ (Z.of_nat (Decimal.nb_digits d) - 1))
      by (apply Z.pow_le_mono_r; lia).
    lia.
Qed.

(** The target [generateTarget] builds from a number below 10^12. *)
Lemma padStart_decimal12 (num : Z) :
  0 <= num < 1000000000000 ->
  isDecimal12 (padStart 12 "0"%char (toString num)) = true
  /\ valueOf (padStart 12 "0"%char (toString num)) = num.
Proof.
  intros Hnum.
  pose proof (toString_digits num (proj1 Hnum)) as Hd.
  pose proof (toString_value num (proj1 Hnum)) as Hv.
  pose proof (toString_length num 12 (proj1 Hnum) (proj2 Hnum) ltac:(lia)) as Hl.
  set (target := padStart 12 "0"%char (toString num)).
  assert (Hchars : list_ascii_of_string target
    = repeat "0"%char (12 - String.length (toString num))
      ++ list_ascii_of_string (toString num)).
  { unfold target, padStart.
    by rewrite chars_append, list_ascii_of_string_of_list_ascii. }
  assert (Hall : forallb isDigit (list_ascii_of_string target) = true).
  { rewrite Hchars, forallb_app, Hd, andb_true_r.
    apply forallb_forall. by intros c ->%repeat_spec. }
  split.
  - unfold isDecimal12. rewrite Hall, andb_true_r.
    apply Nat.eqb_eq. rewrite string_length_chars, Hchars, length_app,
      repeat_length, <- string_length_chars. lia.
  - unfold valueOf.
    pose proof (BigInt_digits_value (list_ascii_of_string target) 0) as Hh.
    rewrite Hchars in Hh at 1. rewrite BigInt_digits_zeros, Hv in Hh. lia.
Qed.

Lemma generateTarget_decimal12 (random8 random32 : list byte) :
  isDecimal12 (fst (generateTarget random8 random32)) = true.
Proof.
  unfold generateTarget. cbn [fst]. apply padStart_decimal12.
  apply Z.mod_pos_bound. lia.
Qed.

Section WithPlatform.
Context `{Platform}.

(** X12.  Decimal text round trip: for a [bigint] that is not negative,
    [toString()] gives a non-empty run of decimal digits, of at most [n]
    characters when the value is below [10^n], and [BigInt] reads that text
    back to the same value.  This is the form in which buy-ins and distances
    travel in the signed messages and in the audit payloads. *)
Theorem BigInt_toString (z : Z) :
  0 <= z ->
  BigInt (toString z) = Some z
  /\ forallb isDigit (list_ascii_of_string (toString z)) = true
  /\ (1 <= String.length (toString z))%nat
  /\ (forall n, z < 10 ^ Z.of_nat n -> (1 <= n)%nat ->
        (String.length (toString z) <= n)%nat).
Proof.
  intros Hz. pose proof (toString_digits z Hz) as Hd.
  split; [|split; [done|split]].
  - unfold BigInt. by rewrite Hd, toString_value.
  - destruct (toString_chars z Hz) as (d&Hc&_&Hlen&_).
    by rewrite string_length_chars, Hc, uintChars_length.
  - intros n Hn Hn1. by destruct (toString_length z n Hz Hn Hn1).
Qed.

(** X13.  [generateTarget] always returns a target of exactly twelve decimal
    digits, whatever the eight random bytes: its value is the bytes read as a
    big-endian number, reduced modulo 10^12, and shorter numerals are padded
    with zeros on the left.  The scoring function therefore never rejects a
    generated target, and scores it against itself as an exact match. *)
Theorem generateTarget_valid (random8 random32 : list byte)
    (config : PricingConfig.t) :
  length random8 = 8%nat ->
  let '(target, salt) := generateTarget random8 random32 in
  isDecimal12 target = true
  /\ valueOf target = bytesValue random8 mod 1000000000000
  /\ salt = random32
  /\ exists h, calculateDistance target target config = Ok h
       /\ HintResult.isExactMatch h = true
       /\ HintResult.numericDistance h = 0.
Proof.
  intros _. unfold generateTarget. cbv zeta.
  set (num := bytesValue random8 mod 1000000000000).
  assert (Hnum : 0 <= num < 1000000000000) by (apply Z.mod_pos_bound; lia).
  destruct (padStart_decimal12 num Hnum) as [Hvalid Hval].
  split; [done|]. split; [done|]. split; [done|].
  rewrite (calculateDistance_closed _ _ config Hvalid Hvalid).
  eexists. split; [reflexivity|]. simpl.
  pose proof (isDecimal12_chars _ Hvalid) as [Hlen _].
  split; [|lia]. apply Nat.eqb_eq. etrans; [|exact Hlen]. by apply matches_full.
Qed.

End WithPlatform.
End TargetFacts.

(** ** Commitments and signed messages *)

Module CommitmentFacts.
Import Crypto ScoringFacts.

Lemma bytes_of_string_length (s : string) :
  length (list_byte_of_string s) = String.length s.
Proof.
  unfold list_byte_of_string. by rewrite length_map, string_length_chars.
Qed.

Lemma bytes_of_string_inj (s1 s2 : string) :
  list_byte_of_string s1 = list_byte_of_string s2 -> s1 = s2.
Proof.
  intros E. rewrite <- (string_of_list_byte_of_string s1),
    <- (string_of_list_byte_of_string s2). by rewrite E.
Qed.

Section WithPlatform.
Context `{Platform}.

(** What is hashed for a commitment: the characters of the target, those of
    the round identifier, and the 32 bytes of the salt, one after the other. *)
Lemma computeCommitment_preimage (target roundId : string) (salt : list byte) :
  computeCommitment target roundId salt
  = Ok (keccak256 (list_byte_of_string target ++ list_byte_of_string roundId
                   ++ salt)).
Proof.
  unfold computeCommitment, solidityPackedKeccak256. simpl.
  by rewrite app_nil_r.
Qed.

(** X14.  Commitments bind: with 12-character targets and 32-byte salts, the
    bytes hashed determine the target, the round identifier and the salt, so
    two openings with the same commitment are equal or exhibit a collision of
    [keccak256].  (Unlike the audit entries, the hashed text has a single
    field of variable length.) *)
Theorem computeCommitment_binding (target1 target2 roundId1 roundId2 : string)
    (salt1 salt2 : list byte) :
  String.length target1 = 12%nat -> String.length target2 = 12%nat ->
  length salt1 = 32%nat -> length salt2 = 32%nat ->
  computeCommitment target1 roundId1 salt1
  = computeCommitment target2 roundId2 salt2 ->
  (target1 = target2 /\ roundId1 = roundId2 /\ salt1 = salt2)
  \/ exists b1 b2 : list byte, b1 <> b2 /\ keccak256 b1 = keccak256 b2.
Proof.
  intros Ht1 Ht2 Hs1 Hs2. rewrite !computeCommitment_preimage. intros [= Hk].
  set (b1 := list_byte_of_string target1 ++ list_byte_of_string roundId1 ++ salt1) in *.
  set (b2 := list_byte_of_string target2 ++ list_byte_of_string roundId2 ++ salt2) in *.
  destruct (decide (b1 = b2)) as [E|NE]; [left|right; by exists b1, b2].
  subst b1 b2.
  apply app_inj_1 in E as [Et E]; [|by rewrite !bytes_of_string_length, Ht1, Ht2].
  apply app_inj_2 in E as [Er Es]; [|congruence].
  split; [by apply bytes_of_string_inj|]. split; [by apply bytes_of_string_inj|done].
Qed.

(** X15.  The signed messages carry no tag for their kind, and the message
    for a round start and the message for an audit root have the same layout
    (a string, a 32-byte word and two 256-bit numbers).  Hence, for a buy-in
    that is a safe integer (at most 2^53 - 1, the largest entry count ethers
    accepts as a [number]), the signature [signStartRound] issues for a
    round, a commitment, a buy-in and a nonce is the very signature
    [signAuditRoot] issues for the same round and nonce with the commitment
    as Merkle root and the buy-in as entry count; and the two calls fail
    together. *)
Theorem signStartRound_is_signAuditRoot (roundId : string) (word : Hash)
    (n : nat) (nonce : Z) (st : State) :
  Z.of_nat n <= MAX_SAFE_INTEGER ->
  signStartRound roundId word (Z.of_nat n) nonce st
  = signAuditRoot roundId word n nonce st.
Proof.
  intros Hn. unfold signStartRound, signAuditRoot, bind, getSigner.
  destruct (signer st) as [w|]; [|done].
  unfold liftResult, solidityPackedKeccak256.
  cbn [solidityPacked packValue].
  unfold MAX_SAFE_INTEGER in *.
  assert (((0 <=? Z.of_nat n) && (Z.of_nat n <? 256 ^ Z.of_nat 32)) = true) as ->.
  { apply andb_true_iff. split; [apply Z.leb_le; lia|].
    apply Z.ltb_lt. change (256 ^ Z.of_nat 32) with (2 ^ 256).
    eapply Z.le_lt_trans; [exact Hn|done]. }
  assert (((0 <=? Z.of_nat n) && (Z.of_nat n <=? 2 ^ 53 - 1)
           && (Z.of_nat n <? 256 ^ Z.of_nat 32)) = true) as ->; [|done].
  apply andb_true_iff. split; [apply andb_true_iff; split; apply Z.leb_le; lia|].
  apply Z.ltb_lt. change (256 ^ Z.of_nat 32) with (2 ^ 256).
  eapply Z.le_lt_trans; [exact Hn|done].
Qed.

End WithPlatform.
End CommitmentFacts.

(** ** Chain verification after an alteration *)

Module TamperFacts.
Import AuditEntry AuditTrail Audit AuditFacts ScoringFacts CommitmentFacts.

Lemma bigEndian_length (len : nat) (v : Z) : length (bigEndian len v) = len.
Proof.
  revert v. induction len as [|n IH]; intros v; [done|].
  cbn [bigEndian]. rewrite length_app, IH. cbn. lia.
Qed.

Lemma byte_of_Z_inj (v w : Z) :
  0 <= v < 256 -> 0 <= w < 256 -> byte_of_Z v = byte_of_Z w -> v = w.
Proof.
  intros Hv Hw. unfold byte_of_Z.
  rewrite !Z.mod_small by lia.
  destruct (Byte.of_N (Z.to_N v)) as [b|] eqn:Ev.
  - destruct (Byte.of_N (Z.to_N w)) as [c|] eqn:Ew.
    + intros ->. apply Byte.to_of_N in Ev, Ew. lia.
    + apply Byte.of_N_None_iff in Ew. lia.
  - apply Byte.of_N_None_iff in Ev. lia.
Qed.

Lemma bigEndian_inj (len : nat) (v w : Z) :
  0 <= v < 256 ^ Z.of_nat len -> 0 <= w < 256 ^ Z.of_nat len ->
  bigEndian len v = bigEndian len w -> v = w.
Proof.
  revert v w. induction len as [|n IH]; intros v w Hv Hw E.
  - change (256 ^ Z.of_nat 0) with 1 in *. lia.
  - rewrite Nat2Z.inj_succ, Z.pow_succ_r in Hv, Hw by lia.
    cbn [bigEndian] in E. apply app_inj_tail in E as [E1 E2].
    assert (Hq : v / 256 = w / 256).
    { apply IH; [| |done].
      - split; [apply Z.div_pos; lia|apply Z.div_lt_upper_bound; lia].
      - split; [apply Z.div_pos; lia|apply Z.div_lt_upper_bound; lia]. }
    assert (Hr : v mod 256 = w mod 256).
    { apply byte_of_Z_inj; [apply Z.mod_pos_bound; lia..|].
      unfold byte_of_Z in *. by rewrite !Z.mod_mod by lia. }
    rewrite (Z.div_mod v 256), (Z.div_mod w 256) by lia. congruence.
Qed.


Lemma AuditEntryType_text_inj (t1 t2 : AuditEntryType) :
  list_byte_of_string (AuditEntryType_text t1)
  = list_byte_of_string (AuditEntryType_text t2) -> t1 = t2.
Proof. by destruct t1, t2. Qed.

(** An index and a timestamp that ethers packs: they are [number]s, and
    [solidityPacked] throws on a [number] above [MAX_SAFE_INTEGER].  Those of
    the entries the engine appends are (an array length, [Date.now()]). *)
Definition packable (e : AuditEntry.t) : Prop :=
  Z.of_nat (index e) <= MAX_SAFE_INTEGER
  /\ Z.of_N (timestamp e) <= MAX_SAFE_INTEGER.

(** How many of [index], [type], [roundId], [data] and [timestamp] differ
    between two entries. *)
Definition fieldsAltered (e e' : AuditEntry.t) : nat :=
  (Nat.b2n (negb (bool_decide (index e' = index e)))
   + Nat.b2n (negb (bool_decide (type e' = type e)))
   + Nat.b2n (negb (bool_decide (AuditEntry.roundId e' = AuditEntry.roundId e)))
   + Nat.b2n (negb (bool_decide (data e' = data e)))
   + Nat.b2n (negb (bool_decide (timestamp e' = timestamp e))))%nat.

Section WithPlatform.
Context `{Platform}.

(** The bytes hashed for the entry. *)
Definition preimage (e : AuditEntry.t) : list byte :=
  entryPreimage (index e) (type e) (AuditEntry.roundId e) (data e)
    (timestamp e) (previousHash e).

(** [keccak256] does not send the two byte strings, if they differ, to one
    digest. *)
Definition distinguishes (a b : list byte) : Prop :=
  a <> b -> keccak256 a <> keccak256 b.

Lemma packable_range (e : AuditEntry.t) :
  packable e ->
  0 <= Z.of_nat (index e) < 256 ^ Z.of_nat 32
  /\ 0 <= Z.of_N (timestamp e) < 256 ^ Z.of_nat 32.
Proof.
  unfold packable, MAX_SAFE_INTEGER. intros [Hi Ht].
  change (256 ^ Z.of_nat 32) with (2 ^ 256).
  assert (2 ^ 53 < 2 ^ 256) by (apply Z.pow_lt_mono_r; lia). lia.
Qed.

Lemma fieldsAltered_one (e e' : AuditEntry.t) :
  fieldsAltered e e' = 1%nat ->
  (index e' <> index e /\ type e' = type e
   /\ AuditEntry.roundId e' = AuditEntry.roundId e /\ data e' = data e
   /\ timestamp e' = timestamp e)
  \/ (index e' = index e /\ type e' <> type e
      /\ AuditEntry.roundId e' = AuditEntry.roundId e /\ data e' = data e
      /\ timestamp e' = timestamp e)
  \/ (index e' = index e /\ type e' = type e
      /\ AuditEntry.roundId e' <> AuditEntry.roundId e /\ data e' = data e
      /\ timestamp e' = timestamp e)
  \/ (index e' = index e /\ type e' = type e
      /\ AuditEntry.roundId e' = AuditEntry.roundId e /\ data e' <> data e
      /\ timestamp e' = timestamp e)
  \/ (index e' = index e /\ type e' = type e
      /\ AuditEntry.roundId e' = AuditEntry.roundId e /\ data e' = data e
      /\ timestamp e' <> timestamp e).
Proof.
  unfold fieldsAltered. repeat case_bool_decide; cbn; intros Hone;
    try discriminate Hone; tauto.
Qed.

(** Altering exactly one of the five fields changes the bytes hashed. *)
Lemma one_field_changes_preimage (e e' : AuditEntry.t) :
  packable e -> packable e' -> previousHash e' = previousHash e ->
  fieldsAltered e e' = 1%nat -> preimage e' <> preimage e.
Proof.
  intros [Hi Ht]%packable_range [Hi' Ht']%packable_range Hp Hone E.
  unfold preimage, entryPreimage in E. rewrite Hp in E.
  destruct (fieldsAltered_one e e' Hone)
    as [(N&Ety&Er&Ed&Ets)|[(Ei&N&Er&Ed&Ets)|[(Ei&Ety&N&Ed&Ets)
       |[(Ei&Ety&Er&N&Ets)|(Ei&Ety&Er&Ed&N)]]]].
  - rewrite Ety, Er, Ed, Ets in E. apply app_inv_tail in E.
    apply bigEndian_inj in E; [|done..]. lia.
  - rewrite Ei, Er, Ed, Ets in E. apply app_inv_head, app_inv_tail in E.
    by apply AuditEntryType_text_inj in E.
  - rewrite Ei, Ety, Ed, Ets in E.
    apply app_inv_head, app_inv_head, app_inv_tail in E.
    by apply bytes_of_string_inj in E.
  - rewrite Ei, Ety, Er, Ets in E.
    apply app_inv_head, app_inv_head, app_inv_head, app_inv_tail in E.
    by apply bytes_of_string_inj in E.
  - rewrite Ei, Ety, Er, Ed in E.
    apply app_inv_head, app_inv_head, app_inv_head, app_inv_head,
      app_inv_tail in E.
    apply bigEndian_inj in E; [|done..]. lia.
Qed.

Lemma previousHashAt_insert_same (es : list AuditEntry.t) (i j : nat)
    (e e' : AuditEntry.t) :
  es !! i = Some e -> hash e' = hash e ->
  previousHashAt (<[i:=e']> es) j = previousHashAt es j.
Proof.
  intros He Hh. unfold previousHashAt. destruct (0 <? j)%nat; [|done].
  destruct (decide (i = (j - 1)%nat)) as [<-|Hne].
  - rewrite list_lookup_insert_eq by by eapply lookup_lt_Some.
    by rewrite He.
  - by rewrite list_lookup_insert_ne.
Qed.

(** The entry at [i] overwritten with one that has the same [previousHash]
    and the same [hash]: the verdict is whether the bytes hashed are the
    same, if [keccak256] tells them apart when they are not. *)
Lemma verifyEntries_fields_altered (es : list AuditEntry.t) (i : nat)
    (e e' : AuditEntry.t) :
  verifyEntries es = true -> es !! i = Some e ->
  previousHash e' = previousHash e -> hash e' = hash e ->
  distinguishes (preimage e') (preimage e) ->
  verifyEntries (<[i:=e']> es) = bool_decide (preimage e' = preimage e).
Proof.
  intros Hv He Hp Hh Hd. pose proof (proj1 (verifyEntries_true es) Hv) as Hok.
  destruct (Hok i e He) as [Hpi Hhi]. case_bool_decide as Hpre.
  - apply verifyEntries_true. intros j ej Hj. unfold entryOk.
    rewrite (previousHashAt_insert_same es i j e e' He Hh).
    destruct (decide (j = i)) as [->|Hne].
    + rewrite list_lookup_insert_eq in Hj by by eapply lookup_lt_Some.
      injection Hj as <-. split; [congruence|].
      rewrite Hh, Hhi. unfold entryHash. by f_equal.
    + rewrite list_lookup_insert_ne in Hj by done. by apply Hok.
  - eapply verifyEntries_altered; [done..|]. right.
    rewrite Hh, Hhi. unfold entryHash. intros E. by apply Hd.
Qed.


End WithPlatform.

End TamperFacts.

(** ** The audit ledger under the engine's operations *)

Module LedgerFacts.
Import MonadFacts EngineFacts AuditEntry AuditTrail Audit AuditFacts.
Import RoundState Game LifecycleFacts GuessFacts TierFacts.

(** Operations that leave every audit trail as it is. *)
Definition SameTrails (s s' : State) : Prop := trails s' = trails s.

#[global] Instance SameTrails_preorder : Preorder' SameTrails.
Proof. split; unfold SameTrails; [done|]. intros s1 s2 s3 -> ->. done. Qed.

Class TrailsImplies (R : State -> State -> Prop) :=
  trails_implies : forall s s', SameTrails s s' -> R s s'.

Lemma rel_sameTrails {A} R `{TrailsImplies R} (m : M A) :
  rel SameTrails m -> rel R m.
Proof. intros Hm st. apply trails_implies, Hm. Qed.

Create HintDb trails.
Create HintDb ledger.

Ltac ledger_go :=
  repeat first
    [ solve [apply rel_ret; typeclasses eauto]
    | solve [apply rel_throw; typeclasses eauto]
    | solve [apply rel_liftResult; typeclasses eauto]
    | solve [apply rel_gets; typeclasses eauto]
    | solve [auto with trails]
    | solve [eauto with ledger]
    | solve [apply rel_modify; intros ?; reflexivity]
    | solve [apply rel_sameTrails; [typeclasses eauto|auto with trails]]
    | solve [apply rel_sameTrails; [typeclasses eauto|];
             apply rel_modify; intros ?; reflexivity]
    | (apply rel_bind; [typeclasses eauto| |intros ?])
    | apply rel_if ].

(** Every trail of [s] is an initial segment of the trail [s'] holds for the
    same round. *)
Definition Appends (s s' : State) : Prop :=
  forall id, trailEntries s id `prefix_of` trailEntries s' id.

#[global] Instance Appends_preorder : Preorder' Appends.
Proof.
  split.
  - intros st id. done.
  - intros s1 s2 s3 H12 H23 id. etrans; [apply H12|apply H23].
Qed.

#[global] Instance Appends_trails : TrailsImplies Appends.
Proof. intros s s' Hs id. unfold trailEntries. by rewrite Hs. Qed.

Section WithPlatform.
Context `{Platform}.

(** What holds of every trail the engine stores: it is filed under its own
    round identifier, it passes chain verification, every entry carries its
    own position and the round identifier, and a cached Merkle root is the
    root of the entries now stored. *)
Definition trailOk (id : string) (trail : AuditTrail.t) : Prop :=
  AuditTrail.roundId trail = id
  /\ verifyEntries (entries trail) = true
  /\ (forall i e, entries trail !! i = Some e ->
        index e = i /\ AuditEntry.roundId e = id)
  /\ (forall root, merkleRoot trail = Some root ->
        entries trail <> [] /\ root = merkleRootOf (map hash (entries trail))).

Definition ledgerOk (st : State) : Prop :=
  forall id trail, trails st !! id = Some trail -> trailOk id trail.

#[global] Instance ledgerOk_trails : TrailsImplies (Keeps ledgerOk).
Proof. intros s s' Hs Hok id trail. rewrite Hs. apply Hok. Qed.

Lemma sameTrails_Date_now : rel SameTrails Date_now.
Proof. by intros st. Qed.

Lemma sameTrails_getNextNonce : rel SameTrails Crypto.getNextNonce.
Proof. by intros st. Qed.

Lemma sameTrails_getSigner : rel SameTrails Crypto.getSigner.
Proof. intros st. unfold Crypto.getSigner. by destruct (signer st). Qed.

Lemma sameTrails_updateRound k f : rel SameTrails (updateRound k f).
Proof. by intros st. Qed.

#[local] Hint Resolve sameTrails_Date_now sameTrails_getNextNonce
  sameTrails_getSigner sameTrails_updateRound : trails.

Lemma sameTrails_signStartRound a b c d :
  rel SameTrails (Crypto.signStartRound a b c d).
Proof. unfold Crypto.signStartRound. ledger_go. Qed.

Lemma sameTrails_signHint a b c d e f : rel SameTrails (Crypto.signHint a b c d e f).
Proof. unfold Crypto.signHint. ledger_go. Qed.

Lemma sameTrails_signPriceUpdate a b c :
  rel SameTrails (Crypto.signPriceUpdate a b c).
Proof. unfold Crypto.signPriceUpdate. ledger_go. Qed.

Lemma sameTrails_signWinner a b c : rel SameTrails (Crypto.signWinner a b c).
Proof. unfold Crypto.signWinner. ledger_go. Qed.

Lemma sameTrails_signAuditRoot a b c d :
  rel SameTrails (Crypto.signAuditRoot a b c d).
Proof. unfold Crypto.signAuditRoot. ledger_go. Qed.

Lemma sameTrails_initSigner key : rel SameTrails (Crypto.initSigner key).
Proof. unfold Crypto.initSigner. destruct (Wallet_new key); ledger_go. Qed.

Lemma sameTrails_initSignerFromMnemonic phrase :
  rel SameTrails (Crypto.initSignerFromMnemonic phrase).
Proof.
  unfold Crypto.initSignerFromMnemonic. destruct (Wallet_fromPhrase phrase);
    ledger_go.
Qed.

#[local] Hint Resolve sameTrails_signStartRound sameTrails_signHint
  sameTrails_signPriceUpdate sameTrails_signWinner sameTrails_signAuditRoot
  sameTrails_initSigner sameTrails_initSignerFromMnemonic : trails.

(** *** The three operations that write trails *)

Lemma getOrCreateTrail_run (roundId : string) (st : State) :
  let trail := match trails st !! roundId with
               | Some trail => trail
               | None => AuditTrail.mk roundId [] None
               end in
  getOrCreateTrail roundId st
  = (Ok trail, set_trails (insert roundId trail) st)
  /\ entries trail = trailEntries st roundId.
Proof.
  unfold getOrCreateTrail, trailEntries.
  destruct (trails st !! roundId) as [trail|] eqn:E; [|done].
  split; [|done]. f_equal. destruct st; unfold set_trails; simpl in *.
  f_equal. by rewrite insert_id.
Qed.

Lemma keeps_getOrCreateTrail id : rel (Keeps ledgerOk) (getOrCreateTrail id).
Proof.
  intros st Hok. unfold getOrCreateTrail.
  destruct (trails st !! id) as [trail|] eqn:E; [done|].
  intros id' trail'. simpl. destruct (decide (id' = id)) as [->|Hne].
  - rewrite lookup_insert_eq. intros [= <-]. repeat split; done.
  - rewrite lookup_insert_ne by done. apply Hok.
Qed.

Lemma appends_getOrCreateTrail id : rel Appends (getOrCreateTrail id).
Proof.
  intros st id'. unfold getOrCreateTrail, trailEntries.
  destruct (trails st !! id) as [trail|] eqn:E; [done|]. simpl.
  destruct (decide (id' = id)) as [->|Hne].
  - by rewrite lookup_insert_eq, E.
  - by rewrite lookup_insert_ne.
Qed.

Lemma trailOk_of_entries (st : State) (id : string) :
  ledgerOk st ->
  verifyEntries (trailEntries st id) = true
  /\ (forall i e, trailEntries st id !! i = Some e ->
        index e = i /\ AuditEntry.roundId e = id)
  /\ match trails st !! id with
     | Some trail => AuditTrail.roundId trail
     | None => id
     end = id.
Proof.
  intros Hok. unfold trailEntries.
  destruct (trails st !! id) as [trail|] eqn:E.
  - destruct (Hok id trail E) as (?&?&?&_). done.
  - repeat split; try done; intros i e; by rewrite lookup_nil.
Qed.

Lemma keeps_addAuditEntry id ty data : rel (Keeps ledgerOk) (addAuditEntry id ty data).
Proof.
  intros st Hok. rewrite addAuditEntry_run. cbn [snd].
  destruct (trailOk_of_entries st id Hok) as (Hv&Hidx&Hname).
  intros id' trail'. cbn [trails]. destruct (decide (id' = id)) as [->|Hne].
  - rewrite lookup_insert_eq. intros [= <-]. cbn [entries merkleRoot].
    split; [exact Hname|]. split; [by apply verifyEntries_append|].
    split; [|done]. intros i e He. cbn [entries] in He.
    destruct (decide (i < length (trailEntries st id))%nat) as [Hi|Hi].
    + rewrite lookup_app_l in He by done. by apply Hidx.
    + pose proof (lookup_lt_Some _ _ _ He) as Hlt.
      rewrite length_app in Hlt. simpl in Hlt.
      assert (i = length (trailEntries st id)) as -> by lia.
      rewrite list_lookup_middle in He by done. by injection He as <-.
  - rewrite lookup_insert_ne by done. apply Hok.
Qed.

Lemma appends_addAuditEntry id ty data : rel Appends (addAuditEntry id ty data).
Proof.
  intros st id'. destruct (decide (id' = id)) as [->|Hne].
  - rewrite trailEntries_addAuditEntry. by apply prefix_app_r.
  - rewrite addAuditEntry_run. unfold trailEntries. cbn [snd trails].
    by rewrite lookup_insert_ne.
Qed.

Lemma keeps_computeMerkleRoot id : rel (Keeps ledgerOk) (computeMerkleRoot id).
Proof.
  intros st Hok. unfold computeMerkleRoot, bind.
  pose proof (keeps_getOrCreateTrail id st Hok) as Hok1.
  destruct (getOrCreateTrail_run id st) as [Hrun Hent].
  rewrite Hrun in Hok1 |- *. cbn [snd] in Hok1.
  set (trail := match trails st !! id with
                | Some trail => trail
                | None => AuditTrail.mk id [] None
                end) in *.
  destruct (Nat.eqb_spec (length (entries trail)) 0) as [Hz|Hnz]; [done|].
  cbn [snd modify].
  assert (Ht : trailOk id trail).
  { apply Hok1. cbn [trails set_trails]. by rewrite lookup_insert_eq. }
  destruct Ht as (Hname&Hv&Hidx&_).
  intros id' trail'. cbn [ret snd trails set_trails].
  destruct (decide (id' = id)) as [->|Hne].
  - rewrite lookup_insert_eq. intros [= <-]. unfold trailOk.
    cbn [AuditTrail.roundId entries merkleRoot].
    split; [done|]. split; [done|]. split; [exact Hidx|].
    intros r [= <-]. split; [|done]. intros E. rewrite E in Hnz. done.
  - rewrite lookup_insert_ne by done. intros E. apply (Hok1 id' trail').
    cbn [trails set_trails]. done.
Qed.

Lemma sameEntries_computeMerkleRoot id (st : State) (id' : string) :
  trailEntries (snd (computeMerkleRoot id st)) id' = trailEntries st id'.
Proof.
  destruct (decide (id' = id)) as [->|Hne].
  - apply MerkleFacts.computeMerkleRoot_run.
  - unfold computeMerkleRoot, bind, getOrCreateTrail, trailEntries, modify, ret.
    destruct (trails st !! id) as [trail|] eqn:E; simpl.
    + destruct (length (entries trail) =? 0)%nat; simpl; [done|].
      by rewrite lookup_insert_ne.
    + by rewrite lookup_insert_ne.
Qed.

Lemma appends_computeMerkleRoot id : rel Appends (computeMerkleRoot id).
Proof. intros st id'. by rewrite sameEntries_computeMerkleRoot. Qed.

#[local] Hint Resolve keeps_getOrCreateTrail appends_getOrCreateTrail
  keeps_addAuditEntry appends_addAuditEntry keeps_computeMerkleRoot
  appends_computeMerkleRoot : ledger.

(** *** The engine's operations *)

Lemma keeps_ledger_escalate k d : rel (Keeps ledgerOk) (escalate k d).
Proof. unfold escalate. ledger_go. Qed.

Lemma appends_escalate k d : rel Appends (escalate k d).
Proof. unfold escalate. ledger_go. Qed.

Lemma keeps_ledger_declareWinner k p : rel (Keeps ledgerOk) (declareWinner k p).
Proof. unfold declareWinner. ledger_go. Qed.

Lemma appends_declareWinner k p : rel Appends (declareWinner k p).
Proof. unfold declareWinner. ledger_go. Qed.

#[local] Hint Resolve keeps_ledger_escalate appends_escalate
  keeps_ledger_declareWinner appends_declareWinner : ledger.

Lemma keeps_ledger_processGuess k p g b : rel (Keeps ledgerOk) (processGuess k p g b).
Proof.
  unfold processGuess. apply rel_bind; [typeclasses eauto|ledger_go|].
  intros [round|]; ledger_go.
Qed.

Lemma appends_processGuess k p g b : rel Appends (processGuess k p g b).
Proof.
  unfold processGuess. apply rel_bind; [typeclasses eauto|ledger_go|].
  intros [round|]; ledger_go.
Qed.

Lemma keeps_ledger_startNewRound b u r8 r32 :
  rel (Keeps ledgerOk) (startNewRound b u r8 r32).
Proof.
  unfold startNewRound. destruct (Crypto.generateTarget r8 r32) as [target salt].
  ledger_go.
Qed.

Lemma appends_startNewRound b u r8 r32 : rel Appends (startNewRound b u r8 r32).
Proof.
  unfold startNewRound. destruct (Crypto.generateTarget r8 r32) as [target salt].
  ledger_go.
Qed.

Lemma keeps_ledger_getSignedAuditRoot id : rel (Keeps ledgerOk) (getSignedAuditRoot id).
Proof. unfold getSignedAuditRoot. ledger_go. Qed.

Lemma appends_getSignedAuditRoot id : rel Appends (getSignedAuditRoot id).
Proof. unfold getSignedAuditRoot. ledger_go. Qed.

Lemma keeps_ledger_verifyChainIntegrity id :
  rel (Keeps ledgerOk) (verifyChainIntegrity id).
Proof. unfold verifyChainIntegrity. ledger_go. Qed.

Lemma appends_verifyChainIntegrity id : rel Appends (verifyChainIntegrity id).
Proof. unfold verifyChainIntegrity. ledger_go. Qed.

Lemma step_ledgerOk (c : Call) (st : State) : ledgerOk st -> ledgerOk (step c st).
Proof.
  destruct c; simpl.
  - apply (rel_sameTrails (Keeps ledgerOk) _ (sameTrails_initSigner _)).
  - apply (rel_sameTrails (Keeps ledgerOk) _ (sameTrails_initSignerFromMnemonic _)).
  - apply keeps_ledger_startNewRound.
  - apply keeps_ledger_processGuess.
  - apply keeps_computeMerkleRoot.
  - apply keeps_ledger_getSignedAuditRoot.
  - apply keeps_getOrCreateTrail.
  - apply keeps_ledger_verifyChainIntegrity.
Qed.

Lemma step_appends (c : Call) (st : State) : Appends st (step c st).
Proof.
  destruct c; simpl.
  - apply (rel_sameTrails Appends _ (sameTrails_initSigner _)).
  - apply (rel_sameTrails Appends _ (sameTrails_initSignerFromMnemonic _)).
  - apply appends_startNewRound.
  - apply appends_processGuess.
  - apply appends_computeMerkleRoot.
  - apply appends_getSignedAuditRoot.
  - apply appends_getOrCreateTrail.
  - apply appends_verifyChainIntegrity.
Qed.

Lemma states_ledgerOk (clock0 : nat -> N) (cs : list Call) (st : State) :
  st ∈ states cs (initialState clock0) -> ledgerOk st.
Proof.
  assert (Hinit : ledgerOk (initialState clock0)).
  { intros id trail. simpl. by rewrite lookup_empty. }
  revert Hinit. generalize (initialState clock0). unfold states.
  induction cs as [|c cs IH]; intros s0 Hs0; simpl.
  - by intros ->%list_elem_of_singleton.
  - intros [->|Hin]%elem_of_cons; [done|].
    eapply IH; [|exact Hin]. by apply step_ledgerOk.
Qed.

Lemma states_appends (cs : list Call) (st : State) (j : nat) (sj : State) :
  states cs st !! j = Some sj -> Appends st sj.
Proof.
  unfold states. revert st j. induction cs as [|c cs IH]; intros st j Hj.
  - destruct j; [|done]. injection Hj as <-. apply preorder_refl.
  - destruct j as [|j]; [injection Hj as <-; apply preorder_refl|].
    eapply preorder_trans; [apply step_appends|by apply (IH (step c st) j)].
Qed.


(** X17.  The audit log is append-only under every operation of the engine:
    along any sequence of calls, from any state, the entries a round's trail
    holds at one point are an initial segment of the entries it holds at any
    later point. *)
Theorem ledger_append_only (cs : list Call) (st : State) (i j : nat)
    (si sj : State) (roundId : string) :
  states cs st !! i = Some si -> states cs st !! j = Some sj -> (i <= j)%nat ->
  trailEntries si roundId `prefix_of` trailEntries sj roundId.
Proof.
  revert cs st j. induction i as [|i IH]; intros cs st j Hi Hj Hij.
  - injection Hi as <-. by eapply states_appends.
  - destruct j as [|j]; [lia|]. destruct cs as [|c cs]; [done|].
    apply (IH cs (step c st) j); [exact Hi|exact Hj|lia].
Qed.


Lemma packValue_number32 (v : Z) :
  packValue (SolNumber 32 v)
  = if isSafeUint v then Ok (bigEndian 32 v) else Throw EncodingError.
Proof.
  cbn [packValue]. unfold isSafeUint, MAX_SAFE_INTEGER.
  destruct (Z.leb_spec 0 v), (Z.leb_spec v (2 ^ 53 - 1)); cbn [andb]; try done.
  assert ((v <? 256 ^ Z.of_nat 32) = true) as -> ; [|done].
  apply Z.ltb_lt. change (256 ^ Z.of_nat 32) with (2 ^ 256).
  eapply Z.le_lt_trans; [eassumption|done].
Qed.

Lemma signAuditRoot_run (roundId : string) (root : Hash) (entryCount : nat)
    (nonce : Z) (st : State) :
  Crypto.signAuditRoot roundId root entryCount nonce st
  = (match signer st with
     | Some w =>
         if isSafeUint (Z.of_nat entryCount) && isSafeUint nonce
         then Ok (signMessage w
                    (keccak256 (list_byte_of_string roundId ++ root
                                ++ bigEndian 32 (Z.of_nat entryCount)
                                ++ bigEndian 32 nonce)))
         else Throw EncodingError
     | None => Throw SignerNotInitialized
     end, st).
Proof.
  unfold Crypto.signAuditRoot, bind, Crypto.getSigner.
  destruct (signer st) as [w|]; [|done].
  unfold liftResult, solidityPackedKeccak256, ret.
  cbn [solidityPacked]. rewrite !packValue_number32. cbn [packValue].
  destruct (isSafeUint (Z.of_nat entryCount)); [|done].
  destruct (isSafeUint nonce); [|done]. cbn [andb]. by rewrite app_nil_r.
Qed.

(** The outcome of [getSignedAuditRoot] for a trail of entries [es] when the
    nonce counter holds [nonce]: it throws without a signer, and when the
    nonce or the number of entries is not a safe integer (ethers refuses to
    pack it). *)
Definition signedRootOf (roundId : string) (es : list AuditEntry.t) (nonce : Z)
    (w : option Wallet) : Result SignedAuditRoot.t :=
  let root := if (length es =? 0)%nat then ZERO_HASH
              else merkleRootOf (map hash es) in
  match w with
  | Some w =>
      if isSafeUint (Z.of_nat (length es)) && isSafeUint nonce
      then Ok (SignedAuditRoot.mk roundId root (length es) nonce
                 (signMessage w
                    (keccak256 (list_byte_of_string roundId ++ root
                                ++ bigEndian 32 (Z.of_nat (length es))
                                ++ bigEndian 32 nonce))))
      else Throw EncodingError
  | None => Throw SignerNotInitialized
  end.

(** A run of [getSignedAuditRoot]. *)
Lemma getSignedAuditRoot_run (roundId : string) (st : State) :
  exists st',
    getSignedAuditRoot roundId st
    = (signedRootOf roundId (trailEntries st roundId) (nonceCounter st)
         (signer st), st')
    /\ (forall id, trailEntries st' id = trailEntries st id)
    /\ rounds st' = rounds st
    /\ signer st' = signer st
    /\ nonceCounter st' = Crypto.number_succ (nonceCounter st).
Proof.
  unfold getSignedAuditRoot, bind, signedRootOf.
  set (es := trailEntries st roundId).
  destruct (MerkleFacts.computeMerkleRoot_run roundId st) as [Hroot Hes].
  pose proof (sameEntries_computeMerkleRoot roundId st) as Hsame.
  pose proof (quiet_computeMerkleRoot roundId st) as (Hr&Hs&_&_).
  pose proof (NonceFacts.same_computeMerkleRoot roundId st) as Hn.
  unfold NonceFacts.SameNonce in Hn.
  destruct (computeMerkleRoot roundId st) as [[root1|e] st1]; [|done].
  cbn [fst snd] in *. injection Hroot as ->. fold es in Hes.
  destruct (getOrCreateTrail_run roundId st1) as [Hrun Hent].
  rewrite Hrun. rewrite Hes in Hent. rewrite Hent.
  unfold Crypto.getNextNonce. rewrite signAuditRoot_run.
  cbn [signer set_nonceCounter set_trails nonceCounter]. rewrite Hs, Hn.
  assert (Hkeep : forall id,
    trailEntries (set_nonceCounter (Crypto.number_succ (nonceCounter st))
      (set_trails (insert roundId
         match trails st1 !! roundId with
         | Some trail => trail
         | None => AuditTrail.mk roundId [] None
         end) st1)) id = trailEntries st id).
  { intros id. rewrite <- Hsame. unfold trailEntries. cbn [trails set_nonceCounter set_trails].
    destruct (decide (id = roundId)) as [->|Hne].
    - rewrite lookup_insert_eq. by destruct (trails st1 !! roundId).
    - by rewrite lookup_insert_ne. }
  fold es. eexists. split.
  - destruct (signer st) as [w|]; cbn [ret]; [|reflexivity].
    destruct (isSafeUint (Z.of_nat (length es)) && isSafeUint (nonceCounter st));
      reflexivity.
  - split; [exact Hkeep|]. by cbn [rounds signer nonceCounter set_nonceCounter set_trails].
Qed.

(** X19.  What [getSignedAuditRoot] signs: the round identifier it was given,
    the Merkle root of the entries stored for that round (the zero sentinel
    when there are none), their number, and the nonce the counter held.  It
    throws when there is no signer, and when the nonce (or the number of
    entries) is above 2^53 - 1, the largest [number] ethers packs.  It never
    alters an entry of any trail nor any round, and it advances the nonce
    counter whether it returns or throws. *)
Theorem getSignedAuditRoot_result (roundId : string) (st : State) :
  let es := trailEntries st roundId in
  let root := if (length es =? 0)%nat then ZERO_HASH
              else merkleRootOf (map hash es) in
  let out := getSignedAuditRoot roundId st in
  (forall id, trailEntries (snd out) id = trailEntries st id)
  /\ rounds (snd out) = rounds st
  /\ nonceCounter (snd out) = Crypto.number_succ (nonceCounter st)
  /\ fst out
     = match signer st with
       | Some w =>
           if isSafeUint (Z.of_nat (length es)) && isSafeUint (nonceCounter st)
           then
             Ok (SignedAuditRoot.mk roundId root (length es) (nonceCounter st)
                   (signMessage w
                      (keccak256 (list_byte_of_string roundId ++ root
                                  ++ bigEndian 32 (Z.of_nat (length es))
                                  ++ bigEndian 32 (nonceCounter st)))))
           else Throw EncodingError
       | None => Throw SignerNotInitialized
       end.
Proof.
  intros es root out. subst out.
  destruct (getSignedAuditRoot_run roundId st) as (st'&E&Hkeep&Hr&_&Hn).
  rewrite E. cbn [fst snd].
  split; [exact Hkeep|]. split; [exact Hr|]. split; [exact Hn|reflexivity].
Qed.

End WithPlatform.
End LedgerFacts.

(** ** Rounds: what every stored round satisfies *)

Module RoundFacts.
Import MonadFacts EngineFacts RoundState Game LifecycleFacts GuessFacts.
Import TierFacts PoolFacts Scoring ScoringFacts TargetFacts BracketFacts.
Import CommitmentFacts Pricing.

(** The buy-in a round asks in each tier: its own base price in Base, and
    the default configuration's price above. *)
Definition tierBuyIn (t : PriceTier) (base : Z) : Z :=
  match t with
  | Base => base
  | Warm => 20000000000000000
  | Hot => 50000000000000000
  | Scorching => 100000000000000000
  end.

Lemma defaultBuyIn_tier (d base : Z) :
  determinePriceTier d DEFAULT_PRICING_CONFIG <> Base ->
  defaultBuyIn d = tierBuyIn (determinePriceTier d DEFAULT_PRICING_CONFIG) base.
Proof.
  rewrite PricingFacts.determinePriceTier_default. unfold defaultBuyIn.
  destruct (d <=? 10); [done|]. destruct (d <=? 100); [done|].
  destruct (d <=? 1000); done.
Qed.

Lemma shouldUpdatePrice_not_Base (t : PriceTier) (d : Z) (config : PricingConfig.t) :
  shouldUpdatePrice t d config = true -> determinePriceTier d config <> Base.
Proof.
  unfold shouldUpdatePrice. cbv zeta. intros Hup%Z.gtb_lt Hb. rewrite Hb in Hup.
  destruct t; vm_compute in Hup; done.
Qed.

Lemma bind_liftResult_Ok {A B} (a : A) (k : A -> M B) (st : State) :
  bind (liftResult (Ok a)) k st = k a st.
Proof. reflexivity. Qed.

Section WithPlatform.
Context `{Platform}.

(** The guess was scored against [target] and the record holds that score. *)
Definition scored (target : string) (g : GuessRecord.t) : Prop :=
  calculateDistance target (GuessRecord.guess g) DEFAULT_PRICING_CONFIG
  = Ok (GuessRecord.hint g).

(** What holds of every round the engine stores under the key [k]. *)
Definition roundOk (k : string) (r : RoundState.t) : Prop :=
  id r = k
  /\ isDecimal12 (target r) = true
  /\ Crypto.computeCommitment (target r) (id r) (salt r) = Ok (commitmentHash r)
  /\ currentBuyIn r = tierBuyIn (currentTier r) (baseBuyIn r)
  /\ Forall (scored (target r)) (guesses r)
  /\ (status r = Completed ->
        exists gs g, guesses r = gs ++ [g]
          /\ GuessRecord.guess g = target r
          /\ winner r = Some (GuessRecord.player g)).

Definition roundsOk (st : State) : Prop :=
  (forall k r, rounds st !! k = Some r -> roundOk k r)
  /\ (forall k, activeRoundId st = Some k -> is_Some (rounds st !! k)).

(** The round under [k] is still open and its last recorded guess is [g],
    scored against [target]. *)
Definition lastGuess (tgt : string) (g : GuessRecord.t) (r : RoundState.t)
  : Prop :=
  target r = tgt /\ status r = Active
  /\ exists gs, guesses r = gs ++ [g].

Definition openAt (k tgt : string) (g : GuessRecord.t) (st : State) : Prop :=
  roundsOk st /\ roundHas k (lastGuess tgt g) st.

#[global] Instance roundsOk_quiet : QuietImplies (Keeps roundsOk).
Proof.
  intros s s' (Hr&_&Ha&_) [Hs1 Hs2]. split.
  - intros k r. rewrite Hr. apply Hs1.
  - intros k. rewrite Hr, Ha. apply Hs2.
Qed.

#[global] Instance openAt_quiet k tgt g : QuietImplies (Keeps (openAt k tgt g)).
Proof.
  intros s s' Hq [Hok Hhas]. split.
  - by apply (roundsOk_quiet s s' Hq).
  - by apply (roundHas_quiet k _ s s' Hq).
Qed.

Lemma calculateDistance_exact (target guess : string) (config : PricingConfig.t)
    (h : HintResult.t) :
  calculateDistance target guess config = Ok h ->
  HintResult.isExactMatch h = true -> guess = target.
Proof.
  unfold calculateDistance.
  destruct (Nat.eqb_spec (String.length target) 12) as [Lt|Lt]; [|done].
  destruct (Nat.eqb_spec (String.length guess) 12) as [Lg|Lg]; [|done].
  cbn [negb orb]. rewrite string_length_chars in Lt, Lg.
  rewrite (bullsLoop_closed _ _ Lt Lg).
  destruct (cowsLoop _ _) as [c rest].
  destruct (BigInt target), (BigInt guess); try done.
  intros [= <-]. cbn [HintResult.isExactMatch]. intros Hm%Nat.eqb_eq.
  symmetry. apply chars_inj. apply matches_full; congruence.
Qed.

(** Writes to one round that keep what [roundOk] says of it. *)
Lemma roundsOk_alter (k : string) (f : RoundState.t -> RoundState.t) (st : State) :
  roundsOk st ->
  (forall r, rounds st !! k = Some r -> roundOk k r -> roundOk k (f r)) ->
  roundsOk (set_rounds (alter f k) st).
Proof.
  intros [Hs1 Hs2] Hf. split.
  - intros k' r. cbn [rounds set_rounds].
    destruct (decide (k' = k)) as [->|Hne].
    + rewrite lookup_alter_eq. destruct (rounds st !! k) as [r0|] eqn:E; [|done].
      intros [= <-]. apply Hf; [done|]. by apply Hs1.
    + rewrite lookup_alter_ne by done. apply Hs1.
  - intros k' Ha. cbn [rounds set_rounds activeRoundId] in *.
    destruct (decide (k' = k)) as [->|Hne].
    + rewrite lookup_alter_eq. destruct (Hs2 k Ha) as [r0 ->]. by eexists.
    + rewrite lookup_alter_ne by done. by apply Hs2.
Qed.

Lemma keeps_roundsOk_updateRound k f :
  (forall r, roundOk k r -> roundOk k (f r)) ->
  rel (Keeps roundsOk) (updateRound k f).
Proof. intros Hf st Hst. apply roundsOk_alter; [done|]. intros r _. apply Hf. Qed.

Lemma keeps_openAt_updateRound k tgt g f :
  (forall r, roundOk k r -> lastGuess tgt g r ->
     roundOk k (f r) /\ lastGuess tgt g (f r)) ->
  rel (Keeps (openAt k tgt g)) (updateRound k f).
Proof.
  intros Hf st [Hst (r&Hr&Hlast)]. split.
  - apply roundsOk_alter; [done|]. intros r0 Hr0 Hok.
    assert (r0 = r) as -> by congruence. by apply Hf.
  - exists (f r). cbn [snd updateRound modify rounds set_rounds].
    rewrite lookup_alter_eq, Hr. split; [done|].
    apply Hf; [|done]. by apply (proj1 Hst k).
Qed.

#[local] Hint Extern 1 (rel (Keeps roundsOk) (updateRound _ _)) =>
  (apply keeps_roundsOk_updateRound; intros [] (?&?&?&?&?&?);
   repeat split; done) : rel_hints.

(** Two writes in a row to the round under [k]. *)
Lemma roundsOk_alter2 (k : string) (f1 f2 : RoundState.t -> RoundState.t)
    (st : State) :
  roundsOk st ->
  (forall r, rounds st !! k = Some r -> roundOk k r -> roundOk k (f2 (f1 r))) ->
  roundsOk (set_rounds (alter f2 k) (set_rounds (alter f1 k) st)).
Proof.
  intros [Hs1 Hs2] Hf. split.
  - intros k' r. cbn [rounds set_rounds].
    destruct (decide (k' = k)) as [->|Hne].
    + rewrite !lookup_alter_eq. destruct (rounds st !! k) as [r0|] eqn:E; [|done].
      intros [= <-]. apply Hf; [done|]. by apply Hs1.
    + rewrite !lookup_alter_ne by done. apply Hs1.
  - intros k' Ha. cbn [rounds set_rounds activeRoundId] in *.
    destruct (decide (k' = k)) as [->|Hne].
    + rewrite !lookup_alter_eq. destruct (Hs2 k Ha) as [r0 ->]. by eexists.
    + rewrite !lookup_alter_ne by done. by apply Hs2.
Qed.

Lemma roundHas_alter2 (k : string) (phi psi : RoundState.t -> Prop)
    (f1 f2 : RoundState.t -> RoundState.t) (st : State) :
  roundHas k phi st -> (forall r, phi r -> psi (f2 (f1 r))) ->
  roundHas k psi (set_rounds (alter f2 k) (set_rounds (alter f1 k) st)).
Proof.
  intros (r&Hr&Hphi) Hf. exists (f2 (f1 r)). cbn [rounds set_rounds].
  rewrite !lookup_alter_eq, Hr. split; [done|by apply Hf].
Qed.

(** *** Escalation *)

Lemma keeps_openAt_escalate k d tgt g (t : PriceTier) :
  shouldUpdatePrice t d DEFAULT_PRICING_CONFIG = true ->
  rel (Keeps (openAt k tgt g)) (escalate k d).
Proof.
  intros Hup%shouldUpdatePrice_not_Base st. unfold escalate.
  rewrite computeBuyIn_default, bind_liftResult_Ok.
  revert st. apply rel_modify_twice; [typeclasses eauto| |rel_go].
  intros st [Hst Hlast]. split.
  - apply roundsOk_alter2; [done|].
    intros r Hr (?&?&?&?&?&?). repeat split; try done.
    cbn [currentBuyIn set_currentBuyIn currentTier set_currentTier baseBuyIn].
    by apply defaultBuyIn_tier.
  - eapply roundHas_alter2; [exact Hlast|]. by intros r (?&?&?).
Qed.

(** *** The winner *)

Lemma roundsOk_declareWinner k p tgt (g : GuessRecord.t) :
  GuessRecord.guess g = tgt -> GuessRecord.player g = p ->
  triple (openAt k tgt g) (declareWinner k p) roundsOk.
Proof.
  intros Hg Hp st [Hst (r&Hr&Ht&Hact&gs&Hgs)]. unfold declareWinner.
  set (st2 := set_rounds (alter (set_winner (Some p)) k)
                (set_rounds (alter (set_status Completed) k) st)).
  assert (H2 : roundsOk st2).
  { apply roundsOk_alter2; [done|]. intros r0 Hr0 (?&?&?&?&?&?).
    assert (r0 = r) as -> by congruence.
    repeat split; try done. intros _. exists gs, g.
    cbn [guesses set_winner set_status target winner]. by rewrite Hg, Hp. }
  assert (Hrest : rel (Keeps roundsOk)
    (endTimestamp <- Date_now ;;
     updateRound k (set_endTimestamp (Some endTimestamp)) ;;
     winnerNonce <- Crypto.getNextNonce ;;
     winnerSig <- Crypto.signWinner k p winnerNonce ;;
     Audit.addAuditEntry k Winner [("winner", JString p)] ;;
     ret (Some (SignedWinnerDeclaration.mk k p winnerNonce winnerSig)))) by rel_go.
  exact (Hrest st2 H2).
Qed.

(** *** A guess *)

Lemma roundsOk_afterScoring k p guess b (round : RoundState.t)
    (hint : HintResult.t) (st : State) :
  roundsOk st -> rounds st !! k = Some round -> status round = Active ->
  calculateDistance (target round) guess DEFAULT_PRICING_CONFIG = Ok hint ->
  roundsOk (snd (afterScoring k p guess b round hint st)).
Proof.
  intros Hst Hr Hact Hhint. unfold afterScoring.
  set (g := GuessRecord.mk p guess hint b (clock st (ticks st))).
  set (st1 := set_ticks (S (ticks st)) st).
  set (st3 := set_rounds (alter (fun r => set_pool (pool r + b) r) k)
                (set_rounds (alter (push_guess g) k) st1)).
  assert (Hst1 : roundsOk st1) by (by apply (roundsOk_quiet st st1 (quiet_Date_now st))).
  assert (H3 : openAt k (target round) g st3).
  { split.
    - apply roundsOk_alter2; [done|]. intros r0 Hr0 (?&?&?&?&Hall&Hwin).
      assert (r0 = round) as -> by (cbn in Hr0; congruence).
      repeat split; try done.
      + cbn [guesses set_pool push_guess target]. apply Forall_app. split; [done|].
        by repeat constructor.
      + cbn [status set_pool push_guess]. by rewrite Hact.
    - eapply (roundHas_alter2 k (fun r => r = round)); [by exists round|].
      intros r ->. repeat split; try done. by exists (guesses round). }
  assert (Hrest : triple (openAt k (target round) g)
    (Audit.addAuditEntry k Guess
       [("player", JString p); ("guessHash", JString guess);
        ("buyInPaid", JString (toString b))] ;;
     Audit.addAuditEntry k Hint
       [("player", JString p);
        ("digitsInPlace", JNumber (Z.of_nat (HintResult.digitsInPlace hint)));
        ("digitsCorrect", JNumber (Z.of_nat (HintResult.digitsCorrect hint)));
        ("numericDistance", JString (toString (HintResult.numericDistance hint)))] ;;
     hintNonce <- Crypto.getNextNonce ;;
     hintSig <- Crypto.signHint k p
                  (HintResult.digitsCorrect hint) (HintResult.digitsInPlace hint)
                  (HintResult.numericDistance hint) hintNonce ;;
     let signedHint :=
       SignedHint.mk k p (HintResult.digitsCorrect hint)
         (HintResult.digitsInPlace hint)
         (toString (HintResult.numericDistance hint)) hintNonce hintSig in
     priceUpdate <-
       (if Pricing.shouldUpdatePrice (currentTier round)
             (HintResult.numericDistance hint) DEFAULT_PRICING_CONFIG
        then escalate k (HintResult.numericDistance hint)
        else ret None) ;;
     winnerDeclaration <-
       (if HintResult.isExactMatch hint then declareWinner k p
        else ret None) ;;
     ret (mkGuessResult hint signedHint priceUpdate winnerDeclaration))
    roundsOk).
  { do 4 (apply triple_bind with (Q := openAt k (target round) g);
          [apply triple_keeps; rel_go|intros ?|by intros ? []]).
    apply triple_bind with (Q := openAt k (target round) g);
      [|intros ?|by intros ? []].
    - apply triple_keeps.
      destruct (shouldUpdatePrice _ _ _) eqn:Hup; [|rel_go].
      by eapply keeps_openAt_escalate.
    - apply triple_bind with (Q := roundsOk); [|intros ?|done].
      + destruct (HintResult.isExactMatch hint) eqn:Hex.
        * apply roundsOk_declareWinner; [|done].
          by eapply calculateDistance_exact.
        * by intros ? [].
      + apply triple_keeps. rel_go. }
  exact (Hrest st3 H3).
Qed.

Lemma keeps_roundsOk_processGuess k p g b : rel (Keeps roundsOk) (processGuess k p g b).
Proof.
  intros st Hst. rewrite processGuess_unfold.
  destruct (rounds st !! k) as [r|] eqn:Hr; [|done].
  destruct (bool_decide (status r = Active)) eqn:Hact; [|done].
  apply bool_decide_eq_true in Hact. cbn [negb].
  destruct (b <? currentBuyIn r); [done|].
  destruct (calculateDistance _ _ _) as [hint|e] eqn:Hh; [|done].
  by apply roundsOk_afterScoring.
Qed.

Lemma keeps_roundsOk_startNewRound b u r8 r32 :
  rel (Keeps roundsOk) (startNewRound b u r8 r32).
Proof.
  intros st. unfold startNewRound.
  pose proof (generateTarget_decimal12 r8 r32) as Hvalid.
  destruct (Crypto.generateTarget r8 r32) as [tgt salt0]. cbn [fst] in Hvalid.
  rewrite computeCommitment_preimage, bind_liftResult_Ok.
  revert st. apply rel_bind; [typeclasses eauto|rel_go|]. intros ts.
  apply rel_modify_twice; [typeclasses eauto| |rel_go].
  intros st [Hs1 Hs2]. split.
  - intros k r. cbn [rounds set_rounds set_activeRoundId].
    destruct (decide (k = u)) as [->|Hne].
    + rewrite lookup_insert_eq. intros [= <-]. repeat split; try done.
      cbn [target id salt commitmentHash]. apply computeCommitment_preimage.
    + rewrite lookup_insert_ne by done. apply Hs1.
  - intros k [= <-]. cbn [rounds set_rounds set_activeRoundId].
    rewrite lookup_insert_eq. by eexists.
Qed.

Lemma step_roundsOk (c : Call) (st : State) : roundsOk st -> roundsOk (step c st).
Proof.
  destruct c; simpl.
  - intros Hst. unfold Crypto.initSigner. by destruct (Wallet_new privateKey).
  - intros Hst. unfold Crypto.initSignerFromMnemonic.
    by destruct (Wallet_fromPhrase mnemonic).
  - apply keeps_roundsOk_startNewRound.
  - apply keeps_roundsOk_processGuess.
  - apply (roundsOk_quiet _ _ (quiet_computeMerkleRoot roundId st)).
  - apply (roundsOk_quiet _ _ (quiet_getSignedAuditRoot roundId st)).
  - apply (roundsOk_quiet _ _ (quiet_getOrCreateTrail roundId st)).
  - apply (roundsOk_quiet _ _ (quiet_verifyChainIntegrity roundId st)).
Qed.

Lemma states_roundsOk (clock0 : nat -> N) (cs : list Call) (st : State) :
  st ∈ states cs (initialState clock0) -> roundsOk st.
Proof.
  assert (Hinit : roundsOk (initialState clock0)).
  { split; [intros k r; simpl; by rewrite lookup_empty|done]. }
  revert Hinit. generalize (initialState clock0). unfold states.
  induction cs as [|c cs IH]; intros s0 Hs0; simpl.
  - by intros ->%list_elem_of_singleton.
  - intros [->|Hin]%elem_of_cons; [done|].
    eapply IH; [|exact Hin]. by apply step_roundsOk.
Qed.


(** When calls are made one after the other, each run to its return before
    the next is made, a Completed round has at least one recorded guess, the
    last recorded guess is the target itself, the winner is the player who
    made it, and its hint says exact match.  (With calls that overlap the
    winner's guess need not be the last one: see [OverlapFacts].) *)
Theorem winner_guessed_the_target (clock0 : nat -> N) (cs : list Call)
    (st : State) (roundId : string) (r : RoundState.t) :
  st ∈ states cs (initialState clock0) ->
  rounds st !! roundId = Some r -> status r = Completed ->
  exists gs g,
    guesses r = gs ++ [g]
    /\ GuessRecord.guess g = target r
    /\ winner r = Some (GuessRecord.player g)
    /\ HintResult.isExactMatch (GuessRecord.hint g) = true
    /\ HintResult.numericDistance (GuessRecord.hint g) = 0.
Proof.
  intros Hin Hr Hc. destruct (states_roundsOk clock0 cs st Hin) as [Hs1 _].
  destruct (Hs1 roundId r Hr) as (_&Hvalid&_&_&Hall&Hwin).
  destruct (Hwin Hc) as (gs&g&Hgs&Hg&Hw). exists gs, g.
  assert (Hs : scored (target r) g).
  { rewrite Forall_forall in Hall. apply Hall. rewrite Hgs.
    apply elem_of_app. right. by apply list_elem_of_singleton. }
  unfold scored in Hs.
  rewrite Hg, (calculateDistance_closed _ _ _ Hvalid Hvalid) in Hs.
  injection Hs as <-. cbn [HintResult.isExactMatch HintResult.numericDistance].
  repeat split; try done; [|lia].
  pose proof (isDecimal12_chars _ Hvalid) as [Hlen _].
  apply Nat.eqb_eq. etrans; [|exact Hlen]. by apply matches_full.
Qed.


(** *** The active round *)

Definition SameActive (s s' : State) : Prop := activeRoundId s' = activeRoundId s.

#[global] Instance SameActive_preorder : Preorder' SameActive.
Proof. split; unfold SameActive; [done|]. intros s1 s2 s3 H1 H2. congruence. Qed.

#[global] Instance SameActive_quiet : QuietImplies SameActive.
Proof. by intros s s' (_&_&?&_). Qed.

Lemma sameActive_updateRound k f : rel SameActive (updateRound k f).
Proof. by intros st. Qed.

#[local] Hint Resolve sameActive_updateRound : rel_hints.

Lemma sameActive_processGuess k p g b : rel SameActive (processGuess k p g b).
Proof.
  unfold processGuess. apply rel_bind; [typeclasses eauto|rel_go|].
  intros [round|]; [|rel_go].
  destruct (negb _); [rel_go|]. destruct (b <? _); [rel_go|].
  unfold escalate, declareWinner. rel_go.
Qed.

Lemma activeRoundId_startNewRound b u r8 r32 (st : State) :
  activeRoundId (snd (startNewRound b u r8 r32 st)) = Some u.
Proof.
  unfold startNewRound. destruct (Crypto.generateTarget r8 r32) as [tgt salt0].
  rewrite computeCommitment_preimage, bind_liftResult_Ok.
  unfold bind at 1, Date_now. cbn [fst snd].
  unfold bind at 1, modify at 1. unfold bind at 1, modify at 1.
  match goal with |- activeRoundId (snd (?m ?s)) = _ =>
    assert (Hm : rel SameActive m) by rel_go; rewrite (Hm s) end.
  reflexivity.
Qed.

(** The identifier the last [startNewRound] of a sequence of calls was
    given. *)
Fixpoint lastStarted (cs : list Call) : option string :=
  match cs with
  | [] => None
  | c :: cs' =>
      match lastStarted cs' with
      | Some u => Some u
      | None =>
          match c with
          | StartNewRound _ u _ _ => Some u
          | _ => None
          end
      end
  end.

Lemma activeRoundId_step (c : Call) (st : State) :
  activeRoundId (step c st)
  = match c with
    | StartNewRound _ u _ _ => Some u
    | _ => activeRoundId st
    end.
Proof.
  destruct c; simpl.
  - unfold Crypto.initSigner. by destruct (Wallet_new privateKey).
  - unfold Crypto.initSignerFromMnemonic. by destruct (Wallet_fromPhrase mnemonic).
  - apply activeRoundId_startNewRound.
  - apply sameActive_processGuess.
  - apply (quiet_computeMerkleRoot roundId st).
  - apply (quiet_getSignedAuditRoot roundId st).
  - apply (quiet_getOrCreateTrail roundId st).
  - apply (quiet_verifyChainIntegrity roundId st).
Qed.

(** X23.  The active round identifier is always that of the round started
    last: after any sequence of calls it is the identifier the last
    [startNewRound] was given, whether or not that call went on to return,
    and it is what it was before if no round was started.  Guesses, wins and
    audit reads never change it. *)
Theorem activeRoundId_latest (cs : list Call) (st : State) :
  activeRoundId (NonceFacts.run cs st)
  = match lastStarted cs with
    | Some u => Some u
    | None => activeRoundId st
    end.
Proof.
  revert st. induction cs as [|c cs IH]; intros st; [done|].
  change (NonceFacts.run (c :: cs) st) with (NonceFacts.run cs (step c st)).
  rewrite IH. cbn [lastStarted]. destruct (lastStarted cs); [done|].
  rewrite activeRoundId_step. by destruct c.
Qed.

(** *** The history of a round *)

(** Every round of [s] is still there in [s'], with the fields fixed at its
    start unchanged and its recorded guesses extended at the end. *)
Definition Extends (s s' : State) : Prop :=
  forall k r, rounds s !! k = Some r ->
    exists r', rounds s' !! k = Some r'
      /\ id r' = id r /\ target r' = target r /\ salt r' = salt r
      /\ commitmentHash r' = commitmentHash r /\ baseBuyIn r' = baseBuyIn r
      /\ startTimestamp r' = startTimestamp r
      /\ guesses r `prefix_of` guesses r'.

#[global] Instance Extends_preorder : Preorder' Extends.
Proof.
  split.
  - intros st k r Hr. exists r. repeat split; done.
  - intros s1 s2 s3 H12 H23 k r Hr.
    destruct (H12 k r Hr) as (r2&Hr2&?&?&?&?&?&?&?).
    destruct (H23 k r2 Hr2) as (r3&Hr3&?&?&?&?&?&?&?).
    exists r3. repeat split; try congruence. by etrans.
Qed.

#[global] Instance Extends_quiet : QuietImplies Extends.
Proof.
  intros s s' (Hr&_) k r E. exists r. rewrite Hr. repeat split; done.
Qed.

Lemma extends_updateRound k f :
  (forall r, id (f r) = id r /\ target (f r) = target r /\ salt (f r) = salt r
     /\ commitmentHash (f r) = commitmentHash r /\ baseBuyIn (f r) = baseBuyIn r
     /\ startTimestamp (f r) = startTimestamp r
     /\ guesses r `prefix_of` guesses (f r)) ->
  rel Extends (updateRound k f).
Proof.
  intros Hf st k' r Hr. cbn [snd updateRound modify rounds set_rounds].
  destruct (decide (k' = k)) as [->|Hne].
  - exists (f r). rewrite lookup_alter_eq, Hr. split; [done|]. apply Hf.
  - exists r. rewrite lookup_alter_ne by done. repeat split; done.
Qed.

#[local] Hint Extern 1 (rel Extends (updateRound _ _)) =>
  (apply extends_updateRound; intros []; repeat split; try done;
   by apply prefix_app_r) : rel_hints.

Lemma extends_processGuess k p g b : rel Extends (processGuess k p g b).
Proof.
  unfold processGuess. apply rel_bind; [typeclasses eauto|rel_go|].
  intros [round|]; [|rel_go].
  destruct (negb _); [rel_go|]. destruct (b <? _); [rel_go|].
  unfold escalate, declareWinner. rel_go.
Qed.

Lemma extends_sameRounds (s s' : State) : rounds s' = rounds s -> Extends s s'.
Proof. intros Hr k r E. exists r. rewrite Hr. repeat split; done. Qed.

Lemma step_extends (c : Call) (st : State) :
  freshIds [c] st = true -> Extends st (step c st).
Proof.
  intros Hfresh. pose proof (step_rounds c st) as Hc.
  destruct c; try (by apply extends_sameRounds).
  - simpl in Hfresh. rewrite andb_true_r in Hfresh.
    apply bool_decide_eq_true in Hfresh.
    intros k r Hr. exists r. rewrite Hc; [repeat split; done|].
    intros ->. congruence.
  - apply extends_processGuess.
Qed.

Lemma states_extends (cs : list Call) (st : State) (j : nat) (sj : State) :
  freshIds cs st = true -> states cs st !! j = Some sj ->
  Extends st sj
  /\ forall k r, rounds st !! k = Some r -> status r = Completed ->
       rounds sj !! k = Some r.
Proof.
  unfold states. revert st j. induction cs as [|c cs IH]; intros st j Hf Hj.
  - destruct j; [|done]. injection Hj as <-. split; [apply preorder_refl|done].
  - destruct j as [|j]; [injection Hj as <-; split; [apply preorder_refl|done]|].
    cbn [freshIds] in Hf. apply andb_true_iff in Hf as [Hf1 Hf2].
    assert (Hf0 : freshIds [c] st = true) by (simpl; by rewrite Hf1).
    destruct (IH (step c st) j Hf2 Hj) as [Hext Hfrozen]. split.
    + eapply preorder_trans; [by apply step_extends|exact Hext].
    + intros k r Hr Hc. apply Hfrozen; [|done].
      by apply step_completed_stable.
Qed.

(** When calls are made one after the other, each run to its return before
    the next is made, and [randomUUID] never returns an identifier in use, a
    round stored at one point is stored at every later point with the same
    identifier, target, salt, commitment, base buy-in and start time, and
    with the guesses recorded so far as an initial segment of those recorded
    later; and once the round is Completed its whole record stays as it is.
    (With calls that overlap, see [OverlapFacts].) *)
Theorem round_history_only_grows (cs : list Call) (st : State) (i j : nat)
    (si sj : State) (roundId : string) (ri : RoundState.t) :
  freshIds cs st = true ->
  states cs st !! i = Some si -> states cs st !! j = Some sj -> (i <= j)%nat ->
  rounds si !! roundId = Some ri ->
  exists rj, rounds sj !! roundId = Some rj
    /\ id rj = id ri /\ target rj = target ri /\ salt rj = salt ri
    /\ commitmentHash rj = commitmentHash ri /\ baseBuyIn rj = baseBuyIn ri
    /\ startTimestamp rj = startTimestamp ri
    /\ guesses ri `prefix_of` guesses rj
    /\ (status ri = Completed -> rj = ri).
Proof.
  revert cs st j. induction i as [|i IH]; intros cs st j Hf Hi Hj Hij Hr.
  - injection Hi as <-. destruct (states_extends cs st j sj Hf Hj) as [Hext Hfz].
    destruct (Hext roundId ri Hr) as (rj&Hrj&?&?&?&?&?&?&?).
    exists rj. repeat split; try done. intros Hc.
    specialize (Hfz roundId ri Hr Hc). congruence.
  - destruct j as [|j]; [lia|]. destruct cs as [|c cs]; [done|].
    cbn [freshIds] in Hf. apply andb_true_iff in Hf as [_ Hf].
    apply (IH cs (step c st) j); [done|exact Hi|exact Hj|lia|done].
Qed.

End WithPlatform.
End RoundFacts.

(** ** Calls that return *)

Module RunFacts.
Import MonadFacts EngineFacts AuditEntry AuditTrail Audit AuditFacts.
Import RoundState Game LifecycleFacts GuessFacts.
Import Scoring ScoringFacts TargetFacts BracketFacts CommitmentFacts Pricing.
Import LedgerFacts.

(** A 256-bit unsigned integer. *)
Definition isUint256 (v : Z) : bool := (0 <=? v) && (v <? 2 ^ 256).

(** [m], started in a state where [P] holds, returns, with a result and in a
    state that [Q] relates. *)
Definition returns {A} (P : State -> Prop) (m : M A) (Q : A -> State -> Prop)
  : Prop :=
  forall st, P st -> exists a st', m st = (Ok a, st') /\ Q a st'.

Lemma returns_bind {A B} (P : State -> Prop) (Q : A -> State -> Prop)
    (R : B -> State -> Prop) (m : M A) (k : A -> M B) :
  returns P m Q -> (forall a, returns (Q a) (k a) R) -> returns P (bind m k) R.
Proof.
  intros Hm Hk st HP. destruct (Hm st HP) as (a&st1&E&HQ).
  destruct (Hk a st1 HQ) as (b&st2&E2&HR). exists b, st2.
  unfold bind. by rewrite E.
Qed.

Lemma returns_ret {A} (P : State -> Prop) (a : A) :
  returns P (ret a) (fun a' st => a' = a /\ P st).
Proof. intros st HP. by exists a, st. Qed.

Lemma returns_post {A} (P : State -> Prop) (Q Q' : A -> State -> Prop) (m : M A) :
  returns P m Q -> (forall a st, Q a st -> Q' a st) -> returns P m Q'.
Proof.
  intros Hm HQ st HP. destruct (Hm st HP) as (a&st1&E&H1). exists a, st1.
  split; [done|by apply HQ].
Qed.

Lemma returns_liftOk {A B} (P : State -> Prop) (Q : B -> State -> Prop) (v : A)
    (k : A -> M B) :
  returns P (k v) Q -> returns P (bind (liftResult (Ok v)) k) Q.
Proof. intros Hk st HP. exact (Hk st HP). Qed.

Lemma returns_pre {A} (P P' : State -> Prop) (Q : A -> State -> Prop) (m : M A) :
  returns P' m Q -> (forall st, P st -> P' st) -> returns P m Q.
Proof. intros Hm HP st Hst. apply Hm. by apply HP. Qed.

Lemma returns_pure {A} (phi : Prop) (P : State -> Prop) (Q : A -> State -> Prop)
    (m : M A) :
  (phi -> returns P m Q) -> returns (fun st => phi /\ P st) m Q.
Proof. intros Hm st [Hphi HP]. by apply Hm. Qed.

Section WithPlatform.
Context `{Platform}.

(** The part of the state a call on the round [k] works on: the signer, the
    round stored under [k], and the types of the entries of its trail. *)
Definition At (w : Wallet) (k : string) (r : RoundState.t)
    (tys : list AuditEntryType) (n : Z) (st : State) : Prop :=
  signer st = Some w
  /\ rounds st !! k = Some r
  /\ map type (trailEntries st k) = tys
  /\ nonceCounter st = n.

Lemma returns_updateRound w k r tys n f :
  returns (At w k r tys n) (updateRound k f) (fun _ => At w k (f r) tys n).
Proof.
  intros st (Hs&Hr&Ht&Hn). exists tt, (set_rounds (alter f k) st).
  split; [done|]. split; [done|]. split; [|done].
  cbn [rounds set_rounds]. by rewrite lookup_alter_eq, Hr.
Qed.

Lemma returns_addAuditEntry w k r tys n ty data :
  returns (At w k r tys n) (addAuditEntry k ty data)
          (fun _ => At w k r (tys ++ [ty]) n).
Proof.
  intros st (Hs&Hr&Ht&Hn). eexists _, _. split; [apply addAuditEntry_run|].
  split; [done|]. split; [done|]. split; [|done].
  unfold trailEntries at 1. cbn [trails]. rewrite lookup_insert_eq.
  cbn [entries]. by rewrite map_app, Ht.
Qed.

Lemma returns_Date_now w k r tys n :
  returns (At w k r tys n) Date_now (fun _ => At w k r tys n).
Proof. intros st HP. by eexists _, _. Qed.

(** Drawing a nonce below 2^53: the counter goes up by one. *)
Lemma returns_getNextNonce w k r tys n :
  n <= MAX_SAFE_INTEGER ->
  returns (At w k r tys n) Crypto.getNextNonce
          (fun x st => x = n /\ At w k r tys (n + 1) st).
Proof.
  intros Hn st (Hs&Hr&Ht&Hc). eexists _, _. split; [reflexivity|].
  split; [done|]. split; [done|]. split; [done|]. split; [done|].
  cbn [nonceCounter set_nonceCounter]. rewrite Hc. unfold Crypto.number_succ.
  unfold MAX_SAFE_INTEGER in Hn.
  destruct (Z.ltb_spec n (2 ^ 53)); [done|lia].
Qed.

Lemma packValue_number1 (c : nat) :
  (c <= 12)%nat -> packValue (SolNumber 1 (Z.of_nat c)) = Ok (bigEndian 1 (Z.of_nat c)).
Proof.
  intros Hc. cbn [packValue]. unfold MAX_SAFE_INTEGER.
  assert ((0 <=? Z.of_nat c) = true) as -> by (apply Z.leb_le; lia).
  assert ((Z.of_nat c <=? 2 ^ 53 - 1) = true) as -> by (apply Z.leb_le; lia).
  assert ((Z.of_nat c <? 256 ^ Z.of_nat 1) = true) as ->; [|done].
  apply Z.ltb_lt. change (256 ^ Z.of_nat 1) with 256. lia.
Qed.

Lemma returns_signHint w k r tys m p a c b d n :
  getAddress p = Some a -> isUint256 d = true ->
  (c <= 12)%nat -> (b <= 12)%nat -> isSafeUint n = true ->
  returns (At w k r tys m) (Crypto.signHint k p c b d n) (fun _ => At w k r tys m).
Proof.
  intros Ha Hd Hc Hb Hn st HP. unfold Crypto.signHint, bind, Crypto.getSigner.
  destruct HP as (Hs&?&?&?). rewrite Hs.
  unfold liftResult, solidityPackedKeccak256. cbn [solidityPacked].
  rewrite !packValue_number1, packValue_number32, Hn by done. cbn [packValue].
  change (256 ^ Z.of_nat 32) with (2 ^ 256). unfold isUint256 in Hd.
  rewrite Ha, Hd. by eexists _, _.
Qed.

Lemma returns_signPriceUpdate w k r tys m v n :
  isUint256 v = true -> isSafeUint n = true ->
  returns (At w k r tys m) (Crypto.signPriceUpdate k v n) (fun _ => At w k r tys m).
Proof.
  intros Hv Hn st HP. unfold Crypto.signPriceUpdate, bind, Crypto.getSigner.
  destruct HP as (Hs&?&?&?). rewrite Hs.
  unfold liftResult, solidityPackedKeccak256. cbn [solidityPacked].
  rewrite packValue_number32, Hn. cbn [packValue].
  change (256 ^ Z.of_nat 32) with (2 ^ 256). unfold isUint256 in Hv.
  rewrite Hv. by eexists _, _.
Qed.

Lemma returns_signWinner w k r tys m p a n :
  getAddress p = Some a -> isSafeUint n = true ->
  returns (At w k r tys m) (Crypto.signWinner k p n) (fun _ => At w k r tys m).
Proof.
  intros Ha Hn st HP. unfold Crypto.signWinner, bind, Crypto.getSigner.
  destruct HP as (Hs&?&?&?). rewrite Hs.
  unfold liftResult, solidityPackedKeccak256. cbn [solidityPacked].
  rewrite packValue_number32, Hn. cbn [packValue].
  rewrite Ha. by eexists _, _.
Qed.

Lemma defaultBuyIn_uint256 (d : Z) : isUint256 (defaultBuyIn d) = true.
Proof.
  unfold defaultBuyIn.
  destruct (d <=? 10); [done|]. destruct (d <=? 100); [done|].
  destruct (d <=? 1000); done.
Qed.

Lemma isSafeUint_range (n : Z) :
  0 <= n <= MAX_SAFE_INTEGER -> isSafeUint n = true.
Proof.
  intros Hn. unfold isSafeUint. apply andb_true_iff. split; apply Z.leb_le; lia.
Qed.

Lemma returns_escalate w k r tys n d :
  0 <= n <= MAX_SAFE_INTEGER ->
  returns (At w k r tys n) (escalate k d)
    (fun pu st => is_Some pu /\
       At w k
         (set_currentBuyIn (defaultBuyIn d)
            (set_currentTier (determinePriceTier d DEFAULT_PRICING_CONFIG) r))
         (tys ++ [PriceChange]) (n + 1) st).
Proof.
  intros Hn. unfold escalate. rewrite computeBuyIn_default. apply returns_liftOk.
  eapply returns_bind; [apply returns_updateRound|intros ?].
  eapply returns_bind; [apply returns_updateRound|intros ?].
  eapply returns_bind; [apply returns_getNextNonce; lia|intros x].
  apply returns_pure. intros ->.
  eapply returns_bind;
    [apply returns_signPriceUpdate;
       [apply defaultBuyIn_uint256|by apply isSafeUint_range]|intros sig].
  eapply returns_bind; [apply returns_addAuditEntry|intros ?].
  eapply returns_post; [apply returns_ret|]. by intros pu st [-> ?].
Qed.

Lemma returns_declareWinner w k r tys n p a :
  getAddress p = Some a -> 0 <= n <= MAX_SAFE_INTEGER ->
  returns (At w k r tys n) (declareWinner k p)
    (fun wd st => is_Some wd /\ exists ts,
       At w k (set_endTimestamp (Some ts)
                 (set_winner (Some p) (set_status Completed r)))
            (tys ++ [Winner]) (n + 1) st).
Proof.
  intros Ha Hn. unfold declareWinner.
  eapply returns_bind; [apply returns_updateRound|intros ?].
  eapply returns_bind; [apply returns_updateRound|intros ?].
  eapply returns_bind; [apply returns_Date_now|intros ts].
  eapply returns_bind; [apply returns_updateRound|intros ?].
  eapply returns_bind; [apply returns_getNextNonce; lia|intros x].
  apply returns_pure. intros ->.
  eapply returns_bind;
    [eapply returns_signWinner; [done|by apply isSafeUint_range]|intros sig].
  eapply returns_bind; [apply returns_addAuditEntry|intros ?].
  eapply returns_post; [apply returns_ret|]. intros wd st [-> ?].
  split; [done|by exists ts].
Qed.

(** The round [processGuess] leaves behind when it returns: the guess is
    recorded and paid for, the tier and the buy-in are those of the
    escalation if there is one, and the round is closed in favour of the
    player if the guess is the target. *)
Definition guessed (r : RoundState.t) (g : GuessRecord.t) (escalated won : bool)
    (r' : RoundState.t) : Prop :=
  let d := HintResult.numericDistance (GuessRecord.hint g) in
  id r' = id r /\ target r' = target r /\ salt r' = salt r
  /\ commitmentHash r' = commitmentHash r /\ baseBuyIn r' = baseBuyIn r
  /\ startTimestamp r' = startTimestamp r
  /\ guesses r' = guesses r ++ [g]
  /\ pool r' = pool r + GuessRecord.buyInPaid g
  /\ currentTier r'
     = (if escalated then determinePriceTier d DEFAULT_PRICING_CONFIG
        else currentTier r)
  /\ currentBuyIn r' = (if escalated then defaultBuyIn d else currentBuyIn r)
  /\ status r' = (if won then Completed else status r)
  /\ winner r' = (if won then Some (GuessRecord.player g) else winner r)
  /\ (endTimestamp r' <> endTimestamp r -> won = true).

Lemma returns_afterScoring w k p a guess b (round : RoundState.t)
    (hint : HintResult.t) tys n (st : State) :
  getAddress p = Some a ->
  isUint256 (HintResult.numericDistance hint) = true ->
  (HintResult.digitsCorrect hint <= 12)%nat ->
  (HintResult.digitsInPlace hint <= 12)%nat ->
  0 <= n <= MAX_SAFE_INTEGER - 2 ->
  At w k round tys n st ->
  let g := GuessRecord.mk p guess hint b (clock st (ticks st)) in
  let escalated := shouldUpdatePrice (currentTier round)
                     (HintResult.numericDistance hint) DEFAULT_PRICING_CONFIG in
  let won := HintResult.isExactMatch hint in
  exists res st' r',
    afterScoring k p guess b round hint st = (Ok res, st')
    /\ Game.hint res = hint
    /\ (is_Some (priceUpdate res) <-> escalated = true)
    /\ (is_Some (winnerDeclaration res) <-> won = true)
    /\ At w k r'
         (tys ++ [Guess; Hint] ++ (if escalated then [PriceChange] else [])
              ++ (if won then [Winner] else []))
         (n + 1 + (if escalated then 1 else 0) + (if won then 1 else 0)) st'
    /\ guessed round g escalated won r'.
Proof.
  intros Ha Hd Hc Hb Hn HP g escalated won.
  assert (Hrun : returns (fun s => s = st)
    (afterScoring k p guess b round hint)
    (fun res st' => exists r',
       Game.hint res = hint
       /\ (is_Some (priceUpdate res) <-> escalated = true)
       /\ (is_Some (winnerDeclaration res) <-> won = true)
       /\ At w k r'
            (tys ++ [Guess; Hint] ++ (if escalated then [PriceChange] else [])
                 ++ (if won then [Winner] else []))
            (n + 1 + (if escalated then 1 else 0) + (if won then 1 else 0)) st'
       /\ guessed round g escalated won r')).
  2: { destruct (Hrun st eq_refl) as (res&st'&E&r'&?). by exists res, st', r'. }
  unfold afterScoring.
  eapply returns_bind with
    (Q := fun ts s => ts = clock st (ticks st) /\ At w k round tys n s).
  { intros s ->. by eexists _, _. }
  intros ts. apply returns_pure. intros ->. fold g.
  eapply returns_bind; [apply returns_updateRound|intros ?].
  eapply returns_bind; [apply returns_updateRound|intros ?].
  eapply returns_bind; [apply returns_addAuditEntry|intros ?].
  eapply returns_bind; [apply returns_addAuditEntry|intros ?].
  eapply returns_bind; [apply returns_getNextNonce; lia|intros x].
  apply returns_pure. intros ->.
  eapply returns_bind;
    [eapply returns_signHint; [done|done|done|done|apply isSafeUint_range; lia]
    |intros sig].
  set (r2 := set_pool (pool (push_guess g round) + b) (push_guess g round)).
  set (r3 := if escalated
             then set_currentBuyIn (defaultBuyIn (HintResult.numericDistance hint))
                    (set_currentTier
                       (determinePriceTier (HintResult.numericDistance hint)
                          DEFAULT_PRICING_CONFIG) r2)
             else r2).
  eapply returns_bind with
    (Q := fun pu s => (is_Some pu <-> escalated = true)
            /\ At w k r3 (((tys ++ [Guess]) ++ [Hint])
                           ++ (if escalated then [PriceChange] else []))
                 (n + 1 + (if escalated then 1 else 0)) s).
  { fold escalated. subst r3. destruct escalated.
    - eapply returns_post; [apply returns_escalate; lia|].
      intros pu s [Hpu HAt]. split; [|done]. split; [done|by intros _].
    - eapply returns_post; [apply returns_ret|].
      intros pu s [-> HAt]. rewrite app_nil_r, Z.add_0_r. split; [|done].
      split; [by intros [? ?]|done]. }
  intros pu. apply returns_pure. intros Hpu.
  eapply returns_bind with
    (Q := fun wd s => (is_Some wd <-> won = true)
            /\ exists r', guessed round g escalated won r'
                 /\ At w k r' ((((tys ++ [Guess]) ++ [Hint])
                                 ++ (if escalated then [PriceChange] else []))
                                ++ (if won then [Winner] else []))
                      (n + 1 + (if escalated then 1 else 0)
                       + (if won then 1 else 0)) s).
  { fold won. destruct won.
    - eapply returns_post;
        [eapply returns_declareWinner; [done|destruct escalated; lia]|].
      intros wd s [Hwd (ts&HAt)]. split; [split; [done|by intros _]|].
      eexists. split; [|exact HAt].
      subst r3 r2. unfold guessed. destruct escalated; repeat split; done.
    - eapply returns_post; [apply returns_ret|].
      intros wd s [-> HAt]. rewrite app_nil_r, Z.add_0_r.
      split; [split; [by intros [? ?]|done]|].
      exists r3. split; [|done].
      subst r3 r2. unfold guessed. destruct escalated; repeat split; done. }
  intros wd. apply returns_pure. intros Hwd.
  eapply returns_post; [apply returns_ret|].
  intros res s [-> (r'&Hg&HAt)]. exists r'. cbn [Game.hint priceUpdate winnerDeclaration].
  split; [done|]. split; [exact Hpu|]. split; [exact Hwd|]. split; [|exact Hg].
  by rewrite <- !app_assoc in HAt.
Qed.

(** Scoring a 12-digit guess against a 12-digit target returns; the
    distance fits a uint256 and the match is exact just when the two strings
    are the same. *)
Lemma calculateDistance_returns (tgt guess : string) :
  isDecimal12 tgt = true -> isDecimal12 guess = true ->
  exists h,
    calculateDistance tgt guess DEFAULT_PRICING_CONFIG = Ok h
    /\ (HintResult.digitsCorrect h <= 12)%nat
    /\ (HintResult.digitsInPlace h <= 12)%nat
    /\ isUint256 (HintResult.numericDistance h) = true
    /\ HintResult.isExactMatch h = bool_decide (guess = tgt).
Proof.
  intros Ht Hg.
  rewrite (calculateDistance_closed _ _ DEFAULT_PRICING_CONFIG Ht Hg).
  eexists. split; [reflexivity|].
  pose proof (isDecimal12_chars _ Ht) as [Lt Dt].
  pose proof (isDecimal12_chars _ Hg) as [Lg Dg].
  cbn [HintResult.digitsCorrect HintResult.digitsInPlace].
  pose proof (cows_le_live (mark (list_ascii_of_string guess)
                              (list_ascii_of_string tgt))
                (mark (list_ascii_of_string tgt) (list_ascii_of_string guess)))
    as Hcows.
  pose proof (live_mark (list_ascii_of_string tgt) (list_ascii_of_string guess)
                ltac:(congruence)) as Hlive.
  split; [lia|]. split; [lia|]. split.
  - pose proof (decimalValue_range _ Dt) as Rt.
    pose proof (decimalValue_range _ Dg) as Rg.
    rewrite Lt in Rt. rewrite Lg in Rg.
    change (10 ^ Z.of_nat 12) with 1000000000000 in *.
    unfold isUint256. cbn [HintResult.numericDistance].
    apply andb_true_iff. split; [apply Z.leb_le; lia|apply Z.ltb_lt].
    eapply Z.lt_trans with 1000000000000; [lia|done].
  - cbn [HintResult.isExactMatch]. rewrite <- Lt.
    apply eq_true_iff_eq. rewrite Nat.eqb_eq, bool_decide_eq_true.
    rewrite matches_full by congruence. split.
    + intros E. symmetry. by apply chars_inj.
    + by intros ->.
Qed.

(** X25.  A call of [processGuess] that runs to its end with no other call
    in between returns when the signer is initialised, the round is Active,
    the payment covers the round's [currentBuyIn], target and guess are
    12-digit numerals, the player is an address, and the nonce counter is at
    most 2^53 - 3 (the call draws up to three nonces, and ethers packs a
    nonce only if it is a safe integer).  The hint returned is the score of
    the guess against the round's target; a winner declaration is returned
    exactly when the guess is the target and a price update exactly when
    [shouldUpdatePrice] holds; the round stored afterwards has the guess
    recorded and paid for, the tier and the buy-in of the escalation if there
    was one, and is Completed in favour of the player if the guess is the
    target; the round's trail has gained a Guess and a Hint entry, then a
    PriceChange entry if the price was updated, then a Winner entry if the
    player won; and the nonce counter has advanced by one for each signature
    issued. *)
Theorem processGuess_returns (w : Wallet) (roundId player guess : string)
    (a : list byte) (buyInPaid : Z) (r : RoundState.t) (st : State) :
  signer st = Some w ->
  rounds st !! roundId = Some r -> status r = Active ->
  currentBuyIn r <= buyInPaid ->
  isDecimal12 (target r) = true -> isDecimal12 guess = true ->
  getAddress player = Some a ->
  0 <= nonceCounter st <= MAX_SAFE_INTEGER - 2 ->
  exists res st' r' h,
    processGuess roundId player guess buyInPaid st = (Ok res, st')
    /\ calculateDistance (target r) guess DEFAULT_PRICING_CONFIG = Ok h
    /\ Game.hint res = h
    /\ (is_Some (winnerDeclaration res) <-> guess = target r)
    /\ (is_Some (priceUpdate res)
        <-> shouldUpdatePrice (currentTier r) (HintResult.numericDistance h)
              DEFAULT_PRICING_CONFIG = true)
    /\ rounds st' !! roundId = Some r'
    /\ guessed r (GuessRecord.mk player guess h buyInPaid (clock st (ticks st)))
         (shouldUpdatePrice (currentTier r) (HintResult.numericDistance h)
            DEFAULT_PRICING_CONFIG)
         (bool_decide (guess = target r)) r'
    /\ map type (trailEntries st' roundId)
       = map type (trailEntries st roundId) ++ [Guess; Hint]
         ++ (if shouldUpdatePrice (currentTier r) (HintResult.numericDistance h)
                  DEFAULT_PRICING_CONFIG then [PriceChange] else [])
         ++ (if bool_decide (guess = target r) then [Winner] else [])
    /\ nonceCounter st'
       = nonceCounter st + 1
         + (if shouldUpdatePrice (currentTier r) (HintResult.numericDistance h)
                 DEFAULT_PRICING_CONFIG then 1 else 0)
         + (if bool_decide (guess = target r) then 1 else 0).
Proof.
  intros Hs Hr Ha Hb Ht Hg Hp Hn.
  rewrite processGuess_unfold, Hr, Ha, bool_decide_eq_true_2 by done.
  cbn [negb]. apply Z.ltb_ge in Hb. rewrite Hb.
  destruct (calculateDistance_returns _ _ Ht Hg) as (h&->&Hc1&Hc2&Hd&Hwon).
  destruct (returns_afterScoring w roundId player a guess buyInPaid r h
              (map type (trailEntries st roundId)) (nonceCounter st) st
              Hp Hd Hc1 Hc2 Hn)
    as (res&st'&r'&E&Hh&Hpu&Hwd&(_&Hr'&Hty&Hnc)&Hgd); [done|].
  rewrite Hwon in Hwd, Hty, Hgd, Hnc.
  exists res, st', r', h. split; [done|]. split; [done|]. split; [done|].
  split; [by rewrite Hwd, bool_decide_eq_true|]. done.
Qed.

(** The state [startNewRound] leaves behind whether or not it returns: the
    round is stored and active, the clock has been read once and a nonce has
    been drawn. *)
Definition started (st : State) (r : RoundState.t) : State :=
  set_nonceCounter (Crypto.number_succ (nonceCounter st))
    (set_activeRoundId (Some (id r))
       (set_rounds (insert (id r) r) (set_ticks (S (ticks st)) st))).

(** X26.  [startNewRound], given the 32 bytes of a salt, builds an Active
    round in the Base tier with an empty pool and no guesses, whose buy-ins
    are the requested one, whose target and salt are those of
    [generateTarget], whose commitment is [computeCommitment] of them and
    whose start time is the clock's reading.  It stores the round, makes it
    the active one and draws a nonce before it signs: so when the signer is
    not initialised, or when ethers cannot pack the message (the buy-in is
    not a uint256, or the nonce is above 2^53 - 1), the call throws and yet
    the round is stored and active, with no audit entry; otherwise it
    returns the round, signed with the nonce drawn, and the audit trail of
    the round has one more entry, of type RoundStart. *)
Theorem startNewRound_result (baseBuyIn0 : Z) (uuid : string)
    (random8 random32 : list byte) (st : State) :
  length random32 = 32%nat ->
  exists c,
    Crypto.computeCommitment (Crypto.generateTarget random8 random32).1 uuid
      random32 = Ok c
    /\ let r := RoundState.mk uuid (Crypto.generateTarget random8 random32).1
                  random32 c baseBuyIn0 baseBuyIn0 Base 0 [] Active None
                  (clock st (ticks st)) None in
       match signer st with
       | None =>
           startNewRound baseBuyIn0 uuid random8 random32 st
           = (Throw SignerNotInitialized, started st r)
       | Some w =>
           if isUint256 baseBuyIn0 && isSafeUint (nonceCounter st) then
             exists res st',
               startNewRound baseBuyIn0 uuid random8 random32 st = (Ok res, st')
               /\ round res = r
               /\ SignedStartRound.nonce (signedStartRound res) = nonceCounter st
               /\ SignedStartRound.commitmentHash (signedStartRound res) = c
               /\ rounds st' = rounds (started st r)
               /\ activeRoundId st' = Some uuid
               /\ nonceCounter st' = Crypto.number_succ (nonceCounter st)
               /\ map type (trailEntries st' uuid)
                  = map type (trailEntries st uuid) ++ [RoundStart]
           else
             startNewRound baseBuyIn0 uuid random8 random32 st
             = (Throw EncodingError, started st r)
       end.
Proof.
  intros _. eexists. split; [reflexivity|]. cbv zeta.
  unfold startNewRound, Crypto.generateTarget, Crypto.computeCommitment,
    solidityPackedKeccak256.
  cbn [solidityPacked packValue fst].
  cbv beta iota delta [bind liftResult Date_now modify Crypto.getNextNonce
    Crypto.signStartRound Crypto.getSigner].
  cbn [signer set_nonceCounter set_activeRoundId set_rounds set_ticks].
  destruct (signer st) as [w|] eqn:Hs; [|reflexivity].
  unfold solidityPackedKeccak256. cbn [solidityPacked].
  rewrite packValue_number32. cbn [packValue].
  cbn [nonceCounter set_nonceCounter set_activeRoundId set_rounds set_ticks].
  change (256 ^ Z.of_nat 32) with (2 ^ 256). unfold isUint256.
  destruct ((0 <=? baseBuyIn0) && (baseBuyIn0 <? 2 ^ 256)); [|reflexivity].
  destruct (isSafeUint (nonceCounter st)); [|reflexivity].
  cbv beta iota delta [ret andb]. eexists _, _.
  split; [rewrite addAuditEntry_run; reflexivity|].
  cbn [round signedStartRound]. repeat split.
  unfold trailEntries at 1. cbn [trails]. rewrite lookup_insert_eq.
  cbn [entries]. by rewrite map_app.
Qed.

End WithPlatform.
End RunFacts.

(** ** The request handlers *)

Module RouteFacts.
Import MonadFacts EngineFacts AuditEntry AuditTrail Audit AuditFacts.
Import RoundState Game LifecycleFacts GuessFacts.
Import Scoring ScoringFacts TargetFacts BracketFacts CommitmentFacts Pricing.
Import LedgerFacts RoundFacts RunFacts Routes.

Section WithPlatform.
Context `{Platform}.

Lemma bind_run {A B} (m : M A) (k : A -> M B) (st st1 : State) (a : A) :
  m st = (Ok a, st1) -> bind m k st = k a st1.
Proof. intros E. unfold bind. by rewrite E. Qed.

Lemma bind_threw {A B} (m : M A) (k : A -> M B) (st st1 : State) (e : Exception) :
  m st = (Throw e, st1) -> bind m k st = (Throw e, st1).
Proof. intros E. unfold bind. by rewrite E. Qed.

Lemma bind_ret {A B} (a : A) (k : A -> M B) (st : State) :
  bind (ret a) k st = k a st.
Proof. done. Qed.

Lemma bind_assoc {A B C} (m : M A) (f : A -> M B) (g : B -> M C) (st : State) :
  bind (bind m f) g st = bind m (fun a => bind (f a) g) st.
Proof. unfold bind. by destruct (m st) as [[a|e] st1]. Qed.

Lemma bind_gets {A B} (f : State -> A) (k : A -> M B) (st : State) :
  bind (gets f) k st = k (f st) st.
Proof. done. Qed.

Lemma GuessRequestSchema_parse_Some (body : Body) (q : GuessRequest.t) :
  GuessRequestSchema_parse body = Some q ->
  isDecimal12 (GuessRequest.guess q) = true.
Proof.
  unfold GuessRequestSchema_parse.
  destruct (zString (body !! "roundId")) as [r|]; [|done].
  destruct (zString (body !! "guess")) as [g|]; [|done].
  destruct (zString (body !! "player")) as [p|]; [|done].
  destruct (zString (body !! "txHash")) as [t|]; [|done].
  destruct (_ && _) eqn:E; [|done]. intros [= <-]. cbn [GuessRequest.guess].
  apply andb_true_iff in E as [E _]. apply andb_true_iff in E as [E _].
  by apply andb_true_iff in E as [_ E].
Qed.

(** Why [signHint] would throw in [st] for [player], if it would: there is
    no signer, or ethers rejects the address. *)
Definition unsignable (st : State) (player : string) : option Exception :=
  match signer st with
  | None => Some SignerNotInitialized
  | Some _ =>
      match getAddress player with
      | None => Some EncodingError
      | Some _ => None
      end
  end.

Lemma signHint_unsignable (k p : string) (c b : nat) (d n : Z) (e : Exception)
    (st st1 : State) :
  signer st1 = signer st -> unsignable st p = Some e ->
  Crypto.signHint k p c b d n st1 = (Throw e, st1).
Proof.
  intros Hs. unfold unsignable, Crypto.signHint, bind, Crypto.getSigner.
  rewrite Hs. destruct (signer st) as [w|]; [|by intros [= <-]].
  unfold liftResult, solidityPackedKeccak256. cbn [solidityPacked packValue].
  destruct (getAddress p) as [a|]; [done|]. by intros [= <-].
Qed.

(** A guess that is recorded and then not signed: what [processGuess] does
    when it has scored the guess and [signHint] throws. *)
Lemma afterScoring_unsigned (k p guess : string) (b : Z) (round r : RoundState.t)
    (hint : HintResult.t) (e : Exception) (st : State) :
  rounds st !! k = Some r -> unsignable st p = Some e ->
  exists st' r',
    afterScoring k p guess b round hint st = (Throw e, st')
    /\ rounds st' !! k = Some r'
    /\ guesses r' = guesses r
                    ++ [GuessRecord.mk p guess hint b (clock st (ticks st))]
    /\ pool r' = pool r + b.
Proof.
  intros Hr He. unfold afterScoring.
  cbv beta iota delta [bind Date_now updateRound modify].
  rewrite !addAuditEntry_run. cbv beta iota delta [Crypto.getNextNonce].
  cbn [nonceCounter set_trails set_rounds set_ticks].
  match goal with
  | |- context [Crypto.signHint _ _ _ _ _ _ ?s] =>
      rewrite (signHint_unsignable k p _ _ _ _ e st s eq_refl He)
  end.
  eexists _, _. split; [reflexivity|].
  cbn [rounds set_nonceCounter set_trails set_rounds set_ticks].
  rewrite !lookup_alter_eq, Hr. cbn [fmap option_fmap option_map].
  split; [reflexivity|]. done.
Qed.

(** X27.  What POST /guess answers when it is handled with no other request
    in between, in any state the engine reaches by such requests and with
    room for three more nonces below 2^53.  A body that does not fit the
    schema is refused with 400 and a round identifier that is not stored with
    404, a guess at a Completed round with 400 "Round is not active": in
    these cases nothing is written.  On an Active round the guess is always
    scored against the target, recorded and charged the round's current
    buy-in, so the request is never refused for an insufficient buy-in; the
    answer is then the hint, with a winner declaration exactly when the guess
    is the target and a price update exactly when the price escalates, unless
    the hint cannot be signed (no signer, or an address ethers rejects), in
    which case the answer is a 400 although the guess has been recorded and
    charged. *)
Theorem postGuess_reply (clock0 : nat -> N) (cs : list Call) (st : State)
    (body : Body) :
  st ∈ states cs (initialState clock0) ->
  0 <= nonceCounter st <= MAX_SAFE_INTEGER - 2 ->
  match GuessRequestSchema_parse body with
  | None => postGuess body st = (Refused 400 ZodError, st)
  | Some q =>
      let k := GuessRequest.roundId q in
      let guess := GuessRequest.guess q in
      let player := GuessRequest.player q in
      match rounds st !! k with
      | None => postGuess body st = (Refused 404 NotFound, st)
      | Some r =>
          match status r with
          | Completed =>
              postGuess body st = (Refused 400 (Thrown RoundNotActive), st)
          | Active =>
              exists h reply st' r',
                calculateDistance (target r) guess DEFAULT_PRICING_CONFIG = Ok h
                /\ postGuess body st = (reply, st')
                /\ rounds st' !! k = Some r'
                /\ guesses r'
                   = guesses r ++ [GuessRecord.mk player guess h (currentBuyIn r)
                                     (clock st (ticks st))]
                /\ pool r' = pool r + currentBuyIn r
                /\ match unsignable st player with
                   | Some e => reply = Refused 400 (Thrown e)
                   | None =>
                       exists resp,
                         reply = Json resp
                         /\ GuessResponse.hint resp
                            = HintView.mk (HintResult.digitsInPlace h)
                                (HintResult.digitsCorrect h)
                                (toString (HintResult.numericDistance h))
                                (HintResult.priceTier h)
                         /\ (is_Some (GuessResponse.winner resp)
                             <-> guess = target r)
                         /\ (is_Some (GuessResponse.pricingUpdate resp)
                             <-> shouldUpdatePrice (currentTier r)
                                   (HintResult.numericDistance h)
                                   DEFAULT_PRICING_CONFIG = true)
                   end
          end
      end
  end.
Proof.
  intros Hin Hn. unfold postGuess, catch.
  destruct (GuessRequestSchema_parse body) as [q|] eqn:Hq; [|done].
  pose proof (GuessRequestSchema_parse_Some _ _ Hq) as Hg. cbv zeta.
  unfold getRound. rewrite bind_gets.
  destruct (rounds st !! GuessRequest.roundId q) as [r|] eqn:Hr; [|done].
  destruct (states_roundsOk clock0 cs st Hin) as [Hok _].
  destruct (Hok _ r Hr) as (_&Ht&_). clear Hok.
  unfold bind. rewrite processGuess_unfold, Hr.
  destruct (status r) eqn:Hs; [|done].
  rewrite bool_decide_eq_true_2 by done. cbn [negb]. rewrite Z.ltb_irrefl.
  destruct (calculateDistance_returns _ _ Ht Hg) as (h&->&Hc1&Hc2&Hd&Hwon).
  exists h. destruct (unsignable st (GuessRequest.player q)) as [e|] eqn:Hu.
  - destruct (afterScoring_unsigned (GuessRequest.roundId q)
                (GuessRequest.player q) (GuessRequest.guess q) (currentBuyIn r)
                r r h e st Hr Hu) as (st'&r'&->&Hr'&Hgs&Hp).
    by exists (Refused 400 (Thrown e)), st', r'.
  - unfold unsignable in Hu. destruct (signer st) as [w|] eqn:Hw; [|done].
    destruct (getAddress (GuessRequest.player q)) as [a|] eqn:Ha; [|done].
    destruct (returns_afterScoring w (GuessRequest.roundId q)
                (GuessRequest.player q) a (GuessRequest.guess q) (currentBuyIn r)
                r h (map type (trailEntries st (GuessRequest.roundId q)))
                (nonceCounter st) st Ha Hd Hc1 Hc2 Hn)
      as (res&st'&r'&->&Hh&Hpu&Hwd&(_&Hr'&_)&Hgd); [done|].
    destruct Hgd as (_&_&_&_&_&_&Hgs&Hp&_).
    eexists _, st', r'. split; [done|]. split; [reflexivity|].
    split; [done|]. split; [done|]. split; [done|].
    eexists. split; [reflexivity|]. cbn [GuessResponse.hint
      GuessResponse.winner GuessResponse.pricingUpdate]. rewrite Hh.
    split; [done|]. split; [|done].
    by rewrite Hwd, Hwon, bool_decide_eq_true.
Qed.

Lemma entriesOf_run {B} (id : string) (k : list AuditEntry.t -> M B)
    (st : State) :
  bind (entriesOf id) k st = k (trailEntries st id) st.
Proof. done. Qed.

(** X28.  What GET /round/:id/audit answers when it is handled with no
    other request in between.  It never answers 404: for an identifier with
    no entries, known or not, it sends an empty list with null roots and
    draws no nonce.  For a trail with entries it draws exactly one nonce on
    every request, whether it then answers or refuses with 400, which it does
    for want of a signer and when the nonce or the number of entries is above
    2^53 - 1, the largest [number] ethers packs; when it answers, the entries
    are those stored, the root sent and the root signed are both the Merkle
    root of their hashes, and the count signed is their number.  No entry of
    any trail and no round is changed. *)
Theorem getAudit_reply (id : string) (st : State) :
  let es := trailEntries st id in
  let out := getAudit id st in
  (forall k, trailEntries (snd out) k = trailEntries st k)
  /\ rounds (snd out) = rounds st
  /\ match es with
     | [] =>
         fst out = Json (AuditResponse.mk [] None None)
         /\ nonceCounter (snd out) = nonceCounter st
     | _ :: _ =>
         let root := merkleRootOf (map hash es) in
         nonceCounter (snd out) = Crypto.number_succ (nonceCounter st)
         /\ match signer st with
            | None => fst out = Refused 400 (Thrown SignerNotInitialized)
            | Some w =>
                if isSafeUint (Z.of_nat (length es))
                   && isSafeUint (nonceCounter st)
                then
                  fst out
                  = Json (AuditResponse.mk es (Some root)
                            (Some (SignedAuditRoot.mk id root (length es)
                                     (nonceCounter st)
                                     (signMessage w
                                        (keccak256
                                           (list_byte_of_string id ++ root
                                            ++ bigEndian 32 (Z.of_nat (length es))
                                            ++ bigEndian 32 (nonceCounter st)))))))
                else fst out = Refused 400 (Thrown EncodingError)
            end
     end.
Proof.
  intros es out. subst out. unfold getAudit, catch, getAuditTrail.
  destruct (getOrCreateTrail_run id st) as [Hrun Hent]. fold es in Hent.
  set (trail := match trails st !! id with
                | Some trail => trail
                | None => AuditTrail.mk id [] None
                end) in *.
  set (st1 := set_trails (insert id trail) st) in *.
  assert (Hk1 : forall k, trailEntries st1 k = trailEntries st k).
  { intros k. unfold trailEntries, st1. cbn [trails set_trails].
    destruct (decide (k = id)) as [->|Hne].
    - rewrite lookup_insert_eq. exact Hent.
    - by rewrite lookup_insert_ne. }
  rewrite (bind_run _ _ _ _ _ Hrun), entriesOf_run, Hk1. fold es.
  destruct es as [|e0 es0] eqn:Hes.
  - cbn [length Nat.ltb Nat.leb]. rewrite bind_ret, entriesOf_run, Hk1.
    fold es. rewrite Hes. cbn [length Nat.ltb Nat.leb].
    rewrite bind_ret, entriesOf_run, Hk1. fold es. rewrite Hes.
    cbn [ret fst snd]. split; [exact Hk1|]. done.
  - rewrite <- Hes. assert (Hpos : (0 <? length es)%nat = true) by by rewrite Hes.
    rewrite Hpos.
    destruct (MerkleFacts.computeMerkleRoot_run id st1) as [Hroot Hes2].
    pose proof (sameEntries_computeMerkleRoot id st1) as Hsame.
    pose proof (quiet_computeMerkleRoot id st1) as (Hr2&Hs2&_&_).
    pose proof (NonceFacts.same_computeMerkleRoot id st1) as Hn2.
    unfold NonceFacts.SameNonce in Hn2.
    destruct (computeMerkleRoot id st1) as [[root1|e] st2] eqn:Hcm; [|done].
    cbn [fst snd] in *. rewrite Hk1 in Hroot, Hes2. fold es in Hroot, Hes2.
    assert ((length es =? 0)%nat = false) as Hnz by by rewrite Hes.
    rewrite Hnz in Hroot. injection Hroot as ->.
    rewrite bind_assoc, (bind_run _ _ _ _ _ Hcm), bind_ret, entriesOf_run, Hes2, Hpos.
    destruct (getSignedAuditRoot_run id st2) as (st3&E&Hk3&Hr3&_&Hn3).
    assert (Hkeep : forall k, trailEntries st3 k = trailEntries st k).
    { intros k. by rewrite Hk3, Hsame, Hk1. }
    rewrite Hes2, Hs2, Hn2 in E. fold es in E. rewrite bind_assoc.
    unfold signedRootOf in E. rewrite Hnz in E.
    change (signer st1) with (signer st) in *.
    change (nonceCounter st1) with (nonceCounter st) in *.
    change (rounds st1) with (rounds st) in *.
    destruct (signer st) as [w|].
    + destruct (isSafeUint (Z.of_nat (length es)) && isSafeUint (nonceCounter st)).
      * rewrite (bind_run _ _ _ _ _ E), bind_ret, entriesOf_run, Hkeep.
        fold es. cbn [ret fst snd]. split; [exact Hkeep|].
        split; [by rewrite Hr3, Hr2|]. split; [by rewrite Hn3, Hn2|done].
      * rewrite (bind_threw _ _ _ _ _ E). cbn [fst snd]. split; [exact Hkeep|].
        split; [by rewrite Hr3, Hr2|]. split; [by rewrite Hn3, Hn2|done].
    + rewrite (bind_threw _ _ _ _ _ E). cbn [fst snd]. split; [exact Hkeep|].
      split; [by rewrite Hr3, Hr2|]. split; [by rewrite Hn3, Hn2|done].
Qed.

End WithPlatform.
End RouteFacts.

(** ** Calls that overlap *)

Module OverlapFacts.
Import MonadFacts EngineFacts AuditEntry AuditTrail AuditFacts.
Import RoundState Game LifecycleFacts GuessFacts.
Import Scoring ScoringFacts Pricing LedgerFacts RoundFacts RouteFacts.
Import Async.

(** What a call answers with. *)
Inductive Answer :=
| SignerAnswer (w : Wallet)
| StartAnswer (r : StartResult)
| GuessAnswer (r : GuessResult)
| RootAnswer (h : Hash)
| SignedRootAnswer (s : SignedAuditRoot.t)
| TrailAnswer (t : AuditTrail.t)
| VerdictAnswer (b : bool).

(** A call of one of the three async functions, suspended at an await. *)
Inductive InFlight :=
| Starting (rest : M (Task StartResult))
| Guessing (rest : M (Task GuessResult))
| Rooting (rest : M (Task SignedAuditRoot.t)).

(** The promise a call has returned. *)
Inductive Promise :=
| Pending (f : InFlight)
| Fulfilled (a : Answer)
| Rejected (e : Exception).

(** The engine and the promises of the calls made on it so far, in the order
    of the calls. *)
Record World := mkWorld {
  engine : State;
  promises : list Promise }.

(** What happens next: a new call is made, or the call whose promise is at
    position [i] gets to run from the await it is suspended at up to its
    next await or its end. *)
Inductive Event :=
| Invoke (c : Call)
| Resume (i : nat).

Definition settle {A} (answer : A -> Answer) (again : M (Task A) -> InFlight)
    (out : Result (Task A)) : Promise :=
  match out with
  | Ok (Finished a) => Fulfilled (answer a)
  | Ok (Suspended rest) => Pending (again rest)
  | Throw e => Rejected e
  end.

Definition returned {A} (answer : A -> Answer) (out : Result A) : Promise :=
  match out with
  | Ok a => Fulfilled (answer a)
  | Throw e => Rejected e
  end.

Definition resume (f : InFlight) (st : State) : Promise * State :=
  match f with
  | Starting rest =>
      let (out, st') := rest st in (settle StartAnswer Starting out, st')
  | Guessing rest =>
      let (out, st') := rest st in (settle GuessAnswer Guessing out, st')
  | Rooting rest =>
      let (out, st') := rest st in (settle SignedRootAnswer Rooting out, st')
  end.

(** The winner of [r], if any, is a player with a recorded guess that is the
    target. *)
Definition guessedTarget (r : RoundState.t) (p : string) : Prop :=
  exists g, g ∈ guesses r /\ GuessRecord.player g = p
    /\ GuessRecord.guess g = target r
    /\ HintResult.isExactMatch (GuessRecord.hint g) = true
    /\ HintResult.numericDistance (GuessRecord.hint g) = 0.

Definition roundSound (r : RoundState.t) : Prop :=
  (winner r <> None <-> status r = Completed)
  /\ forall p, winner r = Some p -> guessedTarget r p.

(** From [r] to [r'] the round has kept what was fixed at its start, has
    only gained guesses, and none if it was Completed, has not left
    Completed, and is still sound. *)
Definition roundAdvances (r r' : RoundState.t) : Prop :=
  id r' = id r /\ target r' = target r /\ salt r' = salt r
  /\ commitmentHash r' = commitmentHash r /\ baseBuyIn r' = baseBuyIn r
  /\ startTimestamp r' = startTimestamp r
  /\ guesses r `prefix_of` guesses r'
  /\ (status r = Completed ->
      status r' = Completed /\ guesses r' = guesses r /\ pool r' = pool r)
  /\ (roundSound r -> roundSound r').

Definition Advances (s s' : State) : Prop :=
  forall k,
    match rounds s !! k with
    | Some r => exists r', rounds s' !! k = Some r' /\ roundAdvances r r'
    | None => forall r', rounds s' !! k = Some r' -> roundSound r'
    end.

Lemma roundAdvances_refl (r : RoundState.t) : roundAdvances r r.
Proof. unfold roundAdvances. do 8 (split; [done|]). done. Qed.

Lemma roundAdvances_trans (r1 r2 r3 : RoundState.t) :
  roundAdvances r1 r2 -> roundAdvances r2 r3 -> roundAdvances r1 r3.
Proof.
  intros (?&?&?&?&?&?&?&Hc1&Hs1) (?&?&?&?&?&?&?&Hc2&Hs2).
  unfold roundAdvances.
  split; [congruence|]. split; [congruence|]. split; [congruence|].
  split; [congruence|]. split; [congruence|]. split; [congruence|].
  split; [by etrans|]. split; [|tauto].
  intros Hc. destruct (Hc1 Hc) as (Hc'&?&?). destruct (Hc2 Hc') as (?&?&?).
  split; [done|]. split; congruence.
Qed.

#[global] Instance Advances_preorder : Preorder' Advances.
Proof.
  split.
  - intros st k. destruct (rounds st !! k) as [r|] eqn:E; [|done].
    exists r. split; [done|apply roundAdvances_refl].
  - intros s1 s2 s3 H12 H23 k. specialize (H12 k). specialize (H23 k).
    destruct (rounds s1 !! k) as [r1|].
    + destruct H12 as (r2&E2&A12). rewrite E2 in H23.
      destruct H23 as (r3&E3&A23). exists r3. split; [done|].
      by eapply roundAdvances_trans.
    + destruct (rounds s2 !! k) as [r2|].
      * destruct H23 as (r3&E3&A23). intros r' Hr'. rewrite E3 in Hr'.
        injection Hr' as <-. apply A23, H12. done.
      * exact H23.
Qed.

Lemma Advances_same (s s' : State) : rounds s' = rounds s -> Advances s s'.
Proof.
  intros E k. rewrite E. destruct (rounds s !! k) as [r|]; [|done].
  exists r. split; [done|apply roundAdvances_refl].
Qed.

Lemma Advances_alter (s s' : State) (k : string)
    (f : RoundState.t -> RoundState.t) :
  rounds s' = alter f k (rounds s) ->
  (forall r, rounds s !! k = Some r -> roundAdvances r (f r)) ->
  Advances s s'.
Proof.
  intros E Hf k'. rewrite E. destruct (decide (k' = k)) as [->|Hne].
  - rewrite lookup_alter_eq. destruct (rounds s !! k) as [r|]; [|done].
    exists (f r). split; [done|by apply Hf].
  - rewrite lookup_alter_ne by done. destruct (rounds s !! k') as [r|]; [|done].
    exists r. split; [done|apply roundAdvances_refl].
Qed.

Lemma Advances_insert (s s' : State) (k : string) (r : RoundState.t) :
  rounds s' = <[k := r]> (rounds s) -> rounds s !! k = None ->
  roundSound r -> Advances s s'.
Proof.
  intros E Hk Hr k'. rewrite E. destruct (decide (k' = k)) as [->|Hne].
  - rewrite Hk, lookup_insert_eq. by intros r' [= <-].
  - rewrite lookup_insert_ne by done. destruct (rounds s !! k') as [r0|]; [|done].
    exists r0. split; [done|apply roundAdvances_refl].
Qed.

Lemma guessedTarget_advances (r r' : RoundState.t) (p : string) :
  roundAdvances r r' -> guessedTarget r p -> guessedTarget r' p.
Proof.
  intros (_&Ht&_&_&_&_&[l Hl]&_) (g&Hg&?&?&?&?). exists g.
  split; [rewrite Hl; apply elem_of_app; by left|]. by rewrite Ht.
Qed.

(** A call that scored an exact match has left its guess on record. *)
Definition exactRecorded (st : State) (k p : string) (hint : HintResult.t)
  : Prop :=
  HintResult.isExactMatch hint = true ->
  exists r, rounds st !! k = Some r /\ guessedTarget r p.

Lemma exactRecorded_advances (s s' : State) k p hint :
  Advances s s' -> exactRecorded s k p hint -> exactRecorded s' k p hint.
Proof.
  intros Hadv Hrec Hex. destruct (Hrec Hex) as (r&Hr&Hg).
  specialize (Hadv k). rewrite Hr in Hadv. destruct Hadv as (r'&Hr'&Ha).
  exists r'. split; [done|]. by eapply guessedTarget_advances.
Qed.

Section WithPlatform.
Context `{Platform}.

(** A call as it is made: the async functions run up to their first await,
    the others to their return. *)
Definition invoke (c : Call) (st : State) : Promise * State :=
  match c with
  | InitSigner privateKey =>
      let (out, st') := Crypto.initSigner privateKey st in
      (returned SignerAnswer out, st')
  | InitSignerFromMnemonic mnemonic =>
      let (out, st') := Crypto.initSignerFromMnemonic mnemonic st in
      (returned SignerAnswer out, st')
  | StartNewRound baseBuyIn uuid random8 random32 =>
      let (out, st') := Async.startNewRound baseBuyIn uuid random8 random32 st in
      (settle StartAnswer Starting out, st')
  | ProcessGuess roundId player guess buyInPaid =>
      let (out, st') := Async.processGuess roundId player guess buyInPaid st in
      (settle GuessAnswer Guessing out, st')
  | ComputeMerkleRoot roundId =>
      let (out, st') := Audit.computeMerkleRoot roundId st in
      (returned RootAnswer out, st')
  | GetSignedAuditRoot roundId =>
      let (out, st') := Async.getSignedAuditRoot roundId st in
      (settle SignedRootAnswer Rooting out, st')
  | GetAuditTrail roundId =>
      let (out, st') := Audit.getAuditTrail roundId st in
      (returned TrailAnswer out, st')
  | VerifyChainIntegrity roundId =>
      let (out, st') := Audit.verifyChainIntegrity roundId st in
      (returned VerdictAnswer out, st')
  end.

Definition stepW (ev : Event) (w : World) : World :=
  match ev with
  | Invoke c =>
      let (p, st) := invoke c (engine w) in mkWorld st (promises w ++ [p])
  | Resume i =>
      match promises w !! i with
      | Some (Pending f) =>
          let (p, st) := resume f (engine w) in
          mkWorld st (<[i := p]> (promises w))
      | _ => w
      end
  end.

(** The worlds a schedule goes through, the first one included. *)
Fixpoint traceW (evs : list Event) (w : World) : list World :=
  match evs with
  | [] => []
  | ev :: evs' => stepW ev w :: traceW evs' (stepW ev w)
  end.

Definition worlds (evs : list Event) (w : World) : list World :=
  w :: traceW evs w.

(** [randomUUID()] never returns an identifier already in use. *)
Fixpoint freshUUIDs (evs : list Event) (w : World) : bool :=
  match evs with
  | [] => true
  | ev :: evs' =>
      match ev with
      | Invoke (StartNewRound _ uuid _ _) =>
          bool_decide (rounds (engine w) !! uuid = None)
      | _ => true
      end && freshUUIDs evs' (stepW ev w)
  end.

Definition initialWorld (clock0 : nat -> N) : World :=
  mkWorld (initialState clock0) [].

(** The world a schedule ends in. *)
Definition after (evs : list Event) (w : World) : World :=
  fold_left (fun w ev => stepW ev w) evs w.

Lemma worlds_lookup (evs : list Event) (w : World) (n : nat) :
  (n <= length evs)%nat -> worlds evs w !! n = Some (after (take n evs) w).
Proof.
  unfold worlds, after. revert w n.
  induction evs as [|ev evs IH]; intros w [|n] Hn; try done; [cbn in Hn; lia|].
  cbn [traceW take fold_left]. rewrite <- IH by (cbn in Hn; lia). done.
Qed.

(** *** A call with nothing in between *)

Lemma bind_ext {A B} (m : M A) (f g : A -> M B) (st : State) :
  (forall a st', f a st' = g a st') -> bind m f st = bind m g st.
Proof. intros E. unfold bind. destruct (m st) as [[a|e] st']; [apply E|done]. Qed.

Lemma bind_settled {A B} (m : M A) (k : A -> M B) (st : State) (r : Result A) :
  m st = (r, st) -> bind m k st = bind (liftResult r) k st.
Proof. intros E. unfold bind, liftResult. by rewrite E. Qed.

Lemma alone_bind {A B} (m : M A) (k : A -> M (Task B)) (st : State) :
  alone (bind m k) st = bind m (fun a => alone (k a)) st.
Proof. apply bind_assoc. Qed.

Lemma alone_await {A B} (promise : M A) (rest : A -> M (Task B)) (st : State) :
  alone (await promise rest) st = bind promise (fun a => alone (rest a)) st.
Proof.
  unfold alone, await, bind. destruct (promise st) as [[a|e] st']; [|done].
  cbn [complete liftResult]. by destruct (rest a st') as [[t|e] st''].
Qed.

Lemma alone_Finished {A} (a : A) (st : State) :
  alone (ret (Finished a)) st = ret a st.
Proof. done. Qed.

Lemma alone_afterSignWinner k p hint sh pu n sig (st : State) :
  alone (afterSignWinner k p hint sh pu n sig) st
  = (Audit.addAuditEntry k Winner [("winner", JString p)] ;;
     ret (mkGuessResult hint sh pu
            (Some (SignedWinnerDeclaration.mk k p n sig)))) st.
Proof. unfold afterSignWinner. rewrite alone_bind. done. Qed.

Lemma alone_checkWinner k p hint sh pu (st : State) :
  alone (checkWinner k p hint sh pu) st
  = (winnerDeclaration <-
       (if HintResult.isExactMatch hint then declareWinner k p else ret None) ;;
     ret (mkGuessResult hint sh pu winnerDeclaration)) st.
Proof.
  unfold checkWinner. destruct (HintResult.isExactMatch hint); [|done].
  unfold declareWinner.
  repeat (rewrite ?alone_bind, ?bind_assoc; apply bind_ext; intros ? ?).
  rewrite alone_await, bind_assoc. apply bind_ext. intros sig st1.
  rewrite alone_afterSignWinner, bind_assoc. done.
Qed.

Lemma alone_afterSignPriceUpdate k p hint sh t b n sig (st : State) :
  alone (afterSignPriceUpdate k p hint sh t b n sig) st
  = (Audit.addAuditEntry k PriceChange
       [("newTier", JString (PriceTier_text t));
        ("newBuyIn", JString (toString b))] ;;
     winnerDeclaration <-
       (if HintResult.isExactMatch hint then declareWinner k p else ret None) ;;
     ret (mkGuessResult hint sh (Some (SignedPriceUpdate.mk k (toString b) n sig))
            winnerDeclaration)) st.
Proof.
  unfold afterSignPriceUpdate. rewrite alone_bind. apply bind_ext.
  intros _ st1. apply alone_checkWinner.
Qed.


(** The signing functions read the signer and write nothing. *)
Lemma signHint_reads a b c d e f (st : State) :
  Crypto.signHint a b c d e f st = (fst (Crypto.signHint a b c d e f st), st).
Proof.
  unfold Crypto.signHint, bind, Crypto.getSigner, liftResult.
  destruct (signer st); [|done]. by destruct (solidityPackedKeccak256 _).
Qed.

Lemma signPriceUpdate_reads a b c (st : State) :
  Crypto.signPriceUpdate a b c st = (fst (Crypto.signPriceUpdate a b c st), st).
Proof.
  unfold Crypto.signPriceUpdate, bind, Crypto.getSigner, liftResult.
  destruct (signer st); [|done]. by destruct (solidityPackedKeccak256 _).
Qed.

Lemma signWinner_reads a b c (st : State) :
  Crypto.signWinner a b c st = (fst (Crypto.signWinner a b c st), st).
Proof.
  unfold Crypto.signWinner, bind, Crypto.getSigner, liftResult.
  destruct (signer st); [|done]. by destruct (solidityPackedKeccak256 _).
Qed.

Lemma signStartRound_reads a b c d (st : State) :
  Crypto.signStartRound a b c d st = (fst (Crypto.signStartRound a b c d st), st).
Proof.
  unfold Crypto.signStartRound, bind, Crypto.getSigner, liftResult.
  destruct (signer st); [|done]. by destruct (solidityPackedKeccak256 _).
Qed.

Lemma signAuditRoot_reads a b c d (st : State) :
  Crypto.signAuditRoot a b c d st = (fst (Crypto.signAuditRoot a b c d st), st).
Proof.
  unfold Crypto.signAuditRoot, bind, Crypto.getSigner, liftResult.
  destruct (signer st); [|done]. by destruct (solidityPackedKeccak256 _).
Qed.

(** The tier [afterSignHint] reads through its reference. *)
Definition tierAt (k : string) (round : RoundState.t) (st : State) : PriceTier :=
  match rounds st !! k with
  | Some r => currentTier r
  | None => currentTier round
  end.

Lemma alone_afterSignHint k p round hint n sig (st : State) :
  alone (afterSignHint k p round hint n sig) st
  = (let signedHint :=
       SignedHint.mk k p (HintResult.digitsCorrect hint)
         (HintResult.digitsInPlace hint)
         (toString (HintResult.numericDistance hint)) n sig in
     priceUpdate <-
       (if shouldUpdatePrice (tierAt k round st)
             (HintResult.numericDistance hint) DEFAULT_PRICING_CONFIG
        then escalate k (HintResult.numericDistance hint)
        else ret None) ;;
     winnerDeclaration <-
       (if HintResult.isExactMatch hint then declareWinner k p else ret None) ;;
     ret (mkGuessResult hint signedHint priceUpdate winnerDeclaration)) st.
Proof.
  unfold afterSignHint. cbv zeta. rewrite alone_bind. unfold readRound.
  rewrite bind_gets. fold (tierAt k round st).
  destruct (shouldUpdatePrice _ _ _); [|apply alone_checkWinner].
  unfold escalate.
  repeat (rewrite ?alone_bind, ?bind_assoc; apply bind_ext; intros ? ?).
  rewrite alone_await, bind_assoc. apply bind_ext. intros psig st1.
  rewrite alone_afterSignPriceUpdate, bind_assoc. apply bind_ext. intros _ st2.
  by rewrite bind_ret.
Qed.

(** [Game.processGuess] is [processGuess] run from its first line to its
    return with no other call in between. *)
Lemma alone_processGuess (roundId player guess : string) (buyInPaid : Z)
    (st : State) :
  alone (Async.processGuess roundId player guess buyInPaid) st
  = Game.processGuess roundId player guess buyInPaid st.
Proof.
  rewrite processGuess_unfold. unfold Async.processGuess.
  rewrite alone_bind, bind_gets.
  destruct (rounds st !! roundId) as [round|] eqn:Hr; [|done].
  destruct (negb _); [done|]. destruct (buyInPaid <? _); [done|].
  rewrite alone_bind. unfold liftResult at 1, bind at 1.
  destruct (calculateDistance _ _ _) as [hint|e]; [|done].
  unfold afterScoring.
  rewrite alone_bind.
  rewrite !(bind_run _ _ _ _ _ (eq_refl : Date_now st = (_, _))).
  rewrite alone_bind.
  rewrite !(bind_run _ _ _ _ _ (eq_refl : updateRound _ _ _ = (_, _))).
  rewrite alone_bind.
  rewrite !(bind_run _ _ _ _ _ (eq_refl : updateRound _ _ _ = (_, _))).
  rewrite alone_bind.
  rewrite !(bind_run _ _ _ _ _ (addAuditEntry_run _ _ _ _)).
  rewrite alone_bind.
  rewrite !(bind_run _ _ _ _ _ (addAuditEntry_run _ _ _ _)).
  rewrite alone_bind.
  rewrite !(bind_run _ _ _ _ _ (eq_refl : Crypto.getNextNonce _ = (_, _))).
  rewrite alone_await.
  rewrite !(bind_settled _ _ _ _ (signHint_reads _ _ _ _ _ _ _)).
  destruct (fst (Crypto.signHint _ _ _ _ _ _ _)) as [sig|e0]; [|done].
  rewrite !bind_liftResult_Ok, alone_afterSignHint. cbv zeta.
  unfold tierAt. cbn [rounds set_rounds set_ticks set_nonceCounter].
  rewrite !lookup_alter_eq, Hr. done.
Qed.


Lemma alone_startNewRound (baseBuyIn : Z) (uuid : string)
    (random8 random32 : list byte) (st : State) :
  alone (Async.startNewRound baseBuyIn uuid random8 random32) st
  = Game.startNewRound baseBuyIn uuid random8 random32 st.
Proof.
  unfold Async.startNewRound, Game.startNewRound.
  destruct (Crypto.generateTarget random8 random32) as [target salt].
  repeat (rewrite ?alone_bind; apply bind_ext; intros ? ?).
  rewrite alone_await. apply bind_ext. intros sig st1.
  unfold afterSignStartRound. cbv zeta. rewrite alone_bind. done.
Qed.

Lemma alone_getSignedAuditRoot (roundId : string) (st : State) :
  alone (Async.getSignedAuditRoot roundId) st
  = Audit.getSignedAuditRoot roundId st.
Proof.
  unfold Async.getSignedAuditRoot, Audit.getSignedAuditRoot.
  repeat (rewrite ?alone_bind; apply bind_ext; intros ? ?).
  rewrite alone_await. done.
Qed.


(** *** One stretch of a call, from an await to the next *)

Lemma await_run {A B} (promise : M A) (rest : A -> M (Task B)) (st : State) :
  promise st = (fst (promise st), st) ->
  await promise rest st
  = (Ok (Suspended (x <- liftResult (fst (promise st)) ;; rest x)), st).
Proof. intros E. unfold await. by rewrite E. Qed.

Lemma afterSignWinner_run k p hint sh pu n sig (st : State) :
  exists st',
    afterSignWinner k p hint sh pu n sig st
    = (Ok (Finished (mkGuessResult hint sh pu
                       (Some (SignedWinnerDeclaration.mk k p n sig)))), st')
    /\ rounds st' = rounds st.
Proof.
  unfold afterSignWinner.
  rewrite (bind_run _ _ _ _ _ (addAuditEntry_run _ _ _ _)). by eexists.
Qed.

Lemma checkWinner_run k p hint sh pu (st : State) :
  if HintResult.isExactMatch hint then
    exists settled n st',
      checkWinner k p hint sh pu st
      = (Ok (Suspended (x <- liftResult settled ;;
                        afterSignWinner k p hint sh pu n x)), st')
      /\ rounds st'
         = alter (set_endTimestamp (Some (clock st (ticks st)))) k
             (alter (set_winner (Some p)) k
                (alter (set_status Completed) k (rounds st)))
  else
    checkWinner k p hint sh pu st
    = (Ok (Finished (mkGuessResult hint sh pu None)), st).
Proof.
  unfold checkWinner. destruct (HintResult.isExactMatch hint); [|done].
  rewrite !(bind_run _ _ _ _ _ (eq_refl : updateRound _ _ _ = (_, _))).
  rewrite !(bind_run _ _ _ _ _ (eq_refl : Date_now _ = (_, _))).
  rewrite !(bind_run _ _ _ _ _ (eq_refl : updateRound _ _ _ = (_, _))).
  rewrite !(bind_run _ _ _ _ _ (eq_refl : Crypto.getNextNonce _ = (_, _))).
  rewrite (await_run _ _ _ (signWinner_reads _ _ _ _)).
  by eexists _, _, _.
Qed.

Lemma afterSignPriceUpdate_run k p hint sh t b n sig (st : State) :
  exists st1,
    afterSignPriceUpdate k p hint sh t b n sig st
    = checkWinner k p hint sh
        (Some (SignedPriceUpdate.mk k (toString b) n sig)) st1
    /\ rounds st1 = rounds st
    /\ ticks st1 = S (ticks st) /\ clock st1 = clock st.
Proof.
  unfold afterSignPriceUpdate.
  rewrite (bind_run _ _ _ _ _ (addAuditEntry_run _ _ _ _)). by eexists.
Qed.

Lemma afterSignHint_run k p round hint n sig (st : State) :
  let d := HintResult.numericDistance hint in
  let sh := SignedHint.mk k p (HintResult.digitsCorrect hint)
              (HintResult.digitsInPlace hint) (toString d) n sig in
  if shouldUpdatePrice (tierAt k round st) d DEFAULT_PRICING_CONFIG then
    match computeBuyIn d DEFAULT_PRICING_CONFIG with
    | Ok newBuyIn =>
        exists settled m st',
          afterSignHint k p round hint n sig st
          = (Ok (Suspended (x <- liftResult settled ;;
                            afterSignPriceUpdate k p hint sh
                              (determinePriceTier d DEFAULT_PRICING_CONFIG)
                              newBuyIn m x)), st')
          /\ rounds st'
             = alter (set_currentBuyIn newBuyIn) k
                 (alter (set_currentTier
                           (determinePriceTier d DEFAULT_PRICING_CONFIG)) k
                    (rounds st))
    | Throw e => afterSignHint k p round hint n sig st = (Throw e, st)
    end
  else
    afterSignHint k p round hint n sig st = checkWinner k p hint sh None st.
Proof.
  intros d sh. unfold afterSignHint. cbv zeta. unfold readRound.
  rewrite bind_gets. fold (tierAt k round st). fold d. fold sh.
  destruct (shouldUpdatePrice _ _ _); [|done].
  unfold liftResult at 1, bind at 1.
  destruct (computeBuyIn d DEFAULT_PRICING_CONFIG) as [newBuyIn|e]; [|done].
  rewrite !(bind_run _ _ _ _ _ (eq_refl : updateRound _ _ _ = (_, _))).
  rewrite !(bind_run _ _ _ _ _ (eq_refl : Crypto.getNextNonce _ = (_, _))).
  rewrite (await_run _ _ _ (signPriceUpdate_reads _ _ _ _)).
  by eexists _, _, _.
Qed.

Lemma processGuess_run (roundId player guess : string) (buyInPaid : Z)
    (st : State) :
  match rounds st !! roundId with
  | None =>
      Async.processGuess roundId player guess buyInPaid st
      = (Throw RoundNotFound, st)
  | Some round =>
      if negb (bool_decide (status round = Active)) then
        Async.processGuess roundId player guess buyInPaid st
        = (Throw RoundNotActive, st)
      else if buyInPaid <? currentBuyIn round then
        Async.processGuess roundId player guess buyInPaid st
        = (Throw InsufficientBuyIn, st)
      else
        match calculateDistance (target round) guess DEFAULT_PRICING_CONFIG with
        | Throw e =>
            Async.processGuess roundId player guess buyInPaid st = (Throw e, st)
        | Ok hint =>
            exists settled n st',
              Async.processGuess roundId player guess buyInPaid st
              = (Ok (Suspended (x <- liftResult settled ;;
                                afterSignHint roundId player round hint n x)),
                 st')
              /\ rounds st'
                 = alter (fun r => set_pool (pool r + buyInPaid) r) roundId
                     (alter (push_guess
                               (GuessRecord.mk player guess hint buyInPaid
                                  (clock st (ticks st)))) roundId (rounds st))
        end
  end.
Proof.
  unfold Async.processGuess. rewrite bind_gets.
  destruct (rounds st !! roundId) as [round|] eqn:Hr; [|done].
  destruct (negb _); [done|]. destruct (buyInPaid <? _); [done|].
  unfold liftResult at 1, bind at 1.
  destruct (calculateDistance _ _ _) as [hint|e]; [|done].
  rewrite !(bind_run _ _ _ _ _ (eq_refl : Date_now st = (_, _))).
  rewrite !(bind_run _ _ _ _ _ (eq_refl : updateRound _ _ _ = (_, _))).
  rewrite !(bind_run _ _ _ _ _ (addAuditEntry_run _ _ _ _)).
  rewrite !(bind_run _ _ _ _ _ (eq_refl : Crypto.getNextNonce _ = (_, _))).
  rewrite (await_run _ _ _ (signHint_reads _ _ _ _ _ _ _)).
  by eexists _, _, _.
Qed.

Lemma afterSignStartRound_run k round n sig (st : State) :
  exists res st',
    afterSignStartRound k round n sig st = (Ok (Finished res), st')
    /\ rounds st' = rounds st.
Proof.
  unfold afterSignStartRound. cbv zeta.
  rewrite (bind_run _ _ _ _ _ (addAuditEntry_run _ _ _ _)). by eexists _, _.
Qed.

Lemma startNewRound_run (baseBuyIn0 : Z) (uuid : string)
    (random8 random32 : list byte) (st : State) :
  exists settled round n st',
    Async.startNewRound baseBuyIn0 uuid random8 random32 st
    = (Ok (Suspended (x <- liftResult settled ;;
                      afterSignStartRound uuid round n x)), st')
    /\ rounds st' = <[uuid := round]> (rounds st)
    /\ status round = Active /\ winner round = None.
Proof.
  unfold Async.startNewRound, Crypto.generateTarget, Crypto.computeCommitment,
    solidityPackedKeccak256.
  cbn [solidityPacked packValue]. rewrite bind_liftResult_Ok.
  rewrite !(bind_run _ _ _ _ _ (eq_refl : Date_now st = (_, _))).
  rewrite !(bind_run _ _ _ _ _ (eq_refl : modify _ _ = (_, _))).
  rewrite !(bind_run _ _ _ _ _ (eq_refl : Crypto.getNextNonce _ = (_, _))).
  rewrite (await_run _ _ _ (signStartRound_reads _ _ _ _ _)).
  by eexists _, _, _, _.
Qed.

Lemma getSignedAuditRoot_async_run (roundId : string) (st : State) :
  let out := Async.getSignedAuditRoot roundId st in
  rounds (snd out) = rounds st
  /\ forall t, fst out = Ok t ->
       exists settled m c n,
         t = Suspended (x <- liftResult settled ;;
                        afterSignAuditRoot roundId m c n x).
Proof.
  cbv zeta. destruct (Async.getSignedAuditRoot roundId st) as [o st'] eqn:E.
  cbn [fst snd]. unfold Async.getSignedAuditRoot in E.
  pose proof (quiet_computeMerkleRoot roundId st) as (Hr&_).
  unfold bind at 1 in E.
  destruct (Audit.computeMerkleRoot roundId st) as [[root|e] st1];
    cbn [snd] in Hr; [|injection E as <- <-; split; [exact Hr|by intros t [=]]].
  unfold bind at 1 in E.
  pose proof (quiet_getOrCreateTrail roundId st1) as (Hr1&_).
  destruct (Audit.getOrCreateTrail roundId st1) as [[trail|e] st2];
    cbn [snd] in Hr1;
    [|injection E as <- <-; split; [congruence|by intros t [=]]].
  rewrite !(bind_run _ _ _ _ _ (eq_refl : Crypto.getNextNonce _ = (_, _))) in E.
  rewrite (await_run _ _ _ (signAuditRoot_reads _ _ _ _ _)) in E.
  injection E as <- <-.
  split; [cbn [rounds set_nonceCounter]; congruence|].
  intros t [= <-]. by eexists _, _, _, _.
Qed.


Lemma calculateDistance_exact_distance (target guess : string)
    (config : PricingConfig.t) (h : HintResult.t) :
  calculateDistance target guess config = Ok h ->
  HintResult.isExactMatch h = true -> HintResult.numericDistance h = 0.
Proof.
  intros Hd Hex. pose proof (calculateDistance_exact _ _ _ _ Hd Hex) as ->.
  unfold calculateDistance in Hd. destruct (_ || _); [done|].
  destruct (bullsLoop _ _) as [[? ?] ?]. destruct (cowsLoop _ _).
  destruct (BigInt target) as [bt|]; [|done]. injection Hd as <-.
  cbn [HintResult.numericDistance]. destruct (bt >? bt); lia.
Qed.

(** *** What the suspended calls are, and what they do when they resume *)

(** Every suspended call is at one of the five awaits; a guess that scored
    an exact match and has not yet declared its winner has its record in
    the round. *)
Inductive Shape (st : State) : InFlight -> Prop :=
| Shape_start k round n settled :
    Shape st (Starting (x <- liftResult settled ;;
                        afterSignStartRound k round n x))
| Shape_hint k p round hint n settled :
    exactRecorded st k p hint ->
    Shape st (Guessing (x <- liftResult settled ;;
                        afterSignHint k p round hint n x))
| Shape_price k p hint sh t b n settled :
    exactRecorded st k p hint ->
    Shape st (Guessing (x <- liftResult settled ;;
                        afterSignPriceUpdate k p hint sh t b n x))
| Shape_winner k p hint sh pu n settled :
    Shape st (Guessing (x <- liftResult settled ;;
                        afterSignWinner k p hint sh pu n x))
| Shape_root k m c n settled :
    Shape st (Rooting (x <- liftResult settled ;;
                       afterSignAuditRoot k m c n x)).

Definition shaped (st : State) (p : Promise) : Prop :=
  match p with
  | Pending f => Shape st f
  | _ => True
  end.

Lemma Shape_advances (s s' : State) (f : InFlight) :
  Advances s s' -> Shape s f -> Shape s' f.
Proof.
  intros Hadv [ | ? ? ? ? ? ? Hrec | ? ? ? ? ? ? ? ? Hrec | | ];
    constructor; by eapply exactRecorded_advances.
Qed.

Lemma shaped_advances (s s' : State) (p : Promise) :
  Advances s s' -> shaped s p -> shaped s' p.
Proof. destruct p; [|done..]. apply Shape_advances. Qed.

(** What a stretch of a call does: the rounds advance, and if the call is
    suspended again it is at one of the awaits. *)
Definition sound (st : State) (out : Promise * State) : Prop :=
  Advances st (snd out) /\ shaped (snd out) (fst out).

Lemma sound_advances (s0 st : State) (out : Promise * State) :
  Advances s0 st -> sound st out -> sound s0 out.
Proof. intros H0 [H1 H2]. split; [by eapply preorder_trans|done]. Qed.

Lemma checkWinner_sound k p hint sh pu (st : State) :
  exactRecorded st k p hint ->
  sound st (let (out, st') := checkWinner k p hint sh pu st in
            (settle GuessAnswer Guessing out, st')).
Proof.
  intros Hrec. pose proof (checkWinner_run k p hint sh pu st) as Hrun.
  destruct (HintResult.isExactMatch hint) eqn:Hex.
  - destruct Hrun as (settled&n&st'&->&Hr). split; [|apply Shape_winner].
    cbn [snd]. rewrite !alter_alter_eq in Hr.
    eapply Advances_alter; [exact Hr|]. intros r Hk.
    destruct (Hrec Hex) as (r0&Hr0&g&Hg&Hp&Ht&Hm&Hz).
    assert (r0 = r) by congruence. subst r0.
    unfold roundAdvances. do 8 (split; [done|]). intros _.
    split; [done|]. intros p' [= E]. subst p'. by exists g.
  - rewrite Hrun. split; [apply preorder_refl|done].
Qed.

Lemma resume_sound (f : InFlight) (st : State) :
  Shape st f -> sound st (resume f st).
Proof.
  intros [k round n settled | k p round hint n settled Hrec
         | k p hint sh t b n settled Hrec | k p hint sh pu n settled
         | k m c n settled]; cbn [resume];
    (destruct settled as [sig|e];
     [rewrite bind_liftResult_Ok|by split; [apply preorder_refl|]]).
  - destruct (afterSignStartRound_run k round n sig st) as (res&st'&->&Hr).
    split; [by apply Advances_same|done].
  - pose proof (afterSignHint_run k p round hint n sig st) as Hrun.
    cbv zeta in Hrun. destruct (shouldUpdatePrice _ _ _).
    + destruct (computeBuyIn _ _) as [newBuyIn|e].
      * destruct Hrun as (settled&m&st'&->&Hr).
        assert (Hadv : Advances st st').
        { rewrite alter_alter_eq in Hr.
          eapply Advances_alter; [exact Hr|]. intros r _.
          unfold roundAdvances. do 8 (split; [done|]). done. }
        split; [done|]. apply Shape_price.
        by eapply exactRecorded_advances.
      * rewrite Hrun. by split; [apply preorder_refl|].
    + rewrite Hrun. by apply checkWinner_sound.
  - destruct (afterSignPriceUpdate_run k p hint sh t b n sig st)
      as (st1&->&Hr&_).
    assert (Hadv : Advances st st1) by by apply Advances_same.
    apply (sound_advances _ st1); [done|]. apply checkWinner_sound.
    by eapply exactRecorded_advances.
  - destruct (afterSignWinner_run k p hint sh pu n sig st) as (st'&->&Hr).
    split; [by apply Advances_same|done].
  - split; [apply preorder_refl|done].
Qed.

Lemma returned_sound {A} (answer : A -> Answer) (m : M A) (st : State) :
  rounds (snd (m st)) = rounds st ->
  sound st (let (out, st') := m st in (returned answer out, st')).
Proof.
  destruct (m st) as [out st']. cbn [snd]. intros Hr.
  split; [by apply Advances_same|]. by destruct out.
Qed.

Lemma invoke_sound (c : Call) (st : State) :
  match c with
  | StartNewRound _ uuid _ _ => rounds st !! uuid = None
  | _ => True
  end ->
  sound st (invoke c st).
Proof.
  destruct c as [key|phrase|b uuid r8 r32|k p g b|k|k|k|k]; cbn [invoke]; intros Hfresh.
  - apply returned_sound, initSigner_rounds.
  - apply returned_sound, initSignerFromMnemonic_rounds.
  - destruct (startNewRound_run b uuid r8 r32 st)
      as (settled&round&n&st'&->&Hr&Hs&Hw).
    split; [|apply Shape_start]. cbn [snd].
    eapply Advances_insert; [exact Hr|done|]. split.
    + rewrite Hs, Hw. done.
    + intros p'. by rewrite Hw.
  - pose proof (processGuess_run k p g b st) as Hrun.
    destruct (rounds st !! k) as [round|] eqn:Hk;
      [|rewrite Hrun; by split; [apply preorder_refl|]].
    destruct (negb _) eqn:Hact; [rewrite Hrun; by split; [apply preorder_refl|]|].
    apply negb_false_iff, bool_decide_eq_true in Hact.
    destruct (b <? _); [rewrite Hrun; by split; [apply preorder_refl|]|].
    destruct (calculateDistance _ _ _) as [hint|e] eqn:Hd;
      [|rewrite Hrun; by split; [apply preorder_refl|]].
    destruct Hrun as (settled&n&st'&->&Hr). cbn [settle].
    rewrite alter_alter_eq in Hr. split; cbn [fst snd].
    + eapply Advances_alter; [exact Hr|]. intros r Hk'.
      assert (r = round) by congruence. subst r.
      unfold roundAdvances. cbn [compose set_pool push_guess id target salt
        commitmentHash baseBuyIn startTimestamp guesses status].
      do 6 (split; [done|]). split; [by apply prefix_app_r|].
      split; [congruence|]. intros [Hwc Hwg]. split; [done|].
      intros p' Hp'. destruct (Hwg p' Hp') as (g0&Hg0&?&?&?&?). exists g0.
      split; [|done]. cbn [guesses]. apply elem_of_app. by left.
    + apply Shape_hint. intros Hex. eexists. split.
      * rewrite Hr, lookup_alter_eq, Hk. reflexivity.
      * eexists. split; [cbn [compose set_pool push_guess guesses];
                         apply elem_of_app; right; by apply list_elem_of_singleton|].
        split; [done|]. cbn [GuessRecord.guess GuessRecord.hint].
        split; [by eapply calculateDistance_exact|]. split; [done|].
        by eapply calculateDistance_exact_distance.
  - apply returned_sound, (quiet_computeMerkleRoot k st).
  - destruct (getSignedAuditRoot_async_run k st) as [Hr Hout].
    destruct (Async.getSignedAuditRoot k st) as [out st']. cbn [fst snd] in *.
    split; [by apply Advances_same|]. destruct out as [t|e]; [|done].
    destruct (Hout t eq_refl) as (settled&m&c&n&->). apply Shape_root.
  - apply returned_sound, (quiet_getOrCreateTrail k st).
  - apply returned_sound, (quiet_verifyChainIntegrity k st).
Qed.

(** *** Every schedule *)

Definition allShaped (w : World) : Prop :=
  Forall (shaped (engine w)) (promises w).

Lemma stepW_sound (ev : Event) (w : World) :
  allShaped w -> freshUUIDs [ev] w = true ->
  Advances (engine w) (engine (stepW ev w)) /\ allShaped (stepW ev w).
Proof.
  intros Hall Hfresh. destruct ev as [c|i]; cbn [stepW].
  - assert (Hs : sound (engine w) (invoke c (engine w))).
    { apply invoke_sound. cbn [freshUUIDs] in Hfresh.
      destruct c; try done. rewrite andb_true_r in Hfresh.
      by apply bool_decide_eq_true in Hfresh. }
    destruct (invoke c (engine w)) as [p st']. destruct Hs as [Hadv Hp].
    cbn [fst snd engine] in *. split; [done|].
    unfold allShaped. cbn [engine promises]. apply Forall_app. split.
    + eapply Forall_impl; [exact Hall|]. intros q. by apply shaped_advances.
    + by apply Forall_singleton.
  - destruct (promises w !! i) as [[f|a|e]|] eqn:Hi;
      try (split; [apply preorder_refl|done]).
    assert (Hf : Shape (engine w) f).
    { unfold allShaped in Hall. rewrite Forall_lookup in Hall.
      exact (Hall i _ Hi). }
    pose proof (resume_sound f (engine w) Hf) as Hs.
    destruct (resume f (engine w)) as [p st']. destruct Hs as [Hadv Hp].
    cbn [fst snd engine] in *. split; [done|].
    unfold allShaped. cbn [engine promises]. apply Forall_insert; [|done].
    eapply Forall_impl; [exact Hall|]. intros q. by apply shaped_advances.
Qed.

Lemma worlds_advance (evs : list Event) (w : World) (i j : nat)
    (wi wj : World) :
  allShaped w -> freshUUIDs evs w = true ->
  worlds evs w !! i = Some wi -> worlds evs w !! j = Some wj -> (i <= j)%nat ->
  Advances (engine wi) (engine wj).
Proof.
  unfold worlds. revert w i j wi wj.
  induction evs as [|ev evs IH]; intros w i j wi wj Hall Hf Hi Hj Hij.
  - destruct i, j; try done. cbn in Hi, Hj. injection Hi as <-.
    injection Hj as <-. apply preorder_refl.
  - cbn [freshUUIDs] in Hf. apply andb_true_iff in Hf as [Hf1 Hf2].
    destruct (stepW_sound ev w Hall) as [Hadv Hall'].
    { cbn [freshUUIDs]. by rewrite Hf1. }
    destruct i as [|i].
    + cbn in Hi. injection Hi as <-. destruct j as [|j].
      * cbn in Hj. injection Hj as <-. apply preorder_refl.
      * eapply preorder_trans; [exact Hadv|].
        apply (IH (stepW ev w) 0%nat j); [done|done|done|exact Hj|lia].
    + destruct j as [|j]; [lia|].
      apply (IH (stepW ev w) i j); [done|done|exact Hi|exact Hj|lia].
Qed.

Lemma initialWorld_shaped (clock0 : nat -> N) : allShaped (initialWorld clock0).
Proof. apply Forall_nil_2. Qed.

Lemma worlds_sound (clock0 : nat -> N) (evs : list Event) (w : World)
    (k : string) (r : RoundState.t) :
  freshUUIDs evs (initialWorld clock0) = true ->
  w ∈ worlds evs (initialWorld clock0) ->
  rounds (engine w) !! k = Some r -> roundSound r.
Proof.
  intros Hf [j Hj]%list_elem_of_lookup Hr.
  pose proof (worlds_advance evs (initialWorld clock0) 0 j _ w
                (initialWorld_shaped clock0) Hf eq_refl Hj ltac:(lia) k) as Hadv.
  cbn in Hadv. rewrite lookup_empty in Hadv. by apply Hadv.
Qed.


Lemma isCompleted_advances (k : string) (s s' : State) :
  Advances s s' -> isCompleted k s = true -> isCompleted k s' = true.
Proof.
  intros Hadv. specialize (Hadv k). unfold isCompleted.
  destruct (rounds s !! k) as [r|]; [|done].
  destruct Hadv as (r'&->&_&_&_&_&_&_&_&Hc&_).
  intros Hs%bool_decide_eq_true. apply bool_decide_eq_true. by apply Hc.
Qed.

Lemma transitions_after_completion (k : string) (s : State) (l : list State) :
  (forall i a b, (s :: l) !! i = Some a -> (s :: l) !! S i = Some b ->
     Advances a b) ->
  isCompleted k s = true -> transitionsToCompleted k (s :: l) = 0%nat.
Proof.
  revert s. induction l as [|s' l IH]; intros s Hadv Hc; [done|].
  rewrite transitions_cons, Hc. cbn [negb andb Nat.add].
  apply IH.
  - intros i a b Ha Hb. exact (Hadv (S i) a b Ha Hb).
  - eapply isCompleted_advances; [exact (Hadv 0%nat s s' eq_refl eq_refl)|done].
Qed.

Lemma transitions_once (k : string) (l : list State) :
  (forall i a b, l !! i = Some a -> l !! S i = Some b -> Advances a b) ->
  (transitionsToCompleted k l <= 1)%nat.
Proof.
  induction l as [|s l IH]; intros Hadv; [cbn; lia|].
  destruct l as [|s' l]; [cbn; lia|].
  rewrite transitions_cons.
  assert (Htail : forall i a b, (s' :: l) !! i = Some a ->
                    (s' :: l) !! S i = Some b -> Advances a b).
  { intros i a b Ha Hb. exact (Hadv (S i) a b Ha Hb). }
  destruct (isCompleted k s') eqn:Hc'.
  - rewrite (transitions_after_completion k s' l Htail Hc').
    destruct (isCompleted k s); cbn; lia.
  - rewrite andb_false_r. cbn [Nat.add]. by apply IH.
Qed.

(** C6 (as amended).  Calls may overlap: a call suspended at an await
    resumes after other calls have run.  Along every schedule of calls and
    resumptions from the engine's initial state (given that [randomUUID]
    never repeats an identifier in use), a round goes to Completed at most
    once and, once Completed, is Completed at every later point; at every
    point the winner field of a round is set exactly when its status is
    Completed; and a guess made against a Completed round is rejected at
    once with RoundNotActive and leaves the whole state, hence the round, as
    it was. *)
Theorem round_completes_once_under_overlap (clock0 : nat -> N)
    (evs : list Event) (roundId : string) :
  freshUUIDs evs (initialWorld clock0) = true ->
  (transitionsToCompleted roundId
     (engine <$> worlds evs (initialWorld clock0)) <= 1)%nat
  /\ (forall i j wi wj r,
        worlds evs (initialWorld clock0) !! i = Some wi ->
        worlds evs (initialWorld clock0) !! j = Some wj -> (i <= j)%nat ->
        rounds (engine wi) !! roundId = Some r -> status r = Completed ->
        exists r', rounds (engine wj) !! roundId = Some r'
                   /\ status r' = Completed)
  /\ (forall w r, w ∈ worlds evs (initialWorld clock0) ->
        rounds (engine w) !! roundId = Some r ->
        (winner r <> None <-> status r = Completed))
  /\ (forall w r player guess buyInPaid,
        w ∈ worlds evs (initialWorld clock0) ->
        rounds (engine w) !! roundId = Some r -> status r = Completed ->
        stepW (Invoke (ProcessGuess roundId player guess buyInPaid)) w
        = mkWorld (engine w) (promises w ++ [Rejected RoundNotActive])).
Proof.
  intros Hf. split; [|split; [|split]].
  - apply transitions_once. intros i a b Ha Hb.
    rewrite list_lookup_fmap in Ha, Hb.
    destruct (worlds _ _ !! i) as [wa|] eqn:Ea; [|done].
    destruct (worlds _ _ !! S i) as [wb|] eqn:Eb; [|done].
    injection Ha as <-. injection Hb as <-.
    eapply (worlds_advance evs _ i (S i)); [apply initialWorld_shaped|done..|lia].
  - intros i j wi wj r Hi Hj Hij Hr Hc.
    pose proof (worlds_advance evs _ i j wi wj (initialWorld_shaped clock0)
                  Hf Hi Hj Hij roundId) as Hadv.
    rewrite Hr in Hadv. destruct Hadv as (r'&Hr'&_&_&_&_&_&_&_&Hc'&_).
    exists r'. split; [done|]. by apply Hc'.
  - intros w r Hw Hr. by destruct (worlds_sound clock0 evs w roundId r Hf Hw Hr).
  - intros w r player guess buyInPaid _ Hr Hc. cbn [stepW invoke].
    pose proof (processGuess_run roundId player guess buyInPaid (engine w)) as Hrun.
    rewrite Hr, Hc, bool_decide_eq_false_2 in Hrun by done.
    cbn [negb] in Hrun. by rewrite Hrun.
Qed.

(** X21.  A round is only ever won by the target, also when calls overlap:
    at every point of every schedule of calls and resumptions from the
    engine's initial state (given that [randomUUID] never repeats an
    identifier in use), a Completed round has a winner, and among the guesses
    recorded for the round there is one made by the winner that is the target
    itself and whose hint says exact match, at distance 0. *)
Theorem winner_guessed_target_under_overlap (clock0 : nat -> N)
    (evs : list Event) (w : World) (roundId : string) (r : RoundState.t) :
  freshUUIDs evs (initialWorld clock0) = true ->
  w ∈ worlds evs (initialWorld clock0) ->
  rounds (engine w) !! roundId = Some r -> status r = Completed ->
  exists p g,
    winner r = Some p
    /\ g ∈ guesses r
    /\ GuessRecord.player g = p
    /\ GuessRecord.guess g = target r
    /\ HintResult.isExactMatch (GuessRecord.hint g) = true
    /\ HintResult.numericDistance (GuessRecord.hint g) = 0.
Proof.
  intros Hf Hw Hr Hc.
  destruct (worlds_sound clock0 evs w roundId r Hf Hw Hr) as [Hwc Hwg].
  apply Hwc in Hc. destruct (winner r) as [p|] eqn:Hp; [|done].
  destruct (Hwg p eq_refl) as (g&?&?&?&?&?). by exists p, g.
Qed.

(** X24.  The history of a round only grows, also when calls overlap.
    Along every schedule of calls and resumptions from the engine's initial
    state in which [randomUUID] never returns an identifier in use, a round
    stored at one point is stored at every later point with the same
    identifier, target, salt, commitment, base buy-in and start time, and
    with the guesses recorded so far as an initial segment of those recorded
    later; and once the round is Completed it stays Completed, with the
    guesses and the pool it has. *)
Theorem round_history_grows_under_overlap (clock0 : nat -> N)
    (evs : list Event) (i j : nat) (wi wj : World) (roundId : string)
    (ri : RoundState.t) :
  freshUUIDs evs (initialWorld clock0) = true ->
  worlds evs (initialWorld clock0) !! i = Some wi ->
  worlds evs (initialWorld clock0) !! j = Some wj -> (i <= j)%nat ->
  rounds (engine wi) !! roundId = Some ri ->
  exists rj, rounds (engine wj) !! roundId = Some rj
    /\ id rj = id ri /\ target rj = target ri /\ salt rj = salt ri
    /\ commitmentHash rj = commitmentHash ri /\ baseBuyIn rj = baseBuyIn ri
    /\ startTimestamp rj = startTimestamp ri
    /\ guesses ri `prefix_of` guesses rj
    /\ (status ri = Completed ->
        status rj = Completed /\ guesses rj = guesses ri /\ pool rj = pool ri).
Proof.
  intros Hf Hi Hj Hij Hr.
  pose proof (worlds_advance evs _ i j wi wj (initialWorld_shaped clock0)
                Hf Hi Hj Hij roundId) as Hadv.
  rewrite Hr in Hadv. destruct Hadv as (rj&Hrj&?&?&?&?&?&?&?&?&_).
  exists rj. repeat (split; [done|]). done.
Qed.

End WithPlatform.
End OverlapFacts.

(** ** The contracts *)

Module ContractFacts.
Import Scoring ScoringFacts TargetFacts CommitmentFacts Solidity.

(** *** [_uint256ToString] *)

(** The [k] low decimal digits of [v], as characters, high digit first. *)
Fixpoint decimalBytes (k : nat) (v : Z) : list byte :=
  match k with
  | O => []
  | S k' => decimalBytes k' (v / 10) ++ [byte_of_Z (48 + v mod 10)]
  end.

Lemma decimalBytes_length (k : nat) (v : Z) : length (decimalBytes k v) = k.
Proof.
  revert v. induction k as [|k IH]; intros v; [done|].
  cbn [decimalBytes]. rewrite length_app, IH. simpl. lia.
Qed.

Lemma countLoop_spec (n : nat) : forall (fuel : nat) (temp digits : Z),
  0 <= temp < 10 ^ Z.of_nat n -> (n < fuel)%nat ->
  0 <= digits -> digits + Z.of_nat n <= MAX_UINT256 ->
  exists k : nat,
    countLoop fuel temp digits = Return (digits + Z.of_nat k)
    /\ (k <= n)%nat
    /\ (temp = 0 -> k = 0%nat)
    /\ (0 < temp -> 10 ^ (Z.of_nat k - 1) <= temp < 10 ^ Z.of_nat k).
Proof.
  induction n as [|n IH]; intros fuel temp digits Ht Hf Hd Hmax.
  - assert (temp = 0) as -> by (simpl in Ht; lia).
    destruct fuel as [|fuel]; [lia|]. exists 0%nat. cbn [countLoop].
    simpl negb. cbv iota. rewrite Z.add_0_r. repeat split; try done; lia.
  - destruct fuel as [|fuel]; [lia|]. cbn [countLoop].
    destruct (Z.eqb_spec temp 0) as [->|Hne]; cbn [negb].
    + exists 0%nat. rewrite Z.add_0_r. repeat split; try done; lia.
    + assert ((digits + 1 <=? MAX_UINT256) = true) as -> by (apply Z.leb_le; lia).
      rewrite Nat2Z.inj_succ, Z.pow_succ_r in Ht by lia.
      destruct (IH fuel (temp / 10) (digits + 1)) as (k&E&Hk&Hz&Hp).
      * split; [apply Z.div_pos; lia|]. apply Z.div_lt_upper_bound; lia.
      * lia.
      * lia.
      * lia.
      * exists (S k). rewrite E. split; [f_equal; lia|]. split; [lia|].
        split; [lia|]. intros _.
        replace (Z.of_nat (S k) - 1) with (Z.of_nat k) by lia.
        rewrite Nat2Z.inj_succ, Z.pow_succ_r by lia.
        destruct (decide (temp / 10 = 0)) as [Hq|Hq].
        -- specialize (Hz Hq). subst k. simpl.
           assert (temp < 10) by (apply Z.div_small_iff in Hq; lia). lia.
        -- assert (0 < temp / 10)
             by (pose proof (Z.div_pos temp 10 ltac:(lia) ltac:(lia)); lia).
           specialize (Hp ltac:(done)).
           assert (Hk1 : (1 <= k)%nat).
           { destruct k; [|lia]. simpl in Hp. lia. }
           replace (Z.of_nat k) with (Z.succ (Z.of_nat k - 1)) at 1 by lia.
           rewrite Z.pow_succ_r by lia.
           pose proof (Z.div_mod temp 10 ltac:(lia)).
           pose proof (Z.mod_pos_bound temp 10 ltac:(lia)). lia.
Qed.

Lemma fillLoop_spec (k : nat) : forall (fuel : nat) (value : Z)
    (pre suf : list byte),
  length pre = k -> (k < fuel)%nat ->
  (value = 0 -> k = 0%nat) ->
  (0 < value -> 10 ^ (Z.of_nat k - 1) <= value < 10 ^ Z.of_nat k) ->
  0 <= value ->
  fillLoop fuel value (Z.of_nat k) (pre ++ suf)
  = Return (decimalBytes k value ++ suf).
Proof.
  induction k as [|k IH]; intros fuel value pre suf Hl Hf Hz Hp Hv.
  - destruct fuel as [|fuel]; [lia|]. cbn [fillLoop decimalBytes].
    destruct (Z.eqb_spec value 0) as [->|Hne]; cbn [negb].
    + by destruct pre.
    + specialize (Hp ltac:(lia)). simpl in Hp. lia.
  - destruct fuel as [|fuel]; [lia|]. cbn [fillLoop decimalBytes].
    destruct (Z.eqb_spec value 0) as [->|Hne]; cbn [negb]; [by specialize (Hz eq_refl)|].
    specialize (Hp ltac:(lia)).
    assert ((0 <=? Z.of_nat (S k) - 1) = true) as -> by (apply Z.leb_le; lia).
    replace (Z.of_nat (S k) - 1) with (Z.of_nat k) by lia.
    rewrite Nat2Z.id.
    assert ((k <? length (pre ++ suf))%nat = true) as ->
      by (apply Nat.ltb_lt; rewrite length_app; lia).
    destruct (@exists_last _ pre) as (pre'&y&->); [by destruct pre|].
    rewrite length_app in Hl. simpl in Hl.
    rewrite <- !app_assoc. cbn [app].
    rewrite (insert_at_middle pre' suf _ y k) by lia.
    replace (Z.of_nat (S k)) with (Z.succ (Z.of_nat k)) in Hp by lia.
    rewrite Z.pow_succ_r in Hp by lia.
    change (pre' ++ byte_of_Z (48 + value mod 10) :: suf)
      with (pre' ++ ([byte_of_Z (48 + value mod 10)] ++ suf)).
    rewrite (IH fuel (value / 10) pre' _); [done|lia|lia| | |].
    + intros Hq. apply Z.div_small_iff in Hq; [|lia].
      destruct k; [done|]. exfalso.
      replace (Z.succ (Z.of_nat (S k)) - 1) with (Z.succ (Z.of_nat k)) in Hp by lia.
      rewrite Z.pow_succ_r in Hp by lia.
      pose proof (Z.pow_pos_nonneg 10 (Z.of_nat k) ltac:(lia) ltac:(lia)). lia.
    + intros Hq. replace (Z.succ (Z.of_nat k) - 1) with (Z.of_nat k) in Hp by lia.
      split; [|apply Z.div_lt_upper_bound; lia].
      destruct k as [|k].
      * simpl. lia.
      * replace (Z.of_nat (S k)) with (Z.succ (Z.of_nat (S k) - 1)) in Hp at 1 by lia.
        rewrite Z.pow_succ_r in Hp by lia.
        apply Z.div_le_lower_bound; lia.
    + apply Z.div_pos; lia.
Qed.

Lemma decimalValue_snoc (s : list ascii) (c : ascii) :
  decimalValue (s ++ [c])
  = 10 * decimalValue s + (Z.of_nat (nat_of_ascii c) - 48).
Proof.
  induction s as [|x s IH]; [simpl; lia|].
  cbn [app decimalValue]. rewrite IH, length_app. cbn [length].
  rewrite Nat.add_1_r, Nat2Z.inj_succ, Z.pow_succ_r by lia. lia.
Qed.

Lemma digit_char (d : Z) :
  0 <= d <= 9 ->
  Z.of_nat (nat_of_ascii (ascii_of_byte (byte_of_Z (48 + d)))) = 48 + d.
Proof.
  intros Hd.
  assert (d = 0 \/ d = 1 \/ d = 2 \/ d = 3 \/ d = 4 \/ d = 5 \/ d = 6 \/ d = 7
          \/ d = 8 \/ d = 9) as Hc by lia.
  repeat (destruct Hc as [->|Hc]; [reflexivity|]). by subst d.
Qed.

(** [decimalBytes k v] is a numeral of [k] digits that reads [v mod 10^k]. *)
Lemma decimalBytes_value (k : nat) (v : Z) :
  0 <= v ->
  Forall (fun c => isDigit c = true) (map ascii_of_byte (decimalBytes k v))
  /\ decimalValue (map ascii_of_byte (decimalBytes k v)) = v mod 10 ^ Z.of_nat k.
Proof.
  revert v. induction k as [|k IH]; intros v Hv.
  - split; [constructor|]. simpl. by rewrite Z.mod_1_r.
  - cbn [decimalBytes]. rewrite map_app. cbn [map].
    pose proof (Z.mod_pos_bound v 10 ltac:(lia)) as Hm.
    destruct (IH (v / 10) ltac:(apply Z.div_pos; lia)) as [Hd Hval]. split.
    + apply Forall_app. split; [done|]. constructor; [|constructor].
      unfold isDigit. cbv zeta. rewrite digit_char by lia.
      apply andb_true_iff. split; apply Z.leb_le; lia.
    + rewrite decimalValue_snoc, Hval, digit_char by lia.
      rewrite Nat2Z.inj_succ, Z.pow_succ_r by lia.
      pose proof (Z.pow_pos_nonneg 10 (Z.of_nat k) ltac:(lia) ltac:(lia)) as Hpow.
      rewrite Z.rem_mul_r by lia. lia.
Qed.

(** X29.  The contract's [_uint256ToString] agrees with the enclave's
    [toString] on every uint256: it never reverts nor runs out of turns, and
    the string it returns is the decimal text that JavaScript's
    [bigint.toString()] gives for the same number: its digits, high digit
    first, with no leading zero. *)
Theorem uint256ToString_decimal (value : Z) :
  0 <= value <= MAX_UINT256 ->
  _uint256ToString value = Return (toString value).
Proof.
  intros Hv. unfold _uint256ToString.
  destruct (Z.eqb_spec value 0) as [->|Hne]; [done|].
  destruct (countLoop_spec 78 80 value 0) as (k&->&Hk&_&Hp).
  { split; [lia|]. unfold MAX_UINT256 in Hv.
    eapply Z.le_lt_trans; [apply Hv|]. by vm_compute. }
  { lia. } { lia. } { unfold MAX_UINT256. by vm_compute. }
  specialize (Hp ltac:(lia)). rewrite Z.add_0_l, Nat2Z.id.
  rewrite <- (app_nil_r (repeat Byte.x00 k)).
  rewrite (fillLoop_spec k 80 value (repeat Byte.x00 k) []);
    [|by rewrite repeat_length|lia|lia|done|lia].
  rewrite app_nil_r. f_equal. apply chars_inj.
  unfold string_of_list_byte. rewrite list_ascii_of_string_of_list_ascii.
  destruct (decimalBytes_value k value ltac:(lia)) as [Hd Hval].
  rewrite Z.mod_small in Hval by lia.
  destruct (toString_chars value ltac:(lia)) as (d&Hc&Hdv&Hlen&Hlow).
  specialize (Hlow ltac:(lia)). rewrite Hc.
  assert (HdT : Forall (fun c => isDigit c = true) (uintChars d)).
  { apply Forall_forall. intros c Hin%list_elem_of_In.
    by apply (proj1 (forallb_forall _ _) (uintChars_digits d)). }
  assert (HvT : decimalValue (uintChars d) = value).
  { pose proof (BigInt_digits_value (uintChars d) 0) as E.
    rewrite BigInt_digits_uint, Hdv in E. lia. }
  pose proof (decimalValue_range _ HdT) as HrT.
  rewrite HvT, uintChars_length in HrT.
  apply decimalValue_inj; [|done|done|congruence].
  rewrite length_map, decimalBytes_length, uintChars_length.
  assert (Hlt1 : 10 ^ (Z.of_nat k - 1) < 10 ^ Z.of_nat (Decimal.nb_digits d))
    by lia.
  assert (Hlt2 : 10 ^ (Z.of_nat (Decimal.nb_digits d) - 1) < 10 ^ Z.of_nat k)
    by lia.
  apply Z.pow_lt_mono_r_iff in Hlt1; [|lia|lia].
  apply Z.pow_lt_mono_r_iff in Hlt2; [|lia|lia]. lia.
Qed.

(** *** TEEVerifier: nonces *)

(** The calls anyone can make on a deployed TEEVerifier. *)
Inductive VerifierCall :=
| SetTrustedEnclave (sender newEnclave : Address)
| VerifySignature (messageHash : Hash) (signature : list byte)
| VerifyAndConsumeNonce (messageHash : Hash) (signature : list byte) (nonce : Z).

Section WithEcdsa.
Context `{Ecdsa}.

(** The storage after a call. *)
Definition after (c : VerifierCall) (s : TEEVerifier.t) : TEEVerifier.t :=
  match c with
  | SetTrustedEnclave sender newEnclave => snd (setTrustedEnclave sender newEnclave s)
  | VerifySignature h sig => snd (verifySignature h sig s)
  | VerifyAndConsumeNonce h sig nonce => snd (verifyAndConsumeNonce h sig nonce s)
  end.

(** The nonce a call consumed, if it is a [verifyAndConsumeNonce] that
    returned. *)
Definition consumed (c : VerifierCall) (s : TEEVerifier.t) : option Z :=
  match c with
  | VerifyAndConsumeNonce h sig nonce =>
      match fst (verifyAndConsumeNonce h sig nonce s) with
      | Return _ => Some nonce
      | _ => None
      end
  | _ => None
  end.

Fixpoint afterAll (cs : list VerifierCall) (s : TEEVerifier.t) : TEEVerifier.t :=
  match cs with
  | [] => s
  | c :: cs' => afterAll cs' (after c s)
  end.

(** The nonces consumed along a sequence of calls, in order. *)
Fixpoint consumedAll (cs : list VerifierCall) (s : TEEVerifier.t) : list Z :=
  match cs with
  | [] => []
  | c :: cs' => from_option (fun n => [n]) [] (consumed c s)
                ++ consumedAll cs' (after c s)
  end.

Lemma readNonce_after (c : VerifierCall) (s : TEEVerifier.t) (n : Z) :
  readNonce s n = true -> readNonce (after c s) n = true.
Proof.
  intros Hn. destruct c as [sender e|h sig|h sig m]; cbn [after].
  - unfold setTrustedEnclave. destruct (negb _); [done|]. by destruct (_ =? 0).
  - unfold verifySignature. by destruct (recover _ _).
  - unfold verifyAndConsumeNonce. destruct (readNonce s m); [done|].
    destruct (recover _ _) as [a|]; [|done]. destruct (negb _); [done|].
    cbn [snd]. unfold readNonce in *. cbn [TEEVerifier.usedNonces].
    destruct (decide (n = m)) as [->|Hne].
    + by rewrite lookup_insert_eq.
    + by rewrite lookup_insert_ne.
Qed.

Lemma readNonce_afterAll (cs : list VerifierCall) (s : TEEVerifier.t) (n : Z) :
  readNonce s n = true -> readNonce (afterAll cs s) n = true.
Proof.
  revert s. induction cs as [|c cs IH]; intros s Hn; [done|].
  cbn [afterAll]. by apply IH, readNonce_after.
Qed.

Lemma consumed_fresh (c : VerifierCall) (s : TEEVerifier.t) (n : Z) :
  consumed c s = Some n ->
  readNonce s n = false /\ readNonce (after c s) n = true.
Proof.
  destruct c as [sender e|h sig|h sig m]; cbn [consumed after]; try done.
  unfold verifyAndConsumeNonce. destruct (readNonce s m) eqn:Hm; [done|].
  destruct (recover _ _) as [a|]; [|done]. destruct (negb _); [done|].
  cbn [fst snd]. intros [= <-]. split; [done|].
  unfold readNonce. cbn [TEEVerifier.usedNonces]. by rewrite lookup_insert_eq.
Qed.

Lemma consumedAll_fresh (cs : list VerifierCall) (s : TEEVerifier.t) (n : Z) :
  n ∈ consumedAll cs s ->
  readNonce s n = false /\ readNonce (afterAll cs s) n = true.
Proof.
  revert s. induction cs as [|c cs IH]; intros s; cbn [consumedAll afterAll].
  - by intros ?%elem_of_nil.
  - intros [Hin|Hin]%elem_of_app.
    + destruct (consumed c s) as [m|] eqn:Hc; cbn [from_option] in Hin;
        [|by apply elem_of_nil in Hin].
      apply list_elem_of_singleton in Hin as ->.
      destruct (consumed_fresh c s m Hc) as [Hf Hu]. split; [done|].
      by apply readNonce_afterAll.
    + destruct (IH _ Hin) as [Hf Hu]. split; [|done].
      destruct (readNonce s n) eqn:Hs; [|done].
      by rewrite (readNonce_after c s n Hs) in Hf.
Qed.

(** X30.  TEEVerifier never accepts a nonce twice.  Along any sequence of
    calls on the contract, by whatever callers and whatever the owner does
    with [setTrustedEnclave] in between, the nonces that
    [verifyAndConsumeNonce] accepted are pairwise different, none of them was
    marked used at the start, and every nonce marked used at some point, at
    the start or by an accepted call, is still marked used at the end. *)
Theorem nonce_never_replayed (cs : list VerifierCall) (s : TEEVerifier.t) :
  NoDup (consumedAll cs s)
  /\ (forall n, n ∈ consumedAll cs s ->
        readNonce s n = false /\ readNonce (afterAll cs s) n = true)
  /\ (forall n, readNonce s n = true -> readNonce (afterAll cs s) n = true).
Proof.
  split; [|split; [apply consumedAll_fresh|apply readNonce_afterAll]].
  revert s. induction cs as [|c cs IH]; intros s; cbn [consumedAll].
  - constructor.
  - apply NoDup_app. split; [|split; [|apply IH]].
    + destruct (consumed c s); cbn [from_option];
        [apply NoDup_singleton|constructor].
    + intros n Hn Hin. destruct (consumed c s) as [m|] eqn:Hc;
        cbn [from_option] in Hn; [|by apply elem_of_nil in Hn].
      apply list_elem_of_singleton in Hn as ->.
      destruct (consumed_fresh c s m Hc) as [_ Hu].
      destruct (consumedAll_fresh cs (after c s) m Hin) as [Hf _]. congruence.
Qed.

End WithEcdsa.
End ContractFacts.

(** ** Worked examples *)

Module Examples.
Import RoundState Game LifecycleFacts NonceFacts AuditFacts MerkleFacts GuessFacts.
Import Pricing PricingFacts TierFacts PoolFacts.
Import Scoring ScoringFacts HintResult.
Import BracketFacts HintFacts TargetFacts CommitmentFacts LedgerFacts.
Import RoundFacts RunFacts Routes RouteFacts.
Import Solidity ContractFacts.
Import OverlapFacts TamperFacts.

(** A small platform to run the engine on.  The digest of a byte string is
    its first 32 bytes (zero-padded); the JSON text of a payload lists its
    keys; [BigInt] accepts plain decimal numerals only; every string is taken
    as an address and every key opens the same wallet.  None of the statements below depends on these choices beyond
    what is said there. *)
Definition exampleWallet : Wallet :=
  {| address := "0xenclave"; signMessage := fun b => hexlify b |}.

Definition examplePlatform : Platform :=
  {| keccak256 := fun b => take 32 (b ++ ZERO_HASH);
     JSON_stringify := fun kvs => String.concat "," (map fst kvs);
     BigInt_literal := fun _ => None;
     getAddress := fun a => Some (take 20 (list_byte_of_string a ++ repeat Byte.x00 20));
     Wallet_new := fun _ => Some exampleWallet;
     Wallet_fromPhrase := fun _ => Some exampleWallet |}.

Definition exampleClock (k : nat) : N := (1700000000000 + N.of_nat k)%N.

Lemma calculateDistance_bulls_cows_witness :
  exists h, calculateDistance (H:=examplePlatform) "123456789012" "210000000000" DEFAULT_PRICING_CONFIG
            = Ok h
    /\ (digitsInPlace h + digitsCorrect h <= 12)%nat
    /\ (digitsInPlace h = 12%nat <-> "123456789012" = "210000000000")
    /\ (isExactMatch h = true <-> "123456789012" = "210000000000")
    /\ ("123456789012" = "210000000000" ->
        digitsInPlace h = 12%nat /\ digitsCorrect h = 0%nat).
Proof. apply (calculateDistance_bulls_cows (H:=examplePlatform)); reflexivity. Defined.

Lemma calculateDistance_numericDistance_witness :
  exists h h',
    calculateDistance (H:=examplePlatform) "000000000001" "000000000002" DEFAULT_PRICING_CONFIG = Ok h
    /\ calculateDistance (H:=examplePlatform) "000000000002" "000000000001" DEFAULT_PRICING_CONFIG = Ok h'
    /\ numericDistance h = Z.abs (valueOf "000000000001" - valueOf "000000000002")
    /\ numericDistance h' = numericDistance h
    /\ (numericDistance h = 0 <-> "000000000001" = "000000000002")
    /\ 0 <= numericDistance h <= 999999999999
    /\ (exists m, calculateDistance (H:=examplePlatform) "000000000000" "999999999999"
                    DEFAULT_PRICING_CONFIG = Ok m
                  /\ numericDistance m = 999999999999).
Proof.
  apply (calculateDistance_numericDistance (H:=examplePlatform)); reflexivity.
Defined.

Lemma calculateDistance_swap_witness :
  exists h h',
    calculateDistance (H:=examplePlatform) "111222333444" "112233444333" DEFAULT_PRICING_CONFIG = Ok h
    /\ calculateDistance (H:=examplePlatform) "112233444333" "111222333444" DEFAULT_PRICING_CONFIG = Ok h'
    /\ digitsInPlace h' = digitsInPlace h
    /\ digitsCorrect h' = digitsCorrect h.
Proof. apply (calculateDistance_swap (H:=examplePlatform)); reflexivity. Defined.

(** Eight random bytes whose value is 500: the target is "000000000500". *)
Definition seed500 : list byte :=
  [Byte.x00; Byte.x00; Byte.x00; Byte.x00; Byte.x00; Byte.x00; Byte.x01; Byte.xf4].

Definition player1 : string := "0x1234567890123456789012345678901234567890".

(** The engine after [initSigner] and one [startNewRound(baseBuyIn)]. *)
Definition startedWith (baseBuyIn : Z) : State :=
  snd (startNewRound (H:=examplePlatform) baseBuyIn "round-1" seed500 []
         (snd (Crypto.initSigner (H:=examplePlatform) "key"
                 (initialState exampleClock)))).

(** C1 (defect in the code).  The claim says that an escalating guess sets
    [currentBuyIn] to the round's own [baseBuyIn] times the multiplier of the
    new tier.  [processGuess] calls [computeBuyIn] with the default
    configuration, so the product is taken with that configuration's
    [baseBuyIn] (10^16): in a round started with base 5, a guess at distance
    500 (tier Warm, multiplier 2) sets [currentBuyIn] to 2 * 10^16, not 10. *)
Theorem escalation_ignores_round_baseBuyIn :
  let st := startedWith 5 in
  let out := processGuess (H:=examplePlatform) "round-1" player1 "000000000000" 5 st in
  (target <$> rounds st !! "round-1") = Some "000000000500"
  /\ (RoundState.baseBuyIn <$> rounds st !! "round-1") = Some 5
  /\ (currentTier <$> rounds st !! "round-1") = Some Base
  /\ match fst out with
     | Ok res =>
         HintResult.numericDistance (hint res) = 500
         /\ HintResult.priceTier (hint res) = Warm
         /\ (SignedPriceUpdate.newBuyIn <$> priceUpdate res)
            = Some "20000000000000000"
     | Throw _ => False
     end
  /\ (currentTier <$> rounds (snd out) !! "round-1") = Some Warm
  /\ (currentBuyIn <$> rounds (snd out) !! "round-1") = Some 20000000000000000
  /\ 5 * Pricing.getMultiplier Warm DEFAULT_PRICING_CONFIG = 10.
Proof. vm_compute. repeat split. Qed.

(** C2 (defect in the code).  The claim says that [currentBuyIn] never goes
    down.  Because escalation prices from the default base (see C1), in a
    round started with base 10^17 the first escalating guess lowers
    [currentBuyIn] from 10^17 to 2 * 10^16, while the tier goes up from Base
    to Warm. *)
Theorem escalation_can_lower_currentBuyIn :
  let st := startedWith 100000000000000000 in
  let st' := snd (processGuess (H:=examplePlatform) "round-1" player1
                    "000000000000" 100000000000000000 st) in
  (currentBuyIn <$> rounds st !! "round-1") = Some 100000000000000000
  /\ (currentTier <$> rounds st !! "round-1") = Some Base
  /\ (currentBuyIn <$> rounds st' !! "round-1") = Some 20000000000000000
  /\ (currentTier <$> rounds st' !! "round-1") = Some Warm
  /\ 20000000000000000 < 100000000000000000.
Proof. vm_compute. repeat split. Qed.

(** The claim C5 as first stated promises an unchanged round after every
    failure.  It fails when the signer was never initialised:
    [startNewRound] registers the round before it throws, and a guess against
    that round is recorded, paid into the pool and logged before [signHint]
    throws. *)
Lemma processGuess_fails_after_recording :
  let st := snd (startNewRound (H:=examplePlatform) 100 "round-1" seed500 []
                   (initialState exampleClock)) in
  let out := processGuess (H:=examplePlatform) "round-1" player1 "000000000000" 100 st in
  (pool <$> rounds st !! "round-1") = Some 0
  /\ (length ∘ guesses <$> rounds st !! "round-1") = Some 0%nat
  /\ length (trailEntries st "round-1") = 0%nat
  /\ fst out = Throw SignerNotInitialized
  /\ (pool <$> rounds (snd out) !! "round-1") = Some 100
  /\ (length ∘ guesses <$> rounds (snd out) !! "round-1") = Some 1%nat
  /\ length (trailEntries (snd out) "round-1") = 2%nat.
Proof. vm_compute. repeat split. Qed.

Lemma processGuess_validation_witness :
  processGuess (H:=examplePlatform) "round-1" player1 "000000000000" 4
    (startedWith 5)
  = (Throw InsufficientBuyIn, startedWith 5).
Proof.
  refine (proj1 (proj2 (proj2
    (processGuess_validation (H:=examplePlatform) "round-1" player1
       "000000000000" 4 (startedWith 5)))) _ _ _ _).
  - vm_compute. reflexivity.
  - reflexivity.
  - reflexivity.
Defined.

(** The claim C9 as first stated promises that a nonce is never issued
    twice.  It fails across an initialisation of the signer, which resets the
    counter: the value 0 is issued before and after. *)
Lemma nonce_reissued_after_initSigner :
  let st1 := snd (Crypto.initSigner (H:=examplePlatform) "key"
                    (initialState exampleClock)) in
  let first := Crypto.getNextNonce st1 in
  let st2 := snd (Crypto.initSigner (H:=examplePlatform) "key" (snd first)) in
  fst first = Ok 0 /\ nonceCounter (snd first) = 1
  /\ fst (Crypto.getNextNonce st2) = Ok 0.
Proof. vm_compute. repeat split. Qed.

(** A round that is started, won by the first guess, and guessed at again. *)
Definition exampleCalls : list Call :=
  [ InitSigner "key";
    StartNewRound 10 "round-1" seed500 [];
    ProcessGuess "round-1" player1 "000000000500" 10;
    ProcessGuess "round-1" player1 "000000000500" 10 ].

Lemma round_completes_once_witness :
  (transitionsToCompleted "round-1"
     (states (H:=examplePlatform) exampleCalls (initialState exampleClock)) <= 1)%nat.
Proof.
  apply (proj1 (round_completes_once (H:=examplePlatform) exampleClock
                  exampleCalls "round-1")).
  vm_compute. reflexivity.
Defined.

Lemma determinePriceTier_monotone_witness :
  tierIndex (determinePriceTier 500 DEFAULT_PRICING_CONFIG)
  <= tierIndex (determinePriceTier 5 DEFAULT_PRICING_CONFIG).
Proof. apply determinePriceTier_monotone. lia. Defined.

(** The round of [exampleCalls] before and after its first guess. *)
Definition beforeGuess : State := startedWith 10.

Definition afterGuess : State :=
  snd (processGuess (H:=examplePlatform) "round-1" player1 "000000000500" 10
         beforeGuess).

Lemma currentTier_never_decreases_witness :
  exists ri, rounds beforeGuess !! "round-1" = Some ri
    /\ exists rj, rounds afterGuess !! "round-1" = Some rj
         /\ tierIndex (currentTier ri) <= tierIndex (currentTier rj).
Proof.
  eexists. split; [vm_compute; reflexivity|].
  apply (currentTier_never_decreases (H:=examplePlatform) exampleCalls
           (initialState exampleClock) 2 3 beforeGuess afterGuess "round-1").
  - vm_compute. reflexivity.
  - reflexivity.
  - reflexivity.
  - lia.
  - vm_compute. reflexivity.
Defined.


Definition twoAppends : State :=
  snd (addAuditEntries (H:=examplePlatform) "round-1"
         [(RoundStart, []); (Guess, [])] (initialState exampleClock)).


(** The same trail with its two entries in the other order. *)
Definition twoAppendsSwapped : State :=
  set_trails (alter (fun trail =>
    AuditTrail.mk (AuditTrail.roundId trail) (reverse (AuditTrail.entries trail))
                  None) "round-1") twoAppends.

Lemma computeMerkleRoot_spec_witness :
  fst (Audit.computeMerkleRoot (H:=examplePlatform) "round-1" twoAppends)
  = Ok (specMerkleRoot (H:=examplePlatform)
          (map AuditEntry.hash (trailEntries twoAppends "round-1")))
  /\ (fst (Audit.computeMerkleRoot (H:=examplePlatform) "round-1" twoAppendsSwapped)
       = fst (Audit.computeMerkleRoot (H:=examplePlatform) "round-1" twoAppends)
       -> False).
Proof.
  pose proof (computeMerkleRoot_spec (H:=examplePlatform) "round-1" twoAppends)
    as (_ & Hspec & _ & Hswap).
  split.
  - apply Hspec. vm_compute. discriminate.
  - apply (Hswap twoAppendsSwapped 0%nat 1%nat
             (bigEndian 32 0) (bigEndian 32 1)).
    + vm_compute. reflexivity.
    + vm_compute. reflexivity.
    + apply (bool_decide_eq_false_1 (bigEndian 32 0 = bigEndian 32 1)).
      vm_compute. reflexivity.
    + vm_compute. reflexivity.
    + vm_compute. reflexivity.
Defined.

Definition callsWithoutInit : list Call :=
  [ ProcessGuess "round-1" player1 "000000000000" 5;
    GetSignedAuditRoot "round-1";
    StartNewRound 5 "round-2" seed500 [];
    ProcessGuess "round-2" player1 "000000000500" 5 ].

Lemma nonces_between_initialisations_witness :
  StronglySorted Z.lt (issuedAll (H:=examplePlatform) callsWithoutInit (startedWith 5)).
Proof.
  refine (proj1 (proj1 (proj2 (proj2
    (nonces_between_initialisations (H:=examplePlatform))))
    callsWithoutInit (startedWith 5) _ _)).
  - reflexivity.
  - vm_compute. reflexivity.
Defined.

Lemma computeBuyIn_default_antitone_witness :
  exists v1 v2,
    computeBuyIn 5 DEFAULT_PRICING_CONFIG = Ok v1
    /\ computeBuyIn 500 DEFAULT_PRICING_CONFIG = Ok v2
    /\ 10000000000000000 <= v2 <= v1 /\ v1 <= 100000000000000000.
Proof. apply computeBuyIn_default_antitone. lia. Defined.

Lemma calculateDistance_shared_digits_witness :
  exists h, calculateDistance (H:=examplePlatform) "123456789012" "210987654321"
              DEFAULT_PRICING_CONFIG = Ok h
    /\ (digitsInPlace h + digitsCorrect h)%nat
       = sharedDigits "123456789012" "210987654321".
Proof.
  apply (calculateDistance_shared_digits (H:=examplePlatform)); reflexivity.
Defined.

Lemma calculateDistance_triangle_witness :
  exists hab hbc hac,
    calculateDistance (H:=examplePlatform) "000000000100" "000000000500"
      DEFAULT_PRICING_CONFIG = Ok hab
    /\ calculateDistance (H:=examplePlatform) "000000000500" "000000000300"
         DEFAULT_PRICING_CONFIG = Ok hbc
    /\ calculateDistance (H:=examplePlatform) "000000000100" "000000000300"
         DEFAULT_PRICING_CONFIG = Ok hac
    /\ numericDistance hac <= numericDistance hab + numericDistance hbc.
Proof.
  apply (calculateDistance_triangle (H:=examplePlatform)); reflexivity.
Defined.

Lemma BigInt_toString_witness :
  BigInt (H:=examplePlatform) (toString 10000000000000000)
  = Some 10000000000000000.
Proof.
  apply (proj1 (BigInt_toString (H:=examplePlatform) 10000000000000000
                  ltac:(lia))).
Defined.

Lemma generateTarget_valid_witness :
  isDecimal12 (fst (Crypto.generateTarget seed500 [])) = true.
Proof.
  pose proof (generateTarget_valid (H:=examplePlatform) seed500 []
                DEFAULT_PRICING_CONFIG eq_refl) as Hv.
  destruct (Crypto.generateTarget seed500 []) as [target salt].
  exact (proj1 Hv).
Defined.

Lemma computeCommitment_binding_witness :
  ("000000000500" = "000000000500" /\ "round-1" = "round-1"
   /\ ZERO_HASH = ZERO_HASH)
  \/ exists b1 b2 : list byte,
       b1 <> b2
       /\ keccak256 (Platform:=examplePlatform) b1
          = keccak256 (Platform:=examplePlatform) b2.
Proof.
  apply (computeCommitment_binding (H:=examplePlatform)
           "000000000500" "000000000500" "round-1" "round-1"
           ZERO_HASH ZERO_HASH); reflexivity.
Defined.

Lemma signStartRound_is_signAuditRoot_witness :
  Crypto.signStartRound (H:=examplePlatform) "round-1" ZERO_HASH
    (Z.of_nat 3) 0 (startedWith 10)
  = Crypto.signAuditRoot (H:=examplePlatform) "round-1" ZERO_HASH 3 0
      (startedWith 10).
Proof.
  apply (signStartRound_is_signAuditRoot (H:=examplePlatform)).
  unfold MAX_SAFE_INTEGER. lia.
Defined.


Lemma ledger_append_only_witness :
  trailEntries beforeGuess "round-1" `prefix_of` trailEntries afterGuess "round-1".
Proof.
  apply (ledger_append_only (H:=examplePlatform) exampleCalls
           (initialState exampleClock) 2 3 beforeGuess afterGuess "round-1").
  - reflexivity.
  - reflexivity.
  - lia.
Defined.

(** The engine after a round start and one computation of the Merkle root. *)
Definition rootCalls : list Call :=
  [ InitSigner "key";
    StartNewRound 10 "round-1" seed500 [];
    ComputeMerkleRoot "round-1" ].

Definition afterRoot : State :=
  snd (Audit.computeMerkleRoot (H:=examplePlatform) "round-1" beforeGuess).



Lemma winner_guessed_the_target_witness :
  exists r gs g,
    rounds afterGuess !! "round-1" = Some r
    /\ guesses r = gs ++ [g]
    /\ GuessRecord.guess g = target r
    /\ winner r = Some (GuessRecord.player g)
    /\ isExactMatch (GuessRecord.hint g) = true
    /\ numericDistance (GuessRecord.hint g) = 0.
Proof.
  assert (Hin : afterGuess ∈ states (H:=examplePlatform) exampleCalls
                               (initialState exampleClock)).
  { apply list_elem_of_lookup. exists 3%nat. reflexivity. }
  pose proof (winner_guessed_the_target (H:=examplePlatform) exampleClock
                exampleCalls afterGuess "round-1" _ Hin
                ltac:(vm_compute; reflexivity) ltac:(reflexivity)) as (gs&g&Hg).
  eexists _, gs, g. split; [vm_compute; reflexivity|exact Hg].
Defined.


Lemma round_history_only_grows_witness :
  exists ri rj,
    rounds beforeGuess !! "round-1" = Some ri
    /\ rounds afterGuess !! "round-1" = Some rj
    /\ target rj = target ri
    /\ guesses ri `prefix_of` guesses rj.
Proof.
  destruct (round_history_only_grows (H:=examplePlatform) exampleCalls
              (initialState exampleClock) 2 3 beforeGuess afterGuess "round-1" _
              eq_refl eq_refl eq_refl ltac:(lia) eq_refl)
    as (rj&Hrj&_&Ht&_&_&_&_&Hg&_).
  eexists _, rj. split; [reflexivity|]. split; [exact Hrj|].
  split; [exact Ht|exact Hg].
Defined.

Lemma processGuess_returns_witness :
  exists res st',
    processGuess (H:=examplePlatform) "round-1" player1 "000000000777" 10
      beforeGuess = (Ok res, st')
    /\ is_Some (priceUpdate res)
    /\ ~ is_Some (winnerDeclaration res)
    /\ map AuditEntry.type (trailEntries st' "round-1")
       = [RoundStart; Guess; Hint; PriceChange].
Proof.
  destruct (processGuess_returns (H:=examplePlatform) exampleWallet "round-1"
              player1 "000000000777" _ 10 _ beforeGuess
              eq_refl eq_refl eq_refl ltac:(simpl; lia) eq_refl eq_refl eq_refl
              ltac:(vm_compute; split; discriminate))
    as (res&st'&r'&h&E&Hh&_&Hw&Hp&_&_&Ht&_).
  exists res, st'. split; [exact E|].
  injection Hh as <-.
  split; [apply Hp; reflexivity|]. split; [|exact Ht].
  intros Hn. apply Hw in Hn. discriminate Hn.
Defined.

(** A well-formed body for POST /guess on the round of [exampleCalls]. *)
Definition exampleBody : Body :=
  <["roundId" := JString "round-1"]>
    (<["guess" := JString "000000000777"]>
       (<["player" := JString player1]>
          (<["txHash" := JString
               "0x0000000000000000000000000000000000000000000000000000000000000001"]>
             ∅))).

Lemma postGuess_reply_witness :
  exists reply st' r',
    postGuess (H:=examplePlatform) exampleBody beforeGuess = (reply, st')
    /\ rounds st' !! "round-1" = Some r'
    /\ pool r' = 10.
Proof.
  assert (Hin : beforeGuess ∈ states (H:=examplePlatform) exampleCalls
                                (initialState exampleClock)).
  { apply list_elem_of_lookup. exists 2%nat. reflexivity. }
  pose proof (postGuess_reply (H:=examplePlatform) exampleClock exampleCalls
                beforeGuess exampleBody Hin
                ltac:(vm_compute; split; discriminate)) as Hw.
  eassert (Hq : GuessRequestSchema_parse exampleBody = Some _)
    by (vm_compute; reflexivity).
  rewrite Hq in Hw. cbv zeta in Hw.
  cbn [GuessRequest.roundId GuessRequest.guess GuessRequest.player] in Hw.
  eassert (Hr : rounds beforeGuess !! "round-1" = Some _)
    by (vm_compute; reflexivity).
  rewrite Hr in Hw. cbn [status] in Hw.
  destruct Hw as (h&reply&st'&r'&_&E&Hr'&_&Hp&_).
  exists reply, st', r'. split; [exact E|]. split; [exact Hr'|exact Hp].
Defined.

Lemma uint256ToString_decimal_witness :
  _uint256ToString 1234567890 = Return "1234567890"%string.
Proof.
  apply (uint256ToString_decimal 1234567890). unfold MAX_UINT256. lia.
Defined.

(** Thirty-two random bytes, for the salt. *)
Definition salt32 : list byte := repeat Byte.x5a 32.

Definition player2 : string := "0xabcdefabcdefabcdefabcdefabcdefabcdefabcd".

(** Two players send the target at once: both calls are made before either
    resumes, and from then on they take turns, each running from one await
    to its next.  Promise 0 is that of [initSigner], promise 1 that of
    [startNewRound], promises 2 and 3 those of the two guesses. *)
Definition overlappingGuesses : list Event :=
  [Invoke (InitSigner "key");
   Invoke (StartNewRound 10 "round-1" seed500 salt32);
   Resume 1;
   Invoke (ProcessGuess "round-1" player1 "000000000500" 10);
   Invoke (ProcessGuess "round-1" player2 "000000000500" 10);
   Resume 2; Resume 3; Resume 2; Resume 3; Resume 2].

(** The world after the first [n] events of [overlappingGuesses], and the
    round in it. *)
Definition overlapAfter (n : nat) : World :=
  after (H:=examplePlatform) (take n overlappingGuesses)
    (initialWorld exampleClock).

Definition roundAfter (n : nat) : option RoundState.t :=
  rounds (engine (overlapAfter n)) !! "round-1".

Definition declaredWinner (p : option Promise) : option string :=
  match p with
  | Some (Fulfilled (GuessAnswer res)) =>
      SignedWinnerDeclaration.winner <$> winnerDeclaration res
  | _ => None
  end.

(** The claim C6 as first stated promises that once a round is Completed
    every further guess against it fails with RoundNotActive and leaves the
    round as it was.  It fails for a guess that is in flight when the round
    completes.  Both guesses pass the status check while the round is
    Active.  The first one escalates the price and awaits a second time, so
    the second one completes the round first, in favour of [player2].  The
    first one then resumes, on a Completed round: it is not rejected, it
    writes [player1] as winner and a later end time, and it returns a signed
    winner declaration as the second did. *)
Lemma in_flight_guess_rewrites_winner :
  freshUUIDs (H:=examplePlatform) overlappingGuesses (initialWorld exampleClock)
  = true
  /\ (status <$> roundAfter 5) = Some Active
  /\ (status <$> roundAfter 7) = Some Completed
  /\ (winner <$> roundAfter 7) = Some (Some player2)
  /\ (endTimestamp <$> roundAfter 7) = Some (Some 1700000000008%N)
  /\ (status <$> roundAfter 8) = Some Completed
  /\ (winner <$> roundAfter 8) = Some (Some player1)
  /\ (endTimestamp <$> roundAfter 8) = Some (Some 1700000000010%N)
  /\ declaredWinner (promises (overlapAfter 10) !! 2%nat) = Some player1
  /\ declaredWinner (promises (overlapAfter 10) !! 3%nat) = Some player2.
Proof. vm_compute. repeat split. Qed.

Lemma round_completes_once_under_overlap_witness :
  (transitionsToCompleted "round-1"
     (engine <$> worlds (H:=examplePlatform) overlappingGuesses
                   (initialWorld exampleClock)) <= 1)%nat.
Proof.
  apply (proj1 (round_completes_once_under_overlap (H:=examplePlatform)
                  exampleClock overlappingGuesses "round-1"
                  ltac:(vm_compute; reflexivity))).
Defined.

Lemma winner_guessed_target_under_overlap_witness :
  exists r p g,
    roundAfter 10 = Some r
    /\ winner r = Some p
    /\ g ∈ guesses r
    /\ GuessRecord.player g = p
    /\ GuessRecord.guess g = target r.
Proof.
  assert (Hin : overlapAfter 10 ∈ worlds (H:=examplePlatform) overlappingGuesses
                                    (initialWorld exampleClock)).
  { apply list_elem_of_lookup. exists 10%nat. apply worlds_lookup. cbn. lia. }
  pose proof (winner_guessed_target_under_overlap (H:=examplePlatform)
                exampleClock overlappingGuesses (overlapAfter 10) "round-1" _
                ltac:(vm_compute; reflexivity) Hin
                ltac:(vm_compute; reflexivity) ltac:(reflexivity))
    as (p&g&Hp&Hg&Hpl&Hgt&_).
  eexists _, p, g. split; [vm_compute; reflexivity|].
  exact (conj Hp (conj Hg (conj Hpl Hgt))).
Defined.

Lemma round_history_grows_under_overlap_witness :
  exists ri rj,
    roundAfter 5 = Some ri /\ roundAfter 10 = Some rj
    /\ target rj = target ri
    /\ guesses ri `prefix_of` guesses rj.
Proof.
  destruct (round_history_grows_under_overlap (H:=examplePlatform)
              exampleClock overlappingGuesses 5 10 (overlapAfter 5)
              (overlapAfter 10) "round-1" _
              ltac:(vm_compute; reflexivity)
              (worlds_lookup (H:=examplePlatform) overlappingGuesses (initialWorld exampleClock) 5 ltac:(cbn; lia))
              (worlds_lookup (H:=examplePlatform) overlappingGuesses (initialWorld exampleClock) 10 ltac:(cbn; lia)) ltac:(lia)
              ltac:(vm_compute; reflexivity))
    as (rj&Hrj&_&Ht&_&_&_&_&Hg&_).
  eexists _, rj. split; [vm_compute; reflexivity|]. split; [exact Hrj|].
  split; [exact Ht|exact Hg].
Defined.

(** The engine after [initSigner] alone. *)
Definition initialised : State :=
  snd (Crypto.initSigner (H:=examplePlatform) "key" (initialState exampleClock)).

Lemma startNewRound_result_witness :
  exists res st',
    startNewRound (H:=examplePlatform) 10 "round-1" seed500 salt32 initialised
    = (Ok res, st')
    /\ SignedStartRound.nonce (signedStartRound res) = 0
    /\ activeRoundId st' = Some "round-1"%string.
Proof.
  destruct (startNewRound_result (H:=examplePlatform) 10 "round-1" seed500
              salt32 initialised eq_refl) as (c&_&Hres).
  cbv zeta in Hres.
  assert (Hs : signer initialised = Some exampleWallet) by reflexivity.
  rewrite Hs in Hres.
  assert (Hb : isUint256 10 && isSafeUint (nonceCounter initialised) = true)
    by reflexivity.
  rewrite Hb in Hres. destruct Hres as (res&st'&E&_&Hn&_&_&Ha&_).
  exists res, st'. split; [exact E|]. split; [exact Hn|exact Ha].
Defined.

End Examples.
